(** * A shallow embedding of the pixel-organism simulation engine

    The development follows [src/simulation.ts] function by function.

    Numbers.  JavaScript numbers that hold integers (grid codes, ids,
    coordinates, hit-points, counters, time-to-live) are values of [Z];
    numbers that hold real quantities (energy, stamina, hunger, the
    environment pool, the real-valued parameters) are exact rationals [Q],
    so every statement about them is a statement about the real-valued
    quantity the program computes, not about IEEE rounding.  The typed
    arrays keep their width: a write to the [Uint16Array] of hit-points wraps
    modulo [2^16], the bit operations of the priority key and of the hash are
    32-bit.

    Containers.  A JS [Map] iterates in insertion order and the engine
    depends on it (first adjacent food cell, first invalid proposal), so
    maps are keyed lists in insertion order; a [Set] that is only queried
    is a [gset].  The string key of a coordinate is the pair of its
    components.

    Effects.  The simulation object is a record threaded through every
    operation; [Math.random()] reads the next value of an oracle and
    advances a counter; [Math.pow] is a parameter. *)

From Stdlib Require Import ZArith QArith Qround Qminmax Lqa Lia.
From stdpp Require Import base list gmap.
Local Open Scope Z_scope.

(** ** Numbers *)

Definition Qltb (a b : Q) : bool := negb (Qle_bool b a).
Definition Qleb (a b : Q) : bool := Qle_bool a b.

(** [ToInt32], [ToUint32] and [ToUint16] of an integer-valued number. *)
Definition toInt32 (z : Z) : Z := (z + 2 ^ 31) mod 2 ^ 32 - 2 ^ 31.
Definition toUint32 (z : Z) : Z := z mod 2 ^ 32.
Definition toUint16 (z : Z) : Z := z mod 2 ^ 16.

(** The double nearest to an integer (ties to even): a product of two
    integers is this rounding of the exact product. *)
Definition f64int (z : Z) : Z :=
  let a := Z.abs z in
  if a <? 2 ^ 53 then z
  else
    let e := Z.log2 a - 52 in
    let q := Z.shiftr a e in
    let r := a - Z.shiftl q e in
    let half := 2 ^ (e - 1) in
    let q' := if (half <? r) || ((r =? half) && Z.odd q) then q + 1 else q in
    Z.sgn z * Z.shiftl q' e.

Definition shl32 (a n : Z) : Z := toInt32 (Z.shiftl (toInt32 a) (n mod 32)).
Definition or32 (a b : Z) : Z := Z.lor (toInt32 a) (toInt32 b).
Definition xor32 (a b : Z) : Z := Z.lxor (toInt32 a) (toInt32 b).
Definition and32 (a b : Z) : Z := Z.land (toInt32 a) (toInt32 b).

(** ** Keyed lists: a JS [Map] in insertion order *)

Section KeyedList.
Context {K E : Type} `{EqDecision K} (key : E -> K).

Fixpoint kget (k : K) (l : list E) : option E :=
  match l with
  | [] => None
  | e :: l' => if decide (key e = k) then Some e else kget k l'
  end.

Definition khas (k : K) (l : list E) : bool :=
  match kget k l with Some _ => true | None => false end.

(** [m.set(k, e)]: an existing key keeps its place, a new one goes last. *)
Fixpoint kset (e : E) (l : list E) : list E :=
  match l with
  | [] => [e]
  | e' :: l' => if decide (key e' = key e) then e :: l' else e' :: kset e l'
  end.

(** [m.delete(k)]: nothing is left under [k]. *)
Definition kdelete (k : K) (l : list E) : list E :=
  filter (fun e => key e <> k) l.

(** A field assignment on the object stored under [k]. *)
Fixpoint kupdate (k : K) (f : E -> E) (l : list E) : list E :=
  match l with
  | [] => []
  | e :: l' => if decide (key e = k) then f e :: l' else e :: kupdate k f l'
  end.
End KeyedList.

(** ** Typed arrays *)

Definition arr_get (a : list Z) (i : Z) : option Z :=
  if decide (0 <= i) then a !! Z.to_nat i else None.

(** A write outside the array is ignored, as a typed array does. *)
Definition arr_set (a : list Z) (i v : Z) : list Z :=
  if decide (0 <= i) then <[Z.to_nat i := v]> a else a.

(** ** Data model *)

Definition Cell : Type := Z * Z.

Inductive BoundaryMode := wrap | closed.

Record SimulationParams := {
  c2 : Q;
  foodSpawnRate : Q;
  mutationRate : Q;
  reproductionThreshold : Q;
  maxMoveSpeed : Q;
  viewRadiusParam : Z;
  energyTransferRatio : Q;
  metabolismRate : Q;
  movementEnergyReserve : Q;
  movementEnergyCostMultiplier : Q;
  growthEnergyCost : Q;
  foodDecayTicks : Z;
  foodDecayReturnRatio : Q;
  attackEnergyCost : Q;
  absorbEnergyCost : Q;
  boundaryMode : BoundaryMode;
  movementEnergyCostExponent : Q;
  staminaMax : Q;
  staminaRecoveryPerTick : Q;
  staminaDrainPerStep : Q;
  terrainEnabled : bool;
  terrainObstacleDensity : Q;
  terrainSmoothingSteps : Q
}.

Record DebugCounters := {
  moving : Z;
  growing : Z;
  attacking : Z;
  starving : Z
}.

Record Genome := {
  pattern : list Z;
  size : Z;
  totalCells : Z
}.

Record Organism := {
  id : Z;
  eyeX : Z;
  eyeY : Z;
  pixels : list (Cell * Z);
  energy : Q;
  moveSpeed : Z;
  viewRadius : Z;
  hunger : Q;
  direction : Z * Z;
  genome : Genome;
  growthStage : Z;
  speciesMask : Z;
  age : Z;
  stuckCounter : Z;
  stamina : Q;
  movedThisTick : bool
}.

Record Reservation := {
  res_id : Z;
  priority : Z
}.

Definition DIRECTIONS : list (Z * Z) :=
  [(-1, -1); (-1, 0); (-1, 1); (0, -1); (0, 1); (1, -1); (1, 0); (1, 1)].

(** The mutable fields of the [Simulation] object; [rngCalls] counts the
    calls to [Math.random()] made so far. *)
Record Simulation := {
  grid : list Z;
  pixelHP : list Z;
  organisms : list Organism;
  foodPixels : list (Cell * Z);
  reservations : list (Cell * Reservation);
  obstacleKeys : list Cell;
  nextID : Z;
  tick : Z;
  envEnergy : Q;
  debugCounters : DebugCounters;
  rngCalls : nat
}.

(** Field assignments. *)
Definition set_grid (g : list Z) (s : Simulation) : Simulation :=
  {| grid := g; pixelHP := pixelHP s; organisms := organisms s;
     foodPixels := foodPixels s; reservations := reservations s;
     obstacleKeys := obstacleKeys s; nextID := nextID s; tick := tick s;
     envEnergy := envEnergy s; debugCounters := debugCounters s;
     rngCalls := rngCalls s |}.
Definition set_pixelHP (h : list Z) (s : Simulation) : Simulation :=
  {| grid := grid s; pixelHP := h; organisms := organisms s;
     foodPixels := foodPixels s; reservations := reservations s;
     obstacleKeys := obstacleKeys s; nextID := nextID s; tick := tick s;
     envEnergy := envEnergy s; debugCounters := debugCounters s;
     rngCalls := rngCalls s |}.
Definition set_organisms (l : list Organism) (s : Simulation) : Simulation :=
  {| grid := grid s; pixelHP := pixelHP s; organisms := l;
     foodPixels := foodPixels s; reservations := reservations s;
     obstacleKeys := obstacleKeys s; nextID := nextID s; tick := tick s;
     envEnergy := envEnergy s; debugCounters := debugCounters s;
     rngCalls := rngCalls s |}.
Definition set_foodPixels (f : list (Cell * Z)) (s : Simulation) : Simulation :=
  {| grid := grid s; pixelHP := pixelHP s; organisms := organisms s;
     foodPixels := f; reservations := reservations s;
     obstacleKeys := obstacleKeys s; nextID := nextID s; tick := tick s;
     envEnergy := envEnergy s; debugCounters := debugCounters s;
     rngCalls := rngCalls s |}.
Definition set_reservations (r : list (Cell * Reservation)) (s : Simulation)
  : Simulation :=
  {| grid := grid s; pixelHP := pixelHP s; organisms := organisms s;
     foodPixels := foodPixels s; reservations := r;
     obstacleKeys := obstacleKeys s; nextID := nextID s; tick := tick s;
     envEnergy := envEnergy s; debugCounters := debugCounters s;
     rngCalls := rngCalls s |}.
Definition set_obstacleKeys (o : list Cell) (s : Simulation) : Simulation :=
  {| grid := grid s; pixelHP := pixelHP s; organisms := organisms s;
     foodPixels := foodPixels s; reservations := reservations s;
     obstacleKeys := o; nextID := nextID s; tick := tick s;
     envEnergy := envEnergy s; debugCounters := debugCounters s;
     rngCalls := rngCalls s |}.
Definition set_nextID (n : Z) (s : Simulation) : Simulation :=
  {| grid := grid s; pixelHP := pixelHP s; organisms := organisms s;
     foodPixels := foodPixels s; reservations := reservations s;
     obstacleKeys := obstacleKeys s; nextID := n; tick := tick s;
     envEnergy := envEnergy s; debugCounters := debugCounters s;
     rngCalls := rngCalls s |}.
Definition set_tick (n : Z) (s : Simulation) : Simulation :=
  {| grid := grid s; pixelHP := pixelHP s; organisms := organisms s;
     foodPixels := foodPixels s; reservations := reservations s;
     obstacleKeys := obstacleKeys s; nextID := nextID s; tick := n;
     envEnergy := envEnergy s; debugCounters := debugCounters s;
     rngCalls := rngCalls s |}.
Definition set_envEnergy (e : Q) (s : Simulation) : Simulation :=
  {| grid := grid s; pixelHP := pixelHP s; organisms := organisms s;
     foodPixels := foodPixels s; reservations := reservations s;
     obstacleKeys := obstacleKeys s; nextID := nextID s; tick := tick s;
     envEnergy := e; debugCounters := debugCounters s;
     rngCalls := rngCalls s |}.
Definition set_debugCounters (d : DebugCounters) (s : Simulation) : Simulation :=
  {| grid := grid s; pixelHP := pixelHP s; organisms := organisms s;
     foodPixels := foodPixels s; reservations := reservations s;
     obstacleKeys := obstacleKeys s; nextID := nextID s; tick := tick s;
     envEnergy := envEnergy s; debugCounters := d;
     rngCalls := rngCalls s |}.
Definition set_rngCalls (n : nat) (s : Simulation) : Simulation :=
  {| grid := grid s; pixelHP := pixelHP s; organisms := organisms s;
     foodPixels := foodPixels s; reservations := reservations s;
     obstacleKeys := obstacleKeys s; nextID := nextID s; tick := tick s;
     envEnergy := envEnergy s; debugCounters := debugCounters s;
     rngCalls := n |}.

Definition set_pixels (p : list (Cell * Z)) (o : Organism) : Organism :=
  {| id := id o; eyeX := eyeX o; eyeY := eyeY o; pixels := p;
     energy := energy o; moveSpeed := moveSpeed o; viewRadius := viewRadius o;
     hunger := hunger o; direction := direction o; genome := genome o;
     growthStage := growthStage o; speciesMask := speciesMask o; age := age o;
     stuckCounter := stuckCounter o; stamina := stamina o;
     movedThisTick := movedThisTick o |}.
Definition set_energy (e : Q) (o : Organism) : Organism :=
  {| id := id o; eyeX := eyeX o; eyeY := eyeY o; pixels := pixels o;
     energy := e; moveSpeed := moveSpeed o; viewRadius := viewRadius o;
     hunger := hunger o; direction := direction o; genome := genome o;
     growthStage := growthStage o; speciesMask := speciesMask o; age := age o;
     stuckCounter := stuckCounter o; stamina := stamina o;
     movedThisTick := movedThisTick o |}.
Definition set_eye (x y : Z) (o : Organism) : Organism :=
  {| id := id o; eyeX := x; eyeY := y; pixels := pixels o;
     energy := energy o; moveSpeed := moveSpeed o; viewRadius := viewRadius o;
     hunger := hunger o; direction := direction o; genome := genome o;
     growthStage := growthStage o; speciesMask := speciesMask o; age := age o;
     stuckCounter := stuckCounter o; stamina := stamina o;
     movedThisTick := movedThisTick o |}.
Definition set_moveSpeed (v : Z) (o : Organism) : Organism :=
  {| id := id o; eyeX := eyeX o; eyeY := eyeY o; pixels := pixels o;
     energy := energy o; moveSpeed := v; viewRadius := viewRadius o;
     hunger := hunger o; direction := direction o; genome := genome o;
     growthStage := growthStage o; speciesMask := speciesMask o; age := age o;
     stuckCounter := stuckCounter o; stamina := stamina o;
     movedThisTick := movedThisTick o |}.
Definition set_hunger (h : Q) (o : Organism) : Organism :=
  {| id := id o; eyeX := eyeX o; eyeY := eyeY o; pixels := pixels o;
     energy := energy o; moveSpeed := moveSpeed o; viewRadius := viewRadius o;
     hunger := h; direction := direction o; genome := genome o;
     growthStage := growthStage o; speciesMask := speciesMask o; age := age o;
     stuckCounter := stuckCounter o; stamina := stamina o;
     movedThisTick := movedThisTick o |}.
Definition set_direction (d : Z * Z) (o : Organism) : Organism :=
  {| id := id o; eyeX := eyeX o; eyeY := eyeY o; pixels := pixels o;
     energy := energy o; moveSpeed := moveSpeed o; viewRadius := viewRadius o;
     hunger := hunger o; direction := d; genome := genome o;
     growthStage := growthStage o; speciesMask := speciesMask o; age := age o;
     stuckCounter := stuckCounter o; stamina := stamina o;
     movedThisTick := movedThisTick o |}.
Definition set_growthStage (g : Z) (o : Organism) : Organism :=
  {| id := id o; eyeX := eyeX o; eyeY := eyeY o; pixels := pixels o;
     energy := energy o; moveSpeed := moveSpeed o; viewRadius := viewRadius o;
     hunger := hunger o; direction := direction o; genome := genome o;
     growthStage := g; speciesMask := speciesMask o; age := age o;
     stuckCounter := stuckCounter o; stamina := stamina o;
     movedThisTick := movedThisTick o |}.
Definition set_age (a : Z) (o : Organism) : Organism :=
  {| id := id o; eyeX := eyeX o; eyeY := eyeY o; pixels := pixels o;
     energy := energy o; moveSpeed := moveSpeed o; viewRadius := viewRadius o;
     hunger := hunger o; direction := direction o; genome := genome o;
     growthStage := growthStage o; speciesMask := speciesMask o; age := a;
     stuckCounter := stuckCounter o; stamina := stamina o;
     movedThisTick := movedThisTick o |}.
Definition set_stuckCounter (c : Z) (o : Organism) : Organism :=
  {| id := id o; eyeX := eyeX o; eyeY := eyeY o; pixels := pixels o;
     energy := energy o; moveSpeed := moveSpeed o; viewRadius := viewRadius o;
     hunger := hunger o; direction := direction o; genome := genome o;
     growthStage := growthStage o; speciesMask := speciesMask o; age := age o;
     stuckCounter := c; stamina := stamina o;
     movedThisTick := movedThisTick o |}.
Definition set_stamina (v : Q) (o : Organism) : Organism :=
  {| id := id o; eyeX := eyeX o; eyeY := eyeY o; pixels := pixels o;
     energy := energy o; moveSpeed := moveSpeed o; viewRadius := viewRadius o;
     hunger := hunger o; direction := direction o; genome := genome o;
     growthStage := growthStage o; speciesMask := speciesMask o; age := age o;
     stuckCounter := stuckCounter o; stamina := v;
     movedThisTick := movedThisTick o |}.
Definition set_movedThisTick (b : bool) (o : Organism) : Organism :=
  {| id := id o; eyeX := eyeX o; eyeY := eyeY o; pixels := pixels o;
     energy := energy o; moveSpeed := moveSpeed o; viewRadius := viewRadius o;
     hunger := hunger o; direction := direction o; genome := genome o;
     growthStage := growthStage o; speciesMask := speciesMask o; age := age o;
     stuckCounter := stuckCounter o; stamina := stamina o;
     movedThisTick := b |}.

(** A stable sort by a JS comparator ([Array.prototype.sort]). *)
Fixpoint sort_insert {A} (cmp : A -> A -> Z) (x : A) (l : list A) : list A :=
  match l with
  | [] => [x]
  | y :: l' => if cmp x y <? 0 then x :: y :: l' else y :: sort_insert cmp x l'
  end.

Definition sortBy {A} (cmp : A -> A -> Z) (l : list A) : list A :=
  fold_left (fun acc x => sort_insert cmp x acc) l [].

(** The first element of a list on which [f] answers. *)
Fixpoint firstSome {A B} (f : A -> option B) (l : list A) : option B :=
  match l with
  | [] => None
  | x :: l' => match f x with Some b => Some b | None => firstSome f l' end
  end.

(** The offsets of the two nested loops [dy = -1..1], [dx = -1..1]. *)
Definition around9 : list (Z * Z) :=
  flat_map (fun dy => map (fun dx => (dx, dy)) [-1; 0; 1]) [-1; 0; 1].

Definition around8 : list (Z * Z) :=
  filter (fun d => d <> (0, 0)) around9.

(** ** The engine *)

Section Engine.
Variable gridSize : Z.
Variable params : SimulationParams.
(** [Math.random()]: the value returned by the [n]-th call. *)
Variable rand : nat -> Q.
(** [Math.pow]. *)
Variable pow : Q -> Q -> Q.

Definition idx (x y : Z) : Z := y * gridSize + x.

Definition wrapCoord (value : Z) : Z :=
  let v := Z.rem value gridSize in
  if v <? 0 then v + gridSize else v.

Definition boundX (x : Z) : option Z :=
  match boundaryMode params with
  | wrap => Some (wrapCoord x)
  | closed => if (0 <=? x) && (x <? gridSize) then Some x else None
  end.

Definition boundY (y : Z) : option Z :=
  match boundaryMode params with
  | wrap => Some (wrapCoord y)
  | closed => if (0 <=? y) && (y <? gridSize) then Some y else None
  end.

Definition applyBoundary (x y : Z) : option Cell :=
  match boundX x, boundY y with
  | Some bx, Some by' => Some (bx, by')
  | _, _ => None
  end.

Definition neighbors8 (x y : Z) : list Cell :=
  omap (fun d => applyBoundary (x + d.1) (y + d.2)) around8.

Definition hash (tick0 x y id0 : Z) : Z :=
  toUint32
    (xor32
       (xor32
          (xor32 (f64int (tick0 * 73856093)) (f64int (x * 19349663)))
          (f64int (y * 83492791)))
       (f64int (id0 * 50331653))).

Definition random (s : Simulation) : Q * Simulation :=
  (rand (rngCalls s), set_rngCalls (S (rngCalls s)) s).

(** [DIRECTIONS[Math.floor(Math.random() * DIRECTIONS.length)]]; the
    index is in range because [Math.random()] is in [[0, 1)]. *)
Definition randomDirection (s : Simulation) : (Z * Z) * Simulation :=
  let '(r, s1) := random s in
  (default (0, 0) (DIRECTIONS !! Z.to_nat (Qfloor (r * 8))), s1).

(** Reads and writes of the two arrays.  A read of the grid outside the
    array is [undefined] ([None]); a read of the hit-points there behaves
    as [0] in every use the engine makes of it. *)
Definition gridAt (s : Simulation) (x y : Z) : option Z :=
  arr_get (grid s) (idx x y).

Definition hpAt (s : Simulation) (i : Z) : Z :=
  default 0 (arr_get (pixelHP s) i).

Definition write_grid (i v : Z) (s : Simulation) : Simulation :=
  set_grid (arr_set (grid s) i v) s.

Definition write_hp (i v : Z) (s : Simulation) : Simulation :=
  set_pixelHP (arr_set (pixelHP s) i (toUint16 v)) s.

(** The registry [organisms : Map<number, Organism>], keyed by [id]. *)
Definition get_org (i : Z) (s : Simulation) : option Organism :=
  kget id i (organisms s).

Definition update_org (i : Z) (f : Organism -> Organism) (s : Simulation)
  : Simulation :=
  set_organisms (kupdate id i f (organisms s)) s.

Definition pix_has (k : Cell) (o : Organism) : bool := khas fst k (pixels o).
Definition pix_size (o : Organism) : Z := Z.of_nat (length (pixels o)).
Definition pix_keys (o : Organism) : list Cell := map fst (pixels o).

(** *** generateGenome *)

Definition genome_neighbors (sz current : Z) (visited : gset Z) : list Z :=
  let y := current / sz in
  let x := current mod sz in
  omap (fun d =>
          let nx := x + d.1 in
          let ny := y + d.2 in
          if (0 <=? nx) && (nx <? sz) && (0 <=? ny) && (ny <? sz) then
            let nIdx := ny * sz + nx in
            if decide (nIdx ∈ visited) then None else Some nIdx
          else None) around8.

Record GenState := {
  g_pattern : list Z;
  g_placed : Z;
  g_queue : list Z;
  g_visited : gset Z
}.

Fixpoint genome_place (cellCount : Z) (ns : list Z) (g : GenState)
    (s : Simulation) : GenState * Simulation :=
  match ns with
  | [] => (g, s)
  | nIdx :: ns' =>
      if cellCount <=? g_placed g then (g, s)
      else
        let '(r, s1) := random s in
        if Qltb (4 # 10) r then
          genome_place cellCount ns'
            {| g_pattern := <[Z.to_nat nIdx := 1]> (g_pattern g);
               g_placed := g_placed g + 1;
               g_queue := g_queue g ++ [nIdx];
               g_visited := {[nIdx]} ∪ g_visited g |} s1
        else genome_place cellCount ns' g s1
  end.

Fixpoint genome_loop (fuel : nat) (sz cellCount : Z) (g : GenState)
    (s : Simulation) : GenState * Simulation :=
  match fuel with
  | O => (g, s)
  | S fuel' =>
      if g_placed g <? cellCount then
        match g_queue g with
        | [] => (g, s)
        | current :: q' =>
            let ns := genome_neighbors sz current (g_visited g) in
            let '(g1, s1) :=
              genome_place cellCount ns
                {| g_pattern := g_pattern g; g_placed := g_placed g;
                   g_queue := q'; g_visited := g_visited g |} s in
            genome_loop fuel' sz cellCount g1 s1
        end
      else (g, s)
  end.

Definition count_ones (p : list Z) : Z :=
  Z.of_nat (length (filter (fun c => c = 1) p)).

(** Every iteration of the [while] loop takes one index off the queue and
    an index enters the queue at most once, so [size * size] iterations
    are never exceeded. *)
Definition generateGenome (s : Simulation) : Genome * Simulation :=
  let sz := 7 in
  let center := (sz * sz) / 2 in
  let pattern0 := <[Z.to_nat center := 1]> (replicate (Z.to_nat (sz * sz)) 0) in
  let '(r, s1) := random s in
  let cellCount := 10 + Qfloor (r * 15) in
  let '(g, s2) :=
    genome_loop (Z.to_nat (sz * sz)) sz cellCount
      {| g_pattern := pattern0; g_placed := 1; g_queue := [center];
         g_visited := {[center]} |} s1 in
  ({| pattern := g_pattern g; size := sz;
      totalCells := count_ones (g_pattern g) |}, s2).

(** *** speciesMaskFromGenome *)

Definition speciesMaskFromGenome (gen : Genome) : Z :=
  let cx := size gen / 2 in
  let cy := size gen / 2 in
  let bit (mask : Z) (db : (Z * Z) * Z) : Z :=
    let '((dx, dy), bitIndex) := db in
    let gx := cx + dx in
    let gy := cy + dy in
    if (0 <=? gx) && (gx <? size gen) && (0 <=? gy) && (gy <? size gen) then
      if decide (arr_get (pattern gen) (gy * size gen + gx) = Some 1)
      then or32 mask (shl32 1 bitIndex) else mask
    else mask in
  toUint32 (fold_left bit (zip around8 (seqZ 0 8)) 0).

(** *** createOrganism *)

Definition spawn_blocked (s : Simulation) (ex ey : Z) : bool :=
  existsb (fun d =>
             match applyBoundary (ex + d.1) (ey + d.2) with
             | None => false
             | Some (nx, ny) =>
                 negb (bool_decide (gridAt s nx ny = Some 0))
             end) around9.

Definition createOrganism (x y : Z) (genome0 : option Genome)
    (energy0 : option Q) (s : Simulation) : option Organism * Simulation :=
  match applyBoundary x y with
  | None => (None, s)
  | Some (ex, ey) =>
      if spawn_blocked s ex ey then (None, s)
      else
        let i := nextID s in
        let s1 := set_nextID (i + 1) s in
        let '(gen, s2) :=
          match genome0 with
          | Some g => (g, s1)
          | None => generateGenome s1
          end in
        let '(r1, s3) := random s2 in
        let '(r2, s4) := random s3 in
        let '(dir, s5) := randomDirection s4 in
        let org :=
          {| id := i; eyeX := ex; eyeY := ey;
             pixels := [((ex, ey), totalCells gen)];
             energy := default (400 # 1) energy0;
             moveSpeed := 1 + Qfloor (r1 * maxMoveSpeed params);
             viewRadius := viewRadiusParam params;
             hunger := (5 # 10) + r2 * (3 # 10);
             direction := dir;
             genome := gen;
             growthStage := 0;
             speciesMask := speciesMaskFromGenome gen;
             age := 0;
             stuckCounter := 0;
             stamina := staminaMax params;
             movedThisTick := false |} in
        let s6 := write_grid (idx ex ey) i s5 in
        let s7 := write_hp (idx ex ey) (totalCells gen) s6 in
        (Some org, set_organisms (kset id org (organisms s7)) s7)
  end.

(** *** growOrganism *)

Definition ring (r : Z) : list (Z * Z) :=
  map (fun dx => (dx, - r)) (seqZ (- r) (2 * r + 1))
  ++ map (fun dy => (r, dy)) (seqZ (- r + 1) (2 * r))
  ++ map (fun dx => (dx, r)) (reverse (seqZ (- r) (2 * r)))
  ++ map (fun dy => (- r, dy)) (reverse (seqZ (- r + 1) (2 * r - 1))).

Definition growCandidates (gen : Genome) : list (Z * Z) :=
  flat_map ring (seqZ 1 ((size gen + 1) / 2)).

(** The tests made on one ring offset; the world cell when all pass. *)
Definition growTarget (s : Simulation) (org : Organism) (d : Z * Z)
  : option Cell :=
  let sz := size (genome org) in
  let gx := sz / 2 + d.1 in
  let gy := sz / 2 + d.2 in
  if (gx <? 0) || (sz <=? gx) || (gy <? 0) || (sz <=? gy) then None
  else if decide (arr_get (pattern (genome org)) (gy * sz + gx) = Some 0)
  then None
  else
    match applyBoundary (eyeX org + d.1) (eyeY org + d.2) with
    | None => None
    | Some (bx, by') =>
        if pix_has (bx, by') org then None
        else if negb (bool_decide (gridAt s bx by' = Some 0)) then None
        else if existsb (fun n => pix_has n org) (neighbors8 bx by')
        then Some (bx, by')
        else None
    end.

Definition bump_growing (s : Simulation) : Simulation :=
  let d := debugCounters s in
  set_debugCounters
    {| moving := moving d; growing := growing d + 1;
       attacking := attacking d; starving := starving d |} s.

Definition growOrganism (org : Organism) (s : Simulation)
  : bool * Simulation :=
  if totalCells (genome org) - 1 <=? growthStage org then (false, s)
  else
    let growthCost := Qmax 0 (growthEnergyCost params) in
    if Qltb (energy org) growthCost then (false, s)
    else
      match firstSome (growTarget s org) (growCandidates (genome org)) with
      | None => (false, s)
      | Some (bx, by') =>
          let index := idx bx by' in
          let s1 := write_grid index (id org) s in
          let s2 := write_hp index (totalCells (genome org)) s1 in
          let s3 :=
            update_org (id org)
              (fun o =>
                 set_energy (energy o - growthCost)
                   (set_growthStage (growthStage o + 1)
                      (set_pixels
                         (kset fst ((bx, by'), totalCells (genome org))
                            (pixels o)) o))) s2 in
          (true, bump_growing s3)
      end.

(** [for (const org of this.organisms.values())]: the entries are visited
    in insertion order; one deleted before its turn is not visited, and no
    loop of the engine adds an entry while it iterates. *)
Definition for_each_org (body : Organism -> Simulation -> Simulation)
    (s : Simulation) : Simulation :=
  fold_left
    (fun s' i => match get_org i s' with Some o => body o s' | None => s' end)
    (map id (organisms s)) s.

(** *** Perception *)

Record Target := {
  t_id : Z;
  t_size : Z;
  t_dx : Z;
  t_dy : Z;
  t_dist : Z
}.

Record Food := {
  f_dx : Z;
  f_dy : Z;
  f_dist : Z
}.

Fixpoint ray_target (s : Simulation) (org : Organism) (dx dy : Z)
    (ds : list Z) (selfBlocked : bool) : option Target :=
  match ds with
  | [] => None
  | d :: ds' =>
      match applyBoundary (eyeX org + dx * d) (eyeY org + dy * d) with
      | None => None
      | Some (x, y) =>
          let occupantId := gridAt s x y in
          if decide (occupantId = Some (id org))
          then ray_target s org dx dy ds' true
          else if selfBlocked then None
          else if decide (occupantId = Some (-2)) then None
          else
            match occupantId with
            | Some v =>
                if 0 <? v then
                  match get_org v s with
                  | Some target =>
                      Some {| t_id := v; t_size := pix_size target;
                              t_dx := dx; t_dy := dy; t_dist := d |}
                  | None => None
                  end
                else ray_target s org dx dy ds' selfBlocked
            | None => ray_target s org dx dy ds' selfBlocked
            end
      end
  end.

Definition detectTargets (s : Simulation) (org : Organism) : list Target :=
  omap (fun d => ray_target s org d.1 d.2 (seqZ 1 (viewRadius org)) false)
    DIRECTIONS.

Fixpoint ray_food (s : Simulation) (org : Organism) (dx dy : Z)
    (ds : list Z) (selfBlocked : bool) : option Food :=
  match ds with
  | [] => None
  | d :: ds' =>
      match applyBoundary (eyeX org + dx * d) (eyeY org + dy * d) with
      | None => None
      | Some (x, y) =>
          let occupantId := gridAt s x y in
          if decide (occupantId = Some (id org))
          then ray_food s org dx dy ds' true
          else if selfBlocked then None
          else if decide (occupantId = Some (-2)) then None
          else if decide (occupantId = Some (-1))
          then Some {| f_dx := dx; f_dy := dy; f_dist := d |}
          else
            match occupantId with
            | Some v =>
                if 0 <? v then None else ray_food s org dx dy ds' selfBlocked
            | None => ray_food s org dx dy ds' selfBlocked
            end
      end
  end.

Definition detectFood (s : Simulation) (org : Organism) : list Food :=
  omap (fun d => ray_food s org d.1 d.2 (seqZ 1 (viewRadius org)) false)
    DIRECTIONS.

Definition towardFood (f : Food) : Z * Z := (Z.sgn (f_dx f), Z.sgn (f_dy f)).

(** The branch taken when an organism is in sight. *)
Definition faceTarget (org : Organism) (nearest : Target) (s : Simulation)
  : (Z * Z) * Simulation :=
  let dx := Z.sgn (t_dx nearest) in
  let dy := Z.sgn (t_dy nearest) in
  if t_size nearest <? pix_size org then ((dx, dy), s)
  else if pix_size org <? t_size nearest then ((- dx, - dy), s)
  else
    let '(r, s1) := random s in
    if Qltb r (hunger org) then ((dx, dy), s1) else ((- dx, - dy), s1).

(** The last two branches: nothing in sight, or the food was declined. *)
Definition wander (org : Organism) (s : Simulation) : (Z * Z) * Simulation :=
  if Qltb (2 # 10) (hunger org) then
    let '(r, s1) := random s in
    if Qltb r (1 # 10) || (5 <? stuckCounter org) then
      randomDirection (update_org (id org) (set_stuckCounter 0) s1)
    else (direction org, s1)
  else
    let '(r, s1) := random s in
    if Qltb r (3 # 10) then (direction org, s1) else ((0, 0), s1).

Definition chooseDirection (org : Organism) (s : Simulation)
  : (Z * Z) * Simulation :=
  let targets := detectTargets s org in
  let foods := detectFood s org in
  let nearestFood := head (sortBy (fun a b => f_dist a - f_dist b) foods) in
  let nearestTarget :=
    head (sortBy (fun a b => t_dist a - t_dist b) targets) in
  let hungry :=
    Qltb (energy org) (reproductionThreshold params * (3 # 10)) in
  match (if hungry then nearestFood else None) with
  | Some f => (towardFood f, s)
  | None =>
      match nearestTarget with
      | Some t => faceTarget org t s
      | None =>
          match nearestFood with
          | Some f =>
              let '(r, s1) := random s in
              if Qltb r (hunger org) then (towardFood f, s1)
              else wander org s1
          | None => wander org s
          end
      end
  end.

(** The first loop of [step]. *)
Definition planDirections (s : Simulation) : Simulation :=
  for_each_org
    (fun org s' =>
       let '(d, s1) := chooseDirection org s' in
       update_org (id org)
         (fun o => set_movedThisTick false (set_direction d o)) s1) s.

(** *** moveOrganisms *)

(** The per-organism record of the resolver; [st_org] names the organism
    the record points to. *)
Record MoveState := {
  st_org : Z;
  st_dx : Z;
  st_dy : Z;
  stepCost : Q;
  stepsRemaining : Z;
  st_movedThisTick : bool
}.

Definition stepCostOf (org : Organism) : Q :=
  Qmax
    (pow (inject_Z (Z.max 1 (pix_size org)))
       (movementEnergyCostExponent params)
     * movementEnergyCostMultiplier params)%Q
    (1 # 1000).

Definition energyLimitedSteps (org : Organism) : Z :=
  let energyReserve := Qmax 0 (movementEnergyReserve params) in
  let availableEnergy := (energy org - energyReserve)%Q in
  if Qltb 0 availableEnergy then Qfloor (availableEnergy / stepCostOf org)
  else 0.

Definition staminaSteps (org : Organism) : Z :=
  Qfloor (Qmax 0 (stamina org)
          / Qmax (1 # 10000) (staminaDrainPerStep params))%Q.

(** [actualSteps]: the step budget of an organism for the tick. *)
Definition stepBudget (org : Organism) : Z :=
  Z.min (moveSpeed org) (Z.min (energyLimitedSteps org) (staminaSteps org)).

Definition initMoveState (org : Organism) : MoveState :=
  {| st_org := id org;
     st_dx := (direction org).1;
     st_dy := (direction org).2;
     stepCost := stepCostOf org;
     stepsRemaining := stepBudget org;
     st_movedThisTick := false |}.

Definition heading (st : MoveState) : bool :=
  negb ((st_dx st =? 0) && (st_dy st =? 0)).

Definition is_moving (st : MoveState) : bool :=
  (0 <? stepsRemaining st) && heading st.

Definition priorityOf (s : Simulation) (o : Organism) (x y : Z) : Z :=
  or32
    (or32 (shl32 (moveSpeed o) 20) (shl32 (pix_size o) 10))
    (and32 (hash (tick s) x y (id o)) 1023).

Definition sortByPriority (s : Simulation) (a b : Organism) : Z :=
  if negb (moveSpeed b =? moveSpeed a) then moveSpeed b - moveSpeed a
  else if negb (pix_size b =? pix_size a) then pix_size b - pix_size a
  else hash (tick s) (eyeX a) (eyeY a) (id a)
       - hash (tick s) (eyeX b) (eyeY b) (id b).

Definition INF : Z := 2147483647.

Definition reserve (owner : Z) (r : list (Cell * Reservation)) (key : Cell)
  : list (Cell * Reservation) :=
  kset fst (key, {| res_id := owner; priority := INF |}) r.

(** Step 3 of a microstep: the cells of the organisms that do not move,
    the food and the obstacles. *)
Definition staticReservations (nonMovingIds : gset Z) (s : Simulation)
  : list (Cell * Reservation) :=
  let r1 :=
    fold_left
      (fun r org =>
         if decide (id org ∈ nonMovingIds)
         then fold_left (reserve (id org)) (pix_keys org) r
         else r)
      (organisms s) [] in
  let r2 := fold_left (reserve (-1)) (map fst (foodPixels s)) r1 in
  fold_left (reserve (-2)) (obstacleKeys s) r2.

Record Proposal := {
  p_org : Z;
  ox : Z;
  oy : Z;
  nx : Z;
  ny : Z
}.

(** An entry of [proposalCellMap]: the contenders of a cell, each with the
    id of its organism and its priority. *)
Definition Contenders : Type := list (Z * Z).

Definition pushContender (cell : Cell) (c : Z * Z)
    (m : list (Cell * Contenders)) : list (Cell * Contenders) :=
  match kget fst cell m with
  | Some (_, l) => kset fst (cell, l ++ [c]) m
  | None => kset fst (cell, [c]) m
  end.

(** The proposals of one organism: the loop over its cells stops at the
    first destination that is off the grid or taken; what it has already
    pushed to [proposalCellMap] stays there. *)
Fixpoint propose (s : Simulation) (org : Organism) (dx dy : Z)
    (keys : list Cell) (orgProposals : list Proposal)
    (m : list (Cell * Contenders))
  : bool * list Proposal * list (Cell * Contenders) :=
  match keys with
  | [] => (true, orgProposals, m)
  | (xs, ys) :: keys' =>
      match applyBoundary (xs + dx) (ys + dy) with
      | None => (false, orgProposals, m)
      | Some (x, y) =>
          let occ := gridAt s x y in
          if negb (bool_decide (occ = Some 0))
             && negb (bool_decide (occ = Some (id org)))
          then (false, orgProposals, m)
          else
            propose s org dx dy keys'
              (orgProposals
               ++ [{| p_org := id org; ox := xs; oy := ys;
                      nx := x; ny := y |}])
              (pushContender (x, y) (id org, priorityOf s org x y) m)
      end
  end.

(** [stateById]: the ids of the records are those of distinct entries of
    the registry, so the record of an id is the first one that has it. *)
Definition stateById (i : Z) (states : list MoveState) : option MoveState :=
  kget st_org i states.

Definition collectProposals (s : Simulation) (states : list MoveState)
    (movingSorted : list Organism)
  : list (Z * list Proposal) * list (Cell * Contenders) :=
  fold_left
    (fun acc org =>
       match stateById (id org) states with
       | None => acc
       | Some st =>
           let '(valid, props, m) :=
             propose s org (st_dx st) (st_dy st) (pix_keys org) [] acc.2 in
           (if valid then kset fst (id org, props) acc.1 else acc.1, m)
       end)
    movingSorted ([], []).

(** The winner among the contenders of one cell. *)
Definition pickWinner (contenders : Contenders) : option (Z * Z) :=
  fold_left
    (fun winner c =>
       match winner with
       | None => Some c
       | Some w =>
           if (w.2 <? c.2) || ((c.2 =? w.2) && (w.1 <? c.1)) then Some c
           else winner
       end)
    contenders None.

Definition isStatic (res : list (Cell * Reservation)) (cell : Cell) : bool :=
  match kget fst cell res with
  | Some (_, r) => priority r =? INF
  | None => false
  end.

Definition winnersByCell (res : list (Cell * Reservation))
    (m : list (Cell * Contenders)) : gmap Cell Z :=
  fold_left
    (fun winners e =>
       if isStatic res e.1 then winners
       else
         match pickWinner e.2 with
         | Some w => <[e.1 := w.1]> winners
         | None => winners
         end)
    m ∅.

Record Commit := {
  c_org : Organism;
  c_props : list Proposal;
  c_oldPixels : list (Cell * Z)
}.

Definition granted (winners : gmap Cell Z) (org : Organism) (p : Proposal)
  : bool :=
  bool_decide (winners !! (nx p, ny p) = Some (id org)).

Definition commitOf (proposalsByOrg : list (Z * list Proposal))
    (winners : gmap Cell Z) (org : Organism) : option Commit :=
  match kget fst (id org) proposalsByOrg with
  | None => None
  | Some (_, props) =>
      if negb (Z.of_nat (length props) =? pix_size org) then None
      else if forallb (granted winners org) props
      then Some {| c_org := org; c_props := props;
                   c_oldPixels := pixels org |}
      else None
  end.

Definition destIdxSet (commits : list Commit) : gset Z :=
  list_to_set
    (flat_map (fun c => map (fun p => idx (nx p) (ny p)) (c_props c)) commits).

(** Step 6-1: the cells a committed organism leaves are cleared, unless
    they are the destination of a committed proposal. *)
Definition clearSource (dests : gset Z) (s : Simulation) (key : Cell)
  : Simulation :=
  let oIdx := idx key.1 key.2 in
  if decide (oIdx ∈ dests) then s
  else write_hp oIdx 0 (write_grid oIdx 0 s).

Definition clearSources (dests : gset Z) (commits : list Commit)
    (s : Simulation) : Simulation :=
  fold_left
    (fun s' c => fold_left (clearSource dests) (map fst (c_oldPixels c)) s')
    commits s.

(** Step 6-2 for one proposal: the destination takes the id and the
    hit-points carried over from the source cell. *)
Definition applyProposal (org : Organism) (oldPixels : list (Cell * Z))
    (acc : Simulation * list (Cell * Z)) (p : Proposal)
  : Simulation * list (Cell * Z) :=
  let nIdx := idx (nx p) (ny p) in
  let hp :=
    match kget fst (ox p, oy p) oldPixels with
    | Some (_, h) => h
    | None => totalCells (genome org)
    end in
  (write_hp nIdx hp (write_grid nIdx (id org) acc.1),
   kset fst ((nx p, ny p), hp) acc.2).

Definition advanceState (st : MoveState) : MoveState :=
  {| st_org := st_org st; st_dx := st_dx st; st_dy := st_dy st;
     stepCost := stepCost st; stepsRemaining := stepsRemaining st - 1;
     st_movedThisTick := true |}.

(** Step 6-2 for one commit.  The eye is moved through [applyBoundary],
    which answers because the eye is one of the cells whose proposal was
    valid. *)
Definition applyCommit (acc : list MoveState * Simulation) (c : Commit)
  : list MoveState * Simulation :=
  let org := c_org c in
  let '(s1, newPixels) :=
    fold_left (applyProposal org (c_oldPixels c)) (c_props c) (acc.2, []) in
  match stateById (id org) acc.1 with
  | None => (acc.1, s1)
  | Some st =>
      let moveEye (o : Organism) :=
        match applyBoundary (eyeX o + st_dx st) (eyeY o + st_dy st) with
        | Some (bx, by') => set_eye bx by' o
        | None => o
        end in
      let s2 :=
        update_org (id org)
          (fun o =>
             set_movedThisTick true
               (set_stamina
                  (Qmax 0 (stamina o - staminaDrainPerStep params))
                  (set_energy (energy o - stepCost st)
                     (moveEye (set_pixels newPixels o))))) s1 in
      (kupdate st_org (id org) advanceState acc.1, s2)
  end.

(** One pass of the [while] loop, from the static reservations to the
    commits; the first component lists the commits applied. *)
Definition microstep (states : list MoveState) (s : Simulation)
  : list Commit * list MoveState * Simulation :=
  let movingStates := filter (fun st => is_moving st = true) states in
  let nonMovingIds : gset Z :=
    list_to_set
      (map st_org (filter (fun st => is_moving st <> true) states)) in
  let s1 := set_reservations (staticReservations nonMovingIds s) s in
  let movingSorted :=
    sortBy (sortByPriority s1)
      (omap (fun st => get_org (st_org st) s1) movingStates) in
  let '(proposalsByOrg, proposalCellMap) :=
    collectProposals s1 states movingSorted in
  let winners := winnersByCell (reservations s1) proposalCellMap in
  let commits := omap (commitOf proposalsByOrg winners) movingSorted in
  let s2 := clearSources (destIdxSet commits) commits s1 in
  let '(states', s3) := fold_left applyCommit commits (states, s2) in
  (commits, states', s3).

Definition haltState (st : MoveState) : MoveState :=
  {| st_org := st_org st; st_dx := st_dx st; st_dy := st_dy st;
     stepCost := stepCost st; stepsRemaining := 0;
     st_movedThisTick := st_movedThisTick st |}.

Definition add_starving (n : Z) (s : Simulation) : Simulation :=
  let d := debugCounters s in
  set_debugCounters
    {| moving := moving d; growing := growing d; attacking := attacking d;
       starving := starving d + n |} s.

Definition add_moving (n : Z) (s : Simulation) : Simulation :=
  let d := debugCounters s in
  set_debugCounters
    {| moving := moving d + n; growing := growing d;
       attacking := attacking d; starving := starving d |} s.

(** The [while (anyMoved)] loop.  [fuel] bounds the number of passes; a
    pass that commits takes one step off the budget of an organism, so
    [moveFuel] passes are enough (lemma [moveLoop_fuel]). *)
Fixpoint moveLoop (fuel : nat) (states : list MoveState) (s : Simulation)
  : list MoveState * Simulation :=
  match fuel with
  | O => (states, s)
  | S fuel' =>
      match filter (fun st => is_moving st = true) states with
      | [] => (states, s)
      | _ :: _ =>
          let '(commits, states1, s1) := microstep states s in
          match commits with
          | _ :: _ => moveLoop fuel' states1 s1
          | [] =>
              (map haltState states1,
               add_starving
                 (Z.of_nat
                    (length (filter (fun st => is_moving st = true) states1)))
                 s1)
          end
      end
  end.

Definition moveFuel (states : list MoveState) : nat :=
  S (fold_right (fun st n => (Z.to_nat (stepsRemaining st) + n)%nat) O states).

Definition recoverStamina (s : Simulation) (st : MoveState) : Simulation :=
  if negb (st_movedThisTick st) || negb (heading st) then
    update_org (st_org st)
      (fun o =>
         set_stamina
           (Qmin (staminaMax params)
              (stamina o + staminaRecoveryPerTick params)) o) s
  else s.

Definition moveOrganisms (s : Simulation) : Simulation :=
  let s0 := set_reservations [] s in
  let states := map initMoveState (organisms s0) in
  let starvingCountInitial :=
    Z.of_nat
      (length
         (filter (fun st => (stepsRemaining st <=? 0) && heading st = true)
            states)) in
  let '(states1, s1) := moveLoop (moveFuel states) states s0 in
  let s2 := fold_left recoverStamina states1 s1 in
  add_starving starvingCountInitial
    (add_moving
       (Z.of_nat
          (length (filter (fun st => st_movedThisTick st = true) states1)))
       s2).

(** *** removeOrganism and checkConnectivity *)

(** A cell handed to the environment: food code, one hit-point, a fresh
    decay timer. *)
Definition toFood (s : Simulation) (key : Cell) : Simulation :=
  let index := idx key.1 key.2 in
  set_foodPixels
    (kset fst (key, foodDecayTicks params) (foodPixels s))
    (write_hp index 1 (write_grid index (-1) s)).

Definition removeOrganism (i : Z) (s : Simulation) : Simulation :=
  match get_org i s with
  | None => s
  | Some org =>
      let s1 := fold_left toFood (pix_keys org) s in
      set_organisms (kdelete id i (organisms s1)) s1
  end.

(** The neighbours of a dequeued cell that are cells of the organism and
    not yet reached join the queue and the reached set. *)
Definition bfs_visit (org : Organism) (acc : list Cell * gset Cell)
    (n : Cell) : list Cell * gset Cell :=
  if pix_has n org && negb (bool_decide (n ∈ acc.2))
  then (acc.1 ++ [n], {[n]} ∪ acc.2)
  else acc.

(** The breadth-first traversal.  A cell enters the queue at most once, so
    as many passes as the organism has cells empty the queue. *)
Fixpoint bfs (fuel : nat) (org : Organism) (queue : list Cell)
    (reachable : gset Cell) : list Cell * gset Cell :=
  match fuel with
  | O => (queue, reachable)
  | S fuel' =>
      match queue with
      | [] => (queue, reachable)
      | (x, y) :: queue' =>
          let '(q, r) :=
            fold_left (bfs_visit org) (neighbors8 x y) (queue', reachable) in
          bfs fuel' org q r
      end
  end.

Definition detach (i : Z) (reachable : gset Cell) (s : Simulation)
    (key : Cell) : Simulation :=
  if decide (key ∈ reachable) then s
  else
    update_org i (fun o => set_pixels (kdelete fst key (pixels o)) o)
      (toFood s key).

(** [checkConnectivity(org)], for the entry [i] of the registry. *)
Definition checkConnectivity (i : Z) (s : Simulation) : Simulation :=
  match get_org i s with
  | None => s
  | Some org =>
      if pix_size org =? 0 then removeOrganism i s
      else
        let eyeKey := (eyeX org, eyeY org) in
        if negb (pix_has eyeKey org) then removeOrganism i s
        else
          let reachable :=
            (bfs (length (pixels org)) org [eyeKey] {[eyeKey]}).2 in
          let s1 := fold_left (detach i reachable) (pix_keys org) s in
          match get_org i s1 with
          | Some org1 =>
              if pix_size org1 =? 0 then removeOrganism i s1 else s1
          | None => s1
          end
  end.

(** *** combat *)

Definition scanNeighbor (org : Organism)
    (acc : list (Z * Z * Z) * Simulation) (n : Cell)
  : list (Z * Z * Z) * Simulation :=
  let s := acc.2 in
  match gridAt s n.1 n.2 with
  | None => acc
  | Some targetID =>
      if (targetID <=? 0) || (targetID =? id org) then acc
      else
        match get_org targetID s with
        | None => acc
        | Some target =>
            if speciesMask target =? speciesMask org then acc
            else if pix_size org =? pix_size target then
              let '(r, s1) := random s in
              if Qltb r (hunger org * (6 # 10))
              then (acc.1 ++ [(n.1, n.2, targetID)], s1)
              else (acc.1, s1)
            else if pix_size target <? pix_size org
            then (acc.1 ++ [(n.1, n.2, targetID)], s)
            else acc
        end
  end.

Definition bump_attacking (s : Simulation) : Simulation :=
  let d := debugCounters s in
  set_debugCounters
    {| moving := moving d; growing := growing d;
       attacking := attacking d + 1; starving := starving d |} s.

Definition creditActor (i : Z) (s : Simulation) : Simulation :=
  let s1 :=
    update_org i
      (fun o =>
         set_energy (energy o + c2 params * energyTransferRatio params) o)
      s in
  set_envEnergy
    (envEnergy s1 + c2 params * (1 - energyTransferRatio params)) s1.

(** The fee of an attempt, charged when it is positive. *)
Definition payFee (fee : Q) (i : Z) (s : Simulation) : Simulation :=
  if Qltb 0 fee
  then update_org i (fun o => set_energy (energy o - fee) o) s
  else s.

(** [pixelHP[i] = Math.max(0, pixelHP[i] - 1)]. *)
Definition strike (i : Z) (s : Simulation) : Simulation :=
  write_hp i (Z.max 0 (hpAt s i - 1)) s.

(** The test that aborts an attack: a positive fee that would leave a
    registered attacker without energy. *)
Definition cannotAfford (fee : Q) (org : Organism) (s : Simulation) : bool :=
  Qltb 0 fee
  && bool_decide (is_Some (get_org (id org) s))
  && Qleb (energy org - fee) 0.

(** The attack of [org] on the cell [(tx, ty)] of [targetID], from the
    fee to the connectivity check of the victim. *)
Definition attack (org : Organism) (tx ty targetID : Z) (s : Simulation)
  : Simulation :=
  let targetIndex := idx tx ty in
  let fee := attackEnergyCost params in
  if cannotAfford fee org s then s
  else
    let s2 := strike targetIndex (payFee fee (id org) s) in
    if 0 <? hpAt s2 targetIndex then s2
    else
      let s3 := creditActor (id org) s2 in
      let s4 := write_grid targetIndex 0 s3 in
      let s5 :=
        match get_org targetID s4 with
        | Some _ =>
            checkConnectivity targetID
              (update_org targetID
                 (fun o => set_pixels (kdelete fst (tx, ty) (pixels o)) o)
                 s4)
        | None => s4
        end in
      bump_attacking s5.

(** One organism's turn in [combat]; the index of the chosen target is in
    range because [Math.random()] is in [[0, 1)]. *)
Definition combatOne (org : Organism) (s : Simulation) : Simulation :=
  let '(attackTargets, s1) :=
    fold_left (scanNeighbor org)
      (flat_map (fun k => neighbors8 k.1 k.2) (pix_keys org)) ([], s) in
  match attackTargets with
  | [] => s1
  | _ :: _ =>
      let '(r, s2) := random s1 in
      match
        attackTargets
          !! Z.to_nat (Qfloor (r * inject_Z (Z.of_nat (length attackTargets))))
      with
      | Some (tx, ty, targetID) => attack org tx ty targetID s2
      | None => s2
      end
  end.

Definition combat (s : Simulation) : Simulation := for_each_org combatOne s.

(** *** absorbFood *)

Definition absorbCandidate (org : Organism) (s : Simulation) (n : Cell)
  : option Cell :=
  if bool_decide (gridAt s n.1 n.2 = Some (-1)) then
    if Qltb 0 (absorbEnergyCost params)
       && Qleb (energy org - absorbEnergyCost params) 0
    then None else Some n
  else None.

Definition absorbAt (org : Organism) (n : Cell) (s : Simulation)
  : Simulation :=
  let ni := idx n.1 n.2 in
  let s2 := strike ni (payFee (absorbEnergyCost params) (id org) s) in
  if hpAt s2 ni =? 0 then
    let s3 := creditActor (id org) s2 in
    let s4 := write_grid ni 0 s3 in
    set_foodPixels (kdelete fst n (foodPixels s4)) s4
  else s2.

Definition absorbOne (org : Organism) (s : Simulation) : Simulation :=
  match
    firstSome (absorbCandidate org s)
      (flat_map (fun k => neighbors8 k.1 k.2) (pix_keys org))
  with
  | Some n => absorbAt org n s
  | None => s
  end.

Definition absorbFood (s : Simulation) : Simulation :=
  for_each_org absorbOne s.

(** *** metabolism *)

Definition metabolismOne (org : Organism) (s : Simulation) : Simulation :=
  let energy' :=
    (energy org - inject_Z (pix_size org) * metabolismRate params)%Q in
  let s1 :=
    update_org (id org)
      (fun o => set_energy energy' (set_age (age o + 1) o)) s in
  if Qleb energy' 0 then removeOrganism (id org) s1 else s1.

Definition metabolism (s : Simulation) : Simulation :=
  for_each_org metabolismOne s.

(** *** reproduce and mutateGenome *)

Fixpoint mutateCells (center i : nat) (p : list Z) (s : Simulation)
  : list Z * Simulation :=
  match p with
  | [] => ([], s)
  | c :: p' =>
      if decide (i = center) then
        let '(rest, s1) := mutateCells center (S i) p' s in
        (c :: rest, s1)
      else
        let '(r, s1) := random s in
        let c' := if Qltb r (mutationRate params) then 1 - c else c in
        let '(rest, s2) := mutateCells center (S i) p' s1 in
        (c' :: rest, s2)
  end.

Definition mutateGenome (gen : Genome) (s : Simulation)
  : Genome * Simulation :=
  let center := (length (pattern gen) / 2)%nat in
  let '(newPattern, s1) := mutateCells center 0 (pattern gen) s in
  ({| pattern := newPattern; size := size gen;
      totalCells := count_ones newPattern |}, s1).

(** [Math.round(Math.cos(rad) * d)] on the diagonals, for [d = 3..6]. *)
Definition roundDiagonal (d : Z) : Z :=
  if d =? 3 then 2 else if d =? 4 then 3 else 4.

(** The offsets at distance [d], by steps of 45 degrees from 0. *)
Definition offsetsAt (d : Z) : list (Z * Z) :=
  let k := roundDiagonal d in
  [(d, 0); (k, k); (0, d); (- k, k); (- d, 0); (- k, - k); (0, - d);
   (k, - k)].

Definition swap {A} (i j : nat) (l : list A) : list A :=
  match l !! i, l !! j with
  | Some a, Some b => <[j := a]> (<[i := b]> l)
  | _, _ => l
  end.

(** The shuffle [for (i = n; i > 0; i--)]. *)
Fixpoint shuffle {A} (i : nat) (l : list A) (s : Simulation)
  : list A * Simulation :=
  match i with
  | O => (l, s)
  | S i' =>
      let '(r, s1) := random s in
      let j := Z.to_nat (Qfloor (r * inject_Z (Z.of_nat i + 1))) in
      shuffle i' (swap i j l) s1
  end.

Definition bearChild (parent child : Organism) (s : Simulation)
  : Simulation :=
  let s1 :=
    update_org (id parent)
      (fun o =>
         set_energy (energy o - reproductionThreshold params * (6 # 10)) o)
      s in
  let '(r1, s2) := random s1 in
  let '(newMoveSpeed, s3) :=
    if Qltb r1 (mutationRate params) then
      let '(r2, s') := random s2 in
      (moveSpeed parent + (if Qltb (5 # 10) r2 then 1 else -1), s')
    else (moveSpeed parent, s2) in
  let '(r3, s4) := random s3 in
  update_org (id child)
    (fun c =>
       set_hunger
         (Qmax 0 (Qmin 1 (hunger parent + (r3 - (5 # 10)) * (3 # 10))))
         (set_moveSpeed (Z.max 1 newMoveSpeed) c)) s4.

(** The loop over the shuffled offsets: the first one where an organism
    can be created ends it. *)
Fixpoint tryOffsets (org : Organism) (dirs : list (Z * Z)) (s : Simulation)
  : Simulation :=
  match dirs with
  | [] => s
  | (dx, dy) :: dirs' =>
      match applyBoundary (eyeX org + dx) (eyeY org + dy) with
      | None => tryOffsets org dirs' s
      | Some (x, y) =>
          let '(newGenome, s1) := mutateGenome (genome org) s in
          let childEnergy := (reproductionThreshold params * (4 # 10))%Q in
          match createOrganism x y (Some newGenome) (Some childEnergy) s1 with
          | (Some child, s2) => bearChild org child s2
          | (None, s2) => tryOffsets org dirs' s2
          end
      end
  end.

Definition reproduceOne (s : Simulation) (i : Z) : Simulation :=
  match get_org i s with
  | None => s
  | Some org =>
      let '(r, s1) := random s in
      if Qltb (3 # 100) r then s1
      else
        let dirs := flat_map offsetsAt (seqZ 3 4) in
        let '(shuffled, s2) := shuffle (length dirs - 1) dirs s1 in
        tryOffsets org shuffled s2
  end.

Definition ready (org : Organism) : bool :=
  Qleb (reproductionThreshold params) (energy org)
  && Qleb (inject_Z (totalCells (genome org)) * (8 # 10))
       (inject_Z (pix_size org)).

Definition reproduce (s : Simulation) : Simulation :=
  let readyToReproduce :=
    filter (fun org => ready org = true) (organisms s) in
  fold_left reproduceOne (map id readyToReproduce) s.

(** *** spawnFood and updateFoodDecay *)

Fixpoint spawnLoop (n : nat) (s : Simulation) : Simulation :=
  match n with
  | O => s
  | S n' =>
      if Qltb (c2 params) (envEnergy s) then
        let '(r1, s1) := random s in
        let '(r2, s2) := random s1 in
        let x := Qfloor (r1 * inject_Z gridSize) in
        let y := Qfloor (r2 * inject_Z gridSize) in
        if decide (gridAt s2 x y = Some 0) then
          spawnLoop n'
            (set_envEnergy (envEnergy s2 - c2 params) (toFood s2 (x, y)))
        else spawnLoop n' s2
      else s
  end.

Definition spawnFood (s : Simulation) : Simulation :=
  let spawnCount :=
    Qfloor (envEnergy s * foodSpawnRate params / c2 params) in
  spawnLoop (Z.to_nat spawnCount) s.

(** The first loop: the timers that stay positive are written back, the
    others are listed. *)
Definition ageFood (acc : list (Cell * Z) * list Cell) (e : Cell * Z)
  : list (Cell * Z) * list Cell :=
  let next := e.2 - 1 in
  if next <=? 0 then (acc.1, acc.2 ++ [e.1])
  else (kset fst (e.1, next) acc.1, acc.2).

(** The second loop: a listed cell goes back to empty and the pool takes
    its share. *)
Definition expireFood (s : Simulation) (key : Cell) : Simulation :=
  let i := idx key.1 key.2 in
  let s1 := write_hp i 0 (write_grid i 0 s) in
  let s2 := set_foodPixels (kdelete fst key (foodPixels s1)) s1 in
  set_envEnergy (envEnergy s2 + c2 params * foodDecayReturnRatio params) s2.

Definition updateFoodDecay (s : Simulation) : Simulation :=
  let '(food, toDelete) :=
    fold_left ageFood (foodPixels s) (foodPixels s, []) in
  fold_left expireFood toDelete (set_foodPixels food s).

(** *** verifyAndSync *)

(** The cells in the order of the scan [y = 0..], [x = 0..]. *)
Definition allCells : list Cell :=
  flat_map (fun y => map (fun x => (x, y)) (seqZ 0 gridSize))
    (seqZ 0 gridSize).

Definition syncCell (s : Simulation) (c : Cell) : Simulation :=
  let i := idx c.1 c.2 in
  match arr_get (grid s) i with
  | None => s
  | Some owner =>
      if 0 <? owner then
        match get_org owner s with
        | Some _ =>
            update_org owner
              (fun o =>
                 let hp :=
                   if hpAt s i =? 0 then totalCells (genome o)
                   else hpAt s i in
                 set_pixels (kset fst (c, hp) (pixels o)) o) s
        | None => toFood s c
        end
      else s
  end.

Definition verifyAndSync (s : Simulation) : Simulation :=
  fold_left syncCell allCells
    (set_organisms (map (set_pixels []) (organisms s)) s).

(** *** setObstacle *)

Definition setObstacle (x y : Z) (blocked : bool) (s : Simulation)
  : Simulation :=
  match applyBoundary x y with
  | None => s
  | Some (gx, gy) =>
      let i := idx gx gy in
      let key := (gx, gy) in
      let occ := arr_get (grid s) i in
      if blocked then
        if decide (occ = Some (-2)) then s
        else
          let s1 :=
            match occ with
            | Some v =>
                if 0 <? v then
                  match get_org v s with
                  | Some _ =>
                      checkConnectivity v
                        (update_org v
                           (fun o =>
                              set_pixels (kdelete fst key (pixels o)) o) s)
                  | None => s
                  end
                else if v =? -1
                then set_foodPixels (kdelete fst key (foodPixels s)) s
                else s
            | None => s
            end in
          let s2 := write_hp i 0 (write_grid i (-2) s1) in
          if decide (key ∈ obstacleKeys s2) then s2
          else set_obstacleKeys (obstacleKeys s2 ++ [key]) s2
      else
        if decide (occ = Some (-2)) then
          let s1 := write_hp i 0 (write_grid i 0 s) in
          set_obstacleKeys (kdelete (fun c => c) key (obstacleKeys s1)) s1
        else s
  end.

(** *** step *)

Definition growAll (s : Simulation) : Simulation :=
  for_each_org
    (fun org s' => if movedThisTick org then s' else (growOrganism org s').2)
    s.

Definition step (s : Simulation) : Simulation :=
  let s0 :=
    set_debugCounters
      {| moving := 0; growing := 0; attacking := 0; starving := 0 |}
      (set_tick (tick s + 1) s) in
  let s1 := planDirections s0 in
  let s2 := moveOrganisms s1 in
  let s3 := growAll s2 in
  let s4 := combat s3 in
  let s5 := if Z.rem (tick s4) 5 =? 0 then spawnFood s4 else s4 in
  let s6 := absorbFood s5 in
  let s7 := metabolism s6 in
  let s8 := reproduce s7 in
  let s9 := updateFoodDecay s8 in
  verifyAndSync s9.

(** *** The constructor and generateTerrain *)

Definition emptySimulation : Simulation :=
  {| grid := replicate (Z.to_nat (gridSize * gridSize)) 0;
     pixelHP := replicate (Z.to_nat (gridSize * gridSize)) 0;
     organisms := [];
     foodPixels := [];
     reservations := [];
     obstacleKeys := [];
     nextID := 1;
     tick := 0;
     envEnergy := 2000 # 1;
     debugCounters :=
       {| moving := 0; growing := 0; attacking := 0; starving := 0 |};
     rngCalls := O |}.

Definition fillWall (acc : list Z * Simulation) (c : Cell)
  : list Z * Simulation :=
  let density := Qmin 1 (Qmax 0 (terrainObstacleDensity params)) in
  let '(r, s1) := random acc.2 in
  (arr_set acc.1 (idx c.1 c.2) (if Qltb r density then 1 else 0), s1).

Definition countWallNeighbors (wall : list Z) (x y : Z) : Z :=
  fold_left
    (fun c d =>
       match applyBoundary (x + d.1) (y + d.2) with
       | None => c + 1
       | Some (n1, n2) =>
           if decide (arr_get wall (idx n1 n2) = Some 1) then c + 1 else c
       end)
    around8 0.

Definition smoothWall (wall : list Z) : list Z :=
  fold_left
    (fun next c =>
       let neighbors := countWallNeighbors wall c.1 c.2 in
       let i := idx c.1 c.2 in
       if decide (arr_get wall i = Some 1)
       then arr_set next i (if 4 <=? neighbors then 1 else 0)
       else arr_set next i (if 5 <=? neighbors then 1 else 0))
    allCells (replicate (Z.to_nat (gridSize * gridSize)) 0).

Definition placeWall (wall : list Z) (s : Simulation) (c : Cell)
  : Simulation :=
  let i := idx c.1 c.2 in
  if decide (arr_get wall i = Some 1) then
    set_obstacleKeys (obstacleKeys s ++ [c])
      (write_hp i 0 (write_grid i (-2) s))
  else s.

Fixpoint sprinkleObstacles (n : nat) (s : Simulation) : Simulation :=
  match n with
  | O => s
  | S n' =>
      let '(r1, s1) := random s in
      let '(r2, s2) := random s1 in
      let x := Qfloor (r1 * inject_Z gridSize) in
      let y := Qfloor (r2 * inject_Z gridSize) in
      if decide (gridAt s2 x y = Some 0) then
        sprinkleObstacles n'
          (set_obstacleKeys (obstacleKeys s2 ++ [(x, y)])
             (write_grid (idx x y) (-2) s2))
      else sprinkleObstacles n' s2
  end.

Definition generateTerrain (s : Simulation) : Simulation :=
  let steps := Z.max 0 (Qfloor (terrainSmoothingSteps params)) in
  let '(wall0, s1) :=
    fold_left fillWall allCells
      (replicate (Z.to_nat (gridSize * gridSize)) 0, s) in
  let wall := Nat.iter (Z.to_nat steps) smoothWall wall0 in
  let s2 := fold_left (placeWall wall) allCells s1 in
  match obstacleKeys s2 with
  | [] =>
      sprinkleObstacles
        (Z.to_nat (Qfloor (inject_Z (gridSize * gridSize) * (2 # 100)))) s2
  | _ :: _ => s2
  end.

(** [new Simulation(gridSize, params)]. *)
Definition newSimulation : Simulation :=
  if terrainEnabled params then generateTerrain emptySimulation
  else emptySimulation.
End Engine.

(** The functions of the engine under names that stay free in the sections
    below, which abbreviate the functions at the parameters of a
    simulation. *)
Abbreviation def_absorbAt := absorbAt.
Abbreviation def_allCells := allCells.
Abbreviation def_applyBoundary := applyBoundary.
Abbreviation def_applyCommit := applyCommit.
Abbreviation def_attack := attack.
Abbreviation def_checkConnectivity := checkConnectivity.
Abbreviation def_clearSources := clearSources.
Abbreviation def_collectProposals := collectProposals.
Abbreviation def_detach := detach.
Abbreviation def_gridAt := gridAt.
Abbreviation def_idx := idx.
Abbreviation def_microstep := microstep.
Abbreviation def_neighbors8 := neighbors8.
Abbreviation def_removeOrganism := removeOrganism.
Abbreviation def_syncCell := syncCell.
Abbreviation def_updateFoodDecay := updateFoodDecay.
Abbreviation def_wrapCoord := wrapCoord.

(** * Vocabulary of the statements *)

Section Vocabulary.
Variable gridSize : Z.
Variable params : SimulationParams.

(** A cell of the grid. *)
Definition inb (c : Cell) : Prop :=
  (0 <= c.1 < gridSize) /\ (0 <= c.2 < gridSize).

(** [c'] is one of the eight neighbours of [c], as [neighbors8] lists
    them under the boundary mode. *)
Definition adj (c c' : Cell) : Prop := c' ∈ neighbors8 gridSize params c.1 c.2.

(** One step of a walk inside a set of cells. *)
Definition walk (keys : list Cell) (a b : Cell) : Prop := adj a b /\ b ∈ keys.

(** Every cell of [keys] is reached from [eye] by a walk of neighbouring
    cells of [keys]: with [eye] in [keys], the set is 8-connected. *)
Definition connected (keys : list Cell) (eye : Cell) : Prop :=
  forall c, c ∈ keys -> rtc (walk keys) eye c.

(** An organism of the registry owns, in the grid, the cells of its pixel
    set. *)
Record org_cells (s : Simulation) (o : Organism) : Prop := {
  ok_id : 0 < id o < nextID s;
  ok_nodup : NoDup (pix_keys o);
  ok_cells :
    forall c, c ∈ pix_keys o ->
              inb c /\ gridAt gridSize s c.1 c.2 = Some (id o)
}.

(** Its pixel set contains its eye and is connected. *)
Definition org_shape (o : Organism) : Prop :=
  (eyeX o, eyeY o) ∈ pix_keys o
  /\ connected (pix_keys o) (eyeX o, eyeY o).

(** The invariant of the simulation, but for the shape of the organisms
    whose id is in [bad] and for the owner of the cells in [stale]
    (an organism that has just lost a cell, a cell about to be
    overwritten): the two arrays have the size of the grid; the ids of the
    registry are distinct; every organism owns, in the grid, exactly the
    cells of its pixel set, which contains its eye and is connected; no
    code of the grid is an id not yet given; the food registry has one
    entry per food cell it names. *)
Record InvBut (bad : Z -> Prop) (stale : Cell -> Prop) (s : Simulation)
  : Prop := {
  inv_grid_len : length (grid s) = Z.to_nat (gridSize * gridSize);
  inv_hp_len : length (pixelHP s) = Z.to_nat (gridSize * gridSize);
  inv_next : 0 < nextID s;
  inv_ids : NoDup (map id (organisms s));
  inv_orgs : forall o, o ∈ organisms s -> org_cells s o;
  inv_shape : forall o, o ∈ organisms s -> ~ bad (id o) -> org_shape o;
  inv_owner :
    forall c o, inb c -> ~ stale c -> o ∈ organisms s ->
                gridAt gridSize s c.1 c.2 = Some (id o) -> c ∈ pix_keys o;
  inv_codes : forall i v, arr_get (grid s) i = Some v -> v < nextID s;
  inv_food_nodup : NoDup (map fst (foodPixels s));
  inv_food :
    forall k, k ∈ map fst (foodPixels s) ->
              inb k /\ gridAt gridSize s k.1 k.2 = Some (-1)
}.

Definition Inv (s : Simulation) : Prop :=
  InvBut (fun _ => False) (fun _ => False) s.

(** The states of a simulation: the constructor, then any sequence of
    calls to [step], [createOrganism] and [setObstacle], between which
    other code may draw random numbers. *)
Inductive Reachable (rand : nat -> Q) (pow : Q -> Q -> Q)
  : Simulation -> Prop :=
| R_new : Reachable rand pow (newSimulation gridSize params rand)
| R_step s :
    Reachable rand pow s -> Reachable rand pow (step gridSize params rand pow s)
| R_create s x y g e :
    Reachable rand pow s ->
    Reachable rand pow (createOrganism gridSize params rand x y g e s).2
| R_obstacle s x y b :
    Reachable rand pow s ->
    Reachable rand pow (setObstacle gridSize params x y b s)
| R_random s n :
    Reachable rand pow s -> Reachable rand pow (set_rngCalls n s).
End Vocabulary.

(** Likewise for the vocabulary. *)
Abbreviation def_adj := adj.
Abbreviation def_inb := inb.
Abbreviation def_org_shape := org_shape.

(** * Concrete configurations used by the examples *)

(** [DEFAULT_PARAMS], except for the grid size, which is an argument of the
    constructor. *)
Definition DEFAULT_PARAMS : SimulationParams :=
  {| c2 := 100 # 1;
     foodSpawnRate := 3 # 100;
     mutationRate := 5 # 100;
     reproductionThreshold := 1000 # 1;
     maxMoveSpeed := 3 # 1;
     viewRadiusParam := 20;
     energyTransferRatio := 7 # 10;
     metabolismRate := 8 # 100;
     movementEnergyReserve := 20 # 1;
     movementEnergyCostMultiplier := 9 # 10;
     growthEnergyCost := 12 # 1;
     foodDecayTicks := 600;
     foodDecayReturnRatio := 1 # 1;
     attackEnergyCost := 5 # 10;
     absorbEnergyCost := 2 # 10;
     boundaryMode := wrap;
     movementEnergyCostExponent := 95 # 100;
     staminaMax := 12 # 1;
     staminaRecoveryPerTick := 6 # 10;
     staminaDrainPerStep := 1 # 1;
     terrainEnabled := true;
     terrainObstacleDensity := 2 # 10;
     terrainSmoothingSteps := 4 # 1 |}.

(** The default parameters on an open arena, with a boundary mode. *)
Definition arenaParams (mode : BoundaryMode) : SimulationParams :=
  {| c2 := c2 DEFAULT_PARAMS;
     foodSpawnRate := foodSpawnRate DEFAULT_PARAMS;
     mutationRate := mutationRate DEFAULT_PARAMS;
     reproductionThreshold := reproductionThreshold DEFAULT_PARAMS;
     maxMoveSpeed := maxMoveSpeed DEFAULT_PARAMS;
     viewRadiusParam := viewRadiusParam DEFAULT_PARAMS;
     energyTransferRatio := energyTransferRatio DEFAULT_PARAMS;
     metabolismRate := metabolismRate DEFAULT_PARAMS;
     movementEnergyReserve := movementEnergyReserve DEFAULT_PARAMS;
     movementEnergyCostMultiplier := movementEnergyCostMultiplier DEFAULT_PARAMS;
     growthEnergyCost := growthEnergyCost DEFAULT_PARAMS;
     foodDecayTicks := foodDecayTicks DEFAULT_PARAMS;
     foodDecayReturnRatio := foodDecayReturnRatio DEFAULT_PARAMS;
     attackEnergyCost := attackEnergyCost DEFAULT_PARAMS;
     absorbEnergyCost := absorbEnergyCost DEFAULT_PARAMS;
     boundaryMode := mode;
     movementEnergyCostExponent := 1 # 1;
     staminaMax := staminaMax DEFAULT_PARAMS;
     staminaRecoveryPerTick := staminaRecoveryPerTick DEFAULT_PARAMS;
     staminaDrainPerStep := staminaDrainPerStep DEFAULT_PARAMS;
     terrainEnabled := false;
     terrainObstacleDensity := terrainObstacleDensity DEFAULT_PARAMS;
     terrainSmoothingSteps := terrainSmoothingSteps DEFAULT_PARAMS |}.

(** A source of random numbers that always answers one half, and the power
    function at the exponent one. *)
Definition halfRandom (n : nat) : Q := 1 # 2.
Definition powLinear (x e : Q) : Q := x.

(** A genome of one cell. *)
Definition singleCell : Genome := {| pattern := [1]; size := 1; totalCells := 1 |}.

(** An organism of one cell at [(x, y)], with a heading. *)
Definition loneOrganism (i x y : Z) (d : Z * Z) (e : Q) : Organism :=
  {| id := i; eyeX := x; eyeY := y; pixels := [((x, y), 1)]; energy := e;
     moveSpeed := 1; viewRadius := 20; hunger := 13 # 20; direction := d;
     genome := singleCell; growthStage := 0; speciesMask := 0; age := 0;
     stuckCounter := 0; stamina := 12 # 1; movedThisTick := false |}.





(** * Facts *)

(** ** Keyed lists *)

Section KeyedListFacts.
Context {K E : Type} `{EqDecision K} (key : E -> K).
Implicit Types (l : list E) (e : E) (k : K).

Lemma kget_Some k l e : kget key k l = Some e -> e ∈ l /\ key e = k.
Proof.
  induction l as [|a l IH]; simpl; [done|].
  destruct (decide (key a = k)).
  - intros [= ->]. split; [left | done].
  - intros H0. destruct (IH H0). split; [by right | done].
Qed.

Lemma kget_None k l : kget key k l = None <-> k ∉ map key l.
Proof.
  induction l as [|a l IH]; simpl.
  - split; [intros _; apply not_elem_of_nil | done].
  - destruct (decide (key a = k)) as [Heq|Hne].
    + split; [done|]. intros H0. exfalso. apply H0. rewrite Heq. left.
    + rewrite IH. rewrite not_elem_of_cons. naive_solver.
Qed.

Lemma kget_is_Some k l : is_Some (kget key k l) <-> k ∈ map key l.
Proof.
  destruct (kget key k l) eqn:Hg.
  - split; [intros _ | eauto].
    apply kget_Some in Hg as [Hin <-]. by apply list_elem_of_fmap_2.
  - split; [intros [? [=]] |]. intros Hin. by apply kget_None in Hg.
Qed.

Lemma khas_true k l : khas key k l = true <-> k ∈ map key l.
Proof.
  unfold khas. rewrite <- kget_is_Some.
  destruct (kget key k l); split; intros H0; eauto; try done.
Qed.

Lemma khas_false k l : khas key k l = false <-> k ∉ map key l.
Proof.
  rewrite <- khas_true. destruct (khas key k l); split; try done.
Qed.

Lemma kget_first k l e :
  NoDup (map key l) -> e ∈ l -> key e = k -> kget key k l = Some e.
Proof.
  induction l as [|a l IH]; simpl; intros Hnd Hin Hk.
  - by apply elem_of_nil in Hin.
  - apply NoDup_cons in Hnd as [Hna Hnd].
    apply elem_of_cons in Hin as [->|Hin].
    + by rewrite decide_True.
    + destruct (decide (key a = k)) as [Heq|Hne]; [|by apply IH].
      exfalso. apply Hna. rewrite Heq, <- Hk. by apply list_elem_of_fmap_2.
Qed.

Lemma kget_kset_eq e l : kget key (key e) (kset key e l) = Some e.
Proof.
  induction l as [|a l IH]; simpl.
  - by rewrite decide_True.
  - destruct (decide (key a = key e)); simpl.
    + by rewrite decide_True.
    + by rewrite decide_False.
Qed.

Lemma kget_kset_ne k e l :
  k <> key e -> kget key k (kset key e l) = kget key k l.
Proof.
  intros Hne. induction l as [|a l IH]; simpl.
  - by rewrite decide_False.
  - destruct (decide (key a = key e)) as [Heq|Hne']; simpl.
    + rewrite !decide_False; congruence.
    + destruct (decide (key a = k)); [done | apply IH].
Qed.

Lemma keys_kset_in e l :
  key e ∈ map key l -> map key (kset key e l) = map key l.
Proof.
  induction l as [|a l IH]; simpl; intros Hin.
  - by apply elem_of_nil in Hin.
  - destruct (decide (key a = key e)) as [Heq|Hne]; simpl.
    + by rewrite Heq.
    + f_equal. apply IH. apply elem_of_cons in Hin as [?|?]; [congruence|done].
Qed.

Lemma keys_kset_notin e l :
  key e ∉ map key l -> map key (kset key e l) = map key l ++ [key e].
Proof.
  induction l as [|a l IH]; simpl; intros Hin; [done|].
  apply not_elem_of_cons in Hin as [Hne Hin].
  rewrite decide_False by congruence. simpl. f_equal. by apply IH.
Qed.

Lemma elem_of_keys_kset k e l :
  k ∈ map key (kset key e l) <-> k = key e \/ k ∈ map key l.
Proof.
  destruct (decide (key e ∈ map key l)) as [Hin|Hin].
  - rewrite keys_kset_in by done. naive_solver.
  - rewrite keys_kset_notin by done. rewrite elem_of_app, list_elem_of_singleton.
    naive_solver.
Qed.

Lemma NoDup_keys_kset e l :
  NoDup (map key l) -> NoDup (map key (kset key e l)).
Proof.
  intros Hnd. destruct (decide (key e ∈ map key l)) as [Hin|Hin].
  - by rewrite keys_kset_in.
  - rewrite keys_kset_notin by done. apply NoDup_app. split; [done|].
    split; [|apply NoDup_singleton].
    intros x Hx Hx'. apply list_elem_of_singleton in Hx'. by subst.
Qed.

Lemma length_kset_notin e l :
  key e ∉ map key l -> length (kset key e l) = S (length l).
Proof.
  intros Hin. apply keys_kset_notin in Hin.
  apply (f_equal length) in Hin.
  rewrite length_map, length_app, length_map in Hin.
  simpl in Hin. lia.
Qed.

Lemma elem_of_kset e' e l :
  e' ∈ kset key e l -> e' = e \/ e' ∈ l.
Proof.
  induction l as [|a l IH]; simpl.
  - intros Hin. apply list_elem_of_singleton in Hin. by left.
  - destruct (decide (key a = key e)).
    + rewrite !elem_of_cons. naive_solver.
    + rewrite !elem_of_cons. naive_solver.
Qed.

Lemma elem_of_kset_old e' e l :
  e' ∈ l -> key e' <> key e -> e' ∈ kset key e l.
Proof.
  induction l as [|a l IH]; simpl; intros Hin Hne.
  - by apply elem_of_nil in Hin.
  - apply elem_of_cons in Hin as [->|Hin].
    + rewrite decide_False by done. left.
    + destruct (decide (key a = key e)); right; [done | by apply IH].
Qed.

Lemma elem_of_kset_new e l : e ∈ kset key e l.
Proof.
  induction l as [|a l IH]; simpl; [left|].
  destruct (decide (key a = key e)); [left | by right].
Qed.

Lemma Forall_kset (P : E -> Prop) e l :
  P e -> Forall P l -> Forall P (kset key e l).
Proof.
  intros He Hl. apply Forall_forall. intros x Hx.
  apply elem_of_kset in Hx as [->|Hx]; [done|].
  by eapply Forall_forall in Hl.
Qed.

Lemma kget_kdelete_eq k l : kget key k (kdelete key k l) = None.
Proof.
  apply kget_None. unfold kdelete. intros Hin.
  apply list_elem_of_fmap in Hin as (e & -> & Hin).
  by apply list_elem_of_filter in Hin as [Hne _].
Qed.

Lemma kget_kdelete_ne k k' l :
  k' <> k -> kget key k' (kdelete key k l) = kget key k' l.
Proof.
  intros Hne. unfold kdelete. induction l as [|a l IH]; simpl; [done|].
  rewrite filter_cons. destruct (decide (key a <> k)) as [Ha|Ha]; simpl.
  - destruct (decide (key a = k')); [done | apply IH].
  - rewrite decide_False; [apply IH|]. intros Heq. apply Ha. congruence.
Qed.

Lemma elem_of_kdelete e k l :
  e ∈ kdelete key k l <-> e ∈ l /\ key e <> k.
Proof. unfold kdelete. rewrite list_elem_of_filter. naive_solver. Qed.

Lemma keys_kdelete k l :
  map key (kdelete key k l) = filter (fun x => x <> k) (map key l).
Proof.
  unfold kdelete. induction l as [|a l IH]; simpl; [done|].
  rewrite !filter_cons. destruct (decide (key a <> k)); simpl; by rewrite IH.
Qed.

Lemma NoDup_keys_kdelete k l :
  NoDup (map key l) -> NoDup (map key (kdelete key k l)).
Proof. rewrite keys_kdelete. apply NoDup_filter. Qed.

Lemma kdelete_notin k l : k ∉ map key l -> kdelete key k l = l.
Proof.
  unfold kdelete. induction l as [|a l IH]; simpl; intros Hin; [done|].
  apply not_elem_of_cons in Hin as [Hne Hin].
  rewrite filter_cons, decide_True by congruence. f_equal. by apply IH.
Qed.

Lemma Forall_kdelete (P : E -> Prop) k l :
  Forall P l -> Forall P (kdelete key k l).
Proof.
  intros Hl. apply Forall_forall. intros x Hx.
  apply elem_of_kdelete in Hx as [Hx _]. by eapply Forall_forall in Hl.
Qed.

Section Update.
Variable f : E -> E.
Hypothesis f_key : forall e, key (f e) = key e.

Lemma keys_kupdate k l : map key (kupdate key k f l) = map key l.
Proof.
  induction l as [|a l IH]; simpl; [done|].
  destruct (decide (key a = k)); simpl; [by rewrite f_key|by rewrite IH].
Qed.

Lemma kget_kupdate_eq k l :
  kget key k (kupdate key k f l) = f <$> kget key k l.
Proof.
  induction l as [|a l IH]; simpl; [done|].
  destruct (decide (key a = k)) as [Heq|Hne]; simpl.
  - by rewrite f_key, decide_True.
  - by rewrite decide_False.
Qed.

Lemma kget_kupdate_ne k k' l :
  k' <> k -> kget key k' (kupdate key k f l) = kget key k' l.
Proof.
  intros Hne. induction l as [|a l IH]; simpl; [done|].
  destruct (decide (key a = k)) as [Heq|Hne']; simpl.
  - rewrite f_key. rewrite !decide_False; congruence.
  - destruct (decide (key a = k')); [done | apply IH].
Qed.
End Update.

Lemma elem_of_kupdate f k l e' :
  e' ∈ kupdate key k f l ->
  e' ∈ l \/ exists e, e ∈ l /\ key e = k /\ e' = f e.
Proof.
  induction l as [|a l IH]; simpl; [intros Hin; by left|].
  destruct (decide (key a = k)); rewrite !elem_of_cons.
  - intros [->|Hin]; [right; exists a; split; [left|done] | left; by right].
  - intros [->|Hin]; [left; by left|].
    destruct (IH Hin) as [?|(e & ? & ? & ?)]; [left; by right|].
    right. exists e. split; [by right | done].
Qed.

Lemma Forall_kupdate (P : E -> Prop) f k l :
  (forall e, e ∈ l -> key e = k -> P e -> P (f e)) ->
  Forall P l -> Forall P (kupdate key k f l).
Proof.
  intros Hf Hl. apply Forall_forall. intros x Hx.
  apply elem_of_kupdate in Hx as [Hx|(e & He & Hk & ->)].
  - by eapply Forall_forall in Hl.
  - apply Hf; [done..|]. by eapply Forall_forall in Hl.
Qed.

Lemma kupdate_notin f k l : k ∉ map key l -> kupdate key k f l = l.
Proof.
  induction l as [|a l IH]; simpl; intros Hin; [done|].
  apply not_elem_of_cons in Hin as [Hne Hin].
  rewrite decide_False by congruence. f_equal. by apply IH.
Qed.

Lemma length_kupdate f k l : length (kupdate key k f l) = length l.
Proof.
  induction l as [|a l IH]; simpl; [done|].
  destruct (decide (key a = k)); simpl; by rewrite ?IH.
Qed.
End KeyedListFacts.

(** ** Typed arrays *)

Lemma arr_get_set_eq a i v :
  0 <= i < Z.of_nat (length a) -> arr_get (arr_set a i v) i = Some v.
Proof.
  intros Hi. unfold arr_get, arr_set. rewrite !decide_True by lia.
  apply list_lookup_insert_eq. lia.
Qed.

Lemma arr_get_set_ne a i j v : i <> j -> arr_get (arr_set a i v) j = arr_get a j.
Proof.
  intros Hne. unfold arr_get, arr_set.
  destruct (decide (0 <= i)); [|done].
  destruct (decide (0 <= j)); [|done].
  apply list_lookup_insert_ne. lia.
Qed.

Lemma arr_get_set a i j v :
  arr_get (arr_set a i v) j =
  if decide (i = j /\ 0 <= i < Z.of_nat (length a)) then Some v
  else arr_get a j.
Proof.
  destruct (decide (i = j)) as [->|Hne].
  - destruct (decide (0 <= j < Z.of_nat (length a))) as [Hr|Hr].
    + rewrite decide_True by done. by apply arr_get_set_eq.
    + rewrite decide_False by tauto. unfold arr_get, arr_set.
      destruct (decide (0 <= j)); [|done].
      rewrite list_insert_ge by lia. done.
  - rewrite decide_False by tauto. by apply arr_get_set_ne.
Qed.

Lemma length_arr_set a i v : length (arr_set a i v) = length a.
Proof. unfold arr_set. destruct (decide (0 <= i)); [apply length_insert|done]. Qed.

Lemma arr_get_is_Some a i :
  is_Some (arr_get a i) <-> 0 <= i < Z.of_nat (length a).
Proof.
  unfold arr_get. destruct (decide (0 <= i)).
  - rewrite lookup_lt_is_Some. lia.
  - split; [intros [? [=]] | lia].
Qed.


(** ** Geometry of the grid *)

Section Geometry.
Variable gridSize : Z.
Variable params : SimulationParams.
Hypothesis gridSize_pos : 0 < gridSize.

Local Abbreviation idx := (idx gridSize).
Local Abbreviation wrapCoord := (wrapCoord gridSize).
Local Abbreviation applyBoundary := (applyBoundary gridSize params).
Local Abbreviation neighbors8 := (neighbors8 gridSize params).
Local Abbreviation inb := (inb gridSize).
Local Abbreviation adj := (adj gridSize params).

Lemma wrapCoord_mod v : wrapCoord v = v mod gridSize.
Proof.
  unfold def_wrapCoord. cbv zeta.
  pose proof (Z.quot_rem' v gridSize) as Hqr.
  destruct (Z.ltb_spec (Z.rem v gridSize) 0) as [Hneg|Hpos].
  - assert (- gridSize < Z.rem v gridSize).
    { pose proof (Z.rem_bound_abs v gridSize ltac:(lia)). lia. }
    apply (Z.mod_unique v gridSize (v ÷ gridSize - 1)); lia.
  - assert (Z.rem v gridSize < gridSize).
    { pose proof (Z.rem_bound_abs v gridSize ltac:(lia)). lia. }
    apply (Z.mod_unique v gridSize (v ÷ gridSize)); lia.
Qed.

Lemma applyBoundary_spec x y c :
  applyBoundary x y = Some c <->
  match boundaryMode params with
  | wrap => c = (x mod gridSize, y mod gridSize)
  | closed => c = (x, y) /\ inb (x, y)
  end.
Proof.
  unfold def_applyBoundary, boundX, boundY, def_inb.
  destruct (boundaryMode params); simpl.
  - rewrite !wrapCoord_mod. naive_solver.
  - destruct (Z.leb_spec 0 x), (Z.ltb_spec x gridSize),
      (Z.leb_spec 0 y), (Z.ltb_spec y gridSize); simpl;
      split; (try by intros [= <-]); try (intros [-> ?]; lia);
      try (intros [-> ?]; done).
Qed.

Lemma applyBoundary_inb x y c : applyBoundary x y = Some c -> inb c.
Proof.
  rewrite applyBoundary_spec. destruct (boundaryMode params).
  - intros ->. unfold def_inb. simpl.
    pose proof (Z.mod_pos_bound x gridSize gridSize_pos).
    pose proof (Z.mod_pos_bound y gridSize gridSize_pos). lia.
  - by intros [-> ?].
Qed.

Lemma applyBoundary_id c : inb c -> applyBoundary c.1 c.2 = Some c.
Proof.
  intros [Hx Hy]. apply applyBoundary_spec. destruct (boundaryMode params).
  - rewrite !Z.mod_small by lia. by destruct c.
  - split; [by destruct c | done].
Qed.

Lemma idx_inj c c' : inb c -> inb c' -> idx c.1 c.2 = idx c'.1 c'.2 -> c = c'.
Proof.
  destruct c as [x y], c' as [x' y']. unfold def_inb, def_idx. simpl.
  intros [Hx Hy] [Hx' Hy'] Heq.
  assert (y = y') by nia. subst. assert (x = x') by lia. by subst.
Qed.

Lemma idx_range c : inb c -> 0 <= idx c.1 c.2 < gridSize * gridSize.
Proof. destruct c as [x y]. unfold def_inb, def_idx. simpl. nia. Qed.

Lemma adj_spec c c' :
  adj c c' <->
  exists d, d ∈ around8 /\ applyBoundary (c.1 + d.1) (c.2 + d.2) = Some c'.
Proof. unfold def_adj, def_neighbors8. by rewrite list_elem_of_omap. Qed.

Lemma adj_inb c c' : adj c c' -> inb c'.
Proof. rewrite adj_spec. intros (d & _ & Hd). by eapply applyBoundary_inb. Qed.

(** A translation by a heading carries neighbours to neighbours. *)
Lemma adj_translate dx dy c c' tc tc' :
  adj c c' ->
  applyBoundary (c.1 + dx) (c.2 + dy) = Some tc ->
  applyBoundary (c'.1 + dx) (c'.2 + dy) = Some tc' ->
  adj tc tc'.
Proof.
  rewrite !adj_spec. intros (d & Hd & Hc') Htc Htc'. exists d. split; [done|].
  apply applyBoundary_spec. apply applyBoundary_spec in Hc', Htc, Htc'.
  destruct (boundaryMode params).
  - assert (forall a b e, ((a + b) mod gridSize + e) mod gridSize
                          = ((a + e) mod gridSize + b) mod gridSize) as Hm.
    { intros a b e. rewrite !Zplus_mod_idemp_l. f_equal. lia. }
    subst. simpl. f_equal; apply Hm.
  - destruct Hc' as [-> _], Htc as [-> _], Htc' as [-> Hin]. simpl in *.
    split; [f_equal; lia|]. unfold def_inb in *. simpl in *. lia.
Qed.

(** In the grid a translation is one-to-one. *)
Lemma translate_inj dx dy c c' tc :
  inb c -> inb c' ->
  applyBoundary (c.1 + dx) (c.2 + dy) = Some tc ->
  applyBoundary (c'.1 + dx) (c'.2 + dy) = Some tc ->
  c = c'.
Proof.
  intros [Hx Hy] [Hx' Hy'] Htc Htc'.
  apply applyBoundary_spec in Htc, Htc'.
  destruct c as [x y], c' as [x' y']. simpl in *.
  destruct (boundaryMode params).
  - subst tc. injection Htc' as H1 H2.
    assert (forall a b d, 0 <= a < gridSize -> 0 <= b < gridSize ->
              (a + d) mod gridSize = (b + d) mod gridSize -> a = b) as Hm.
    { intros a b d Ha Hb Hab.
      assert ((a - b) mod gridSize = 0) as H0.
      { replace (a - b) with ((a + d) - (b + d)) by lia.
        rewrite Zminus_mod, Hab, Z.sub_diag. by apply Z.mod_0_l; lia. }
      pose proof (Z.div_mod (a - b) gridSize ltac:(lia)) as Hdm.
      rewrite H0 in Hdm.
      destruct (Z.lt_trichotomy ((a - b) / gridSize) 0) as [?|[?|?]]; nia. }
    f_equal; eapply Hm; eauto.
  - destruct Htc as [-> _], Htc' as [[= ? ?] _]. f_equal; lia.
Qed.
End Geometry.

(** ** The movement resolver: scoring and winners *)














Lemma kget_fst_pair {K V} `{EqDecision K} (k : K) (m : list (K * V)) e :
  kget fst k m = Some e -> e = (k, e.2).
Proof. intros Hg. apply kget_Some in Hg as [_ <-]. by destruct e. Qed.





Section ProposalFacts.
Variable gridSize : Z.
Variable params : SimulationParams.

Local Abbreviation propose := (propose gridSize params).
Local Abbreviation collectProposals := (collectProposals gridSize params).




(** *** The static reservation set *)








Lemma commitOf_Some pbo winners org c :
  commitOf pbo winners org = Some c ->
  c_org c = org /\ c_oldPixels c = pixels org
  /\ kget fst (id org) pbo = Some (id org, c_props c)
  /\ length (c_props c) = length (pixels org)
  /\ forall p, p ∈ c_props c -> winners !! (nx p, ny p) = Some (id org).
Proof.
  unfold commitOf. destruct (kget fst (id org) pbo) as [[i props]|] eqn:Hg; [|done].
  destruct (Z.eqb_spec (Z.of_nat (length props)) (pix_size org)) as [Hl|Hl];
    simpl; [|done].
  destruct (forallb (granted winners org) props) eqn:Hf; [|done].
  intros [= <-]. simpl. split; [done|]. split; [done|].
  split; [by rewrite (kget_fst_pair _ _ _ Hg)|].
  split; [unfold pix_size in Hl; lia|].
  intros p Hp. rewrite forallb_forall in Hf.
  apply list_elem_of_In in Hp. specialize (Hf p Hp).
  unfold granted in Hf. by apply bool_decide_eq_true in Hf.
Qed.
End ProposalFacts.



(** ** Operations that only read random numbers *)

(** [s'] is [s] after some calls to [Math.random()]. *)
Definition rng_only (s s' : Simulation) : Prop :=
  exists n, s' = set_rngCalls n s.

Lemma rng_only_refl s : rng_only s s.
Proof. exists (rngCalls s). by destruct s. Qed.

Lemma rng_only_trans s1 s2 s3 : rng_only s1 s2 -> rng_only s2 s3 -> rng_only s1 s3.
Proof. intros [n ->] [m ->]. by exists m. Qed.

Section RngFacts.
Variable gridSize : Z.
Variable params : SimulationParams.
Variable rand : nat -> Q.

Lemma random_rng s : rng_only s (random rand s).2.
Proof. by eexists. Qed.

Lemma randomDirection_rng s : rng_only s (randomDirection rand s).2.
Proof. unfold randomDirection. simpl. by eexists. Qed.

Lemma genome_place_rng cellCount ns g s :
  rng_only s (genome_place rand cellCount ns g s).2.
Proof.
  revert g s. induction ns as [|n ns IH]; intros g s; simpl.
  - apply rng_only_refl.
  - destruct (cellCount <=? g_placed g); [apply rng_only_refl|].
    destruct (Qltb (4 # 10) (rand (rngCalls s)));
      (eapply rng_only_trans; [apply random_rng | apply IH]).
Qed.

Lemma genome_loop_rng fuel sz cellCount g s :
  rng_only s (genome_loop rand fuel sz cellCount g s).2.
Proof.
  revert g s. induction fuel as [|fuel IH]; intros g s; simpl.
  - apply rng_only_refl.
  - destruct (g_placed g <? cellCount); [|apply rng_only_refl].
    destruct (g_queue g) as [|current q]; [apply rng_only_refl|].
    destruct (genome_place rand cellCount _ _ s) as [g1 s1] eqn:Hp.
    eapply rng_only_trans; [|apply IH].
    pose proof (genome_place_rng cellCount
                  (genome_neighbors sz current (g_visited g))
                  {| g_pattern := g_pattern g; g_placed := g_placed g;
                     g_queue := q; g_visited := g_visited g |} s) as Hr.
    by rewrite Hp in Hr.
Qed.

Lemma generateGenome_rng s : rng_only s (generateGenome rand s).2.
Proof.
  unfold generateGenome. cbv zeta.
  destruct (random rand s) as [r s1] eqn:Hr.
  destruct (genome_loop rand _ _ _ _ s1) as [g s2] eqn:Hl. simpl.
  eapply rng_only_trans.
  - pose proof (random_rng s) as H0. rewrite Hr in H0. exact H0.
  - pose proof (genome_loop_rng (Z.to_nat (7 * 7)) 7 (10 + Qfloor (r * 15))
                  {| g_pattern :=
                       <[Z.to_nat (7 * 7 / 2) := 1]>
                         (replicate (Z.to_nat (7 * 7)) 0);
                     g_placed := 1; g_queue := [7 * 7 / 2];
                     g_visited := {[7 * 7 / 2]} |} s1) as H0.
    rewrite Hl in H0. exact H0.
Qed.

Lemma mutateCells_rng center i p s :
  rng_only s (mutateCells params rand center i p s).2.
Proof.
  revert i s. induction p as [|c p IH]; intros i s; simpl.
  - apply rng_only_refl.
  - destruct (decide (i = center)).
    + specialize (IH (S i) s).
      destruct (mutateCells params rand center (S i) p s). exact IH.
    + specialize (IH (S i) (set_rngCalls (S (rngCalls s)) s)).
      destruct (mutateCells params rand center (S i) p _). simpl in *.
      eapply rng_only_trans; [apply random_rng | exact IH].
Qed.

Lemma mutateGenome_rng gen s : rng_only s (mutateGenome params rand gen s).2.
Proof.
  unfold mutateGenome.
  pose proof (mutateCells_rng (length (pattern gen) / 2)%nat 0 (pattern gen) s).
  by destruct (mutateCells _ _ _ _ _ s).
Qed.

Lemma shuffle_rng {A} i (l : list A) s : rng_only s (shuffle rand i l s).2.
Proof.
  revert l s. induction i as [|i IH]; intros l s; simpl.
  - apply rng_only_refl.
  - eapply rng_only_trans; [apply random_rng | apply IH].
Qed.
End RngFacts.

(** ** createOrganism *)

Section CreateFacts.
Variable gridSize : Z.
Variable params : SimulationParams.
Variable rand : nat -> Q.

Local Abbreviation applyBoundary := (applyBoundary gridSize params).
Local Abbreviation gridAt := (gridAt gridSize).
Local Abbreviation idx := (idx gridSize).

Lemma spawn_blocked_true s ex ey :
  spawn_blocked gridSize params s ex ey = true <->
  exists d n, d ∈ around9
              /\ applyBoundary (ex + d.1) (ey + d.2) = Some n
              /\ gridAt s n.1 n.2 <> Some 0.
Proof.
  unfold spawn_blocked. rewrite existsb_exists. split.
  - intros (d & Hd & Hb). apply list_elem_of_In in Hd.
    destruct (applyBoundary (ex + d.1) (ey + d.2)) as [[n1 n2]|] eqn:Hn; [|done].
    exists d, (n1, n2). split; [done|]. split; [done|]. simpl.
    apply negb_true_iff, bool_decide_eq_false in Hb. exact Hb.
  - intros (d & [n1 n2] & Hd & Hn & Hg). exists d.
    split; [by apply list_elem_of_In|]. rewrite Hn.
    apply negb_true_iff, bool_decide_eq_false. exact Hg.
Qed.

Lemma spawn_blocked_false s ex ey :
  spawn_blocked gridSize params s ex ey = false <->
  forall d n, d ∈ around9 ->
              applyBoundary (ex + d.1) (ey + d.2) = Some n ->
              gridAt s n.1 n.2 = Some 0.
Proof.
  split.
  - intros Hb d n Hd Hn.
    destruct (decide (gridAt s n.1 n.2 = Some 0)) as [|Hne]; [done|].
    assert (spawn_blocked gridSize params s ex ey = true) as Ht.
    { apply spawn_blocked_true. by exists d, n. }
    congruence.
  - intros Hall. apply not_true_is_false. intros Ht.
    apply spawn_blocked_true in Ht as (d & n & Hd & Hn & Hg).
    apply Hg. by eapply Hall.
Qed.

(** What a successful [createOrganism] does, for the target [(ex, ey)]
    on the grid. *)
Lemma createOrganism_Some x y genome0 energy0 s org s' :
  createOrganism gridSize params rand x y genome0 energy0 s = (Some org, s') ->
  exists ex ey,
    applyBoundary x y = Some (ex, ey)
    /\ spawn_blocked gridSize params s ex ey = false
    /\ id org = nextID s /\ eyeX org = ex /\ eyeY org = ey
    /\ pixels org = [((ex, ey), totalCells (genome org))]
    /\ (match genome0 with
        | Some g => genome org = g
        | None => genome org = (generateGenome rand (set_nextID (nextID s + 1) s)).1
        end)
    /\ energy org = default (400 # 1) energy0
    /\ growthStage org = 0
    /\ stamina org = staminaMax params
    /\ grid s' = arr_set (grid s) (idx ex ey) (nextID s)
    /\ pixelHP s' =
       arr_set (pixelHP s) (idx ex ey) (toUint16 (totalCells (genome org)))
    /\ organisms s' = kset id org (organisms s)
    /\ nextID s' = nextID s + 1
    /\ foodPixels s' = foodPixels s
    /\ obstacleKeys s' = obstacleKeys s
    /\ envEnergy s' = envEnergy s
    /\ tick s' = tick s.
Proof.
  unfold createOrganism.
  destruct (applyBoundary x y) as [[ex ey]|] eqn:Hb; [|done].
  destruct (spawn_blocked gridSize params s ex ey) eqn:Hs; [done|].
  cbv zeta.
  assert (exists gen s2,
             match genome0 with
             | Some g => (g, set_nextID (nextID s + 1) s)
             | None => generateGenome rand (set_nextID (nextID s + 1) s)
             end = (gen, s2)
             /\ rng_only (set_nextID (nextID s + 1) s) s2
             /\ match genome0 with
                | Some g => gen = g
                | None =>
                    gen = (generateGenome rand (set_nextID (nextID s + 1) s)).1
                end) as (gen & s2 & Hgen & [n ->] & Hg).
  { destruct genome0 as [g|].
    - exists g, (set_nextID (nextID s + 1) s).
      split; [done|]. split; [apply rng_only_refl | done].
    - pose proof (generateGenome_rng rand (set_nextID (nextID s + 1) s)) as Hr.
      destruct (generateGenome rand (set_nextID (nextID s + 1) s)) as [g s2].
      by exists g, s2. }
  rewrite Hgen. simpl. intros [= <- <-]. exists ex, ey. simpl.
  repeat split; try done.
Qed.

Lemma createOrganism_None x y genome0 energy0 s s' :
  createOrganism gridSize params rand x y genome0 energy0 s = (None, s') ->
  s' = s
  /\ (applyBoundary x y = None
      \/ exists ex ey, applyBoundary x y = Some (ex, ey)
                       /\ spawn_blocked gridSize params s ex ey = true).
Proof.
  unfold createOrganism.
  destruct (applyBoundary x y) as [[ex ey]|] eqn:Hb;
    [|intros [= <-]; split; [done | by left]].
  destruct (spawn_blocked gridSize params s ex ey) eqn:Hs.
  - intros [= <-]. split; [done|]. right. by exists ex, ey.
  - cbv zeta.
    destruct (match genome0 with
              | Some g => (g, set_nextID (nextID s + 1) s)
              | None => generateGenome rand (set_nextID (nextID s + 1) s)
              end) as [gen s2].
    simpl. done.
Qed.
End CreateFacts.

(** C4, as the code has it.  [createOrganism] returns no organism and
    leaves the whole simulation unchanged exactly when the target is off
    the grid or one of the cells of the grid among the target and its
    eight neighbours is not empty; neighbours off the grid are skipped.
    Otherwise it returns the new organism, registered under the next id,
    whose only cell is the target: the grid holds the id there and nothing
    else of the grid changes, the organism's hit-points for the cell are
    the genome's [totalCells], and the hit-point array holds that number as
    a 16-bit value. *)
Theorem createOrganism_spec
    (gridSize : Z) (params : SimulationParams) (rand : nat -> Q)
    (x y : Z) (genome0 : option Genome) (energy0 : option Q)
    (s : Simulation) :
  0 < gridSize ->
  length (pixelHP s) = length (grid s) ->
  match createOrganism gridSize params rand x y genome0 energy0 s with
  | (None, s') =>
      s' = s
      /\ (applyBoundary gridSize params x y = None
          \/ exists ex ey d n,
              applyBoundary gridSize params x y = Some (ex, ey)
              /\ d ∈ around9
              /\ applyBoundary gridSize params (ex + d.1) (ey + d.2) = Some n
              /\ gridAt gridSize s n.1 n.2 <> Some 0)
  | (Some org, s') =>
      exists ex ey,
        applyBoundary gridSize params x y = Some (ex, ey)
        /\ (forall d n,
               d ∈ around9 ->
               applyBoundary gridSize params (ex + d.1) (ey + d.2) = Some n ->
               gridAt gridSize s n.1 n.2 = Some 0)
        /\ id org = nextID s
        /\ (eyeX org, eyeY org) = (ex, ey)
        /\ pixels org = [((ex, ey), totalCells (genome org))]
        /\ (forall g, genome0 = Some g -> genome org = g)
        /\ get_org (id org) s' = Some org
        /\ organisms s' = kset id org (organisms s)
        /\ grid s' = arr_set (grid s) (idx gridSize ex ey) (id org)
        /\ gridAt gridSize s' ex ey = Some (id org)
        /\ hpAt s' (idx gridSize ex ey) = toUint16 (totalCells (genome org))
  end.
Proof.
  intros Hpos Hlen.
  destruct (createOrganism gridSize params rand x y genome0 energy0 s)
    as [[org|] s'] eqn:Hc.
  - apply createOrganism_Some in Hc
      as (ex & ey & Hb & Hs & Hid & Hex & Hey & Hpix & Hgen & _ & _ & _
          & Hgrid & Hhp & Horgs & _).
    exists ex, ey. split; [done|].
    split; [by apply spawn_blocked_false|].
    split; [done|]. split; [by rewrite Hex, Hey|]. split; [done|].
    split; [intros g ->; done|].
    split; [unfold get_org; rewrite Horgs; apply kget_kset_eq|].
    split; [done|]. split; [by rewrite Hid|].
    assert (gridAt gridSize s ex ey = Some 0) as H0.
    { rewrite spawn_blocked_false in Hs.
      apply (Hs (0, 0) (ex, ey)); [set_solver|]. simpl.
      rewrite !Z.add_0_r.
      apply (applyBoundary_id gridSize params Hpos (ex, ey)).
      by eapply applyBoundary_inb. }
    assert (0 <= idx gridSize ex ey < Z.of_nat (length (grid s))) as Hr.
    { apply arr_get_is_Some. unfold gridAt in H0. rewrite H0. eauto. }
    split.
    + unfold gridAt. rewrite Hgrid, Hid. by apply arr_get_set_eq.
    + unfold hpAt. rewrite Hhp, arr_get_set_eq; [done | by rewrite Hlen].
  - apply createOrganism_None in Hc as [-> Hc]. split; [done|].
    destruct Hc as [?|(ex & ey & Hb & Hs)]; [by left|]. right.
    apply spawn_blocked_true in Hs as (d & n & ? & ? & ?).
    by exists ex, ey, d, n.
Qed.

Lemma createOrganism_spec_witness :
  exists org s',
    createOrganism 10 (arenaParams wrap) halfRandom 5 5 (Some singleCell)
      (Some (400 # 1)) (emptySimulation 10) = (Some org, s')
    /\ gridAt 10 s' 5 5 = Some (id org)
    /\ hpAt s' (idx 10 5 5) = 1.
Proof.
  pose proof (createOrganism_spec 10 (arenaParams wrap) halfRandom 5 5
                (Some singleCell) (Some (400 # 1)) (emptySimulation 10)
                ltac:(lia) ltac:(reflexivity)) as H.
  destruct (createOrganism 10 (arenaParams wrap) halfRandom 5 5
              (Some singleCell) (Some (400 # 1)) (emptySimulation 10))
    as [[org|] s'] eqn:Hc; [|vm_compute in Hc; discriminate].
  exists org, s'. split; [reflexivity|].
  destruct H as (ex & ey & Hb & _ & _ & _ & _ & Hg & _ & _ & _ & Hgrid & Hhp).
  vm_compute in Hb. injection Hb as <- <-.
  rewrite (Hg singleCell eq_refl) in Hhp. split; [exact Hgrid | exact Hhp].
Defined.

(** On a closed grid the corner [(0, 0)] has neighbours off the grid, and
    an organism is created there all the same. *)
Lemma createOrganism_border_counterexample :
  applyBoundary 3 (arenaParams closed) (0 + -1) (0 + -1) = None
  /\ is_Some
       (createOrganism 3 (arenaParams closed) halfRandom 0 0 (Some singleCell)
          (Some (400 # 1)) (emptySimulation 3)).1.
Proof. split; [reflexivity | vm_compute; eauto]. Qed.

(** ** The registry and the operations that remove cells *)

Lemma fold_left_preserves {A B} (Q : A -> Prop) (f : A -> B -> A) l a :
  (forall a b, Q a -> Q (f a b)) -> Q a -> Q (fold_left f l a).
Proof.
  intros Hf. revert a. induction l as [|b l IH]; intros a Ha; simpl; [done|].
  apply IH. by apply Hf.
Qed.

Lemma fold_left_preserves_in {A B} (Q : A -> Prop) (f : A -> B -> A) l a :
  (forall a b, b ∈ l -> Q a -> Q (f a b)) -> Q a -> Q (fold_left f l a).
Proof.
  revert a. induction l as [|b l IH]; intros a Hf Ha; simpl; [done|].
  apply IH; [intros a' b' Hb'; apply Hf; by right|]. apply Hf; [left|done].
Qed.

(** A property of an organism that no assignment to its cells, energy,
    speed, hunger, heading, age or counters can break: it depends on the
    id, the eye, the genome, the growth stage and the stamina only. *)
Record stable (P : Organism -> Prop) : Prop := {
  stable_pixels : forall p o, P o -> P (set_pixels p o);
  stable_energy : forall e o, P o -> P (set_energy e o);
  stable_moveSpeed : forall v o, P o -> P (set_moveSpeed v o);
  stable_hunger : forall h o, P o -> P (set_hunger h o);
  stable_direction : forall d o, P o -> P (set_direction d o);
  stable_age : forall a o, P o -> P (set_age a o);
  stable_stuckCounter : forall c o, P o -> P (set_stuckCounter c o);
  stable_movedThisTick : forall b o, P o -> P (set_movedThisTick b o)
}.

Section RegistryFacts.
Variable gridSize : Z.
Variable params : SimulationParams.

Local Abbreviation toFood := (toFood gridSize params).
Local Abbreviation removeOrganism := (removeOrganism gridSize params).
Local Abbreviation checkConnectivity := (checkConnectivity gridSize params).
Local Abbreviation detach := (detach gridSize params).

Lemma get_org_update_eq i f s :
  (forall o, id (f o) = id o) ->
  get_org i (update_org i f s) = f <$> get_org i s.
Proof. intros Hf. unfold get_org, update_org. simpl. by apply kget_kupdate_eq. Qed.

Lemma get_org_update_ne i j f s :
  (forall o, id (f o) = id o) -> j <> i ->
  get_org j (update_org i f s) = get_org j s.
Proof.
  intros Hf Hne. unfold get_org, update_org. simpl. by apply kget_kupdate_ne.
Qed.

Lemma get_org_id i s o : get_org i s = Some o -> id o = i.
Proof. intros Hg. by apply kget_Some in Hg as [_ ?]. Qed.

Lemma get_org_in i s o : get_org i s = Some o -> o ∈ organisms s.
Proof. intros Hg. by apply kget_Some in Hg as [? _]. Qed.

Lemma toFood_fold_organisms keys s :
  organisms (fold_left toFood keys s) = organisms s.
Proof. by apply fold_left_preserves. Qed.


Lemma removeOrganism_organisms i s :
  organisms (removeOrganism i s) = kdelete id i (organisms s).
Proof.
  unfold def_removeOrganism. destruct (get_org i s) eqn:Hg; simpl.
  - by rewrite toFood_fold_organisms.
  - symmetry. apply kdelete_notin. by apply kget_None.
Qed.


Lemma get_org_remove_eq i s : get_org i (removeOrganism i s) = None.
Proof. unfold get_org. rewrite removeOrganism_organisms. apply kget_kdelete_eq. Qed.

Lemma get_org_remove_ne i j s :
  j <> i -> get_org j (removeOrganism i s) = get_org j s.
Proof.
  intros Hne. unfold get_org. rewrite removeOrganism_organisms.
  by apply kget_kdelete_ne.
Qed.

Lemma detach_fold_others i reachable keys s j :
  j <> i ->
  get_org j (fold_left (detach i reachable) keys s) = get_org j s.
Proof.
  intros Hne. revert s. induction keys as [|k keys IH]; intros s; simpl; [done|].
  rewrite IH. unfold def_detach.
  destruct (decide (k ∈ reachable)); [done|].
  by rewrite get_org_update_ne.
Qed.


(** The connectivity check of an organism leaves the others and the
    pool as they are. *)
Lemma checkConnectivity_others i j s :
  j <> i -> get_org j (checkConnectivity i s) = get_org j s.
Proof.
  intros Hne. unfold def_checkConnectivity.
  destruct (get_org i s) as [org|]; [|done].
  destruct (pix_size org =? 0); [by apply get_org_remove_ne|].
  destruct (negb (pix_has (eyeX org, eyeY org) org));
    [by apply get_org_remove_ne|].
  cbv zeta.
  destruct (get_org i (fold_left _ (pix_keys org) s)) as [org1|];
    [|by apply detach_fold_others].
  destruct (pix_size org1 =? 0); [rewrite get_org_remove_ne by done|];
    by apply detach_fold_others.
Qed.


(** *** Properties that hold of every registered organism *)

Section Stable.
Variable P : Organism -> Prop.
Hypothesis P_stable : stable P.

Definition all_orgs (s : Simulation) : Prop := Forall P (organisms s).

Lemma all_orgs_update i f s :
  (forall o, P o -> P (f o)) -> all_orgs s -> all_orgs (update_org i f s).
Proof. intros Hf Hs. apply Forall_kupdate; [|done]. intros o _ _. apply Hf. Qed.

Lemma all_orgs_get i s o : all_orgs s -> get_org i s = Some o -> P o.
Proof.
  intros Hs Hg. apply get_org_in in Hg. by eapply Forall_forall in Hs.
Qed.

Lemma all_orgs_toFood_fold keys s :
  all_orgs s -> all_orgs (fold_left toFood keys s).
Proof. unfold all_orgs. by rewrite toFood_fold_organisms. Qed.

Lemma all_orgs_removeOrganism i s :
  all_orgs s -> all_orgs (removeOrganism i s).
Proof.
  unfold all_orgs. rewrite removeOrganism_organisms. apply Forall_kdelete.
Qed.

Lemma all_orgs_detach_fold i reachable keys s :
  all_orgs s -> all_orgs (fold_left (detach i reachable) keys s).
Proof.
  apply fold_left_preserves. intros a k Ha. unfold def_detach.
  destruct (decide (k ∈ reachable)); [done|].
  apply all_orgs_update; [|done]. intros o. apply (stable_pixels P P_stable).
Qed.

Lemma all_orgs_checkConnectivity i s :
  all_orgs s -> all_orgs (checkConnectivity i s).
Proof.
  intros Hs. unfold def_checkConnectivity.
  destruct (get_org i s) as [org|]; [|done].
  destruct (pix_size org =? 0); [by apply all_orgs_removeOrganism|].
  destruct (negb (pix_has (eyeX org, eyeY org) org));
    [by apply all_orgs_removeOrganism|].
  cbv zeta.
  destruct (get_org i (fold_left _ (pix_keys org) s)) as [org1|];
    [|by apply all_orgs_detach_fold].
  destruct (pix_size org1 =? 0); [apply all_orgs_removeOrganism|];
    by apply all_orgs_detach_fold.
Qed.
End Stable.
End RegistryFacts.

(** ** Combat and feeding *)

Section CombatFacts.
Variable gridSize : Z.
Variable params : SimulationParams.

Local Abbreviation attack := (attack gridSize params).
Local Abbreviation absorbAt := (absorbAt gridSize params).
Local Abbreviation idx := (idx gridSize).








End CombatFacts.





Lemma Qltb_true a b : Qltb a b = true <-> (a < b)%Q.
Proof.
  unfold Qltb. rewrite negb_true_iff. split.
  - intros Hb. apply Qnot_le_lt. intros Hle. apply Qle_bool_iff in Hle. congruence.
  - intros Hlt. apply not_true_is_false. intros Hle.
    apply Qle_bool_iff in Hle. lra.
Qed.

Lemma Qltb_false a b : Qltb a b = false <-> (b <= a)%Q.
Proof.
  unfold Qltb. rewrite negb_false_iff. apply Qle_bool_iff.
Qed.

Lemma Qleb_true a b : Qleb a b = true <-> (a <= b)%Q.
Proof. apply Qle_bool_iff. Qed.

Lemma Qleb_false a b : Qleb a b = false <-> (b < a)%Q.
Proof.
  unfold Qleb. split.
  - intros Hb. apply Qnot_le_lt. intros Hle. apply Qle_bool_iff in Hle. congruence.
  - intros Hlt. apply not_true_is_false. intros Hle.
    apply Qle_bool_iff in Hle. lra.
Qed.




(** ** Cells handed to the environment *)

Section ToFoodFacts.
Variable gridSize : Z.
Variable params : SimulationParams.

Local Abbreviation toFood := (toFood gridSize params).
Local Abbreviation idx := (idx gridSize).

Definition cellIdx (c : Cell) : Z := def_idx gridSize c.1 c.2.

Lemma toFood_fold_length_grid keys s :
  length (grid (fold_left toFood keys s)) = length (grid s).
Proof.
  apply (fold_left_preserves (fun s' => length (grid s') = length (grid s)));
    [|done].
  intros a k Ha. simpl. by rewrite length_arr_set.
Qed.

Lemma toFood_fold_length_pixelHP keys s :
  length (pixelHP (fold_left toFood keys s)) = length (pixelHP s).
Proof.
  apply (fold_left_preserves
           (fun s' => length (pixelHP s') = length (pixelHP s))); [|done].
  intros a k Ha. simpl. by rewrite length_arr_set.
Qed.

Lemma toFood_grid s k :
  grid (toFood s k) = arr_set (grid s) (idx k.1 k.2) (-1).
Proof. reflexivity. Qed.

Lemma toFood_pixelHP s k :
  pixelHP (toFood s k) = arr_set (pixelHP s) (idx k.1 k.2) 1.
Proof. reflexivity. Qed.

Lemma toFood_foodPixels s k :
  foodPixels (toFood s k)
  = kset fst (k, foodDecayTicks params) (foodPixels s).
Proof. reflexivity. Qed.

(** A loop that writes the same value at the cell of each key. *)
Lemma fold_write_const (proj : Simulation -> list Z)
    (g : Simulation -> Cell -> Simulation) (v : Z) :
  (forall s k, proj (g s k) = arr_set (proj s) (cellIdx k) v) ->
  forall keys s j,
    arr_get (proj (fold_left g keys s)) j
    = if decide (j ∈ map cellIdx keys /\ 0 <= j < Z.of_nat (length (proj s)))
      then Some v else arr_get (proj s) j.
Proof.
  intros Hg keys. induction keys as [|k keys IH]; intros s j; cbn [fold_left map].
  - rewrite decide_False; [done|]. intros [Hin _]. by apply elem_of_nil in Hin.
  - rewrite IH. rewrite Hg, length_arr_set.
    destruct (decide (0 <= j < Z.of_nat (length (proj s)))) as [Hr|Hr].
    + destruct (decide (j ∈ map cellIdx keys)) as [Hin|Hin].
      * rewrite !decide_True; [done| |done]. split; [by right|done].
      * rewrite decide_False by tauto. rewrite arr_get_set.
        destruct (decide (cellIdx k = j)) as [Heq|Hne].
        -- rewrite !decide_True; [done| |]; [split; [|done]|by rewrite Heq].
           rewrite <- Heq. left.
        -- rewrite !decide_False; [done| |tauto].
           intros [Hin' _]. apply elem_of_cons in Hin' as [?|?]; [|done].
           by apply Hne.
    + rewrite !decide_False by tauto. rewrite arr_get_set.
      rewrite decide_False; [done|]. intros [<- ?]. done.
Qed.

Lemma fold_write_length (proj : Simulation -> list Z)
    (g : Simulation -> Cell -> Simulation) :
  (forall s k, length (proj (g s k)) = length (proj s)) ->
  forall keys s, length (proj (fold_left g keys s)) = length (proj s).
Proof.
  intros Hg keys s.
  apply (fold_left_preserves (fun s' => length (proj s') = length (proj s)));
    [|done].
  intros a k Ha. by rewrite Hg.
Qed.

Lemma toFood_fold_grid keys s j :
  arr_get (grid (fold_left toFood keys s)) j
  = if decide (j ∈ map cellIdx keys /\ 0 <= j < Z.of_nat (length (grid s)))
    then Some (-1) else arr_get (grid s) j.
Proof. by apply (fold_write_const grid). Qed.

Lemma toFood_fold_pixelHP keys s j :
  arr_get (pixelHP (fold_left toFood keys s)) j
  = if decide (j ∈ map cellIdx keys /\ 0 <= j < Z.of_nat (length (pixelHP s)))
    then Some 1 else arr_get (pixelHP s) j.
Proof. by apply (fold_write_const pixelHP). Qed.

Lemma toFood_fold_food keys s k :
  kget fst k (foodPixels (fold_left toFood keys s))
  = if decide (k ∈ keys) then Some (k, foodDecayTicks params)
    else kget fst k (foodPixels s).
Proof.
  revert s. induction keys as [|a keys IH]; intros s; cbn [fold_left].
  - rewrite decide_False; [done | apply not_elem_of_nil].
  - rewrite IH. destruct (decide (k ∈ keys)) as [Hin|Hin].
    + rewrite decide_True; [done | by right].
    + rewrite toFood_foodPixels. destruct (decide (k = a)) as [->|Hne].
      * rewrite decide_True by left.
        apply (kget_kset_eq fst (a, foodDecayTicks params)).
      * rewrite decide_False.
        -- by rewrite kget_kset_ne.
        -- intros Hin'. apply elem_of_cons in Hin' as [?|?]; done.
Qed.
End ToFoodFacts.

(** C8.  A connectivity check that finds the pixel set of the organism
    empty, or its eye cell absent from it, removes the organism from the
    registry, and every cell the organism still owned is registered as food
    with the decay timer [foodDecayTicks], its grid code becoming [-1] and
    its hit-points [1]. *)
Theorem connectivity_check_destroys
    (gridSize : Z) (params : SimulationParams) (i : Z) (org : Organism)
    (s : Simulation) :
  get_org i s = Some org ->
  length (pixelHP s) = length (grid s) ->
  pixels org = [] \/ pix_has (eyeX org, eyeY org) org = false ->
  get_org i (checkConnectivity gridSize params i s) = None
  /\ forall key,
      key ∈ pix_keys org ->
      kget fst key (foodPixels (checkConnectivity gridSize params i s))
      = Some (key, foodDecayTicks params)
      /\ (is_Some (gridAt gridSize s key.1 key.2) ->
          gridAt gridSize (checkConnectivity gridSize params i s) key.1 key.2
          = Some (-1)
          /\ hpAt (checkConnectivity gridSize params i s)
               (idx gridSize key.1 key.2) = 1).
Proof.
  intros Hg Hlen Hbad.
  assert (checkConnectivity gridSize params i s = removeOrganism gridSize params i s)
    as ->.
  { unfold checkConnectivity. rewrite Hg. destruct Hbad as [Hnil|Heye].
    - unfold pix_size. by rewrite Hnil.
    - destruct (pix_size org =? 0); [done|]. by rewrite Heye. }
  split; [apply get_org_remove_eq|].
  intros key Hin. unfold removeOrganism. rewrite Hg.
  change (foodPixels (set_organisms ?l ?s')) with (foodPixels s').
  unfold gridAt, hpAt.
  change (grid (set_organisms ?l ?s')) with (grid s').
  change (pixelHP (set_organisms ?l ?s')) with (pixelHP s').
  split.
  - rewrite toFood_fold_food. by rewrite decide_True.
  - intros Hr. apply arr_get_is_Some in Hr.
    assert (idx gridSize key.1 key.2 ∈ map (cellIdx gridSize) (pix_keys org))
      as Hin'.
    { apply list_elem_of_fmap. by exists key. }
    rewrite toFood_fold_grid, toFood_fold_pixelHP.
    rewrite !decide_True; [done | |done]. by rewrite Hlen.
Qed.

Lemma connectivity_check_destroys_witness :
  get_org 1
    (checkConnectivity 10 (arenaParams wrap) 1
       (set_organisms
          [set_pixels [((6, 5), 1)] (loneOrganism 1 5 5 (0, 0) (400 # 1))]
          (set_grid (arr_set (grid (emptySimulation 10)) 56 1)
             (emptySimulation 10)))) = None
  /\ gridAt 10
       (checkConnectivity 10 (arenaParams wrap) 1
          (set_organisms
             [set_pixels [((6, 5), 1)] (loneOrganism 1 5 5 (0, 0) (400 # 1))]
             (set_grid (arr_set (grid (emptySimulation 10)) 56 1)
                (emptySimulation 10)))) 6 5 = Some (-1).
Proof.
  destruct (connectivity_check_destroys 10 (arenaParams wrap) 1
              (set_pixels [((6, 5), 1)] (loneOrganism 1 5 5 (0, 0) (400 # 1)))
              (set_organisms
                 [set_pixels [((6, 5), 1)] (loneOrganism 1 5 5 (0, 0) (400 # 1))]
                 (set_grid (arr_set (grid (emptySimulation 10)) 56 1)
                    (emptySimulation 10))))
    as [Hgone Hfood]; [reflexivity | reflexivity | right; reflexivity |].
  split; [exact Hgone|].
  destruct (Hfood (6, 5)) as [_ Hcell]; [vm_compute; left|].
  destruct Hcell as [Hgrid _]; [vm_compute; eauto | exact Hgrid].
Defined.

(** ** Food decay *)

Section DecayFacts.
Variable gridSize : Z.
Variable params : SimulationParams.

Local Abbreviation expireFood := (expireFood gridSize params).
Local Abbreviation updateFoodDecay := (updateFoodDecay gridSize params).
Local Abbreviation cellIdx := (cellIdx gridSize).

(** The timer of an entry after the first loop. *)
Definition aged (k : Cell) (e : Cell * Z) : Cell * Z :=
  if decide (e.2 - 1 <= 0) then e else (k, e.2 - 1).

Lemma ageFood_fold l A D :
  NoDup (map fst l) ->
  (forall e, e ∈ l -> e.1 ∈ map fst A) ->
  (fold_left ageFood l (A, D)).2
  = D ++ map fst (filter (fun e => e.2 - 1 <= 0) l)
  /\ map fst (fold_left ageFood l (A, D)).1 = map fst A
  /\ forall k,
      kget fst k (fold_left ageFood l (A, D)).1
      = match kget fst k l with
        | Some e => if decide (e.2 - 1 <= 0) then kget fst k A
                    else Some (k, e.2 - 1)
        | None => kget fst k A
        end.
Proof.
  revert A D. induction l as [|e l IH]; intros A D Hnd Hin; cbn [fold_left].
  - simpl. by rewrite app_nil_r.
  - apply NoDup_cons in Hnd as [Hne Hnd]. unfold ageFood at 2 4 6.
    rewrite filter_cons. cbn [fst snd].
    destruct (Z.leb_spec (e.2 - 1) 0) as [Hexp|Hexp].
    + rewrite decide_True by done.
      destruct (IH A (D ++ [e.1]) Hnd) as (H1 & H2 & H3).
      { intros e' He'. apply Hin. by right. }
      split; [by rewrite H1, <- app_assoc|]. split; [done|].
      intros k. rewrite H3. cbn [kget].
      destruct (decide (e.1 = k)) as [<-|Hk].
      * rewrite decide_True by done.
        by rewrite (proj2 (kget_None fst e.1 l)).
      * done.
    + rewrite decide_False by lia.
      destruct (IH (kset fst (e.1, e.2 - 1) A) D Hnd) as (H1 & H2 & H3).
      { intros e' He'. rewrite keys_kset_in; [apply Hin; by right|].
        simpl. apply Hin. left. }
      split; [done|]. split.
      { rewrite H2. apply keys_kset_in. simpl. apply Hin. left. }
      intros k. rewrite H3. cbn [kget].
      destruct (decide (e.1 = k)) as [<-|Hk].
      * rewrite decide_False by lia.
        rewrite (proj2 (kget_None fst e.1 l)) by done.
        apply (kget_kset_eq fst (e.1, e.2 - 1)).
      * destruct (kget fst k l) as [e'|];
          [destruct (decide (e'.2 - 1 <= 0)); [|done]|];
          by rewrite kget_kset_ne.
Qed.

Lemma expire_fold_food D s k :
  kget fst k (foodPixels (fold_left expireFood D s))
  = if decide (k ∈ D) then None else kget fst k (foodPixels s).
Proof.
  revert s. induction D as [|d D IH]; intros s; cbn [fold_left].
  - rewrite decide_False; [done | apply not_elem_of_nil].
  - rewrite IH.
    change (foodPixels (expireFood s d))
      with (kdelete fst d (foodPixels s)).
    destruct (decide (k ∈ D)) as [Hin|Hin].
    + rewrite decide_True; [done | by right].
    + destruct (decide (k = d)) as [->|Hne].
      * rewrite decide_True by left. apply kget_kdelete_eq.
      * rewrite decide_False.
        -- by apply kget_kdelete_ne.
        -- intros Hin'. apply elem_of_cons in Hin' as [?|?]; done.
Qed.

Lemma expire_fold_keys D s :
  map fst (foodPixels (fold_left expireFood D s))
  = filter (fun k => k ∉ D) (map fst (foodPixels s)).
Proof.
  revert s. induction D as [|d D IH]; intros s; cbn [fold_left].
  - induction (map fst (foodPixels s)) as [|a l IHl]; [done|].
    rewrite filter_cons, decide_True by apply not_elem_of_nil. by f_equal.
  - rewrite IH.
    change (foodPixels (expireFood s d))
      with (kdelete fst d (foodPixels s)).
    rewrite keys_kdelete. induction (map fst (foodPixels s)) as [|a l IHl];
      [done|].
    rewrite !filter_cons. destruct (decide (a <> d)) as [Ha|Ha].
    + rewrite filter_cons. destruct (decide (a ∉ D)) as [Ha'|Ha'].
      * rewrite decide_True; [by f_equal|].
        rewrite not_elem_of_cons. done.
      * rewrite decide_False; [done|]. rewrite not_elem_of_cons. tauto.
    + rewrite decide_False; [done|]. rewrite not_elem_of_cons. tauto.
Qed.

Lemma expire_fold_grid D s j :
  arr_get (grid (fold_left expireFood D s)) j
  = if decide (j ∈ map cellIdx D /\ 0 <= j < Z.of_nat (length (grid s)))
    then Some 0 else arr_get (grid s) j.
Proof. by apply (fold_write_const gridSize grid). Qed.

Lemma expire_fold_pixelHP D s j :
  arr_get (pixelHP (fold_left expireFood D s)) j
  = if decide (j ∈ map cellIdx D /\ 0 <= j < Z.of_nat (length (pixelHP s)))
    then Some 0 else arr_get (pixelHP s) j.
Proof. by apply (fold_write_const gridSize pixelHP). Qed.

Lemma expire_fold_envEnergy D s :
  (envEnergy (fold_left expireFood D s)
   == envEnergy s
      + inject_Z (Z.of_nat (length D))
        * (c2 params * foodDecayReturnRatio params))%Q.
Proof.
  revert s. induction D as [|d D IH]; intros s; cbn [fold_left length].
  - simpl. ring.
  - rewrite IH.
    change (envEnergy (expireFood s d))
      with (envEnergy s + c2 params * foodDecayReturnRatio params)%Q.
    rewrite Nat2Z.inj_succ. unfold Z.succ. rewrite inject_Z_plus. ring.
Qed.

Lemma expire_fold_organisms D s :
  organisms (fold_left expireFood D s) = organisms s.
Proof. by apply fold_left_preserves. Qed.

(** The keys whose timer runs out in this pass. *)
Definition expiring (s : Simulation) : list Cell :=
  map fst (filter (fun e => e.2 - 1 <= 0) (foodPixels s)).

Lemma updateFoodDecay_unfold s :
  NoDup (map fst (foodPixels s)) ->
  exists food,
    updateFoodDecay s = fold_left expireFood (expiring s) (set_foodPixels food s)
    /\ map fst food = map fst (foodPixels s)
    /\ forall k,
        kget fst k food
        = match kget fst k (foodPixels s) with
          | Some e => if decide (e.2 - 1 <= 0) then Some e
                      else Some (k, e.2 - 1)
          | None => None
          end.
Proof.
  intros Hnd. unfold def_updateFoodDecay.
  destruct (ageFood_fold (foodPixels s) (foodPixels s) [] Hnd)
    as (H1 & H2 & H3).
  { intros e He. by apply list_elem_of_fmap_2. }
  destruct (fold_left ageFood (foodPixels s) (foodPixels s, []))
    as [food toDelete]. simpl in *. subst toDelete.
  exists food. split; [done|]. split; [done|].
  intros k. rewrite H3. by destruct (kget fst k (foodPixels s)).
Qed.

Lemma updateFoodDecay_timer s k t :
  NoDup (map fst (foodPixels s)) ->
  kget fst k (foodPixels s) = Some (k, t) ->
  kget fst k (foodPixels (updateFoodDecay s))
  = if decide (t - 1 <= 0) then None else Some (k, t - 1).
Proof.
  intros Hnd Hg. destruct (updateFoodDecay_unfold s Hnd) as (food & -> & _ & Hf).
  rewrite expire_fold_food. simpl. rewrite Hf, Hg. simpl.
  destruct (decide (t - 1 <= 0)) as [He|He].
  - rewrite decide_True; [done|]. unfold expiring.
    apply list_elem_of_fmap. exists (k, t). split; [done|].
    apply list_elem_of_filter. split; [done|]. by apply kget_Some in Hg as [? _].
  - rewrite decide_False; [done|]. unfold expiring. intros Hin.
    apply list_elem_of_fmap in Hin as (e & -> & He').
    apply list_elem_of_filter in He' as [Hexp Hin].
    rewrite (kget_first fst e.1 _ e Hnd Hin eq_refl) in Hg.
    injection Hg as Hg. rewrite Hg in Hexp. simpl in Hexp. lia.
Qed.

Lemma updateFoodDecay_absent s k :
  NoDup (map fst (foodPixels s)) ->
  kget fst k (foodPixels s) = None ->
  kget fst k (foodPixels (updateFoodDecay s)) = None.
Proof.
  intros Hnd Hg. destruct (updateFoodDecay_unfold s Hnd) as (food & -> & _ & Hf).
  rewrite expire_fold_food. simpl. rewrite Hf, Hg.
  by destruct (decide (k ∈ expiring s)).
Qed.

Lemma updateFoodDecay_NoDup s :
  NoDup (map fst (foodPixels s)) ->
  NoDup (map fst (foodPixels (updateFoodDecay s))).
Proof.
  intros Hnd. destruct (updateFoodDecay_unfold s Hnd) as (food & -> & Hk & _).
  rewrite expire_fold_keys. simpl. rewrite Hk. by apply NoDup_filter.
Qed.

Lemma updateFoodDecay_grid s j :
  NoDup (map fst (foodPixels s)) ->
  arr_get (grid (updateFoodDecay s)) j
  = if decide (j ∈ map cellIdx (expiring s)
               /\ 0 <= j < Z.of_nat (length (grid s)))
    then Some 0 else arr_get (grid s) j.
Proof.
  intros Hnd. destruct (updateFoodDecay_unfold s Hnd) as (food & -> & _).
  by rewrite expire_fold_grid.
Qed.

Lemma updateFoodDecay_pixelHP s j :
  NoDup (map fst (foodPixels s)) ->
  arr_get (pixelHP (updateFoodDecay s)) j
  = if decide (j ∈ map cellIdx (expiring s)
               /\ 0 <= j < Z.of_nat (length (pixelHP s)))
    then Some 0 else arr_get (pixelHP s) j.
Proof.
  intros Hnd. destruct (updateFoodDecay_unfold s Hnd) as (food & -> & _).
  by rewrite expire_fold_pixelHP.
Qed.

Lemma updateFoodDecay_envEnergy s :
  NoDup (map fst (foodPixels s)) ->
  (envEnergy (updateFoodDecay s)
   == envEnergy s
      + inject_Z (Z.of_nat (length (expiring s)))
        * (c2 params * foodDecayReturnRatio params))%Q.
Proof.
  intros Hnd. destruct (updateFoodDecay_unfold s Hnd) as (food & -> & _).
  by rewrite expire_fold_envEnergy.
Qed.

Lemma updateFoodDecay_organisms s :
  organisms (updateFoodDecay s) = organisms s.
Proof.
  unfold def_updateFoodDecay.
  destruct (fold_left ageFood (foodPixels s) (foodPixels s, [])).
  by rewrite expire_fold_organisms.
Qed.

(** The timer of a food cell after [n] decay passes. *)
Lemma updateFoodDecay_iter n s k t :
  NoDup (map fst (foodPixels s)) ->
  kget fst k (foodPixels s) = Some (k, t) -> 1 <= t ->
  kget fst k (foodPixels (Nat.iter n updateFoodDecay s))
  = if decide (Z.of_nat n < t) then Some (k, t - Z.of_nat n) else None.
Proof.
  intros Hnd Hg Ht.
  assert (NoDup (map fst (foodPixels (Nat.iter n updateFoodDecay s)))
          /\ kget fst k (foodPixels (Nat.iter n updateFoodDecay s))
             = if decide (Z.of_nat n < t) then Some (k, t - Z.of_nat n)
               else None) as [_ ?]; [|done].
  induction n as [|n [IHnd IH]].
  - change (Nat.iter 0 updateFoodDecay s) with s.
    split; [done|]. rewrite decide_True by lia. rewrite Hg. do 2 f_equal. lia.
  - change (Nat.iter (S n) updateFoodDecay s)
      with (updateFoodDecay (Nat.iter n updateFoodDecay s)).
    split; [by apply updateFoodDecay_NoDup|].
    destruct (decide (Z.of_nat n < t)) as [Hlt|Hge].
    + rewrite (updateFoodDecay_timer _ _ _ IHnd IH).
      destruct (decide (t - Z.of_nat n - 1 <= 0)).
      * rewrite decide_False by lia. done.
      * rewrite decide_True by lia. do 2 f_equal. lia.
    + rewrite (updateFoodDecay_absent _ _ IHnd IH).
      rewrite decide_False by lia. done.
Qed.
End DecayFacts.

(** ** The invariant: what it depends on *)

(** The part of an organism the invariant reads. *)
Definition body (o : Organism) : Z * Z * Z * list Cell :=
  (id o, eyeX o, eyeY o, pix_keys o).

(** The part of the simulation the invariant reads. *)
Definition view (s : Simulation)
  : list Z * nat * Z * list Cell * list (Z * Z * Z * list Cell) :=
  (grid s, length (pixelHP s), nextID s, map fst (foodPixels s),
   map body (organisms s)).

Lemma body_id o o' : body o' = body o -> id o' = id o.
Proof. by intros [= ? _ _ _]. Qed.

Lemma body_keys o o' : body o' = body o -> pix_keys o' = pix_keys o.
Proof. by intros [= _ _ _ ?]. Qed.

Lemma body_eye o o' : body o' = body o -> (eyeX o', eyeY o') = (eyeX o, eyeY o).
Proof. by intros [= _ -> -> _]. Qed.

Lemma map_body_kupdate i f l :
  (forall o, body (f o) = body o) ->
  map body (kupdate id i f l) = map body l.
Proof.
  intros Hf. induction l as [|a l IH]; simpl; [done|].
  destruct (decide (id a = i)); simpl; [by rewrite Hf | by rewrite IH].
Qed.

Lemma view_update_org i f s :
  (forall o, body (f o) = body o) -> view (update_org i f s) = view s.
Proof. intros Hf. unfold view. simpl. by rewrite map_body_kupdate. Qed.

Lemma map_body_elem l l' o' :
  map body l' = map body l -> o' ∈ l' -> exists o, o ∈ l /\ body o = body o'.
Proof.
  intros Hm Hin. apply (list_elem_of_fmap_2 body) in Hin.
  change (body o' ∈ map body l') in Hin. rewrite Hm in Hin.
  apply list_elem_of_fmap in Hin as (o & Ho & Hin). by exists o.
Qed.

Lemma map_body_ids l l' : map body l' = map body l -> map id l' = map id l.
Proof.
  intros Hm. apply (f_equal (map (fun b : Z * Z * Z * list Cell => b.1.1.1))) in Hm.
  by rewrite !map_map in Hm.
Qed.

Section InvFacts.
Variable gridSize : Z.
Variable params : SimulationParams.
Hypothesis gridSize_pos : 0 < gridSize.

Local Abbreviation inb := (inb gridSize).
Local Abbreviation gridAt := (gridAt gridSize).
Local Abbreviation cellIdx := (cellIdx gridSize).
Local Abbreviation org_cells := (org_cells gridSize).
Local Abbreviation org_shape := (org_shape gridSize params).
Local Abbreviation InvBut := (InvBut gridSize params).
Local Abbreviation Inv := (Inv gridSize params).
Local Abbreviation connected := (connected gridSize params).
Local Abbreviation walk := (walk gridSize params).
Local Abbreviation adj := (adj gridSize params).

Lemma gridAt_cell s c : gridAt s c.1 c.2 = arr_get (grid s) (cellIdx c).
Proof. reflexivity. Qed.

Lemma cellIdx_inj c c' : inb c -> inb c' -> cellIdx c = cellIdx c' -> c = c'.
Proof. by apply idx_inj. Qed.

Lemma cellIdx_range c : inb c -> 0 <= cellIdx c < gridSize * gridSize.
Proof. by apply idx_range. Qed.

Lemma org_cells_view s s' o o' :
  body o' = body o -> grid s' = grid s -> nextID s' = nextID s ->
  org_cells s o -> org_cells s' o'.
Proof.
  intros Hb Hg Hn [H1 H2 H3]. split.
  - by rewrite (body_id _ _ Hb), Hn.
  - by rewrite (body_keys _ _ Hb).
  - intros c Hc. rewrite (body_keys _ _ Hb) in Hc. rewrite (body_id _ _ Hb).
    unfold def_gridAt. rewrite Hg. by apply H3.
Qed.

Lemma org_shape_body o o' : body o' = body o -> org_shape o -> org_shape o'.
Proof.
  intros Hb [H1 H2]. unfold def_org_shape.
  by rewrite (body_keys _ _ Hb), (body_eye _ _ Hb).
Qed.

(** The invariant reads nothing but the view. *)
Lemma InvBut_view bad stale s s' :
  view s' = view s -> InvBut bad stale s -> InvBut bad stale s'.
Proof.
  intros [= Hg Hh Hn Hf Ho] [I1 I2 I3 I4 I5 I6 I7 I8 I9 I10]. split.
  - by rewrite Hg.
  - by rewrite Hh.
  - by rewrite Hn.
  - by rewrite (map_body_ids _ _ Ho).
  - intros o' Hin. destruct (map_body_elem _ _ _ Ho Hin) as (o & Hin' & Hb).
    eapply org_cells_view; [symmetry; exact Hb | done | done | by apply I5].
  - intros o' Hin Hbad. destruct (map_body_elem _ _ _ Ho Hin) as (o & Hin' & Hb).
    eapply org_shape_body; [symmetry; exact Hb|]. apply I6; [done|].
    by rewrite (body_id _ _ Hb).
  - intros c o' Hc Hst Hin Hgr.
    destruct (map_body_elem _ _ _ Ho Hin) as (o & Hin' & Hb).
    rewrite <- (body_keys _ _ Hb). apply I7; [done..|].
    rewrite (body_id _ _ Hb). unfold def_gridAt in *. by rewrite <- Hg.
  - intros i v. rewrite Hg, Hn. apply I8.
  - by rewrite Hf.
  - intros k. rewrite Hf. unfold def_gridAt. rewrite Hg. apply I10.
Qed.

Lemma InvBut_weaken (bad bad' : Z -> Prop) (stale stale' : Cell -> Prop) s :
  (forall i, bad i -> bad' i) -> (forall c, stale c -> stale' c) ->
  InvBut bad stale s -> InvBut bad' stale' s.
Proof.
  intros Hb Hs [I1 I2 I3 I4 I5 I6 I7 I8 I9 I10]. split; try done.
  - intros o Hin Hbad. apply I6; [done|]. intros ?. apply Hbad. by apply Hb.
  - intros c o Hc Hst. apply I7; [done|]. intros ?. apply Hst. by apply Hs.
Qed.

(** Two organisms of the registry with the same id are the same. *)
Lemma same_id_same_org bad stale s o o' :
  InvBut bad stale s -> o ∈ organisms s -> o' ∈ organisms s ->
  id o = id o' -> o = o'.
Proof.
  intros HI Ho Ho' Hid.
  pose proof (kget_first id (id o) _ o (inv_ids _ _ _ _ _ HI) Ho eq_refl) as H1.
  pose proof (kget_first id (id o) _ o' (inv_ids _ _ _ _ _ HI) Ho'
                (eq_sym Hid)) as H2.
  congruence.
Qed.

Lemma get_org_elem bad stale s o :
  InvBut bad stale s -> o ∈ organisms s -> get_org (id o) s = Some o.
Proof. intros HI Ho. by apply kget_first; [apply (inv_ids _ _ _ _ _ HI)|..]. Qed.

(** A cell of an organism is no cell of another organism and no food
    cell. *)
Lemma cells_disjoint bad stale s o o' c :
  InvBut bad stale s -> o ∈ organisms s -> o' ∈ organisms s ->
  c ∈ pix_keys o -> c ∈ pix_keys o' -> o = o'.
Proof.
  intros HI Ho Ho' Hc Hc'.
  destruct (ok_cells _ _ _ (inv_orgs _ _ _ _ _ HI o Ho) c Hc) as [_ H1].
  destruct (ok_cells _ _ _ (inv_orgs _ _ _ _ _ HI o' Ho') c Hc') as [_ H2].
  eapply same_id_same_org; [done..|]. congruence.
Qed.

Lemma cell_not_food bad stale s o c :
  InvBut bad stale s -> o ∈ organisms s -> c ∈ pix_keys o ->
  c ∉ map fst (foodPixels s).
Proof.
  intros HI Ho Hc Hf.
  destruct (ok_cells _ _ _ (inv_orgs _ _ _ _ _ HI o Ho) c Hc) as [_ H1].
  destruct (inv_food _ _ _ _ _ HI c Hf) as [_ H2].
  pose proof (ok_id _ _ _ (inv_orgs _ _ _ _ _ HI o Ho)). rewrite H1 in H2.
  injection H2 as H2. lia.
Qed.
End InvFacts.

Lemma elem_of_kupdate_NoDup {K E} `{EqDecision K} (key : E -> K) f k l e' :
  NoDup (map key l) ->
  e' ∈ kupdate key k f l ->
  (e' ∈ l /\ key e' <> k) \/ exists e, e ∈ l /\ key e = k /\ e' = f e.
Proof.
  induction l as [|a l IH]; simpl; intros Hnd Hin; [by apply elem_of_nil in Hin|].
  apply NoDup_cons in Hnd as [Hna Hnd].
  destruct (decide (key a = k)) as [Hk|Hk].
  - apply elem_of_cons in Hin as [->|Hin].
    + right. exists a. split; [left | done].
    + left. split; [by right|]. intros Heq. apply Hna. rewrite Hk, <- Heq.
      by apply list_elem_of_fmap_2.
  - apply elem_of_cons in Hin as [->|Hin].
    + left. split; [left | done].
    + destruct (IH Hnd Hin) as [[? ?]|(e & ? & ? & ?)].
      * left. split; [by right | done].
      * right. exists e. split; [by right | done].
Qed.

(** ** The invariant: elementary changes of the grid and of the registry *)

Section InvSteps.
Variable gridSize : Z.
Variable params : SimulationParams.
Hypothesis gridSize_pos : 0 < gridSize.

Local Abbreviation inb := (inb gridSize).
Local Abbreviation gridAt := (gridAt gridSize).
Local Abbreviation cellIdx := (cellIdx gridSize).
Local Abbreviation org_cells := (org_cells gridSize).
Local Abbreviation org_shape := (org_shape gridSize params).
Local Abbreviation InvBut := (InvBut gridSize params).
Local Abbreviation Inv := (Inv gridSize params).
Local Abbreviation toFood := (toFood gridSize params).

Lemma cell_in_range bad stale s c :
  InvBut bad stale s -> inb c ->
  0 <= cellIdx c < Z.of_nat (length (grid s)).
Proof.
  intros HI Hc. rewrite (inv_grid_len _ _ _ _ _ HI).
  pose proof (cellIdx_range gridSize gridSize_pos c Hc). lia.
Qed.

Lemma gridAt_write bad stale s c c' v :
  InvBut bad stale s -> inb c -> inb c' ->
  gridAt (write_grid (cellIdx c) v s) c'.1 c'.2
  = if decide (c' = c) then Some v else gridAt s c'.1 c'.2.
Proof.
  intros HI Hc Hc'. unfold def_gridAt, write_grid. simpl.
  fold (cellIdx c').
  destruct (decide (c' = c)) as [->|Hne].
  - apply arr_get_set_eq. by eapply cell_in_range.
  - apply arr_get_set_ne. intros Heq. apply Hne. symmetry.
    by eapply cellIdx_inj.
Qed.

(** A cell whose code is not positive belongs to no organism. *)
Lemma free_cell bad stale s c v o :
  InvBut bad stale s -> gridAt s c.1 c.2 = Some v -> v <= 0 ->
  o ∈ organisms s -> c ∉ pix_keys o.
Proof.
  intros HI Hg Hv Ho Hc.
  destruct (ok_cells _ _ _ (inv_orgs _ _ _ _ _ HI o Ho) c Hc) as [_ H1].
  pose proof (ok_id _ _ _ (inv_orgs _ _ _ _ _ HI o Ho)).
  rewrite Hg in H1. injection H1 as ->. lia.
Qed.

(** Writing a code that is not an id at a cell that belongs to no
    organism and is no food cell. *)
Lemma InvBut_write_free bad stale s c v :
  InvBut bad stale s -> inb c ->
  (forall o, o ∈ organisms s -> c ∉ pix_keys o) ->
  c ∉ map fst (foodPixels s) ->
  v < nextID s -> (forall o, o ∈ organisms s -> id o <> v) ->
  InvBut bad (fun x => stale x /\ x <> c) (write_grid (cellIdx c) v s).
Proof.
  intros HI Hc Hfree Hnf Hv Hid.
  pose proof HI as [I1 I2 I3 I4 I5 I6 I7 I8 I9 I10]. split; try done.
  - simpl. by rewrite length_arr_set.
  - intros o Ho. destruct (I5 o Ho) as [H1 H2 H3]. split; try done.
    intros c' Hc'. destruct (H3 c' Hc') as [Hin Hg]. split; [done|].
    rewrite (gridAt_write bad stale) by done.
    rewrite decide_False; [done|]. intros ->. by apply (Hfree o Ho).
  - intros c' o Hc' Hst Ho Hg.
    rewrite (gridAt_write bad stale) in Hg by done.
    destruct (decide (c' = c)) as [->|Hne].
    + injection Hg as Hg. exfalso. by apply (Hid o Ho).
    + apply I7; try done. intros Hs. apply Hst. done.
  - intros i v'. simpl. rewrite arr_get_set.
    destruct (decide _); [intros [= <-]; done | apply I8].
  - intros k Hk. destruct (I10 k Hk) as [Hin Hg]. split; [done|].
    rewrite (gridAt_write bad stale) by done.
    rewrite decide_False; [done|]. intros ->. by apply Hnf.
Qed.

Lemma InvBut_food bad stale s food :
  InvBut bad stale s ->
  NoDup (map fst food) ->
  (forall k, k ∈ map fst food -> inb k /\ gridAt s k.1 k.2 = Some (-1)) ->
  InvBut bad stale (set_foodPixels food s).
Proof.
  intros HI Hnd Hf.
  pose proof HI as [I1 I2 I3 I4 I5 I6 I7 I8 I9 I10]. split; try done.
  intros o Ho. apply (org_cells_view gridSize s _ o o); try done. by apply I5.
Qed.

Lemma InvBut_add_food bad stale s c t :
  InvBut bad stale s -> inb c -> gridAt s c.1 c.2 = Some (-1) ->
  InvBut bad stale (set_foodPixels (kset fst (c, t) (foodPixels s)) s).
Proof.
  intros HI Hc Hg. apply InvBut_food; [done|..].
  - apply NoDup_keys_kset, (inv_food_nodup _ _ _ _ _ HI).
  - intros k Hk. apply elem_of_keys_kset in Hk as [->|Hk];
      [done | by apply (inv_food _ _ _ _ _ HI)].
Qed.

Lemma InvBut_del_food bad stale s k :
  InvBut bad stale s ->
  InvBut bad stale (set_foodPixels (kdelete fst k (foodPixels s)) s).
Proof.
  intros HI. apply InvBut_food; [done|..].
  - apply NoDup_keys_kdelete, (inv_food_nodup _ _ _ _ _ HI).
  - intros k' Hk'. rewrite keys_kdelete in Hk'.
    apply list_elem_of_filter in Hk' as [_ Hk'].
    by apply (inv_food _ _ _ _ _ HI).
Qed.

Lemma InvBut_hp bad stale s i v :
  InvBut bad stale s -> InvBut bad stale (write_hp i v s).
Proof.
  apply InvBut_view. unfold view. simpl. by rewrite length_arr_set.
Qed.

(** A free cell becomes food. *)
Lemma InvBut_toFood_free bad stale s c :
  InvBut bad stale s -> inb c ->
  (forall o, o ∈ organisms s -> c ∉ pix_keys o) ->
  c ∉ map fst (foodPixels s) ->
  InvBut bad (fun x => stale x /\ x <> c) (toFood s c).
Proof.
  intros HI Hc Hfree Hnf.
  set (X := write_hp (cellIdx c) 1 (write_grid (cellIdx c) (-1) s)).
  assert (InvBut bad (fun x => stale x /\ x <> c) X) as HI'.
  { apply InvBut_hp. apply InvBut_write_free; try done.
    - pose proof (inv_next _ _ _ _ _ HI). lia.
    - intros o Ho. pose proof (ok_id _ _ _ (inv_orgs _ _ _ _ _ HI o Ho)). lia. }
  change (toFood s c)
    with (set_foodPixels
            (kset fst (c, foodDecayTicks params) (foodPixels X)) X).
  apply InvBut_add_food; [done | done |].
  unfold X. change (gridAt (write_hp ?a ?b ?s') ?x ?y) with (gridAt s' x y).
  rewrite (gridAt_write bad stale) by done. by rewrite decide_True.
Qed.

(** An organism lets go of a cell: the cell is stale until it is
    overwritten, and the shape of the organism is to be checked. *)
Lemma InvBut_drop_cell bad stale s t c :
  InvBut bad stale s ->
  InvBut (fun i => bad i \/ i = t) (fun x => stale x \/ x = c)
    (update_org t (fun o => set_pixels (kdelete fst c (pixels o)) o) s).
Proof.
  intros HI. pose proof HI as [I1 I2 I3 I4 I5 I6 I7 I8 I9 I10].
  set (f := fun o => set_pixels (kdelete fst c (pixels o)) o).
  assert (forall o', o' ∈ organisms (update_org t f s) ->
            exists o, o ∈ organisms s /\ id o' = id o
                      /\ eyeX o' = eyeX o /\ eyeY o' = eyeY o
                      /\ ((o' = o) \/ (id o = t /\ o' = f o))) as Hrel.
  { intros o' Ho'. apply elem_of_kupdate in Ho' as [Ho'|(o & Ho & Hid & ->)].
    - exists o'. repeat split; try done. by left.
    - exists o. repeat split; try done. by right. }
  split; try done.
  - simpl. by rewrite keys_kupdate.
  - intros o' Ho'. destruct (Hrel o' Ho') as (o & Ho & Hid & _ & _ & Hcase).
    destruct (I5 o Ho) as [H1 H2 H3].
    destruct Hcase as [->|[_ ->]]; [done|]. split; try done.
    + unfold pix_keys, f. simpl. rewrite keys_kdelete. by apply NoDup_filter.
    + intros c' Hc'. unfold pix_keys, f in Hc'. simpl in Hc'.
      rewrite keys_kdelete in Hc'. apply list_elem_of_filter in Hc' as [_ Hc'].
      by apply H3.
  - intros o' Ho' Hbad. destruct (Hrel o' Ho') as (o & Ho & Hid & _ & _ & Hcase).
    destruct Hcase as [->|[Ht ->]]; [apply I6; tauto|].
    exfalso. apply Hbad. right. simpl. done.
  - intros c' o' Hc' Hst Ho' Hg.
    destruct (Hrel o' Ho') as (o & Ho & Hid & _ & _ & Hcase).
    assert (c' ∈ pix_keys o) as Hin.
    { apply I7; try tauto. by rewrite <- Hid. }
    destruct Hcase as [->|[Ht ->]]; [done|].
    unfold pix_keys, f. simpl. rewrite keys_kdelete.
    apply list_elem_of_filter. split; [|done]. intros ->. apply Hst. by right.
Qed.


Lemma toFood_fold_set_organisms l keys s :
  set_organisms l (fold_left toFood keys s)
  = fold_left toFood keys (set_organisms l s).
Proof.
  revert s. induction keys as [|k keys IH]; intros s; simpl; [done|].
  by rewrite IH.
Qed.

Lemma InvBut_toFood_fold bad stale keys s :
  InvBut bad stale s -> NoDup keys ->
  (forall k, k ∈ keys ->
             inb k /\ (forall o, o ∈ organisms s -> k ∉ pix_keys o)
             /\ k ∉ map fst (foodPixels s)) ->
  InvBut bad stale (fold_left toFood keys s).
Proof.
  revert s. induction keys as [|k keys IH]; intros s HI Hnd Hk; simpl; [done|].
  apply NoDup_cons in Hnd as [Hnk Hnd].
  destruct (Hk k ltac:(left)) as (Hin & Hfree & Hnf).
  apply IH; [|done|].
  - eapply InvBut_weaken; [| |by apply InvBut_toFood_free]; [done|].
    by intros x [? _].
  - intros k' Hk'. destruct (Hk k' ltac:(by right)) as (Hin' & Hfree' & Hnf').
    split; [done|]. split; [done|].
    rewrite toFood_foodPixels. intros Hf.
    apply elem_of_keys_kset in Hf as [Hf|Hf]; [|done]. simpl in Hf. by subst.
Qed.

Lemma InvBut_delete_org bad stale s t :
  InvBut bad stale s ->
  InvBut (fun i => bad i /\ i <> t) stale
    (set_organisms (kdelete id t (organisms s)) s).
Proof.
  intros HI. pose proof HI as [I1 I2 I3 I4 I5 I6 I7 I8 I9 I10]. split; try done.
  - simpl. by apply NoDup_keys_kdelete.
  - intros o Ho. simpl in Ho. apply elem_of_kdelete in Ho as [Ho _].
    apply (org_cells_view gridSize s _ o o); try done. by apply I5.
  - intros o Ho Hbad. simpl in Ho. apply elem_of_kdelete in Ho as [Ho Hne].
    apply I6; [done|]. intros Hb. apply Hbad. done.
  - intros c o Hc Hst Ho Hg. simpl in Ho. apply elem_of_kdelete in Ho as [Ho _].
    by apply I7.
Qed.

(** An organism leaves the registry: its cells become food. *)
Lemma InvBut_removeOrganism bad stale s t :
  InvBut bad stale s ->
  InvBut (fun i => bad i /\ i <> t) stale (removeOrganism gridSize params t s).
Proof.
  intros HI. unfold removeOrganism. destruct (get_org t s) as [org|] eqn:Hg.
  - rewrite toFood_fold_set_organisms.
    pose proof (get_org_in _ _ _ Hg) as Hin.
    pose proof (get_org_id _ _ _ Hg) as Hid.
    apply InvBut_toFood_fold.
    + change (organisms (fold_left toFood (pix_keys org) s)) with
        (organisms (fold_left toFood (pix_keys org) s)).
      rewrite toFood_fold_organisms. by apply InvBut_delete_org.
    + apply (ok_nodup _ _ _ (inv_orgs _ _ _ _ _ HI org Hin)).
    + intros k Hk. split; [|split].
      * by apply (ok_cells _ _ _ (inv_orgs _ _ _ _ _ HI org Hin)).
      * intros o Ho. simpl in Ho. rewrite toFood_fold_organisms in Ho.
        apply elem_of_kdelete in Ho as [Ho Hne]. intros Hk'.
        apply Hne. rewrite <- Hid. f_equal.
        by eapply (cells_disjoint gridSize params).
      * simpl. by eapply (cell_not_food gridSize params).
  - assert (kdelete id t (organisms s) = organisms s) as Hk.
    { apply kdelete_notin. by apply kget_None. }
    pose proof (InvBut_delete_org bad stale s t HI) as HI'. rewrite Hk in HI'.
    eapply InvBut_view; [|exact HI']. done.
Qed.

(** One pass of the detaching loop: a cell of the organism becomes
    food. *)
Lemma InvBut_release bad stale s t o c :
  InvBut bad stale s -> get_org t s = Some o -> c ∈ pix_keys o ->
  InvBut (fun i => bad i \/ i = t) stale
    (update_org t (fun o => set_pixels (kdelete fst c (pixels o)) o)
       (toFood s c)).
Proof.
  intros HI Hg Hc.
  pose proof (get_org_in _ _ _ Hg) as Hin.
  pose proof (get_org_id _ _ _ Hg) as Hid.
  change (update_org t ?f (toFood s c)) with (toFood (update_org t f s) c).
  assert (InvBut (fun i => bad i \/ i = t)
            (fun x => (stale x \/ x = c) /\ x <> c)
            (toFood
               (update_org t
                  (fun o => set_pixels (kdelete fst c (pixels o)) o) s) c))
    as HI'.
  { apply InvBut_toFood_free.
    - by apply InvBut_drop_cell.
    - by apply (ok_cells _ _ _ (inv_orgs _ _ _ _ _ HI o Hin)).
    - intros o' Ho'. simpl in Ho'.
      apply elem_of_kupdate_NoDup in Ho'
          as [[Ho' Hne]|(o1 & Ho1 & Hid1 & ->)];
        [| |apply (inv_ids _ _ _ _ _ HI)].
      + intros Hc'. apply Hne. rewrite <- Hid. f_equal.
        by eapply (cells_disjoint gridSize params).
      + unfold pix_keys. simpl. rewrite keys_kdelete.
        intros Hf. apply list_elem_of_filter in Hf as [Hf _]. done.
    - simpl. by eapply (cell_not_food gridSize params). }
  eapply InvBut_weaken; [| |exact HI']; [done|].
  intros x [[Hs|Hs] Hne]; [exact Hs | done].
Qed.
End InvSteps.

(** ** Connected sets of cells *)

Section ConnectedFacts.
Variable gridSize : Z.
Variable params : SimulationParams.
Hypothesis gridSize_pos : 0 < gridSize.

Local Abbreviation inb := (inb gridSize).
Local Abbreviation adj := (adj gridSize params).
Local Abbreviation walk := (walk gridSize params).
Local Abbreviation connected := (connected gridSize params).
Local Abbreviation applyBoundary := (applyBoundary gridSize params).

Lemma around8_opp d : d ∈ around8 -> (- d.1, - d.2) ∈ around8.
Proof.
  intros Hd. vm_compute in Hd.
  repeat (apply elem_of_cons in Hd as [->|Hd]); [..|by apply elem_of_nil in Hd];
    vm_compute; set_solver.
Qed.

Lemma adj_sym a b : inb a -> adj a b -> adj b a.
Proof.
  intros Ha. rewrite !adj_spec. intros (d & Hd & Hb).
  exists (- d.1, - d.2). split; [by apply around8_opp|]. simpl.
  apply applyBoundary_spec; [done|]. apply applyBoundary_spec in Hb; [|done].
  destruct Ha as [Hx Hy]. destruct (boundaryMode params).
  - subst b. simpl. destruct a as [x y]. simpl in *. f_equal.
    + rewrite Zplus_mod_idemp_l. replace (x + d.1 + - d.1) with x by lia.
      symmetry. apply Z.mod_small. lia.
    + rewrite Zplus_mod_idemp_l. replace (y + d.2 + - d.2) with y by lia.
      symmetry. apply Z.mod_small. lia.
  - destruct Hb as [-> _]. simpl. destruct a as [x y]. simpl in *.
    split; [f_equal; lia|]. unfold def_inb. simpl. lia.
Qed.

Lemma walk_mono keys keys' a b :
  (forall c, c ∈ keys -> c ∈ keys') ->
  rtc (walk keys) a b -> rtc (walk keys') a b.
Proof.
  intros Hsub. induction 1 as [|x y z [Hxy Hy] _ IH]; [apply rtc_refl|].
  eapply rtc_l; [|exact IH]. split; [done | by apply Hsub].
Qed.

Lemma connected_same keys keys' eye :
  (forall c, c ∈ keys <-> c ∈ keys') ->
  connected keys eye -> connected keys' eye.
Proof.
  intros Heq Hc c Hin. apply (walk_mono keys); [intros x; apply Heq|].
  by apply Hc, Heq.
Qed.

(** A cell next to a cell of a connected set joins the set. *)
Lemma connected_grow keys eye k c :
  connected keys eye -> k ∈ keys -> inb c -> adj c k ->
  connected (keys ++ [c]) eye.
Proof.
  intros Hc Hk Hin Hadj c' Hc'.
  assert (forall x, x ∈ keys -> x ∈ keys ++ [c]) as Hsub.
  { intros x Hx. apply elem_of_app. by left. }
  apply elem_of_app in Hc' as [Hc'|Hc'].
  - by apply (walk_mono keys), Hc.
  - apply list_elem_of_singleton in Hc' as ->.
    eapply rtc_r; [apply (walk_mono keys), Hc; done|].
    split; [by apply adj_sym|]. apply elem_of_app. right. left.
Qed.

(** A connected set moved by a heading is connected. *)
Lemma connected_translate dx dy (pairs : list (Cell * Cell)) eye eye' :
  (forall p, p ∈ pairs ->
             applyBoundary (p.1.1 + dx) (p.1.2 + dy) = Some p.2) ->
  (eye, eye') ∈ pairs ->
  connected (map fst pairs) eye ->
  connected (map snd pairs) eye'.
Proof.
  intros Hp Heye Hc c' Hc'.
  apply list_elem_of_fmap in Hc' as ([c c2] & -> & Hin). simpl.
  assert (forall x, rtc (walk (map fst pairs)) eye x ->
                    forall x', (x, x') ∈ pairs ->
                               rtc (walk (map snd pairs)) eye' x') as Hgen.
  { apply (rtc_ind_r
             (fun x => forall x', (x, x') ∈ pairs ->
                                  rtc (walk (map snd pairs)) eye' x')).
    - intros x' Hx'.
      assert (x' = eye') as ->; [|apply rtc_refl].
      pose proof (Hp _ Hx') as H1. pose proof (Hp _ Heye) as H2.
      simpl in *. congruence.
    - intros y z Hey [Hadj Hz] IH z' Hz'.
      assert (y ∈ map fst pairs) as Hy.
      { destruct (rtc_inv_r _ _ Hey) as [<-|(w & _ & [_ ?])]; [|done].
        apply list_elem_of_fmap. by exists (eye, eye'). }
      apply list_elem_of_fmap in Hy as ([y1 y'] & -> & Hy). simpl in *.
      eapply rtc_r; [by apply IH|]. split.
      + eapply adj_translate; [done | exact Hadj | |].
        * apply (Hp _ Hy).
        * apply (Hp _ Hz').
      + apply list_elem_of_fmap. by exists (z, z'). }
  apply (Hgen c); [|done]. apply Hc. apply list_elem_of_fmap.
  by exists (c, c2).
Qed.

(** The cells of [keys] kept by a set that contains the eye and is closed
    under the steps of a walk, provided they are reached from the eye. *)
Lemma connected_closed keys keys' eye (r : Cell -> Prop) :
  r eye ->
  (forall a b, r a -> adj a b -> b ∈ keys -> r b) ->
  (forall c, c ∈ keys -> r c -> c ∈ keys') ->
  forall c, rtc (walk keys) eye c -> r c /\ rtc (walk keys') eye c.
Proof.
  intros Heye Hcl Hk.
  apply (rtc_ind_r (fun c => r c /\ rtc (walk keys') eye c)).
  - split; [done | apply rtc_refl].
  - intros y z Hey [Hadj Hz] [IHr IH].
    assert (r z) as Hrz by (by eapply Hcl).
    split; [done|]. eapply rtc_r; [exact IH|]. split; [done|]. by apply Hk.
Qed.
End ConnectedFacts.

(** ** The breadth-first traversal of checkConnectivity *)

Section BfsFacts.
Variable gridSize : Z.
Variable params : SimulationParams.
Hypothesis gridSize_pos : 0 < gridSize.

Local Abbreviation adj := (adj gridSize params).
Local Abbreviation walk := (walk gridSize params).
Local Abbreviation bfs := (bfs gridSize params).
Local Abbreviation neighbors8 := (neighbors8 gridSize params).

Lemma pix_has_true n org : pix_has n org = true <-> n ∈ pix_keys org.
Proof. apply khas_true. Qed.

Lemma pix_has_false n org : pix_has n org = false <-> n ∉ pix_keys org.
Proof. apply khas_false. Qed.

Lemma bfs_visit_fold (org : Organism) (ns q : list Cell) (r : gset Cell) :
  let res := fold_left (bfs_visit org) ns (q, r) in
  (forall c, c ∈ r -> c ∈ res.2)
  /\ (forall c, c ∈ res.2 -> c ∈ r \/ (c ∈ ns /\ c ∈ pix_keys org))
  /\ (forall b, b ∈ ns -> b ∈ pix_keys org -> b ∈ res.2)
  /\ exists new,
      res.1 = q ++ new /\ NoDup new
      /\ (forall c, c ∈ new <-> c ∈ res.2 /\ c ∉ r)
      /\ base.size res.2 = (base.size r + length new)%nat.
Proof.
  revert q r. induction ns as [|n ns IH]; intros q r; cbv zeta;
    cbn [fold_left].
  - simpl. split; [done|]. split; [by left|]. split.
    + intros b Hb. by apply elem_of_nil in Hb.
    + exists []. rewrite app_nil_r. split; [done|]. split; [apply NoDup_nil_2|].
      split; [|simpl; lia]. intros c. rewrite elem_of_nil. tauto.
  - assert (bfs_visit org (q, r) n
            = if pix_has n org && negb (bool_decide (n ∈ r))
              then (q ++ [n], {[n]} ∪ r) else (q, r)) as -> by reflexivity.
    destruct (pix_has n org && negb (bool_decide (n ∈ r))) eqn:Hv.
    + apply andb_true_iff in Hv as [Hk Hr].
      apply pix_has_true in Hk.
      apply negb_true_iff, bool_decide_eq_false in Hr.
      destruct (IH (q ++ [n]) ({[n]} ∪ r))
        as (H1 & H2 & H3 & new & H4 & H5 & H6 & H7). cbv zeta in *.
      split; [intros c Hc; apply H1; set_solver|].
      split.
      { intros c Hc. destruct (H2 c Hc) as [Hc'|[Hc' ?]].
        - apply elem_of_union in Hc' as [Hc'|Hc']; [|by left].
          apply elem_of_singleton in Hc' as ->. right. split; [left | done].
        - right. split; [by right | done]. }
      split.
      { intros b Hb Hbk. apply elem_of_cons in Hb as [->|Hb]; [|by apply H3].
        apply H1. set_solver. }
      exists (n :: new). split; [by rewrite H4, <- app_assoc|].
      split.
      { apply NoDup_cons. split; [|done]. intros Hn.
        apply H6 in Hn as [_ Hn']. apply Hn'. set_solver. }
      split.
      { intros c. rewrite elem_of_cons, H6. split.
        - intros [->|[? Hc']]; [split; [apply H1; set_solver | done]|].
          split; [done|]. set_solver.
        - intros [Hc Hcr]. destruct (decide (c = n)) as [->|Hne]; [by left|].
          right. split; [done|]. set_solver. }
      rewrite H7. rewrite size_union by set_solver. rewrite size_singleton.
      simpl. lia.
    + destruct (IH q r) as (H1 & H2 & H3 & new & H4 & H5 & H6 & H7).
      cbv zeta in *. split; [done|]. split.
      { intros c Hc. destruct (H2 c Hc) as [?|[? ?]]; [by left|].
        right. split; [by right | done]. }
      split.
      { intros b Hb Hbk. apply elem_of_cons in Hb as [->|Hb]; [|by apply H3].
        apply andb_false_iff in Hv as [Hv|Hv].
        - apply pix_has_false in Hv. done.
        - apply negb_false_iff, bool_decide_eq_true in Hv. by apply H1. }
      by exists new.
Qed.

(** The invariant of the traversal. *)
Record bfs_inv (org : Organism) (eye : Cell) (q : list Cell) (r : gset Cell)
  : Prop := {
  bfs_eye : eye ∈ r;
  bfs_sound : forall c, c ∈ r -> rtc (walk (pix_keys org)) eye c;
  bfs_closed :
    forall c, c ∈ r ->
              c ∈ q \/ forall b, adj c b -> b ∈ pix_keys org -> b ∈ r;
  bfs_queue : forall c, c ∈ q -> c ∈ r;
  bfs_keys : forall c, c ∈ r -> c ∈ pix_keys org;
  bfs_nodup : NoDup q
}.

Lemma size_le_keys (r : gset Cell) (keys : list Cell) :
  NoDup keys ->
  (forall c, c ∈ r -> c ∈ keys) -> (base.size r <= length keys)%nat.
Proof.
  intros Hnd Hsub.
  assert (r ⊆ list_to_set keys) as Hs.
  { intros c Hc. apply elem_of_list_to_set. by apply Hsub. }
  apply subseteq_size in Hs. by rewrite size_list_to_set in Hs.
Qed.

Lemma queue_le_size (q : list Cell) (r : gset Cell) :
  NoDup q -> (forall c, c ∈ q -> c ∈ r) -> (length q <= base.size r)%nat.
Proof.
  intros Hnd Hsub.
  assert (list_to_set q ⊆ r) as Hs.
  { intros c Hc. apply elem_of_list_to_set in Hc. by apply Hsub. }
  apply subseteq_size in Hs. by rewrite size_list_to_set in Hs.
Qed.

Lemma bfs_spec fuel org eye q r :
  NoDup (pix_keys org) ->
  bfs_inv org eye q r ->
  (length (pix_keys org) + length q <= fuel + base.size r)%nat ->
  (bfs fuel org q r).1 = [] /\ bfs_inv org eye [] (bfs fuel org q r).2.
Proof.
  intros Hnd. revert q r.
  induction fuel as [|fuel IH]; intros q r HI Hf; simpl.
  - pose proof (size_le_keys r (pix_keys org) Hnd (bfs_keys _ _ _ _ HI)).
    destruct q as [|x q]; [done|]. simpl in Hf. lia.
  - destruct q as [|[x y] q]; [done|].
    pose proof (bfs_visit_fold org (neighbors8 x y) q r)
      as (H1 & H2 & H3 & new & H4 & H5 & H6 & H7).
    destruct (fold_left (bfs_visit org) (neighbors8 x y) (q, r)) as [q' r'].
    simpl in *. subst q'.
    destruct HI as [B1 B2 B3 B4 B5 B6]. apply NoDup_cons in B6 as [Bx B6].
    apply IH.
    + split.
      * by apply H1.
      * intros c Hc. destruct (H2 c Hc) as [Hc'|[Hc' Hk]]; [by apply B2|].
        eapply rtc_r; [apply (B2 (x, y)), B4; left|]. split; [|done]. exact Hc'.
      * intros c Hc. destruct (decide (c ∈ r)) as [Hr|Hr].
        -- destruct (B3 c Hr) as [Hq|Hcl].
           ++ apply elem_of_cons in Hq as [->|Hq].
              ** right. intros b Hb Hbk. by apply H3.
              ** left. apply elem_of_app. by left.
           ++ right. intros b Hb Hbk. apply H1. by apply Hcl.
        -- left. apply elem_of_app. right. by apply H6.
      * intros c Hc. apply elem_of_app in Hc as [Hc|Hc].
        -- apply H1, B4. by right.
        -- by apply H6.
      * intros c Hc. destruct (H2 c Hc) as [?|[_ ?]]; [by apply B5 | done].
      * apply NoDup_app. split; [done|]. split; [|done].
        intros c Hc Hn. apply H6 in Hn as [_ Hr]. apply Hr, B4. by right.
    + rewrite H7, length_app. simpl in Hf. lia.
Qed.
End BfsFacts.

(** ** The invariant through checkConnectivity *)

Section CheckFacts.
Variable gridSize : Z.
Variable params : SimulationParams.
Hypothesis gridSize_pos : 0 < gridSize.

Local Abbreviation inb := (inb gridSize).
Local Abbreviation InvBut := (InvBut gridSize params).
Local Abbreviation detach := (detach gridSize params).
Local Abbreviation checkConnectivity := (checkConnectivity gridSize params).
Local Abbreviation org_shape := (org_shape gridSize params).
Local Abbreviation walk := (walk gridSize params).

Lemma InvBut_shape bad bad' stale s :
  InvBut bad' stale s ->
  (forall o, o ∈ organisms s -> ~ bad (id o) -> org_shape o) ->
  InvBut bad stale s.
Proof. intros [I1 I2 I3 I4 I5 I6 I7 I8 I9 I10] Hs. by split. Qed.

Lemma detach_fold_inv bad stale t reachable todo s o :
  InvBut (fun i => bad i \/ i = t) stale s ->
  get_org t s = Some o -> NoDup todo ->
  (forall k, k ∈ todo -> k ∈ pix_keys o) ->
  InvBut (fun i => bad i \/ i = t) stale
    (fold_left (detach t reachable) todo s)
  /\ exists o',
      get_org t (fold_left (detach t reachable) todo s) = Some o'
      /\ eyeX o' = eyeX o /\ eyeY o' = eyeY o
      /\ forall k, k ∈ pix_keys o'
                   <-> k ∈ pix_keys o /\ ~ (k ∈ todo /\ k ∉ reachable).
Proof.
  revert s o. induction todo as [|k todo IH]; intros s o HI Hg Hnd Hsub;
    cbn [fold_left].
  - split; [done|]. exists o. split; [done|]. split; [done|]. split; [done|].
    intros k. split; [|by intros [? _]].
    intros Hk. split; [done|]. intros [Hn _]. by apply elem_of_nil in Hn.
  - apply NoDup_cons in Hnd as [Hk Hnd].
    unfold def_detach at 2 4. destruct (decide (k ∈ reachable)) as [Hr|Hr].
    + destruct (IH s o HI Hg Hnd) as (HI' & o' & Hg' & Hx & Hy & Hkeys).
      { intros k' Hk'. apply Hsub. by right. }
      split; [done|]. exists o'. split; [done|]. split; [done|].
      split; [done|]. intros k'. rewrite Hkeys. split.
      * intros [Hin Hn]. split; [done|]. intros [Hin' Hnr].
        apply elem_of_cons in Hin' as [->|Hin']; [done|]. by apply Hn.
      * intros [Hin Hn]. split; [done|]. intros [? ?].
        apply Hn. split; [by right | done].
    + set (s1 := update_org t _ (toFood gridSize params s k)).
      assert (InvBut (fun i => bad i \/ i = t) stale s1) as HI1.
      { eapply InvBut_weaken; [| |eapply (InvBut_release gridSize params
                                           gridSize_pos _ _ s t o k)];
          try done.
        - intros i [[?|?]|?]; tauto.
        - apply Hsub. left. }
      assert (get_org t s1
              = Some (set_pixels (kdelete fst k (pixels o)) o)) as Hg1.
      { unfold s1. rewrite get_org_update_eq by done.
        change (get_org t (toFood gridSize params s k)) with (get_org t s).
        by rewrite Hg. }
      destruct (IH s1 _ HI1 Hg1 Hnd) as (HI' & o' & Hg' & Hx & Hy & Hkeys).
      { intros k' Hk'. unfold pix_keys. simpl. rewrite keys_kdelete.
        apply list_elem_of_filter. split; [|apply Hsub; by right].
        intros ->. done. }
      split; [done|]. exists o'. split; [done|]. split; [done|].
      split; [done|]. intros k'. rewrite Hkeys.
      unfold pix_keys at 1. simpl. rewrite keys_kdelete.
      rewrite list_elem_of_filter. fold (pix_keys o). split.
      * intros [[Hne Hin] Hn]. split; [done|]. intros [Hin' Hnr].
        apply elem_of_cons in Hin' as [->|Hin']; [done|]. by apply Hn.
      * intros [Hin Hn]. split; [split; [|done]|].
        -- intros ->. apply Hn. split; [left | done].
        -- intros [? ?]. apply Hn. split; [by right | done].
Qed.

(** The connectivity check restores the invariant for the organism it is
    given. *)
Lemma InvBut_checkConnectivity bad stale s t :
  InvBut (fun i => bad i \/ i = t) stale s ->
  InvBut bad stale (checkConnectivity t s).
Proof.
  intros HI. unfold def_checkConnectivity.
  assert (forall s', InvBut (fun i => bad i \/ i = t) stale s' ->
                     InvBut bad stale (removeOrganism gridSize params t s'))
    as Hrem.
  { intros s' HI'. eapply InvBut_weaken;
      [| |by apply InvBut_removeOrganism]; [|done].
    simpl. intros i [[?|?] ?]; done. }
  destruct (get_org t s) as [org|] eqn:Hg.
  2:{ eapply InvBut_shape; [exact HI|]. intros o Ho Hb.
      apply (inv_shape _ _ _ _ _ HI o Ho). intros [?|Hid]; [done|].
      pose proof (proj1 (kget_None id t (organisms s)) Hg) as Hn.
      apply Hn. rewrite <- Hid. by apply list_elem_of_fmap_2. }
  destruct (pix_size org =? 0); [by apply Hrem|].
  destruct (pix_has (eyeX org, eyeY org) org) eqn:Heye; simpl; [|by apply Hrem].
  apply pix_has_true in Heye.
  pose proof (get_org_in _ _ _ Hg) as Hin.
  pose proof (ok_nodup _ _ _ (inv_orgs _ _ _ _ _ HI org Hin)) as Hnd.
  set (eye := (eyeX org, eyeY org)) in *.
  destruct (bfs_spec gridSize params gridSize_pos (length (pixels org)) org
              eye [eye] {[eye]} Hnd) as [Hq HB].
  { split.
    - set_solver.
    - intros c Hc. apply elem_of_singleton in Hc as ->. apply rtc_refl.
    - intros c Hc. apply elem_of_singleton in Hc as ->. left. left.
    - intros c Hc. apply list_elem_of_singleton in Hc as ->. set_solver.
    - intros c Hc. apply elem_of_singleton in Hc as ->. done.
    - apply NoDup_singleton. }
  { rewrite size_singleton. unfold pix_keys. rewrite length_map. simpl. lia. }
  set (reachable := (bfs gridSize params (length (pixels org)) org [eye]
                       {[eye]}).2) in *.
  destruct (detach_fold_inv bad stale t reachable (pix_keys org) s org HI Hg Hnd)
    as (HI' & o' & Hg' & Hx & Hy & Hkeys); [done|].
  rewrite Hg'. destruct (pix_size o' =? 0); [by apply Hrem|].
  eapply InvBut_shape; [exact HI'|]. intros o Ho Hb.
  destruct (decide (id o = t)) as [Hid|Hid];
    [|apply (inv_shape _ _ _ _ _ HI' o Ho); tauto].
  assert (o = o') as ->.
  { pose proof (get_org_elem gridSize params _ _ _ _ HI' Ho) as Hgo.
    rewrite Hid in Hgo. congruence. }
  destruct HB as [B1 B2 B3 B4 B5 B6].
  assert (forall c, c ∈ pix_keys o' <-> c ∈ pix_keys org /\ c ∈ reachable)
    as Hk'.
  { intros c. rewrite Hkeys. split.
    - intros [Hc Hn]. split; [done|].
      destruct (decide (c ∈ reachable)); [done|]. exfalso. by apply Hn.
    - intros [Hc Hr]. split; [done|]. intros [_ ?]. done. }
  unfold def_org_shape. rewrite Hx, Hy. fold eye. split.
  - apply Hk'. done.
  - intros c Hc. apply Hk' in Hc as [Hc Hr].
    apply (connected_closed gridSize params (pix_keys org) (pix_keys o') eye
             (fun x => x ∈ reachable)); try done.
    + intros a b Ha Hab Hbk. destruct (B3 a Ha) as [Hq'|Hcl].
      * by apply elem_of_nil in Hq'.
      * by apply Hcl.
    + intros x Hx' Hr'. by apply Hk'.
    + by apply B2.
Qed.
End CheckFacts.

(** ** The invariant through the phases of a tick *)

Lemma view_grid s s' : view s' = view s -> grid s' = grid s.
Proof. by intros [= ? _ _ _ _]. Qed.

Lemma view_rng_only s s' : rng_only s s' -> view s' = view s.
Proof. by intros [n ->]. Qed.

Lemma for_each_org_preserves (Q : Simulation -> Prop)
    (body : Organism -> Simulation -> Simulation) s :
  (forall o s', Q s' -> get_org (id o) s' = Some o -> Q (body o s')) ->
  Q s -> Q (for_each_org body s).
Proof.
  intros Hb Hs. unfold for_each_org. apply fold_left_preserves; [|done].
  intros s' i Hs'. destruct (get_org i s') as [o|] eqn:Hg; [|done].
  apply Hb; [done|]. by rewrite (get_org_id _ _ _ Hg).
Qed.

Section CombatInv.
Variable gridSize : Z.
Variable params : SimulationParams.
Variable rand : nat -> Q.
Hypothesis gridSize_pos : 0 < gridSize.

Local Abbreviation inb := (inb gridSize).
Local Abbreviation gridAt := (gridAt gridSize).
Local Abbreviation cellIdx := (cellIdx gridSize).
Local Abbreviation InvBut := (InvBut gridSize params).
Local Abbreviation Inv := (Inv gridSize params).
Local Abbreviation org_shape := (org_shape gridSize params).

Lemma Inv_view s s' : view s' = view s -> Inv s -> Inv s'.
Proof. apply InvBut_view. Qed.

Lemma view_payFee fee i s : view (payFee fee i s) = view s.
Proof. unfold payFee. destruct (Qltb 0 fee); [|done]. by apply view_update_org. Qed.

Lemma view_strike i s : view (strike i s) = view s.
Proof. unfold view, strike. simpl. by rewrite length_arr_set. Qed.

Lemma view_creditActor i s : view (creditActor params i s) = view s.
Proof.
  unfold creditActor. cbv zeta.
  change (view (set_envEnergy ?e ?s')) with (view s').
  by apply view_update_org.
Qed.

(** *** Losing a cell to an attack, an obstacle or a meal *)

Lemma InvBut_clear_cell bad stale s c v w :
  InvBut bad stale s -> inb c -> gridAt s c.1 c.2 = Some v -> 0 < v ->
  w <= 0 ->
  InvBut (fun i => bad i \/ i = v) stale
    (update_org v (fun o => set_pixels (kdelete fst c (pixels o)) o)
       (write_grid (cellIdx c) w s)).
Proof.
  intros HI Hc Hg Hv Hw.
  change (update_org v ?f (write_grid ?i w s))
    with (write_grid i w (update_org v f s)).
  pose proof (InvBut_drop_cell gridSize params bad stale s v c HI) as HI1.
  set (s1 := update_org v _ s) in *.
  assert (InvBut (fun i => bad i \/ i = v)
            (fun x => (stale x \/ x = c) /\ x <> c)
            (write_grid (cellIdx c) w s1)) as HI2.
  { apply InvBut_write_free; try done.
    - intros o' Ho'. unfold s1 in Ho'. simpl in Ho'.
      apply elem_of_kupdate_NoDup in Ho'
          as [[Ho' Hne]|(o1 & Ho1 & Hid1 & ->)];
        [| |apply (inv_ids _ _ _ _ _ HI)].
      + intros Hc'.
        destruct (ok_cells _ _ _ (inv_orgs _ _ _ _ _ HI o' Ho') c Hc')
          as [_ H1]. congruence.
      + unfold pix_keys. simpl. rewrite keys_kdelete.
        intros Hf. apply list_elem_of_filter in Hf as [Hf _]. done.
    - unfold s1. simpl. intros Hf.
      destruct (inv_food _ _ _ _ _ HI c Hf) as [_ H1]. rewrite Hg in H1.
      injection H1 as ->. lia.
    - pose proof (inv_next _ _ _ _ _ HI1). lia.
    - intros o Ho. pose proof (ok_id _ _ _ (inv_orgs _ _ _ _ _ HI1 o Ho)). lia. }
  eapply InvBut_weaken; [| |exact HI2]; [done|].
  intros x [[?|?] ?]; done.
Qed.

Lemma InvBut_clear_food bad stale s n :
  InvBut bad stale s -> inb n -> gridAt s n.1 n.2 = Some (-1) ->
  InvBut bad stale
    (set_foodPixels (kdelete fst n (foodPixels s))
       (write_grid (cellIdx n) 0 s)).
Proof.
  intros HI Hn Hg.
  change (set_foodPixels ?f (write_grid ?i 0 s))
    with (write_grid i 0 (set_foodPixels f s)).
  pose proof (InvBut_del_food gridSize params bad stale s n HI) as HI1.
  eapply InvBut_weaken; [| |apply InvBut_write_free; try exact HI1];
    try done.
  - by intros x [? _].
  - intros o Ho. eapply (free_cell gridSize params bad stale s n (-1));
      try done.
  - simpl. rewrite keys_kdelete. intros Hf.
    by apply list_elem_of_filter in Hf as [Hf _].
  - pose proof (inv_next _ _ _ _ _ HI). simpl. lia.
  - intros o Ho. pose proof (ok_id _ _ _ (inv_orgs _ _ _ _ _ HI1 o Ho)). lia.
Qed.

(** *** attack and combat *)

Lemma Inv_attack org tx ty tid s :
  Inv s -> inb (tx, ty) -> gridAt s tx ty = Some tid -> 0 < tid ->
  Inv (attack gridSize params org tx ty tid s).
Proof.
  intros HI Hc Hg Ht. unfold attack. cbv zeta.
  destruct (cannotAfford _ org s); [done|].
  set (s2 := strike _ (payFee _ _ s)).
  assert (view s2 = view s) as Hv2.
  { unfold s2. by rewrite view_strike, view_payFee. }
  pose proof (Inv_view _ _ Hv2 HI) as HI2.
  destruct (0 <? hpAt s2 (idx gridSize tx ty)); [done|].
  set (s3 := creditActor params (id org) s2).
  assert (view s3 = view s) as Hv3.
  { unfold s3. by rewrite view_creditActor. }
  pose proof (Inv_view _ _ Hv3 HI) as HI3.
  assert (gridAt s3 tx ty = Some tid) as Hg3.
  { unfold def_gridAt. by rewrite (view_grid _ _ Hv3). }
  apply (Inv_view (match get_org tid (write_grid (idx gridSize tx ty) 0 s3) with
                     | Some _ =>
                         checkConnectivity gridSize params tid
                           (update_org tid
                              (fun o =>
                                 set_pixels (kdelete fst (tx, ty) (pixels o)) o)
                              (write_grid (idx gridSize tx ty) 0 s3))
                     | None => write_grid (idx gridSize tx ty) 0 s3
                     end)); [done|].
  assert (InvBut (fun i => False \/ i = tid) (fun _ => False)
            (update_org tid
               (fun o => set_pixels (kdelete fst (tx, ty) (pixels o)) o)
               (write_grid (idx gridSize tx ty) 0 s3))) as HI4.
  { exact (InvBut_clear_cell _ _ s3 (tx, ty) tid 0 HI3 Hc Hg3 Ht
             ltac:(lia)). }
  destruct (get_org tid (write_grid (idx gridSize tx ty) 0 s3)) as [o|] eqn:Hgt.
  - apply InvBut_checkConnectivity; [done|]. exact HI4.
  - assert (update_org tid
              (fun o => set_pixels (kdelete fst (tx, ty) (pixels o)) o)
              (write_grid (idx gridSize tx ty) 0 s3)
            = write_grid (idx gridSize tx ty) 0 s3) as Heq.
    { unfold update_org. rewrite kupdate_notin; [by destruct s3|].
      by apply kget_None. }
    rewrite Heq in HI4. eapply InvBut_shape; [exact HI4|].
    intros o Ho _. apply (inv_shape _ _ _ _ _ HI4 o Ho).
    intros [[]|Hid]. apply kget_None in Hgt. apply Hgt.
    rewrite <- Hid. by apply list_elem_of_fmap_2.
Qed.

Lemma scanNeighbor_fold org ns targets s :
  let res := fold_left (scanNeighbor gridSize rand org) ns (targets, s) in
  rng_only s res.2
  /\ forall t, t ∈ res.1 ->
               t ∈ targets
               \/ exists n, n ∈ ns /\ t.1 = n
                            /\ gridAt s n.1 n.2 = Some t.2 /\ 0 < t.2.
Proof.
  revert targets s. induction ns as [|n ns IH]; intros targets s; cbv zeta;
    cbn [fold_left].
  - split; [apply rng_only_refl|]. intros t Ht. by left.
  - assert (exists targets' s',
               scanNeighbor gridSize rand org (targets, s) n
               = (targets', s')
               /\ rng_only s s'
               /\ forall t, t ∈ targets' ->
                    t ∈ targets
                    \/ (t.1 = n /\ gridAt s n.1 n.2 = Some t.2 /\ 0 < t.2))
      as (targets' & s' & -> & Hr & Ht).
    { unfold scanNeighbor. cbn [fst snd].
      destruct (def_gridAt gridSize s n.1 n.2) as [tid|] eqn:Hg;
        [|exists targets, s; split; [done|]; split;
          [apply rng_only_refl | by left]].
      destruct ((tid <=? 0) || (tid =? id org)) eqn:Hc;
        [exists targets, s; split; [done|]; split;
          [apply rng_only_refl | by left]|].
      apply orb_false_iff in Hc as [Hpos _]. apply Z.leb_gt in Hpos.
      destruct (get_org tid s) as [target|];
        [|exists targets, s; split; [done|]; split;
          [apply rng_only_refl | by left]].
      destruct (speciesMask target =? speciesMask org);
        [exists targets, s; split; [done|]; split;
          [apply rng_only_refl | by left]|].
      assert (forall t, t ∈ targets ++ [(n.1, n.2, tid)] ->
                t ∈ targets
                \/ (t.1 = n /\ Some tid = Some t.2 /\ 0 < t.2)) as Hnew.
      { intros t Ht. apply elem_of_app in Ht as [?|Ht]; [by left|].
        apply list_elem_of_singleton in Ht as ->. right. simpl.
        split; [by destruct n|]. done. }
      destruct (pix_size org =? pix_size target).
      - simpl. destruct (Qltb _ _); eexists _, _; (split; [done|]);
          (split; [apply (random_rng rand)|]); [exact Hnew | by left].
      - destruct (pix_size target <? pix_size org);
          eexists _, _; (split; [done|]); (split; [apply rng_only_refl|]);
          [exact Hnew | by left]. }
    destruct (IH targets' s') as [Hr' Ht']. cbv zeta in *.
    split; [by eapply rng_only_trans|].
    intros t Hin. destruct (Ht' t Hin) as [Hin'|(n' & Hn' & H1 & H2 & H3)].
    + destruct (Ht t Hin') as [?|(H1 & H2 & H3)]; [by left|].
      right. exists n. split; [left | done].
    + right. exists n'. split; [by right|]. split; [done|]. split; [|done].
      destruct Hr as [k ->]. exact H2.
Qed.

Lemma Inv_combatOne org s :
  Inv s -> get_org (id org) s = Some org ->
  Inv (combatOne gridSize params rand org s).
Proof.
  intros HI Hg. unfold combatOne.
  pose proof (scanNeighbor_fold org
                (flat_map (fun k => neighbors8 gridSize params k.1 k.2)
                   (pix_keys org)) [] s) as [Hr Ht].
  destruct (fold_left _ _ ([], s)) as [targets s1]. simpl in *.
  pose proof (Inv_view _ _ (view_rng_only _ _ Hr) HI) as HI1.
  destruct targets as [|t0 targets]; [done|].
  set (ts := t0 :: targets) in *.
  destruct (ts !! _) as [[[tx ty] tid]|] eqn:Hl; simpl.
  - apply list_elem_of_lookup_2 in Hl.
    destruct (Ht _ Hl) as [Hn|(n & Hn & H1 & H2 & H3)];
      [by apply elem_of_nil in Hn|]. simpl in *. subst n.
    apply Inv_attack; try done.
    + by apply (Inv_view s1).
    + apply list_elem_of_In, in_flat_map in Hn as (k & _ & Hk).
      apply list_elem_of_In in Hk.
      by apply (adj_inb gridSize params gridSize_pos k).
    + destruct Hr as [k ->]. exact H2.
  - by apply (Inv_view s1).
Qed.

Lemma Inv_combat s : Inv s -> Inv (combat gridSize params rand s).
Proof.
  intros HI. unfold combat. apply for_each_org_preserves; [|done].
  intros o s' Hs' Hg. by apply Inv_combatOne.
Qed.
End CombatInv.

(** *** absorbFood, metabolism, growth and birth *)

Lemma firstSome_Some {A B} (f : A -> option B) l b :
  firstSome f l = Some b -> exists a, a ∈ l /\ f a = Some b.
Proof.
  induction l as [|x l IH]; simpl; [done|].
  destruct (f x) as [b'|] eqn:Hx.
  - intros [= ->]. exists x. split; [left | done].
  - intros H. destruct (IH H) as (a & Ha & Hfa). exists a. split; [by right|done].
Qed.

Section GrowthInv.
Variable gridSize : Z.
Variable params : SimulationParams.
Variable rand : nat -> Q.
Hypothesis gridSize_pos : 0 < gridSize.

Local Abbreviation inb := (inb gridSize).
Local Abbreviation adj := (adj gridSize params).
Local Abbreviation gridAt := (gridAt gridSize).
Local Abbreviation cellIdx := (cellIdx gridSize).
Local Abbreviation InvBut := (InvBut gridSize params).
Local Abbreviation Inv := (Inv gridSize params).
Local Abbreviation org_shape := (org_shape gridSize params).

Lemma Inv_absorbAt org n s :
  Inv s -> inb n -> gridAt s n.1 n.2 = Some (-1) ->
  Inv (absorbAt gridSize params org n s).
Proof.
  intros HI Hn Hg. unfold absorbAt. cbv zeta.
  set (s2 := strike _ (payFee _ _ s)).
  assert (view s2 = view s) as Hv2.
  { unfold s2. by rewrite view_strike, view_payFee. }
  destruct (hpAt s2 _ =? 0); [|by apply (Inv_view gridSize params s)].
  set (s3 := creditActor params (id org) s2).
  assert (view s3 = view s) as Hv3.
  { unfold s3. by rewrite view_creditActor. }
  apply (InvBut_clear_food gridSize params gridSize_pos _ _ s3 n); try done.
  - by apply (Inv_view gridSize params s).
  - unfold def_gridAt. by rewrite (view_grid _ _ Hv3).
Qed.

Lemma Inv_absorbFood s : Inv s -> Inv (absorbFood gridSize params s).
Proof.
  intros HI. unfold absorbFood. apply for_each_org_preserves; [|done].
  intros o s' Hs' Hg. unfold absorbOne.
  destruct (firstSome _ _) as [n|] eqn:Hf; [|done].
  apply firstSome_Some in Hf as (a & Ha & Hf). unfold absorbCandidate in Hf.
  destruct (bool_decide _) eqn:Hb; [|done]. apply bool_decide_eq_true in Hb.
  destruct (_ && _); [done|]. injection Hf as <-.
  apply Inv_absorbAt; try done.
  apply list_elem_of_In, in_flat_map in Ha as (k & _ & Hk).
  apply list_elem_of_In in Hk.
  by apply (adj_inb gridSize params gridSize_pos k).
Qed.

Lemma Inv_metabolism s : Inv s -> Inv (metabolism gridSize params s).
Proof.
  intros HI. unfold metabolism. apply for_each_org_preserves; [|done].
  intros o s' Hs' Hg. unfold metabolismOne. cbv zeta.
  set (s1 := update_org _ _ s').
  assert (Inv s1) as HI1.
  { apply (Inv_view gridSize params s'); [|done]. by apply view_update_org. }
  destruct (Qleb _ 0); [|done].
  eapply InvBut_weaken; [| |by apply InvBut_removeOrganism]; [|done].
  by intros i [[] _].
Qed.

(** An organism takes a free cell next to one of its cells. *)
Lemma Inv_gain_cell s t o c f :
  Inv s -> get_org t s = Some o -> inb c -> gridAt s c.1 c.2 = Some 0 ->
  (exists k, k ∈ pix_keys o /\ adj c k) ->
  (forall o1, id (f o1) = id o1) ->
  body (f o) = (id o, eyeX o, eyeY o, pix_keys o ++ [c]) ->
  Inv (update_org t f (write_grid (cellIdx c) t s)).
Proof.
  intros HI Hg Hc Hfree (k & Hk & Hadj) Hfid Hbody.
  pose proof (get_org_in _ _ _ Hg) as Ho.
  pose proof (get_org_id _ _ _ Hg) as Hid.
  pose proof (inv_orgs _ _ _ _ _ HI o Ho) as Hoc.
  assert (c ∉ pix_keys o) as Hnew.
  { apply (free_cell gridSize params _ _ s c 0 o HI Hfree); [lia|done]. }
  assert (forall c', inb c' ->
            gridAt (update_org t f (write_grid (cellIdx c) t s)) c'.1 c'.2
            = if decide (c' = c) then Some t else gridAt s c'.1 c'.2) as Hgrid.
  { intros c' Hc'.
    apply (gridAt_write gridSize params gridSize_pos _ _ s c c' t HI Hc Hc'). }
  assert (forall o', o' ∈ organisms (update_org t f (write_grid (cellIdx c) t s)) ->
            (o' ∈ organisms s /\ id o' <> t) \/ o' = f o) as Hcases.
  { intros o' Ho'. simpl in Ho'.
    apply elem_of_kupdate_NoDup in Ho'
        as [?|(o1 & Ho1 & Hid1 & ->)]; [by left| |apply (inv_ids _ _ _ _ _ HI)].
    right. f_equal. eapply same_id_same_org; try done. congruence. }
  assert (pix_keys (f o) = pix_keys o ++ [c]) as Hkeys by (by injection Hbody).
  assert (id (f o) = t) as Hidf by (rewrite Hfid; done).
  split.
  - simpl. rewrite length_arr_set. apply (inv_grid_len _ _ _ _ _ HI).
  - apply (inv_hp_len _ _ _ _ _ HI).
  - apply (inv_next _ _ _ _ _ HI).
  - simpl. rewrite keys_kupdate by done. apply (inv_ids _ _ _ _ _ HI).
  - intros o' Ho'. destruct (Hcases o' Ho') as [[Hin Hne]| ->].
    + pose proof (inv_orgs _ _ _ _ _ HI o' Hin) as [H1 H2 H3].
      split; [done..|]. intros c' Hc'. destruct (H3 c' Hc') as [Hb Hgc].
      split; [done|]. rewrite Hgrid by done.
      rewrite decide_False; [done|]. intros ->. rewrite Hfree in Hgc.
      injection Hgc as Hgc. lia.
    + destruct Hoc as [H1 H2 H3]. split.
      * rewrite Hfid. exact H1.
      * rewrite Hkeys. apply NoDup_app. split; [done|].
        split; [|apply NoDup_singleton].
        intros x Hx Hx'. apply list_elem_of_singleton in Hx' as ->. done.
      * rewrite Hkeys, Hfid. intros c' Hc'.
        apply elem_of_app in Hc' as [Hc'|Hc'].
        -- destruct (H3 c' Hc') as [Hb Hgc]. split; [done|].
           rewrite Hgrid by done. rewrite decide_False; [done|].
           intros ->. done.
        -- apply list_elem_of_singleton in Hc' as ->. split; [done|].
           rewrite Hgrid by done. rewrite decide_True by done. by rewrite Hid.
  - intros o' Ho' _. destruct (Hcases o' Ho') as [[Hin Hne]| ->].
    + apply (inv_shape _ _ _ _ _ HI o' Hin). tauto.
    + destruct (inv_shape _ _ _ _ _ HI o Ho ltac:(tauto)) as [He Hcon].
      unfold def_org_shape.
      assert (eyeX (f o) = eyeX o /\ eyeY (f o) = eyeY o) as [-> ->]
          by (by injection Hbody).
      rewrite Hkeys. split; [apply elem_of_app; by left|].
      by apply (connected_grow gridSize params gridSize_pos _ _ k).
  - intros c' o' Hc' _ Ho' Hgc. rewrite Hgrid in Hgc by done.
    destruct (decide (c' = c)) as [->|Hne].
    + injection Hgc as Hgc. destruct (Hcases o' Ho') as [[Hin Hne]| ->];
        [congruence|]. rewrite Hkeys. apply elem_of_app. right. left.
    + destruct (Hcases o' Ho') as [[Hin Hne']| ->].
      * apply (inv_owner _ _ _ _ _ HI c' o'); [done|tauto|done|done].
      * rewrite Hkeys. apply elem_of_app. left.
        apply (inv_owner _ _ _ _ _ HI c' o); try done.
        -- tauto.
        -- rewrite Hgc. f_equal. by rewrite Hfid.
  - intros i v. simpl. rewrite arr_get_set.
    destruct (decide _) as [_|_].
    + intros [= <-]. rewrite <- Hid. apply (ok_id _ _ _ Hoc).
    + apply (inv_codes _ _ _ _ _ HI).
  - apply (inv_food_nodup _ _ _ _ _ HI).
  - intros k' Hk'. simpl in Hk'.
    destruct (inv_food _ _ _ _ _ HI k' Hk') as [Hb Hgk]. split; [done|].
    rewrite Hgrid by done. rewrite decide_False; [done|]. intros ->.
    congruence.
Qed.

Lemma growTarget_Some s org d c :
  growTarget gridSize params s org d = Some c ->
  inb c /\ gridAt s c.1 c.2 = Some 0
  /\ exists k, k ∈ pix_keys org /\ adj c k.
Proof.
  unfold growTarget. cbv zeta.
  destruct (_ || _); [done|]. destruct (decide _); [done|].
  destruct (applyBoundary _ _ _ _) as [[bx by']|] eqn:Hb; [|done].
  destruct (pix_has _ org); [done|].
  destruct (bool_decide _) eqn:Hg; [|done]. simpl.
  apply bool_decide_eq_true in Hg.
  destruct (existsb _ _) eqn:Hex; [|done]. intros [= <-].
  split; [by apply (applyBoundary_inb gridSize params gridSize_pos) in Hb|].
  split; [done|].
  apply existsb_exists in Hex as (k & Hk & Hp). exists k. split.
  - by apply pix_has_true.
  - by apply list_elem_of_In.
Qed.

Lemma Inv_growOrganism org s :
  Inv s -> get_org (id org) s = Some org ->
  Inv (growOrganism gridSize params org s).2.
Proof.
  intros HI Hg. unfold growOrganism.
  destruct (_ <=? _); [done|]. cbv zeta.
  destruct (Qltb _ _); [done|].
  destruct (firstSome _ _) as [[bx by']|] eqn:Hf; [|done].
  apply firstSome_Some in Hf as (d & _ & Hd).
  apply growTarget_Some in Hd as (Hb & Hfree & Hadj). simpl.
  match goal with
  | |- Inv (bump_growing (update_org ?t ?f (write_hp ?i ?v ?s1))) =>
      apply (Inv_view gridSize params (update_org t f s1))
  end.
  { unfold view. simpl. by rewrite length_arr_set. }
  apply (Inv_gain_cell s (id org) org (bx, by')); try done.
  unfold body, pix_keys. simpl.
  rewrite (keys_kset_notin fst ((bx, by'), totalCells (genome org))); [done|].
  simpl.
  apply (free_cell gridSize params _ _ s (bx, by') 0 org HI Hfree); [lia|].
  by eapply get_org_in.
Qed.

Lemma Inv_growAll s : Inv s -> Inv (growAll gridSize params s).
Proof.
  intros HI. unfold growAll. apply for_each_org_preserves; [|done].
  intros o s' Hs' Hg. destruct (movedThisTick o); [done|].
  by apply Inv_growOrganism.
Qed.
End GrowthInv.

Section BirthInv.
Variable gridSize : Z.
Variable params : SimulationParams.
Variable rand : nat -> Q.
Hypothesis gridSize_pos : 0 < gridSize.

Local Abbreviation inb := (inb gridSize).
Local Abbreviation gridAt := (gridAt gridSize).
Local Abbreviation cellIdx := (cellIdx gridSize).
Local Abbreviation Inv := (Inv gridSize params).
Local Abbreviation createOrganism := (createOrganism gridSize params rand).

Lemma Inv_createOrganism x y g e s : Inv s -> Inv (createOrganism x y g e s).2.
Proof.
  intros HI. destruct (createOrganism x y g e s) as [[org|] s'] eqn:Hc;
    [|by apply createOrganism_None in Hc as [-> _]].
  apply createOrganism_Some in Hc
      as (ex & ey & Hb & Hs & Hid & Hex & Hey & Hpix & _ & _ & _ & _
          & Hgrid & Hhp & Horgs & Hnext & Hfood & _).
  simpl.
  pose proof (applyBoundary_inb gridSize params gridSize_pos _ _ _ Hb) as Hin.
  assert (gridAt s ex ey = Some 0) as Hfree.
  { apply (proj1 (spawn_blocked_false gridSize params s ex ey) Hs (0, 0)
             (ex, ey)).
    - unfold around9. simpl. set_solver.
    - simpl. rewrite !Z.add_0_r.
      by apply (applyBoundary_id gridSize params gridSize_pos (ex, ey)). }
  assert (pix_keys org = [(ex, ey)]) as Hkeys.
  { unfold pix_keys. by rewrite Hpix. }
  assert (forall o, o ∈ organisms s -> id o <> id org) as Hfresh.
  { intros o Ho. pose proof (ok_id _ _ _ (inv_orgs _ _ _ _ _ HI o Ho)). lia. }
  assert (id org ∉ map id (organisms s)) as Hnotin.
  { intros Hi. apply list_elem_of_fmap in Hi as (o & Heq & Ho).
    by apply (Hfresh o Ho). }
  assert (forall c', inb c' ->
            gridAt s' c'.1 c'.2
            = if decide (c' = (ex, ey)) then Some (id org)
              else gridAt s c'.1 c'.2) as Hg'.
  { intros c' Hc'. unfold def_gridAt at 1. rewrite Hgrid, <- Hid.
    apply (gridAt_write gridSize params gridSize_pos _ _ s (ex, ey) c'
             (id org) HI Hin Hc'). }
  assert (forall o', o' ∈ organisms s' -> o' = org \/ o' ∈ organisms s)
    as Hcases.
  { intros o'. rewrite Horgs. apply elem_of_kset. }
  split.
  - rewrite Hgrid, length_arr_set. apply (inv_grid_len _ _ _ _ _ HI).
  - rewrite Hhp, length_arr_set. apply (inv_hp_len _ _ _ _ _ HI).
  - pose proof (inv_next _ _ _ _ _ HI). lia.
  - rewrite Horgs. apply NoDup_keys_kset, (inv_ids _ _ _ _ _ HI).
  - intros o' Ho'. destruct (Hcases o' Ho') as [->|Hin'].
    + split.
      * pose proof (inv_next _ _ _ _ _ HI). lia.
      * rewrite Hkeys. apply NoDup_singleton.
      * rewrite Hkeys. intros c' Hc'.
        apply list_elem_of_singleton in Hc' as ->. split; [done|].
        rewrite (Hg' (ex, ey) Hin). by rewrite decide_True.
    + destruct (inv_orgs _ _ _ _ _ HI o' Hin') as [H1 H2 H3]. split.
      * lia.
      * done.
      * intros c' Hc'. destruct (H3 c' Hc') as [Hb' Hgc]. split; [done|].
        rewrite Hg' by done. rewrite decide_False; [done|]. intros ->.
        simpl in Hgc. rewrite Hfree in Hgc. injection Hgc as Hgc. lia.
  - intros o' Ho' _. destruct (Hcases o' Ho') as [->|Hin'].
    + unfold org_shape. rewrite Hkeys, Hex, Hey. split; [left|].
      intros c' Hc'. apply list_elem_of_singleton in Hc' as ->.
      apply rtc_refl.
    + apply (inv_shape _ _ _ _ _ HI o' Hin'). tauto.
  - intros c' o' Hc' _ Ho' Hgc. rewrite Hg' in Hgc by done.
    destruct (decide (c' = (ex, ey))) as [->|Hne].
    + injection Hgc as Hgc. destruct (Hcases o' Ho') as [->|Hin'].
      * rewrite Hkeys. left.
      * by destruct (Hfresh o' Hin').
    + destruct (Hcases o' Ho') as [->|Hin'].
      * pose proof (inv_codes _ _ _ _ _ HI (cellIdx c') (id org) Hgc). lia.
      * apply (inv_owner _ _ _ _ _ HI c' o'); [done|tauto|done|done].
  - intros i v. rewrite Hgrid, arr_get_set.
    destruct (decide _) as [_|_].
    + intros [= <-]. lia.
    + intros Hv. pose proof (inv_codes _ _ _ _ _ HI i v Hv). lia.
  - rewrite Hfood. apply (inv_food_nodup _ _ _ _ _ HI).
  - rewrite Hfood. intros k Hk.
    destruct (inv_food _ _ _ _ _ HI k Hk) as [Hb' Hgk]. split; [done|].
    rewrite Hg' by done. rewrite decide_False; [done|]. intros ->.
    simpl in Hgk. congruence.
Qed.

Lemma view_bearChild parent child s :
  view (bearChild params rand parent child s) = view s.
Proof.
  unfold bearChild. cbv zeta.
  set (s1 := update_org (id parent) _ s).
  assert (view s1 = view s) as H1 by (by apply view_update_org).
  destruct (random rand s1) as [r1 s2] eqn:E1.
  assert (rng_only s1 s2) as R2.
  { pose proof (random_rng rand s1) as R. by rewrite E1 in R. }
  assert (exists m s3,
             (if Qltb r1 (mutationRate params)
              then let '(r2, s') := random rand s2 in
                   (moveSpeed parent + (if Qltb (5 # 10) r2 then 1 else -1), s')
              else (moveSpeed parent, s2)) = (m, s3) /\ rng_only s2 s3)
    as (m & s3 & -> & R3).
  { destruct (Qltb r1 _).
    - pose proof (random_rng rand s2) as R.
      destruct (random rand s2) as [r2 s']. eexists _, _. split; done.
    - eexists _, _. split; [done | apply rng_only_refl]. }
  destruct (random rand s3) as [r3 s4] eqn:E3.
  assert (rng_only s3 s4) as R4.
  { pose proof (random_rng rand s3) as R. by rewrite E3 in R. }
  rewrite view_update_org by done.
  rewrite (view_rng_only _ _ R4), (view_rng_only _ _ R3),
    (view_rng_only _ _ R2). done.
Qed.

Lemma Inv_tryOffsets org dirs s :
  Inv s -> Inv (tryOffsets gridSize params rand org dirs s).
Proof.
  revert s. induction dirs as [|[dx dy] dirs IH]; intros s HI; simpl; [done|].
  destruct (applyBoundary _ _ _ _) as [[x y]|]; [|by apply IH].
  pose proof (mutateGenome_rng params rand (genome org) s) as R.
  destruct (mutateGenome params rand (genome org) s) as [g s1]. simpl in R.
  assert (Inv s1) as HI1.
  { apply (Inv_view gridSize params s); [by apply view_rng_only | done]. }
  pose proof (Inv_createOrganism x y (Some g)
                (Some (reproductionThreshold params * (4 # 10))%Q) s1 HI1)
    as HI2.
  destruct (createOrganism x y _ _ s1) as [[child|] s2]; simpl in HI2.
  - apply (Inv_view gridSize params s2); [apply view_bearChild | done].
  - by apply IH.
Qed.

Lemma Inv_reproduce s : Inv s -> Inv (reproduce gridSize params rand s).
Proof.
  intros HI. unfold reproduce. cbv zeta.
  apply fold_left_preserves; [|done].
  intros s' i HI'. unfold reproduceOne.
  destruct (get_org i s') as [org|]; [|done].
  pose proof (random_rng rand s') as R.
  destruct (random rand s') as [r s1]. simpl in R.
  assert (Inv s1) as HI1.
  { apply (Inv_view gridSize params s'); [by apply view_rng_only | done]. }
  destruct (Qltb _ r); [done|]. cbv zeta.
  match goal with
  | |- context [shuffle rand ?n ?l s1] =>
      pose proof (shuffle_rng rand n l s1) as R2;
      destruct (shuffle rand n l s1) as [sh s2]
  end.
  simpl in R2. apply Inv_tryOffsets.
  apply (Inv_view gridSize params s1); [by apply view_rng_only | done].
Qed.
End BirthInv.

(** *** planDirections, spawnFood and updateFoodDecay *)

Lemma Qfloor_scale (r : Q) (n : Z) :
  (0 <= r)%Q -> (r < 1)%Q -> 0 < n -> 0 <= Qfloor (r * inject_Z n) < n.
Proof.
  intros H0 H1 Hn.
  assert (0 <= inject_Z n)%Q as Hn0.
  { change 0%Q with (inject_Z 0). rewrite <- Zle_Qle. lia. }
  assert (0 < inject_Z n)%Q as Hn1.
  { change 0%Q with (inject_Z 0). rewrite <- Zlt_Qlt. lia. }
  split.
  - change 0 with (Qfloor 0). apply Qfloor_resp_le. by apply Qmult_le_0_compat.
  - rewrite Zlt_Qlt. eapply Qle_lt_trans; [apply Qfloor_le|].
    rewrite <- (Qmult_1_l (inject_Z n)) at 2.
    by apply Qmult_lt_compat_r.
Qed.

Section FoodInv.
Variable gridSize : Z.
Variable params : SimulationParams.
Variable rand : nat -> Q.
Hypothesis gridSize_pos : 0 < gridSize.
Hypothesis rand01 : forall n, (0 <= rand n)%Q /\ (rand n < 1)%Q.

Local Abbreviation inb := (inb gridSize).
Local Abbreviation gridAt := (gridAt gridSize).
Local Abbreviation cellIdx := (cellIdx gridSize).
Local Abbreviation InvBut := (InvBut gridSize params).
Local Abbreviation Inv := (Inv gridSize params).

Lemma view_random s : view (random rand s).2 = view s.
Proof. done. Qed.

Lemma view_randomDirection s : view (randomDirection rand s).2 = view s.
Proof. done. Qed.

Lemma view_faceTarget org t s : view (faceTarget rand org t s).2 = view s.
Proof.
  unfold faceTarget. cbv zeta.
  destruct (_ <? _); [done|]. destruct (_ <? _); [done|]. simpl.
  by destruct (Qltb _ _).
Qed.

Lemma view_wander org s : view (wander rand org s).2 = view s.
Proof.
  unfold wander. destruct (Qltb _ (hunger org)); simpl.
  - destruct (_ || _); [|done].
    rewrite view_randomDirection. by rewrite view_update_org.
  - by destruct (Qltb _ _).
Qed.

Lemma view_chooseDirection org s :
  view (chooseDirection gridSize params rand org s).2 = view s.
Proof.
  unfold chooseDirection. cbv zeta.
  destruct (if Qltb _ _ then _ else _); [done|].
  destruct (head (sortBy _ (detectTargets _ _ _ _))); [apply view_faceTarget|].
  destruct (head _); [|apply view_wander]. simpl.
  destruct (Qltb _ _); [done|]. by rewrite view_wander.
Qed.

Lemma view_planDirections s :
  view (planDirections gridSize params rand s) = view s.
Proof.
  unfold planDirections.
  apply (for_each_org_preserves (fun s' => view s' = view s)); [|done].
  intros o s' Hs' _. pose proof (view_chooseDirection o s') as Hv.
  destruct (chooseDirection _ _ _ o s') as [d s1]. simpl in Hv.
  rewrite view_update_org by done. congruence.
Qed.

Lemma Inv_spawnLoop n s : Inv s -> Inv (spawnLoop gridSize params rand n s).
Proof.
  revert s. induction n as [|n IH]; intros s HI; simpl; [done|].
  destruct (Qltb _ _); [|done].
  set (x := Qfloor (rand (rngCalls s) * inject_Z gridSize)).
  set (y := Qfloor (rand (S (rngCalls s)) * inject_Z gridSize)).
  set (s2 := set_rngCalls _ (set_rngCalls _ s)).
  assert (Inv s2) as HI2 by (by apply (Inv_view gridSize params s)).
  destruct (decide _) as [Hfree|_]; [|by apply IH].
  change (gridAt s2 x y = Some 0) in Hfree.
  apply IH. apply (Inv_view gridSize params (toFood gridSize params s2 (x, y)));
    [done|].
  assert (inb (x, y)) as Hin.
  { split; apply Qfloor_scale; try done; apply rand01. }
  eapply InvBut_weaken; [| |apply (InvBut_toFood_free gridSize params
                                     gridSize_pos _ _ s2 (x, y) HI2 Hin)];
    [done | by intros c [? _] | |].
  - intros o Ho. by apply (free_cell gridSize params _ _ s2 (x, y) 0 o HI2).
  - intros Hf. destruct (inv_food _ _ _ _ _ HI2 _ Hf) as [_ Hg].
    change (gridAt s2 x y = Some (-1)) in Hg. congruence.
Qed.

Lemma Inv_spawnFood s : Inv s -> Inv (spawnFood gridSize params rand s).
Proof. apply Inv_spawnLoop. Qed.

Lemma Inv_expire_fold D s :
  Inv s -> NoDup D -> (forall k, k ∈ D -> k ∈ map fst (foodPixels s)) ->
  Inv (fold_left (expireFood gridSize params) D s).
Proof.
  revert s. induction D as [|k D IH]; intros s HI Hnd HD; simpl; [done|].
  apply NoDup_cons in Hnd as [Hk Hnd].
  destruct (inv_food _ _ _ _ _ HI k (HD k ltac:(left))) as [Hin Hg].
  apply IH; [|done|].
  - apply (Inv_view gridSize params
             (set_foodPixels (kdelete fst k (foodPixels s))
                (write_grid (cellIdx k) 0 s))).
    + unfold view, expireFood. simpl. by rewrite length_arr_set.
    + by apply InvBut_clear_food.
  - intros k' Hk'. unfold expireFood. simpl. rewrite keys_kdelete.
    apply list_elem_of_filter. split; [by intros ->|].
    apply HD. by right.
Qed.

Lemma Inv_updateFoodDecay s : Inv s -> Inv (updateFoodDecay gridSize params s).
Proof.
  intros HI.
  destruct (updateFoodDecay_unfold gridSize params s
              (inv_food_nodup _ _ _ _ _ HI)) as (food & -> & Hkeys & _).
  apply Inv_expire_fold.
  - apply (Inv_view gridSize params s); [|done]. unfold view. simpl.
    by rewrite Hkeys.
  - unfold expiring. apply (NoDup_fmap_2_strong fst).
    + intros a b Ha Hb Hab. apply list_elem_of_filter in Ha as [_ Ha].
      apply list_elem_of_filter in Hb as [_ Hb].
      pose proof (inv_food_nodup _ _ _ _ _ HI) as Hnd.
      pose proof (kget_first fst a.1 _ a Hnd Ha eq_refl).
      pose proof (kget_first fst a.1 _ b Hnd Hb (eq_sym Hab)). congruence.
    + apply NoDup_filter. eapply NoDup_fmap_1, (inv_food_nodup _ _ _ _ _ HI).
  - intros k Hk. simpl. rewrite Hkeys. unfold expiring in Hk.
    apply list_elem_of_fmap in Hk as (e & -> & He).
    apply list_elem_of_filter in He as [_ He]. apply list_elem_of_fmap.
    by exists e.
Qed.
End FoodInv.

(** *** verifyAndSync *)

Definition face (o : Organism) : Z * Z * Z := (id o, eyeX o, eyeY o).

Lemma map_face_kupdate i f l :
  (forall o, face (f o) = face o) ->
  map face (kupdate id i f l) = map face l.
Proof.
  intros Hf. induction l as [|a l IH]; simpl; [done|].
  destruct (decide (id a = i)); simpl; [by rewrite Hf | by rewrite IH].
Qed.

Lemma map_face_elem l l' o' :
  map face l' = map face l -> o' ∈ l' -> exists o, o ∈ l /\ face o = face o'.
Proof.
  intros Hm Hin. apply (list_elem_of_fmap_2 face) in Hin.
  change (face o' ∈ map face l') in Hin. rewrite Hm in Hin.
  apply list_elem_of_fmap in Hin as (o & Ho & Hin). by exists o.
Qed.

Lemma map_face_ids l l' : map face l' = map face l -> map id l' = map id l.
Proof.
  intros Hm. apply (f_equal (map (fun b : Z * Z * Z => b.1.1))) in Hm.
  by rewrite !map_map in Hm.
Qed.

Section SyncInv.
Variable gridSize : Z.
Variable params : SimulationParams.
Hypothesis gridSize_pos : 0 < gridSize.

Local Abbreviation inb := (inb gridSize).
Local Abbreviation gridAt := (gridAt gridSize).
Local Abbreviation cellIdx := (cellIdx gridSize).
Local Abbreviation InvBut := (InvBut gridSize params).
Local Abbreviation Inv := (Inv gridSize params).
Local Abbreviation org_shape := (org_shape gridSize params).
Local Abbreviation allCells := (allCells gridSize).
Local Abbreviation syncCell := (syncCell gridSize params).

Lemma elem_of_allCells c : c ∈ allCells <-> inb c.
Proof.
  unfold def_allCells, def_inb. split.
  - intros Hc. apply list_elem_of_In, in_flat_map in Hc as (y & Hy & Hc).
    apply list_elem_of_In, list_elem_of_fmap in Hc as (x & -> & Hx).
    apply list_elem_of_In, elem_of_seqZ in Hy. apply elem_of_seqZ in Hx.
    simpl. lia.
  - intros [Hx Hy]. apply list_elem_of_In, in_flat_map. exists c.2.
    split; [apply list_elem_of_In, elem_of_seqZ; lia|].
    apply list_elem_of_In, list_elem_of_fmap. exists c.1.
    split; [by destruct c|]. apply elem_of_seqZ. lia.
Qed.

(** The owner property needs no exemption at a cell whose code is no
    registered id, or is the id of an organism that has the cell. *)
Lemma InvBut_unstale bad stale s c :
  InvBut bad stale s ->
  (forall o, o ∈ organisms s -> gridAt s c.1 c.2 = Some (id o) ->
             c ∈ pix_keys o) ->
  InvBut bad (fun x => stale x /\ x <> c) s.
Proof.
  intros HI Hc. destruct HI as [? ? ? ? ? ? Hown ? ? ?]. split; try done.
  intros c' o Hin Hst Ho Hg. destruct (decide (c' = c)) as [->|Hne].
  - by apply Hc.
  - apply Hown; try done. tauto.
Qed.

Lemma InvBut_stale_inb bad stale s :
  InvBut bad stale s -> (forall c, inb c -> ~ stale c) ->
  InvBut bad (fun _ => False) s.
Proof.
  intros HI Hc. destruct HI as [? ? ? ? ? ? Hown ? ? ?]. split; try done.
  intros c' o Hin _ Ho Hg. apply Hown; try done. by apply Hc.
Qed.

(** An organism is given a cell that the grid already names its own. *)
Lemma InvBut_adopt bad stale s t o c (h : Organism -> Z) :
  InvBut bad stale s -> inb c -> get_org t s = Some o ->
  gridAt s c.1 c.2 = Some t -> bad t ->
  InvBut bad (fun x => stale x /\ x <> c)
    (update_org t (fun o => set_pixels (kset fst (c, h o) (pixels o)) o) s).
Proof.
  intros HI Hc Hg Hgc Hbad.
  pose proof (get_org_in _ _ _ Hg) as Ho.
  pose proof (get_org_id _ _ _ Hg) as Hid.
  set (f := fun o => set_pixels (kset fst (c, h o) (pixels o)) o).
  assert (forall o', o' ∈ organisms (update_org t f s) ->
            (o' ∈ organisms s /\ id o' <> t) \/ o' = f o) as Hcases.
  { intros o' Ho'. simpl in Ho'.
    apply elem_of_kupdate_NoDup in Ho'
        as [?|(o1 & Ho1 & Hid1 & ->)]; [by left| |apply (inv_ids _ _ _ _ _ HI)].
    right. f_equal. eapply same_id_same_org; try done. congruence. }
  assert (forall k, k ∈ pix_keys (f o) <-> k = c \/ k ∈ pix_keys o) as Hkeys.
  { intros k. unfold f, pix_keys. simpl.
    apply (elem_of_keys_kset fst k (c, h o)). }
  destruct (inv_orgs _ _ _ _ _ HI o Ho) as [H1 H2 H3].
  split; try apply HI.
  - simpl. rewrite keys_kupdate by done. apply (inv_ids _ _ _ _ _ HI).
  - intros o' Ho'. destruct (Hcases o' Ho') as [[Hin Hne]| ->].
    + apply (org_cells_view gridSize s _ o' o'); try done.
      apply (inv_orgs _ _ _ _ _ HI o' Hin).
    + split; [done| |].
      * unfold f, pix_keys. simpl. by apply NoDup_keys_kset.
      * intros k Hk. apply Hkeys in Hk as [->|Hk]; [|by apply H3].
        split; [done|]. change (gridAt s c.1 c.2 = Some (id o)). congruence.
  - intros o' Ho' Hb. destruct (Hcases o' Ho') as [[Hin Hne]| ->].
    + by apply (inv_shape _ _ _ _ _ HI o' Hin).
    + destruct Hb. by rewrite <- Hid in Hbad.
  - intros c' o' Hc' Hst Ho' Hgc'.
    destruct (Hcases o' Ho') as [[Hin Hne]| ->].
    + apply (inv_owner _ _ _ _ _ HI c' o'); try done.
      intros Hs. apply Hst. split; [done|]. intros ->.
      change (gridAt s c.1 c.2 = Some (id o')) in Hgc'. congruence.
    + apply Hkeys. destruct (decide (c' = c)) as [->|Hne]; [by left|].
      right. apply (inv_owner _ _ _ _ _ HI c' o); try done. tauto.
Qed.

(** What the scan keeps of the state it starts from: the ids and eyes of
    the registry, and the codes of the grid but for the cells of no
    registered organism. *)
Record synced (s0 s' : Simulation) : Prop := {
  sync_faces : map face (organisms s') = map face (organisms s0);
  sync_grid :
    forall c, inb c ->
      gridAt s' c.1 c.2 = gridAt s0 c.1 c.2
      \/ gridAt s' c.1 c.2 = Some (-1)
         /\ exists w, gridAt s0 c.1 c.2 = Some w /\ 0 < w
                      /\ w ∉ map id (organisms s0)
}.

Lemma syncCell_step s0 stale s' c :
  InvBut (fun _ => True) stale s' -> synced s0 s' -> inb c ->
  InvBut (fun _ => True) (fun x => stale x /\ x <> c) (syncCell s' c)
  /\ synced s0 (syncCell s' c).
Proof.
  intros HI [Hf Hg] Hc. unfold def_syncCell. cbv zeta.
  change (idx gridSize c.1 c.2) with (cellIdx c).
  destruct (arr_get (grid s') (cellIdx c)) as [owner|] eqn:Hgc.
  - destruct (0 <? owner) eqn:Hpos.
    + apply Z.ltb_lt in Hpos.
      destruct (get_org owner s') as [o|] eqn:Ho.
      * split.
        -- apply (InvBut_adopt _ _ s' owner o c
                    (fun o => if hpAt s' (cellIdx c) =? 0
                              then totalCells (genome o)
                              else hpAt s' (cellIdx c))); try done.
        -- split; [|exact Hg]. simpl. by rewrite map_face_kupdate.
      * assert (owner ∉ map id (organisms s')) as Hnot by (by apply kget_None).
        split.
        -- apply InvBut_toFood_free; try done.
           ++ intros o' Ho' Hk.
              destruct (ok_cells _ _ _ (inv_orgs _ _ _ _ _ HI o' Ho') c Hk)
                as [_ H1].
              unfold def_gridAt in H1.
              change (idx gridSize c.1 c.2) with (cellIdx c) in H1.
              apply Hnot. apply list_elem_of_fmap. exists o'.
              split; [congruence|done].
           ++ intros Hk. destruct (inv_food _ _ _ _ _ HI c Hk) as [_ H1].
              unfold def_gridAt in H1.
              change (idx gridSize c.1 c.2) with (cellIdx c) in H1.
              rewrite Hgc in H1. injection H1 as ->. lia.
        -- split; [exact Hf|]. intros c' Hc'.
           assert (gridAt (toFood gridSize params s' c) c'.1 c'.2
                   = if decide (c' = c) then Some (-1)
                     else gridAt s' c'.1 c'.2) as ->.
           { apply (gridAt_write gridSize params gridSize_pos _ _ s' c c' (-1)
                      HI Hc Hc'). }
           destruct (Hg c' Hc') as [Heq|[Heq Hw]].
           ++ destruct (decide (c' = c)) as [->|Hne]; [|by left].
              right. split; [done|]. exists owner. rewrite <- Heq.
              split; [exact Hgc|]. split; [done|].
              by rewrite <- (map_face_ids _ _ Hf).
           ++ right. split; [|done]. by destruct (decide (c' = c)).
    + apply Z.ltb_ge in Hpos. split; [|done].
      apply InvBut_unstale; [done|]. intros o Ho Hgo.
      unfold def_gridAt in Hgo.
      change (idx gridSize c.1 c.2) with (cellIdx c) in Hgo.
      pose proof (ok_id _ _ _ (inv_orgs _ _ _ _ _ HI o Ho)).
      rewrite Hgc in Hgo. injection Hgo as ->. lia.
  - split; [|done]. apply InvBut_unstale; [done|]. intros o Ho Hgo.
    unfold def_gridAt in Hgo.
    change (idx gridSize c.1 c.2) with (cellIdx c) in Hgo. congruence.
Qed.

Lemma syncCell_fold s0 cells stale s' :
  InvBut (fun _ => True) stale s' -> synced s0 s' ->
  (forall c, c ∈ cells -> inb c) ->
  InvBut (fun _ => True) (fun x => stale x /\ x ∉ cells)
    (fold_left syncCell cells s')
  /\ synced s0 (fold_left syncCell cells s').
Proof.
  revert stale s'. induction cells as [|c cells IH]; intros stale s' HI Hs Hin;
    simpl.
  - split; [|done]. eapply InvBut_weaken; [| |exact HI]; [done|].
    intros x Hx. split; [done|]. apply not_elem_of_nil.
  - destruct (syncCell_step s0 stale s' c HI Hs (Hin c ltac:(left)))
      as [HI1 Hs1].
    destruct (IH _ _ HI1 Hs1) as [HI2 Hs2].
    { intros c' Hc'. apply Hin. by right. }
    split; [|done]. eapply InvBut_weaken; [| |exact HI2]; [done|].
    intros x [[Hx Hne] Hnot]. split; [done|].
    intros Hx'. by apply elem_of_cons in Hx' as [->|?].
Qed.

Lemma Inv_verifyAndSync s : Inv s -> Inv (verifyAndSync gridSize params s).
Proof.
  intros HI. unfold verifyAndSync.
  set (s1 := set_organisms (map (set_pixels []) (organisms s)) s).
  assert (map face (organisms s1) = map face (organisms s)) as Hfaces.
  { simpl. rewrite map_map. done. }
  assert (InvBut (fun _ => True) (fun _ => True) s1) as HI1.
  { split; try apply HI.
    - rewrite (map_face_ids _ _ Hfaces). apply (inv_ids _ _ _ _ _ HI).
    - intros o' Ho'. simpl in Ho'.
      apply list_elem_of_fmap in Ho' as (o & -> & Ho).
      destruct (inv_orgs _ _ _ _ _ HI o Ho) as [H1 _ _].
      split; [done|apply NoDup_nil_2|]. intros c Hc.
      by apply elem_of_nil in Hc.
    - intros o' _ Hb. by destruct (Hb I).
    - intros c o _ Hst. by destruct (Hst I). }
  assert (synced s s1) as Hs1.
  { split; [done|]. intros c _. by left. }
  destruct (syncCell_fold s allCells _ s1 HI1 Hs1) as [HI2 [Hf Hg]].
  { intros c. apply elem_of_allCells. }
  set (s2 := fold_left syncCell allCells s1) in *.
  assert (InvBut (fun _ => True) (fun _ => False) s2) as HI3.
  { eapply InvBut_stale_inb; [exact HI2|].
    intros c Hc [_ Hnot]. by apply Hnot, elem_of_allCells. }
  eapply InvBut_shape; [exact HI3|]. intros o' Ho' _.
  destruct (map_face_elem _ _ _ Hf Ho') as (o & Ho & Hface).
  assert (id o = id o' /\ eyeX o = eyeX o' /\ eyeY o = eyeY o')
    as (Hid & Hex & Hey) by (by injection Hface).
  assert (forall c, c ∈ pix_keys o <-> c ∈ pix_keys o') as Hkeys.
  { intros c. split.
    - intros Hc.
      destruct (ok_cells _ _ _ (inv_orgs _ _ _ _ _ HI o Ho) c Hc) as [Hb Hgc].
      apply (inv_owner _ _ _ _ _ HI3 c o'); try done; [tauto|].
      destruct (Hg c Hb) as [->|(_ & w & Hw & _ & Hnot)]; [congruence|].
      destruct Hnot. apply list_elem_of_fmap. exists o.
      split; [congruence|done].
    - intros Hc.
      destruct (ok_cells _ _ _ (inv_orgs _ _ _ _ _ HI3 o' Ho') c Hc)
        as [Hb Hgc].
      apply (inv_owner _ _ _ _ _ HI c o); try done; [tauto|].
      destruct (Hg c Hb) as [<-|(Hfood & _)]; [congruence|].
      pose proof (ok_id _ _ _ (inv_orgs _ _ _ _ _ HI3 o' Ho')).
      rewrite Hfood in Hgc. injection Hgc as Hgc. lia. }
  destruct (inv_shape _ _ _ _ _ HI o Ho ltac:(tauto)) as [He Hcon].
  unfold def_org_shape. rewrite <- Hex, <- Hey. split.
  - by apply Hkeys.
  - by apply (connected_same gridSize params (pix_keys o)).
Qed.
End SyncInv.

(** *** setObstacle and the constructor *)

Section ObstacleInv.
Variable gridSize : Z.
Variable params : SimulationParams.
Variable rand : nat -> Q.
Hypothesis gridSize_pos : 0 < gridSize.
Hypothesis rand01 : forall n, (0 <= rand n)%Q /\ (rand n < 1)%Q.

Local Abbreviation inb := (inb gridSize).
Local Abbreviation gridAt := (gridAt gridSize).
Local Abbreviation cellIdx := (cellIdx gridSize).
Local Abbreviation InvBut := (InvBut gridSize params).
Local Abbreviation Inv := (Inv gridSize params).
Local Abbreviation toFood := (toFood gridSize params).
Local Abbreviation removeOrganism := (removeOrganism gridSize params).
Local Abbreviation checkConnectivity := (checkConnectivity gridSize params).

(** No organism and no food entry names the cell. *)
Definition unclaimed (c : Cell) (s : Simulation) : Prop :=
  (forall o, o ∈ organisms s -> c ∉ pix_keys o)
  /\ c ∉ map fst (foodPixels s).

Lemma unclaimed_toFood c s k :
  unclaimed c s -> k <> c -> unclaimed c (toFood s k).
Proof.
  intros [Ho Hf] Hne. split; [done|]. simpl.
  intros Hin. apply elem_of_keys_kset in Hin as [->|Hin]; done.
Qed.

Lemma unclaimed_drop c s i k :
  unclaimed c s ->
  unclaimed c
    (update_org i (fun o => set_pixels (kdelete fst k (pixels o)) o) s).
Proof.
  intros [Ho Hf]. split; [|done]. intros o' Ho'. simpl in Ho'.
  apply elem_of_kupdate in Ho' as [?|(o & Hin & _ & ->)]; [by apply Ho|].
  unfold pix_keys. simpl. rewrite keys_kdelete. intros Hc.
  apply list_elem_of_filter in Hc as [_ Hc]. by apply (Ho o).
Qed.

Lemma unclaimed_toFood_fold c keys s :
  unclaimed c s -> c ∉ keys -> unclaimed c (fold_left toFood keys s).
Proof.
  revert s. induction keys as [|k keys IH]; intros s Hu Hc; simpl; [done|].
  apply IH.
  - apply unclaimed_toFood; [done|]. intros ->. apply Hc. left.
  - intros Hin. apply Hc. by right.
Qed.

Lemma unclaimed_removeOrganism c s i :
  unclaimed c s -> unclaimed c (removeOrganism i s).
Proof.
  intros Hu. unfold def_removeOrganism.
  destruct (get_org i s) as [org|] eqn:Hg; [|done].
  assert (unclaimed c (fold_left toFood (pix_keys org) s)) as [Ho Hf].
  { apply unclaimed_toFood_fold; [done|]. apply (proj1 Hu).
    by eapply get_org_in. }
  split; [|done]. intros o Hin. simpl in Hin.
  apply elem_of_kdelete in Hin as [Hin _]. by apply Ho.
Qed.

Lemma unclaimed_detach_fold c i reachable keys s :
  unclaimed c s -> c ∉ keys ->
  unclaimed c (fold_left (detach gridSize params i reachable) keys s).
Proof.
  revert s. induction keys as [|k keys IH]; intros s Hu Hc; simpl; [done|].
  apply IH; [|intros Hin; apply Hc; by right].
  unfold detach. destruct (decide _); [done|].
  apply unclaimed_drop, unclaimed_toFood; [done|].
  intros ->. apply Hc. left.
Qed.

Lemma unclaimed_checkConnectivity c i s :
  unclaimed c s -> unclaimed c (checkConnectivity i s).
Proof.
  intros Hu. unfold def_checkConnectivity.
  destruct (get_org i s) as [org|] eqn:Hg; [|done].
  destruct (pix_size org =? 0); [by apply unclaimed_removeOrganism|].
  destruct (negb _); [by apply unclaimed_removeOrganism|]. cbv zeta.
  assert (unclaimed c
            (fold_left
               (detach gridSize params i
                  (bfs gridSize params (length (pixels org)) org
                     [(eyeX org, eyeY org)] {[(eyeX org, eyeY org)]}).2)
               (pix_keys org) s)) as Hu1.
  { apply unclaimed_detach_fold; [done|]. apply (proj1 Hu).
    by eapply get_org_in. }
  set (s1 := fold_left _ (pix_keys org) s) in *.
  destruct (get_org i s1) as [org1|]; [|done].
  destruct (pix_size org1 =? 0); [by apply unclaimed_removeOrganism|done].
Qed.

Lemma Inv_write_unclaimed stale s c v :
  InvBut (fun _ => False) stale s -> (forall x, stale x -> x = c) ->
  inb c -> unclaimed c s -> v <= 0 ->
  Inv (write_grid (cellIdx c) v s).
Proof.
  intros HI Hst Hc [Ho Hf] Hv.
  eapply InvBut_weaken; [| |apply (InvBut_write_free gridSize params
                                     gridSize_pos _ _ s c v HI Hc Ho Hf)].
  - done.
  - intros x [Hx Hne]. by apply Hne, Hst.
  - pose proof (inv_next _ _ _ _ _ HI). lia.
  - intros o Hin. pose proof (ok_id _ _ _ (inv_orgs _ _ _ _ _ HI o Hin)). lia.
Qed.

Lemma unclaimed_code s c v :
  Inv s -> gridAt s c.1 c.2 = Some v ->
  v <> -1 -> v ∉ map id (organisms s) -> unclaimed c s.
Proof.
  intros HI Hg Hf Ho. split.
  - intros o Hin Hk.
    destruct (ok_cells _ _ _ (inv_orgs _ _ _ _ _ HI o Hin) c Hk) as [_ H1].
    apply Ho. apply list_elem_of_fmap. exists o. split; [congruence|done].
  - intros Hk. destruct (inv_food _ _ _ _ _ HI c Hk) as [_ H1]. congruence.
Qed.

Lemma Inv_setObstacle x y b s :
  Inv s -> Inv (setObstacle gridSize params x y b s).
Proof.
  intros HI. unfold setObstacle.
  destruct (applyBoundary _ _ x y) as [[gx gy]|] eqn:Hb; [|done].
  pose proof (applyBoundary_inb gridSize params gridSize_pos _ _ _ Hb) as Hin.
  cbv zeta. change (idx gridSize gx gy) with (cellIdx (gx, gy)).
  set (c := (gx, gy)) in *.
  assert (forall v, v <= 0 -> v <> -1 -> gridAt s c.1 c.2 = Some v ->
                    unclaimed c s) as Hfree.
  { intros v Hv Hne Hg. apply (unclaimed_code s c v); try done.
    intros Hi. apply list_elem_of_fmap in Hi as (o & -> & Ho).
    pose proof (ok_id _ _ _ (inv_orgs _ _ _ _ _ HI o Ho)). lia. }
  destruct b.
  - destruct (decide (arr_get (grid s) (cellIdx c) = Some (-2))); [done|].
    match goal with
    | |- Inv (if _ then ?a else _) =>
        assert (Inv a) as HI2;
        [|destruct (decide _);
          [done|apply (Inv_view gridSize params a); [done|exact HI2]]]
    end.
    apply InvBut_hp.
    destruct (arr_get (grid s) (cellIdx c)) as [v|] eqn:Hg.
    + change (gridAt s c.1 c.2 = Some v) in Hg.
      destruct (0 <? v) eqn:Hpos.
      * apply Z.ltb_lt in Hpos.
        destruct (get_org v s) as [o|] eqn:Ho.
        -- apply (Inv_write_unclaimed (fun x => x = c)); [|done|done| |lia].
           ++ apply InvBut_checkConnectivity; [done|].
              eapply InvBut_weaken;
                [| |apply (InvBut_drop_cell gridSize params _ _ s v c HI)].
              ** intros i [[]| ->]. by right.
              ** by intros x0 [[]| ->].
           ++ apply unclaimed_checkConnectivity. split.
              ** intros o' Ho'. simpl in Ho'.
                 apply elem_of_kupdate_NoDup in Ho'
                     as [[Ho' Hne]|(o1 & Ho1 & Hid1 & ->)];
                   [| |apply (inv_ids _ _ _ _ _ HI)].
                 --- intros Hk.
                     destruct (ok_cells _ _ _ (inv_orgs _ _ _ _ _ HI o' Ho')
                                 c Hk) as [_ H1].
                     congruence.
                 --- unfold pix_keys. simpl. rewrite keys_kdelete.
                     intros Hk. by apply list_elem_of_filter in Hk as [Hk _].
              ** simpl. intros Hk.
                 destruct (inv_food _ _ _ _ _ HI c Hk) as [_ H1].
                 rewrite Hg in H1. injection H1 as ->. lia.
        -- apply (Inv_write_unclaimed (fun _ => False)); [done|done|done| |lia].
           apply (unclaimed_code s c v); [done..|lia|by apply kget_None].
      * apply Z.ltb_ge in Hpos. destruct (v =? -1) eqn:Hv.
        -- apply Z.eqb_eq in Hv as ->.
           apply (Inv_write_unclaimed (fun _ => False)); [|done|done| |lia].
           ++ by apply InvBut_del_food.
           ++ split.
              ** intros o Ho. simpl in Ho.
                 by apply (free_cell gridSize params _ _ s c (-1) o HI).
              ** simpl. rewrite keys_kdelete. intros Hk.
                 by apply list_elem_of_filter in Hk as [Hk _].
        -- apply Z.eqb_neq in Hv.
           apply (Inv_write_unclaimed (fun _ => False)); [done|done|done| |lia].
           by apply (Hfree v).
    + change (gridAt s c.1 c.2 = None) in Hg.
      apply (Inv_write_unclaimed (fun _ => False)); [done|done|done| |lia].
      split.
      * intros o Ho Hk.
        destruct (ok_cells _ _ _ (inv_orgs _ _ _ _ _ HI o Ho) c Hk) as [_ H1].
        congruence.
      * intros Hk. destruct (inv_food _ _ _ _ _ HI c Hk) as [_ H1].
        congruence.
  - destruct (decide _) as [Hg|]; [|done].
    apply (Inv_view gridSize params
             (write_grid (cellIdx c) 0 s)).
    { unfold view. simpl. by rewrite length_arr_set. }
    apply (Inv_write_unclaimed (fun _ => False)); [done|done|done| |lia].
    by apply (Hfree (-2)).
Qed.

(** A world with no organism and no food, as the constructor builds. *)
Definition barren (s : Simulation) : Prop :=
  Inv s /\ organisms s = [] /\ foodPixels s = [].

Lemma barren_unclaimed s c : barren s -> unclaimed c s.
Proof.
  intros (_ & Ho & Hf). split.
  - rewrite Ho. intros o Hin. by apply elem_of_nil in Hin.
  - rewrite Hf. apply not_elem_of_nil.
Qed.

Lemma barren_wall s c :
  barren s -> inb c -> barren (write_grid (cellIdx c) (-2) s).
Proof.
  intros Hb Hc. split; [|apply Hb].
  apply (Inv_write_unclaimed (fun _ => False)); [apply Hb|done|done| |lia].
  by apply barren_unclaimed.
Qed.

Lemma barren_view s s' :
  view s' = view s -> organisms s' = organisms s ->
  foodPixels s' = foodPixels s -> barren s -> barren s'.
Proof.
  intros Hv Ho Hf (HI & H1 & H2). split; [by apply (Inv_view gridSize params s)|].
  split; congruence.
Qed.

Lemma barren_empty : barren (emptySimulation gridSize).
Proof.
  split; [|done]. split; simpl; try done.
  - apply length_replicate.
  - apply length_replicate.
  - apply NoDup_nil_2.
  - intros o Ho. by apply elem_of_nil in Ho.
  - intros o Ho. by apply elem_of_nil in Ho.
  - intros c o _ _ Ho. by apply elem_of_nil in Ho.
  - intros i v Hv. unfold arr_get in Hv. destruct (decide (0 <= i)); [|done].
    apply lookup_replicate in Hv as [-> _]. lia.
  - apply NoDup_nil_2.
  - intros k Hk. by apply elem_of_nil in Hk.
Qed.

Lemma barren_sprinkle n s :
  barren s -> barren (sprinkleObstacles gridSize rand n s).
Proof.
  revert s. induction n as [|n IH]; intros s Hb; simpl; [done|].
  set (x := Qfloor (rand (rngCalls s) * inject_Z gridSize)).
  set (y := Qfloor (rand (S (rngCalls s)) * inject_Z gridSize)).
  set (s2 := set_rngCalls _ (set_rngCalls _ s)).
  assert (barren s2) as Hb2 by (by apply (barren_view s)).
  destruct (decide _) as [_|_]; [|by apply IH].
  apply IH.
  apply (barren_view (write_grid (cellIdx (x, y)) (-2) s2)); try done.
  apply barren_wall; [done|].
  split; apply Qfloor_scale; try done; apply rand01.
Qed.

Lemma barren_generateTerrain s :
  barren s -> barren (generateTerrain gridSize params rand s).
Proof.
  intros Hb. unfold generateTerrain. cbv zeta.
  assert (forall cells acc,
             barren acc.2 ->
             barren (fold_left (fillWall gridSize params rand) cells acc).2)
    as Hfill.
  { induction cells as [|c cells IH]; intros acc Hacc; simpl; [done|].
    apply IH. unfold fillWall. simpl. by apply (barren_view acc.2). }
  specialize (Hfill (allCells gridSize)
                (replicate (Z.to_nat (gridSize * gridSize)) 0, s) Hb).
  destruct (fold_left _ _ (_, s)) as [wall0 s1]. simpl in Hfill.
  set (wall := Nat.iter _ _ wall0).
  assert (forall cells s', barren s' -> (forall c, c ∈ cells -> inb c) ->
             barren (fold_left (placeWall gridSize wall) cells s')) as Hplace.
  { induction cells as [|c cells IH]; intros s' Hs' Hin; simpl; [done|].
    apply IH; [|intros c' Hc'; apply Hin; by right].
    unfold placeWall. destruct (decide _); [|done].
    apply (barren_view (write_grid (cellIdx c) (-2) s')).
    - unfold view. simpl. by rewrite length_arr_set.
    - done.
    - done.
    - apply barren_wall; [done|]. apply Hin. left. }
  specialize (Hplace (allCells gridSize) s1 Hfill).
  set (s2 := fold_left _ _ s1) in *.
  assert (barren s2) as Hb2.
  { apply Hplace. intros c. by apply elem_of_allCells. }
  destruct (obstacleKeys s2); [by apply barren_sprinkle | done].
Qed.

Lemma Inv_newSimulation : Inv (newSimulation gridSize params rand).
Proof.
  unfold newSimulation. destruct (terrainEnabled params).
  - apply barren_generateTerrain, barren_empty.
  - apply barren_empty.
Qed.
End ObstacleInv.

(** ** The movement resolver and the invariant *)

(** *** Sorting, sequences of writes, sequences of updates *)

Lemma sort_insert_perm {A} (cmp : A -> A -> Z) x l :
  sort_insert cmp x l ≡ₚ x :: l.
Proof.
  induction l as [|y l IH]; simpl; [done|].
  destruct (cmp x y <? 0); [done|]. rewrite IH. apply Permutation_swap.
Qed.

Lemma sortBy_perm {A} (cmp : A -> A -> Z) l : sortBy cmp l ≡ₚ l.
Proof.
  unfold sortBy.
  assert (forall acc, fold_left (fun acc x => sort_insert cmp x acc) l acc
                      ≡ₚ l ++ acc) as Hgen.
  { induction l as [|x l IH]; intros acc; simpl; [done|].
    rewrite IH, sort_insert_perm. by rewrite Permutation_middle. }
  rewrite Hgen. by rewrite app_nil_r.
Qed.

(** The writes [a[i] = v] of a loop, in order. *)
Definition apply_writes (W : list (Z * Z)) (a : list Z) : list Z :=
  fold_left (fun a w => arr_set a w.1 w.2) W a.

Lemma apply_writes_app W1 W2 a :
  apply_writes (W1 ++ W2) a = apply_writes W2 (apply_writes W1 a).
Proof. apply fold_left_app. Qed.

Lemma length_apply_writes W a : length (apply_writes W a) = length a.
Proof.
  revert a. induction W as [|w W IH]; intros a; simpl; [done|].
  by rewrite IH, length_arr_set.
Qed.

Lemma apply_writes_frame W a j :
  (forall w, w ∈ W -> w.1 <> j) ->
  arr_get (apply_writes W a) j = arr_get a j.
Proof.
  revert a. induction W as [|w W IH]; intros a Hw; simpl; [done|].
  rewrite IH by (intros w' Hw'; apply Hw; by right).
  apply arr_get_set_ne. apply Hw. left.
Qed.

Lemma apply_writes_hit W a j v :
  0 <= j < Z.of_nat (length a) ->
  (exists w, w ∈ W /\ w.1 = j) ->
  (forall w, w ∈ W -> w.1 = j -> w.2 = v) ->
  arr_get (apply_writes W a) j = Some v.
Proof.
  revert a. induction W as [|w W IH]; intros a Hj (w0 & Hin & Hw0) Hall.
  - by apply elem_of_nil in Hin.
  - simpl.
    destruct (decide (j ∈ map fst W)) as [Hex|Hno].
    + apply IH; [by rewrite length_arr_set| |].
      * apply list_elem_of_fmap in Hex as (w' & -> & Hw'). by exists w'.
      * intros w' Hw'. apply Hall. by right.
    + rewrite apply_writes_frame.
      * apply elem_of_cons in Hin as [->|Hin].
        -- rewrite <- (Hall w ltac:(left) Hw0), <- Hw0.
           apply arr_get_set_eq. by rewrite Hw0.
        -- destruct Hno. apply list_elem_of_fmap. by exists w0.
      * intros w' Hw' Heq. apply Hno. apply list_elem_of_fmap. by exists w'.
Qed.

Lemma apply_writes_codes W a j v :
  arr_get (apply_writes W a) j = Some v ->
  arr_get a j = Some v \/ (j, v) ∈ W.
Proof.
  revert a. induction W as [|w W IH]; intros a; simpl; [by left|].
  intros Hv. destruct (IH _ Hv) as [Ha|Hin]; [|right; by right].
  rewrite arr_get_set in Ha. destruct (decide _) as [[Hi _]|_]; [|by left].
  right. injection Ha as <-. rewrite <- Hi. destruct w. left.
Qed.

(** A loop of updates of a keyed list, one key per pass. *)
Section UpdateFold.
Context {K E C : Type} `{EqDecision K} (key : E -> K) (kc : C -> K)
  (f : C -> E -> E).
Hypothesis f_key : forall c e, key (f c e) = key e.

Definition update_all (cs : list C) (l : list E) : list E :=
  fold_left (fun l c => kupdate key (kc c) (f c) l) cs l.

Lemma keys_update_all cs l : map key (update_all cs l) = map key l.
Proof.
  revert l. induction cs as [|c cs IH]; intros l; simpl; [done|].
  unfold update_all in *. simpl. rewrite IH. by apply keys_kupdate.
Qed.

Lemma kget_update_all_other cs l i :
  i ∉ map kc cs -> kget key i (update_all cs l) = kget key i l.
Proof.
  revert l. induction cs as [|c cs IH]; intros l Hi; [done|].
  unfold update_all in *. simpl. rewrite IH.
  - apply kget_kupdate_ne; [apply f_key|]. intros ->. apply Hi. left.
  - intros Hin. apply Hi. by right.
Qed.

Lemma kget_update_all cs l c :
  NoDup (map kc cs) -> c ∈ cs ->
  kget key (kc c) (update_all cs l) = f c <$> kget key (kc c) l.
Proof.
  revert l. induction cs as [|c0 cs IH]; intros l Hnd Hc.
  - by apply elem_of_nil in Hc.
  - simpl in Hnd. apply NoDup_cons in Hnd as [Hc0 Hnd].
    unfold update_all in *. simpl.
    apply elem_of_cons in Hc as [->|Hc].
    + rewrite (kget_update_all_other cs _ (kc c0) Hc0).
      apply kget_kupdate_eq, f_key.
    + rewrite IH by done. rewrite kget_kupdate_ne; [done|apply f_key|].
      intros Heq. apply Hc0. rewrite <- Heq. by apply list_elem_of_fmap_2.
Qed.

Lemma elem_of_update_all cs l e' :
  NoDup (map key l) -> NoDup (map kc cs) ->
  e' ∈ update_all cs l ->
  (e' ∈ l /\ key e' ∉ map kc cs)
  \/ exists c e, c ∈ cs /\ e ∈ l /\ key e = kc c /\ e' = f c e.
Proof.
  intros Hl Hcs Hin.
  assert (kget key (key e') (update_all cs l) = Some e') as Hg.
  { apply kget_first; [by rewrite keys_update_all|done..]. }
  destruct (decide (key e' ∈ map kc cs)) as [Hk|Hk].
  - right. apply list_elem_of_fmap in Hk as (c & Hkc & Hc).
    rewrite Hkc, (kget_update_all cs l c Hcs Hc) in Hg.
    destruct (kget key (kc c) l) as [e|] eqn:He; [|done].
    injection Hg as <-. apply kget_Some in He as [He1 He2].
    by exists c, e.
  - left. rewrite kget_update_all_other in Hg by done.
    apply kget_Some in Hg as [Hg _]. done.
Qed.
End UpdateFold.

(** *** What a valid set of proposals is *)

Definition dest (p : Proposal) : Cell := (nx p, ny p).

Section MoveProposals.
Variable gridSize : Z.
Variable params : SimulationParams.

Local Abbreviation applyBoundary := (applyBoundary gridSize params).
Local Abbreviation gridAt := (gridAt gridSize).
Local Abbreviation propose := (propose gridSize params).
Local Abbreviation collectProposals := (collectProposals gridSize params).

(** The proposal [p] moves the cell [k] of [o] by the heading to a cell
    that is empty or a cell of [o]. *)
Definition moved_to (s : Simulation) (o : Organism) (dx dy : Z) (k : Cell)
    (p : Proposal) : Prop :=
  p_org p = id o /\ (ox p, oy p) = k
  /\ applyBoundary (k.1 + dx) (k.2 + dy) = Some (dest p)
  /\ (gridAt s (nx p) (ny p) = Some 0 \/ gridAt s (nx p) (ny p) = Some (id o)).

Lemma propose_valid s org dx dy keys props0 m0 props m :
  propose s org dx dy keys props0 m0 = (true, props, m) ->
  exists ps, props = props0 ++ ps
             /\ Forall2 (moved_to s org dx dy) keys ps.
Proof.
  revert props0 m0. induction keys as [|[xs ys] keys IH]; intros props0 m0; simpl.
  - intros [= <- <-]. exists []. by rewrite app_nil_r.
  - destruct (applyBoundary (xs + dx) (ys + dy)) as [[x y]|] eqn:Hb; [|done].
    destruct (bool_decide (gridAt s x y = Some 0)) eqn:H0;
      destruct (bool_decide (gridAt s x y = Some (id org))) eqn:H1;
      simpl; try done;
      (intros Hp; apply IH in Hp as (ps & -> & Hps);
       eexists (_ :: ps); split; [by rewrite <- app_assoc|];
       constructor; [|done]; repeat split; try done; simpl).
    + left. by apply bool_decide_eq_true in H0.
    + left. by apply bool_decide_eq_true in H0.
    + right. by apply bool_decide_eq_true in H1.
Qed.

Lemma collect_valid s states sorted i props :
  kget fst i (collectProposals s states sorted).1 = Some (i, props) ->
  exists o st, o ∈ sorted /\ id o = i /\ stateById i states = Some st
               /\ Forall2 (moved_to s o (st_dx st) (st_dy st))
                    (pix_keys o) props.
Proof.
  unfold def_collectProposals.
  set (good := fun (acc : list (Z * list Proposal) * list (Cell * Contenders)) =>
                 forall i props,
                   kget fst i acc.1 = Some (i, props) ->
                   exists o st, o ∈ sorted /\ id o = i
                                /\ stateById i states = Some st
                                /\ Forall2 (moved_to s o (st_dx st) (st_dy st))
                                     (pix_keys o) props).
  assert (forall l acc, (forall o, o ∈ l -> o ∈ sorted) -> good acc ->
            good
              (fold_left
                 (fun acc org =>
                    match stateById (id org) states with
                    | None => acc
                    | Some st =>
                        let '(valid, props, m) :=
                          propose s org (st_dx st) (st_dy st) (pix_keys org)
                            [] acc.2 in
                        (if valid then kset fst (id org, props) acc.1
                         else acc.1, m)
                    end) l acc)) as Hgen.
  { induction l as [|org l IH]; intros acc Hsub Hacc; simpl; [done|].
    apply IH; [intros o Ho; apply Hsub; by right|].
    destruct (stateById (id org) states) as [st|] eqn:Hst; [|done].
    destruct (propose s org (st_dx st) (st_dy st) (pix_keys org) [] acc.2)
      as [[valid props'] m] eqn:Hp.
    destruct valid; [|exact Hacc].
    apply propose_valid in Hp as (ps & -> & Hps).
    intros j props'' Hg. simpl in Hg.
    destruct (decide (j = id org)) as [->|Hne].
    - rewrite (kget_kset_eq fst (id org, [] ++ ps)) in Hg.
      injection Hg as <-. exists org, st. split; [apply Hsub; left|].
      done.
    - rewrite kget_kset_ne in Hg by done. by apply Hacc. }
  intros Hg. eapply Hgen; [| |exact Hg]; [done|]. intros j props' Hj. done.
Qed.
End MoveProposals.

(** *** The writes and the updates of a list of commits *)

(** What the movement phase leaves alone. *)
Definition env (s : Simulation) : list (Cell * Z) * Z * Z * Q * list Cell * nat :=
  (foodPixels s, nextID s, tick s, envEnergy s, obstacleKeys s,
   length (pixelHP s)).

Lemma kupdate_same {K E} `{EqDecision K} (key : E -> K) k (l : list E) :
  kupdate key k (fun e => e) l = l.
Proof.
  induction l as [|a l IH]; simpl; [done|].
  destruct (decide (key a = k)); [done|]. by rewrite IH.
Qed.

Section MoveApply.
Variable gridSize : Z.
Variable params : SimulationParams.

Local Abbreviation idx := (idx gridSize).
Local Abbreviation cellIdx := (cellIdx gridSize).
Local Abbreviation applyBoundary := (applyBoundary gridSize params).
Local Abbreviation applyProposal := (applyProposal gridSize).
Local Abbreviation applyCommit := (applyCommit gridSize params).
Local Abbreviation clearSources := (clearSources gridSize).

(** The hit-points a proposal carries to its destination. *)
Definition carried (org : Organism) (old : list (Cell * Z)) (p : Proposal) : Z :=
  match kget fst (ox p, oy p) old with
  | Some (_, h) => h
  | None => totalCells (genome org)
  end.

Definition newPixels (org : Organism) (old : list (Cell * Z))
    (props : list Proposal) (px : list (Cell * Z)) : list (Cell * Z) :=
  fold_left (fun px p => kset fst (dest p, carried org old p) px) props px.

(** The assignment of a commit to the entry of its organism. *)
Definition relocate (dx dy : Z) (cost : Q) (np : list (Cell * Z))
    (o : Organism) : Organism :=
  set_movedThisTick true
    (set_stamina (Qmax 0 (stamina o - staminaDrainPerStep params))
       (set_energy (energy o - cost)
          (match applyBoundary (eyeX (set_pixels np o) + dx)
                   (eyeY (set_pixels np o) + dy) with
           | Some (bx, by') => set_eye bx by' (set_pixels np o)
           | None => set_pixels np o
           end))).

(** The heading and the cost in the record of an id. *)
Definition headOf (i : Z) (states : list MoveState) : option (Z * Z * Q) :=
  (fun st => (st_dx st, st_dy st, stepCost st)) <$> stateById i states.

Definition relocOf (states : list MoveState) (c : Commit)
  : Organism -> Organism :=
  match headOf (id (c_org c)) states with
  | Some (dx, dy, cost) =>
      relocate dx dy cost
        (newPixels (c_org c) (c_oldPixels c) (c_props c) [])
  | None => fun o => o
  end.

Definition clearW (D : gset Z) (commits : list Commit) : list (Z * Z) :=
  flat_map
    (fun c =>
       flat_map (fun k => if decide (cellIdx k ∈ D) then [] else [(cellIdx k, 0)])
         (map fst (c_oldPixels c)))
    commits.

Definition moveW (commits : list Commit) : list (Z * Z) :=
  flat_map
    (fun c => map (fun p => (cellIdx (dest p), id (c_org c))) (c_props c))
    commits.

Lemma clearSources_spec D commits s :
  grid (clearSources D commits s) = apply_writes (clearW D commits) (grid s)
  /\ organisms (clearSources D commits s) = organisms s
  /\ env (clearSources D commits s) = env s.
Proof.
  unfold def_clearSources, clearW.
  revert s. induction commits as [|c commits IH]; intros s; simpl; [done|].
  assert (forall keys s0,
             let s' := fold_left (clearSource gridSize D) keys s0 in
             grid s'
             = apply_writes
                 (flat_map (fun k => if decide (cellIdx k ∈ D) then []
                                     else [(cellIdx k, 0)]) keys) (grid s0)
             /\ organisms s' = organisms s0 /\ env s' = env s0) as Hin.
  { induction keys as [|k keys IHk]; intros s0; simpl; [done|].
    destruct (IHk (clearSource gridSize D s0 k)) as (H1 & H2 & H3).
    rewrite H1, H2, H3, apply_writes_app. unfold clearSource.
    change (def_idx gridSize k.1 k.2) with (cellIdx k).
    destruct (decide (cellIdx k ∈ D)); [done|].
    split; [done|]. split; [done|]. unfold env. simpl.
    by rewrite length_arr_set. }
  destruct (IH (fold_left (clearSource gridSize D) (map fst (c_oldPixels c)) s))
    as (H1 & H2 & H3).
  destruct (Hin (map fst (c_oldPixels c)) s) as (H4 & H5 & H6).
  rewrite H1, H2, H3, H4, H5, H6, apply_writes_app. done.
Qed.

Lemma applyProposal_fold org old props s px :
  let res := fold_left (applyProposal org old) props (s, px) in
  grid res.1
  = apply_writes (map (fun p => (cellIdx (dest p), id org)) props) (grid s)
  /\ organisms res.1 = organisms s /\ env res.1 = env s
  /\ res.2 = newPixels org old props px.
Proof.
  revert s px. induction props as [|p props IH]; intros s px; simpl; [done|].
  destruct (IH (applyProposal org old (s, px) p).1
              (applyProposal org old (s, px) p).2) as (H1 & H2 & H3 & H4).
  rewrite <- surjective_pairing in H1, H2, H3, H4.
  rewrite H1, H2, H3, H4. split; [done|]. split; [done|].
  split; [|done]. unfold env. simpl. by rewrite length_arr_set.
Qed.

Lemma headOf_advance i j states :
  headOf i (kupdate st_org j advanceState states) = headOf i states.
Proof.
  unfold headOf, stateById. destruct (decide (i = j)) as [->|Hne].
  - rewrite kget_kupdate_eq by done. by destruct (kget st_org j states).
  - by rewrite kget_kupdate_ne.
Qed.

(** The records after the commits of a pass. *)
Definition advance_all (commits : list Commit) (states : list MoveState)
  : list MoveState :=
  update_all st_org (fun c => id (c_org c)) (fun _ => advanceState)
    commits states.

Lemma applyCommit_fold states0 commits states s :
  (forall i, headOf i states = headOf i states0) ->
  let res := fold_left applyCommit commits (states, s) in
  grid res.2 = apply_writes (moveW commits) (grid s)
  /\ organisms res.2
     = update_all id (fun c => id (c_org c)) (relocOf states0) commits
         (organisms s)
  /\ env res.2 = env s
  /\ res.1 = advance_all commits states.
Proof.
  revert states s. induction commits as [|c commits IH]; intros states s Hh;
    simpl; [done|].
  assert (exists states1 s1,
             applyCommit (states, s) c = (states1, s1)
             /\ grid s1
                = apply_writes
                    (map (fun p => (cellIdx (dest p), id (c_org c))) (c_props c))
                    (grid s)
             /\ organisms s1
                = kupdate id (id (c_org c)) (relocOf states0 c) (organisms s)
             /\ env s1 = env s
             /\ states1 = kupdate st_org (id (c_org c)) advanceState states)
    as (states1 & s1 & -> & H1 & H2 & H3 & H4).
  { unfold def_applyCommit. cbv zeta.
    set (r := fold_left _ (c_props c) _).
    assert (grid r.1
            = apply_writes
                (map (fun p => (cellIdx (dest p), id (c_org c))) (c_props c))
                (grid s)
            /\ organisms r.1 = organisms s /\ env r.1 = env s
            /\ r.2 = newPixels (c_org c) (c_oldPixels c) (c_props c) [])
      as (G1 & G2 & G3 & G4).
    { exact (applyProposal_fold (c_org c) (c_oldPixels c) (c_props c) s []). }
    destruct r as [s1 np]. simpl in G1, G2, G3, G4.
    unfold relocOf. rewrite <- Hh. unfold headOf. simpl.
    destruct (stateById (id (c_org c)) states) as [st|] eqn:Hst; simpl.
    - eexists _, _. split; [reflexivity|]. simpl. rewrite G2, G4. done.
    - eexists _, _. split; [reflexivity|]. rewrite kupdate_same, G2.
      split; [done|]. split; [done|]. split; [done|].
      symmetry. apply kupdate_notin. by apply kget_None. }
  destruct (IH states1 s1) as (G1 & G2 & G3 & G4).
  { intros i. rewrite H4, headOf_advance. apply Hh. }
  rewrite G1, G2, G3, G4, H1, H2, H3, H4.
  unfold moveW. simpl. rewrite apply_writes_app. done.
Qed.
End MoveApply.

(** Likewise for the assignment of a commit. *)
Abbreviation def_relocOf := relocOf.
Abbreviation def_relocate := relocate.

(** *** The commits of a microstep *)

Lemma Forall2_elem_r {A B} (R : A -> B -> Prop) l1 l2 b :
  Forall2 R l1 l2 -> b ∈ l2 -> exists a, a ∈ l1 /\ R a b.
Proof.
  induction 1 as [|x y l1 l2 Hxy _ IH]; intros Hb; [by apply elem_of_nil in Hb|].
  apply elem_of_cons in Hb as [->|Hb].
  - exists x. split; [left|done].
  - destruct (IH Hb) as (a & Ha & HR). exists a. split; [by right|done].
Qed.


Lemma omap_keys_sublist {A B K} (g : A -> option B) (ka : A -> K) (kb : B -> K) l :
  (forall a b, g a = Some b -> kb b = ka a) ->
  map kb (omap g l) `sublist_of` map ka l.
Proof.
  intros Hg. induction l as [|a l IH]; simpl; [done|].
  destruct (g a) as [b|] eqn:Hb; simpl.
  - rewrite (Hg a b Hb). by apply sublist_skip.
  - by apply sublist_cons.
Qed.

Lemma NoDup_map_inj_elem {A K} (f : A -> K) l a b :
  NoDup (map f l) -> a ∈ l -> b ∈ l -> f a = f b -> a = b.
Proof.
  induction l as [|x l IH]; intros Hnd Ha Hb Hab; [by apply elem_of_nil in Ha|].
  simpl in Hnd. apply NoDup_cons in Hnd as [Hx Hnd].
  apply elem_of_cons in Ha as [->|Ha]; apply elem_of_cons in Hb as [->|Hb].
  - done.
  - destruct Hx. rewrite Hab. by apply list_elem_of_fmap_2.
  - destruct Hx. rewrite <- Hab. by apply list_elem_of_fmap_2.
  - by apply IH.
Qed.

Section MoveCommits.
Variable gridSize : Z.
Variable params : SimulationParams.
Hypothesis gridSize_pos : 0 < gridSize.

Local Abbreviation Inv := (Inv gridSize params).
Local Abbreviation moved_to := (moved_to gridSize params).
Local Abbreviation microstep := (microstep gridSize params).

(** A commit of the pass that starts in [s] with the records [states]:
    its organism is registered and has a record, which is moving; its
    proposals move every cell of the organism by the heading of the
    record. *)
Record commit_ok (s : Simulation) (states : list MoveState) (c : Commit)
  : Prop := {
  cok_org : c_org c ∈ organisms s;
  cok_old : c_oldPixels c = pixels (c_org c);
  cok_props :
    exists st, stateById (id (c_org c)) states = Some st
               /\ is_moving st = true
               /\ Forall2 (moved_to s (c_org c) (st_dx st) (st_dy st))
                    (pix_keys (c_org c)) (c_props c)
}.

(** The commits of a pass: one per organism at most, and no cell is the
    destination of two organisms. *)
Record commits_ok (s : Simulation) (states : list MoveState)
    (commits : list Commit) : Prop := {
  cs_each : forall c, c ∈ commits -> commit_ok s states c;
  cs_nodup : NoDup (map (fun c => id (c_org c)) commits);
  cs_apart :
    forall c1 c2 p1 p2,
      c1 ∈ commits -> c2 ∈ commits -> p1 ∈ c_props c1 -> p2 ∈ c_props c2 ->
      dest p1 = dest p2 -> id (c_org c1) = id (c_org c2)
}.

(** The state a pass starts from, once the static reservations are
    registered. *)
Definition reserved (states : list MoveState) (s : Simulation) : Simulation :=
  set_reservations
    (staticReservations
       (list_to_set
          (map st_org (filter (fun st => is_moving st <> true) states))) s) s.

Lemma microstep_commits states s commits states' s' :
  Inv s -> NoDup (map st_org states) ->
  microstep states s = (commits, states', s') ->
  commits_ok (reserved states s) states commits
  /\ (states', s')
     = fold_left (applyCommit gridSize params) commits
         (states,
          clearSources gridSize (destIdxSet gridSize commits) commits
            (reserved states s)).
Proof.
  intros HI Hnd. unfold def_microstep. cbv zeta.
  fold (reserved states s). set (s1 := reserved states s).
  set (M := sortBy _ _).
  destruct (collectProposals gridSize params s1 states M) as [pbo pcm] eqn:Hcp.
  set (winners := winnersByCell _ _).
  set (commits0 := omap (commitOf pbo winners) M).
  destruct (fold_left _ commits0 _) as [st3 s3] eqn:Hfold.
  intros [= <- <- <-]. split; [|done].
  assert (forall o, o ∈ M ->
            o ∈ organisms s
            /\ exists st, st ∈ states /\ is_moving st = true
                          /\ st_org st = id o) as HM.
  { intros o Ho. unfold M in Ho. rewrite sortBy_perm in Ho.
    apply list_elem_of_omap in Ho as (st & Hst & Hg).
    apply list_elem_of_filter in Hst as [Hmv Hst].
    split; [by apply get_org_in in Hg|]. exists st.
    split; [done|]. split; [done|]. by apply get_org_id in Hg. }
  assert (NoDup (map id M)) as HMnd.
  { unfold M. rewrite sortBy_perm.
    eapply sublist_NoDup; [exact Hnd|].
    etrans; [apply (omap_keys_sublist _ st_org id)|].
    - intros st o Hg. by apply get_org_id in Hg.
    - apply (fmap_sublist st_org), sublist_filter. }
  assert (forall c, c ∈ commits0 ->
            exists o, o ∈ M /\ commitOf pbo winners o = Some c) as Hc0.
  { intros c Hc. by apply list_elem_of_omap in Hc. }
  split.
  - intros c Hc. destruct (Hc0 c Hc) as (o & Ho & Hco).
    apply commitOf_Some in Hco as (Horg & Hold & Hg & _ & _).
    destruct (HM o Ho) as (Hin & st & Hst & Hmv & Hid).
    assert (pbo = (collectProposals gridSize params s1 states M).1) as Hpbo
        by (by rewrite Hcp).
    rewrite Hpbo in Hg.
    apply collect_valid in Hg as (o2 & st2 & Ho2 & Hid2 & Hst2 & Hf).
    assert (o2 = o) as ->.
    { eapply (same_id_same_org gridSize params); [exact HI| | |done].
      - by apply HM.
      - done. }
    assert (st2 = st) as ->.
    { unfold stateById in Hst2.
      rewrite (kget_first st_org (id o) states st Hnd Hst Hid) in Hst2.
      congruence. }
    split; rewrite ?Horg; [done|done|]. by exists st.
  - eapply sublist_NoDup; [exact HMnd|].
    apply (omap_keys_sublist _ id (fun c => id (c_org c))).
    intros o c Hco. by apply commitOf_Some in Hco as (-> & _).
  - intros c1 c2 p1 p2 Hc1 Hc2 Hp1 Hp2 Hd.
    destruct (Hc0 c1 Hc1) as (o1 & _ & Hco1).
    destruct (Hc0 c2 Hc2) as (o2 & _ & Hco2).
    apply commitOf_Some in Hco1 as (-> & _ & _ & _ & Hw1).
    apply commitOf_Some in Hco2 as (-> & _ & _ & _ & Hw2).
    specialize (Hw1 p1 Hp1). specialize (Hw2 p2 Hp2).
    unfold dest in Hd. rewrite Hd in Hw1. congruence.
Qed.
End MoveCommits.

(** *** A pass of the resolver keeps the invariant *)

Lemma elem_of_flat_map {A B} (f : A -> list B) l x :
  x ∈ flat_map f l <-> exists a, a ∈ l /\ x ∈ f a.
Proof.
  rewrite list_elem_of_In, in_flat_map. split.
  - intros (a & Ha & Hx). exists a. by rewrite !list_elem_of_In.
  - intros (a & Ha & Hx). exists a. by rewrite <- !list_elem_of_In.
Qed.

Section MoveInv.
Variable gridSize : Z.
Variable params : SimulationParams.
Hypothesis gridSize_pos : 0 < gridSize.

Local Abbreviation inb := (inb gridSize).
Local Abbreviation gridAt := (gridAt gridSize).
Local Abbreviation cellIdx := (cellIdx gridSize).
Local Abbreviation applyBoundary := (applyBoundary gridSize params).
Local Abbreviation Inv := (Inv gridSize params).
Local Abbreviation org_shape := (org_shape gridSize params).
Local Abbreviation moved_to := (moved_to gridSize params).
Local Abbreviation relocate := (relocate gridSize params).
Local Abbreviation relocOf := (relocOf gridSize params).
Local Abbreviation commit_ok := (commit_ok gridSize params).
Local Abbreviation commits_ok := (commits_ok gridSize params).

Lemma relocate_id dx dy cost np o : id (relocate dx dy cost np o) = id o.
Proof. unfold def_relocate. simpl. by destruct (applyBoundary _ _) as [[? ?]|]. Qed.

Lemma relocate_pixels dx dy cost np o :
  pixels (relocate dx dy cost np o) = np.
Proof. unfold def_relocate. simpl. by destruct (applyBoundary _ _) as [[? ?]|]. Qed.

Lemma relocate_eye dx dy cost np o e :
  applyBoundary (eyeX o + dx) (eyeY o + dy) = Some e ->
  (eyeX (relocate dx dy cost np o), eyeY (relocate dx dy cost np o)) = e.
Proof. unfold def_relocate. simpl. intros ->. by destruct e. Qed.

Lemma relocOf_id states c e : id (relocOf states c e) = id e.
Proof.
  unfold def_relocOf. destruct (headOf _ _) as [[[dx dy] cost]|]; [|done].
  apply relocate_id.
Qed.

Lemma keys_newPixels org old props px :
  NoDup (map dest props) ->
  (forall p, p ∈ props -> dest p ∉ map fst px) ->
  map fst (newPixels org old props px) = map fst px ++ map dest props.
Proof.
  revert px. induction props as [|p props IH]; intros px Hnd Hpx; simpl.
  - by rewrite app_nil_r.
  - apply NoDup_cons in Hnd as [Hp Hnd]. unfold newPixels in *. simpl.
    rewrite IH; [|done|].
    + rewrite (keys_kset_notin fst (dest p, carried org old p));
        [by rewrite <- app_assoc|]. apply Hpx. left.
    + intros q Hq Hin.
      apply (elem_of_keys_kset fst _ (dest p, carried org old p)) in Hin
          as [Heq|Hin].
      * simpl in Heq. apply Hp. rewrite <- Heq. by apply list_elem_of_fmap_2.
      * apply (Hpx q); [by right|done].
Qed.

Lemma moved_pairs s o dx dy ks ps :
  Forall2 (moved_to s o dx dy) ks ps ->
  exists pairs : list (Cell * Cell),
    map fst pairs = ks /\ map snd pairs = map dest ps
    /\ forall pr, pr ∈ pairs ->
                  applyBoundary (pr.1.1 + dx) (pr.1.2 + dy) = Some pr.2.
Proof.
  induction 1 as [|k p ks ps (_ & _ & Hb & _) _ (pairs & H1 & H2 & H3)].
  - exists []. split; [done|]. split; [done|]. intros pr Hpr.
    by apply elem_of_nil in Hpr.
  - exists ((k, dest p) :: pairs). simpl. rewrite H1, H2.
    split; [done|]. split; [done|]. intros pr Hpr.
    apply elem_of_cons in Hpr as [->|Hpr]; [done|by apply H3].
Qed.

Lemma moved_NoDup s o dx dy ks ps :
  Forall2 (moved_to s o dx dy) ks ps ->
  NoDup ks -> (forall k, k ∈ ks -> inb k) -> NoDup (map dest ps).
Proof.
  induction 1 as [|k p ks ps (_ & _ & Hb & _) Hall IH]; intros Hnd Hin; simpl.
  - apply NoDup_nil_2.
  - apply NoDup_cons in Hnd as [Hk Hnd]. apply NoDup_cons. split.
    + intros Hd. apply list_elem_of_fmap in Hd as (q & Hq & Hqin).
      destruct (Forall2_elem_r _ _ _ q Hall Hqin) as (k' & Hk' & _ & _ & Hb' & _).
      rewrite <- Hq in Hb'.
      assert (k = k') as ->; [|done].
      eapply (translate_inj gridSize params gridSize_pos dx dy);
        [apply Hin; left|apply Hin; by right|done..].
    + apply IH; [done|]. intros k' Hk'. apply Hin. by right.
Qed.

Section Pass.
Variable s : Simulation.
Variable states : list MoveState.
Variable commits : list Commit.
Hypothesis HI : Inv s.
Hypothesis Hok : commits_ok s states commits.

Let D := destIdxSet gridSize commits.
Let s3 :=
  (fold_left (applyCommit gridSize params) commits
     (states, clearSources gridSize D commits s)).2.
Let allDests := flat_map (fun c => map dest (c_props c)) commits.
Let allOld := flat_map (fun c => map fst (c_oldPixels c)) commits.

Lemma pass_grid :
  grid s3
  = apply_writes (clearW gridSize D commits ++ moveW gridSize commits) (grid s).
Proof.
  unfold s3.
  destruct (applyCommit_fold gridSize params states commits states
              (clearSources gridSize D commits s) ltac:(done)) as (H1 & _).
  destruct (clearSources_spec gridSize D commits s) as (H2 & _).
  cbv zeta in H1. rewrite H1, H2, apply_writes_app. done.
Qed.

Lemma pass_organisms :
  organisms s3
  = update_all id (fun c => id (c_org c)) (relocOf states) commits
      (organisms s).
Proof.
  unfold s3.
  destruct (applyCommit_fold gridSize params states commits states
              (clearSources gridSize D commits s) ltac:(done))
    as (_ & H1 & _).
  destruct (clearSources_spec gridSize D commits s) as (_ & H2 & _).
  cbv zeta in H1. by rewrite H1, H2.
Qed.

Lemma pass_env : env s3 = env s.
Proof.
  unfold s3.
  destruct (applyCommit_fold gridSize params states commits states
              (clearSources gridSize D commits s) ltac:(done))
    as (_ & _ & H1 & _).
  destruct (clearSources_spec gridSize D commits s) as (_ & _ & H2).
  cbv zeta in H1. by rewrite H1, H2.
Qed.

(** What a commit does to its organism. *)
Lemma commit_facts c :
  c ∈ commits ->
  let o := c_org c in
  let o' := relocOf states c o in
  o ∈ organisms s
  /\ id o' = id o
  /\ pix_keys o' = map dest (c_props c)
  /\ NoDup (map dest (c_props c))
  /\ org_shape o'
  /\ length (pixels o') = length (pixels o)
  /\ (forall p, p ∈ c_props c ->
        inb (dest p)
        /\ (gridAt s (nx p) (ny p) = Some 0
            \/ gridAt s (nx p) (ny p) = Some (id o)))
  /\ exists st, stateById (id o) states = Some st
                /\ is_moving st = true
                /\ o' = relocate (st_dx st) (st_dy st) (stepCost st)
                          (newPixels o (c_oldPixels c) (c_props c) []) o.
Proof.
  intros Hc. cbv zeta.
  destruct (cs_each _ _ _ _ _ Hok c Hc) as [Ho Hold (st & Hst & Hmv & Hf)].
  destruct (inv_orgs _ _ _ _ _ HI _ Ho) as [Hid Hnd Hcells].
  destruct (inv_shape _ _ _ _ _ HI _ Ho ltac:(tauto)) as [Heye Hcon].
  assert (NoDup (map dest (c_props c))) as Hdn.
  { eapply moved_NoDup; [exact Hf|done|]. intros k Hk. by apply Hcells. }
  assert (relocOf states c (c_org c)
          = relocate (st_dx st) (st_dy st) (stepCost st)
              (newPixels (c_org c) (c_oldPixels c) (c_props c) [])
              (c_org c)) as Hrel.
  { unfold def_relocOf, headOf. by rewrite Hst. }
  assert (pix_keys (relocOf states c (c_org c)) = map dest (c_props c))
    as Hkeys.
  { rewrite Hrel. unfold pix_keys. rewrite relocate_pixels.
    rewrite keys_newPixels; [done|done|]. intros p _.
    apply not_elem_of_nil. }
  split; [done|]. split; [apply relocOf_id|]. split; [done|].
  split; [done|]. split; [|split; [|split]].
  - destruct (moved_pairs _ _ _ _ _ _ Hf) as (pairs & H1 & H2 & H3).
    assert ((eyeX (c_org c), eyeY (c_org c)) ∈ map fst pairs) as He
        by (by rewrite H1).
    apply list_elem_of_fmap in He as ([e e'] & He & Hpr). simpl in He.
    subst e. pose proof (H3 _ Hpr) as Hb. simpl in Hb.
    unfold def_org_shape. rewrite Hkeys, Hrel.
    rewrite (relocate_eye _ _ _ _ _ e' Hb). rewrite <- H2. split.
    + apply list_elem_of_fmap. by eexists (_, e').
    + apply (connected_translate gridSize params gridSize_pos
               (st_dx st) (st_dy st) pairs
               (eyeX (c_org c), eyeY (c_org c)) e'); [done|done|].
      by rewrite H1.
  - apply (f_equal length) in Hkeys. unfold pix_keys in Hkeys.
    rewrite !length_map in Hkeys. rewrite Hkeys.
    apply Forall2_length in Hf. unfold pix_keys in Hf.
    rewrite length_map in Hf. done.
  - intros p Hp.
    destruct (Forall2_elem_r _ _ _ p Hf Hp) as (k & Hk & _ & _ & Hb & Hg).
    split; [|done].
    by apply (applyBoundary_inb gridSize params gridSize_pos) in Hb.
  - by exists st.
Qed.

Lemma dests_spec x :
  x ∈ allDests <-> exists c p, c ∈ commits /\ p ∈ c_props c /\ dest p = x.
Proof.
  unfold allDests. rewrite elem_of_flat_map. split.
  - intros (c & Hc & Hx). apply list_elem_of_fmap in Hx as (p & -> & Hp).
    by exists c, p.
  - intros (c & p & Hc & Hp & <-). exists c. split; [done|].
    by apply list_elem_of_fmap_2.
Qed.

Lemma old_spec x :
  x ∈ allOld <-> exists c, c ∈ commits /\ x ∈ pix_keys (c_org c).
Proof.
  unfold allOld. rewrite elem_of_flat_map. split.
  - intros (c & Hc & Hx). exists c. split; [done|].
    by rewrite (cok_old _ _ _ _ _ (cs_each _ _ _ _ _ Hok c Hc)) in Hx.
  - intros (c & Hc & Hx). exists c. split; [done|].
    by rewrite (cok_old _ _ _ _ _ (cs_each _ _ _ _ _ Hok c Hc)).
Qed.

Lemma dest_inb c p : c ∈ commits -> p ∈ c_props c -> inb (dest p).
Proof.
  intros Hc Hp. destruct (commit_facts c Hc) as (_ & _ & _ & _ & _ & _ & H & _).
  by apply H.
Qed.

Lemma old_inb c k : c ∈ commits -> k ∈ pix_keys (c_org c) -> inb k.
Proof.
  intros Hc Hk. destruct (commit_facts c Hc) as (Ho & _).
  by apply (ok_cells _ _ _ (inv_orgs _ _ _ _ _ HI _ Ho)).
Qed.

Lemma D_spec x : inb x -> cellIdx x ∈ D <-> x ∈ allDests.
Proof.
  intros Hx. unfold D, destIdxSet. rewrite elem_of_list_to_set.
  rewrite elem_of_flat_map, dests_spec. split.
  - intros (c & Hc & Hi). apply list_elem_of_fmap in Hi as (p & Hi & Hp).
    exists c, p. split; [done|]. split; [done|].
    symmetry. apply (cellIdx_inj gridSize gridSize_pos); [done| |done].
    by apply (dest_inb c).
  - intros (c & p & Hc & Hp & <-). exists c. split; [done|].
    apply list_elem_of_fmap. by exists p.
Qed.

Lemma clearW_spec w :
  w ∈ clearW gridSize D commits ->
  w.2 = 0 /\ exists c k, c ∈ commits /\ k ∈ pix_keys (c_org c)
                         /\ w.1 = cellIdx k /\ cellIdx k ∉ D.
Proof.
  unfold clearW. rewrite elem_of_flat_map. intros (c & Hc & Hw).
  apply elem_of_flat_map in Hw as (k & Hk & Hw).
  destruct (decide (cellIdx k ∈ D)) as [|Hn]; [by apply elem_of_nil in Hw|].
  apply list_elem_of_singleton in Hw as ->. split; [done|].
  exists c, k. split; [done|]. split; [|done].
  by rewrite (cok_old _ _ _ _ _ (cs_each _ _ _ _ _ Hok c Hc)) in Hk.
Qed.

Lemma moveW_spec w :
  w ∈ moveW gridSize commits <->
  exists c p, c ∈ commits /\ p ∈ c_props c
              /\ w = (cellIdx (dest p), id (c_org c)).
Proof.
  unfold moveW. rewrite elem_of_flat_map. split.
  - intros (c & Hc & Hw). apply list_elem_of_fmap in Hw as (p & -> & Hp).
    by exists c, p.
  - intros (c & p & Hc & Hp & ->). exists c. split; [done|].
    apply list_elem_of_fmap. by exists p.
Qed.

Lemma gridAt_pass x :
  gridAt s3 x.1 x.2
  = arr_get
      (apply_writes (clearW gridSize D commits ++ moveW gridSize commits)
         (grid s)) (cellIdx x).
Proof. unfold def_gridAt. by rewrite pass_grid. Qed.

Lemma grid_dest c p :
  c ∈ commits -> p ∈ c_props c ->
  gridAt s3 (nx p) (ny p) = Some (id (c_org c)).
Proof.
  intros Hc Hp. pose proof (dest_inb c p Hc Hp) as Hin.
  etrans; [apply (gridAt_pass (dest p))|]. apply apply_writes_hit.
  - eapply (cell_in_range gridSize params gridSize_pos); [exact HI|done].
  - exists (cellIdx (dest p), id (c_org c)). split; [|done].
    apply elem_of_app. right. apply moveW_spec. by exists c, p.
  - intros w Hw Hj. apply elem_of_app in Hw as [Hw|Hw].
    + apply clearW_spec in Hw as (_ & c' & k & Hc' & Hk & Hi & Hn).
      destruct Hn. rewrite <- Hi, Hj. apply D_spec; [done|].
      apply dests_spec. by exists c, p.
    + apply moveW_spec in Hw as (c' & p' & Hc' & Hp' & ->). simpl in *.
      apply (cellIdx_inj gridSize gridSize_pos) in Hj;
        [|by apply (dest_inb c')|done].
      by apply (cs_apart _ _ _ _ _ Hok c' c p' p).
Qed.

Lemma grid_old x :
  x ∉ allDests -> x ∈ allOld -> gridAt s3 x.1 x.2 = Some 0.
Proof.
  intros Hnd Ho. apply old_spec in Ho as (c & Hc & Hk).
  pose proof (old_inb c x Hc Hk) as Hin.
  rewrite gridAt_pass. apply apply_writes_hit.
  - eapply (cell_in_range gridSize params gridSize_pos); [exact HI|done].
  - exists (cellIdx x, 0). split; [|done]. apply elem_of_app. left.
    unfold clearW. apply elem_of_flat_map. exists c. split; [done|].
    apply elem_of_flat_map. exists x. split.
    + by rewrite (cok_old _ _ _ _ _ (cs_each _ _ _ _ _ Hok c Hc)).
    + rewrite decide_False; [left|]. by rewrite D_spec.
  - intros w Hw Hj. apply elem_of_app in Hw as [Hw|Hw].
    + by apply clearW_spec in Hw as (? & _).
    + apply moveW_spec in Hw as (c' & p' & Hc' & Hp' & ->). simpl in *.
      apply (cellIdx_inj gridSize gridSize_pos) in Hj;
        [|by apply (dest_inb c')|done].
      destruct Hnd. apply dests_spec. by exists c', p'.
Qed.

Lemma grid_frame x :
  inb x -> x ∉ allDests -> x ∉ allOld ->
  gridAt s3 x.1 x.2 = gridAt s x.1 x.2.
Proof.
  intros Hin Hnd Hno. rewrite gridAt_pass. apply apply_writes_frame.
  intros w Hw Hj. apply elem_of_app in Hw as [Hw|Hw].
  - apply clearW_spec in Hw as (_ & c & k & Hc & Hk & Hi & _).
    rewrite Hi in Hj.
    apply (cellIdx_inj gridSize gridSize_pos) in Hj;
      [|by apply (old_inb c)|done].
    subst k. apply Hno, old_spec. by exists c.
  - apply moveW_spec in Hw as (c & p & Hc & Hp & ->). simpl in *.
    apply (cellIdx_inj gridSize gridSize_pos) in Hj;
      [|by apply (dest_inb c)|done].
    apply Hnd, dests_spec. by exists c, p.
Qed.

(** The entries of the registry after the pass. *)
Lemma pass_cases o' :
  o' ∈ organisms s3 ->
  (o' ∈ organisms s /\ id o' ∉ map (fun c => id (c_org c)) commits)
  \/ exists c, c ∈ commits /\ o' = relocOf states c (c_org c).
Proof.
  rewrite pass_organisms. intros Ho'.
  apply elem_of_update_all in Ho' as [?|(c & e & Hc & He & Hid & ->)];
    [by left| |apply relocOf_id|apply (inv_ids _ _ _ _ _ HI)
     |apply (cs_nodup _ _ _ _ _ Hok)].
  right. exists c. split; [done|]. f_equal.
  destruct (commit_facts c Hc) as (Ho & _).
  eapply (same_id_same_org gridSize params); [exact HI|done..].
Qed.

Theorem pass_Inv : Inv s3.
Proof.
  pose proof pass_env as Henv.
  assert (nextID s3 = nextID s /\ foodPixels s3 = foodPixels s
          /\ length (pixelHP s3) = length (pixelHP s)) as (Hnext & Hfood & Hhp).
  { unfold env in Henv. by injection Henv. }
  assert (forall o x, o ∈ organisms s ->
            id o ∉ map (fun c => id (c_org c)) commits ->
            x ∈ pix_keys o -> (x ∉ allDests) /\ (x ∉ allOld)) as Hkeep.
  { intros o x Ho Hid Hx.
    destruct (inv_orgs _ _ _ _ _ HI o Ho) as [Hpos _ Hcells].
    destruct (Hcells x Hx) as [Hin Hg]. split.
    - intros Hd. apply dests_spec in Hd as (c & p & Hc & Hp & <-).
      destruct (commit_facts c Hc) as (_ & _ & _ & _ & _ & _ & Hdest & _).
      destruct (Hdest p Hp) as (_ & [H0|H1]); simpl in Hg.
      + rewrite H0 in Hg. injection Hg as Hg. lia.
      + rewrite H1 in Hg. injection Hg as Hg. apply Hid.
        rewrite <- Hg. by apply (list_elem_of_fmap_2 (fun c => id (c_org c))).
    - intros Hold. apply old_spec in Hold as (c & Hc & Hk).
      destruct (commit_facts c Hc) as (Hco & _).
      assert (o = c_org c) as ->.
      { eapply (cells_disjoint gridSize params); [exact HI|done..]. }
      apply Hid. by apply (list_elem_of_fmap_2 (fun c => id (c_org c))). }
  split.
  - rewrite pass_grid, length_apply_writes. apply (inv_grid_len _ _ _ _ _ HI).
  - rewrite Hhp. apply (inv_hp_len _ _ _ _ _ HI).
  - rewrite Hnext. apply (inv_next _ _ _ _ _ HI).
  - rewrite pass_organisms, keys_update_all; [|apply relocOf_id].
    apply (inv_ids _ _ _ _ _ HI).
  - intros o' Ho'. destruct (pass_cases o' Ho') as [[Ho Hid]|(c & Hc & ->)].
    + destruct (inv_orgs _ _ _ _ _ HI o' Ho) as [Hpos Hnd Hcells].
      split; [by rewrite Hnext|done|]. intros x Hx.
      destruct (Hcells x Hx) as [Hin Hg]. split; [done|].
      destruct (Hkeep o' x Ho Hid Hx) as [H1 H2].
      by rewrite grid_frame.
    + destruct (commit_facts c Hc)
        as (Ho & Hid & Hkeys & Hnd & _ & _ & Hdest & _).
      destruct (inv_orgs _ _ _ _ _ HI _ Ho) as [Hpos _ _].
      split; [by rewrite Hid, Hnext|by rewrite Hkeys|].
      rewrite Hkeys, Hid. intros x Hx.
      apply list_elem_of_fmap in Hx as (p & -> & Hp).
      split; [by apply Hdest|]. by apply grid_dest.
  - intros o' Ho' _. destruct (pass_cases o' Ho') as [[Ho Hid]|(c & Hc & ->)].
    + apply (inv_shape _ _ _ _ _ HI o' Ho). tauto.
    + by destruct (commit_facts c Hc) as (_ & _ & _ & _ & Hs & _).
  - intros x o' Hin _ Ho' Hg.
    assert (0 < id o') as Hpos'.
    { destruct (pass_cases o' Ho') as [[Ho Hid]|(c & Hc & ->)].
      - apply (ok_id _ _ _ (inv_orgs _ _ _ _ _ HI o' Ho)).
      - destruct (commit_facts c Hc) as (Ho & Hid & _). rewrite Hid.
        apply (ok_id _ _ _ (inv_orgs _ _ _ _ _ HI _ Ho)). }
    destruct (decide (x ∈ allDests)) as [Hd|Hd].
    { apply dests_spec in Hd as (c & p & Hc & Hp & <-).
      change (gridAt s3 (nx p) (ny p) = Some (id o')) in Hg.
      rewrite (grid_dest c p Hc Hp) in Hg. injection Hg as Hg.
      destruct (pass_cases o' Ho') as [[Ho Hid]|(c' & Hc' & ->)].
      - destruct Hid. rewrite <- Hg.
        by apply (list_elem_of_fmap_2 (fun c => id (c_org c))).
      - rewrite relocOf_id in Hg.
        assert (c = c') as <-.
        { by apply (NoDup_map_inj_elem (fun c => id (c_org c)) commits);
            [apply (cs_nodup _ _ _ _ _ Hok)|..]. }
        destruct (commit_facts c Hc) as (_ & _ & -> & _).
        by apply list_elem_of_fmap_2. }
    destruct (decide (x ∈ allOld)) as [Hold|Hold].
    { rewrite (grid_old x Hd Hold) in Hg. injection Hg as Hg. lia. }
    rewrite (grid_frame x Hin Hd Hold) in Hg.
    destruct (pass_cases o' Ho') as [[Ho Hid]|(c & Hc & ->)].
    + apply (inv_owner _ _ _ _ _ HI x o'); [done|tauto|done|done].
    + destruct (commit_facts c Hc) as (Ho & Hid & _). rewrite Hid in Hg.
      destruct Hold. apply old_spec. exists c. split; [done|].
      apply (inv_owner _ _ _ _ _ HI x (c_org c)); [done|tauto|done|done].
  - intros j v Hv. rewrite pass_grid in Hv. rewrite Hnext.
    apply apply_writes_codes in Hv as [Hv|Hw];
      [by apply (inv_codes _ _ _ _ _ HI j v)|].
    apply elem_of_app in Hw as [Hw|Hw].
    + apply clearW_spec in Hw as (Hz & _). simpl in Hz. subst v.
      apply (inv_next _ _ _ _ _ HI).
    + apply moveW_spec in Hw as (c & p & Hc & Hp & [= _ ->]).
      destruct (commit_facts c Hc) as (Ho & _).
      apply (ok_id _ _ _ (inv_orgs _ _ _ _ _ HI _ Ho)).
  - rewrite Hfood. apply (inv_food_nodup _ _ _ _ _ HI).
  - rewrite Hfood. intros k Hk.
    destruct (inv_food _ _ _ _ _ HI k Hk) as [Hin Hg]. split; [done|].
    rewrite grid_frame; [done|done| |].
    + intros Hd. apply dests_spec in Hd as (c & p & Hc & Hp & <-).
      destruct (commit_facts c Hc) as (Ho & _ & _ & _ & _ & _ & Hdest & _).
      pose proof (ok_id _ _ _ (inv_orgs _ _ _ _ _ HI _ Ho)).
      change (gridAt s (nx p) (ny p) = Some (-1)) in Hg.
      destruct (Hdest p Hp) as (_ & [H0|H1]); [congruence|].
      rewrite H1 in Hg. injection Hg as Hg. lia.
    + intros Hold. apply old_spec in Hold as (c & Hc & Hx).
      destruct (commit_facts c Hc) as (Ho & _).
      apply (cell_not_food gridSize params _ _ s _ k HI Ho Hx Hk).
Qed.
End Pass.
End MoveInv.

(** *** moveOrganisms and step *)

Section StepInv.
Variable gridSize : Z.
Variable params : SimulationParams.
Variable rand : nat -> Q.
Variable pow : Q -> Q -> Q.
Hypothesis gridSize_pos : 0 < gridSize.
Hypothesis rand01 : forall n, (0 <= rand n)%Q /\ (rand n < 1)%Q.

Local Abbreviation Inv := (Inv gridSize params).
Local Abbreviation microstep := (microstep gridSize params).
Local Abbreviation moveLoop := (moveLoop gridSize params).

Lemma microstep_Inv states s commits states' s' :
  Inv s -> NoDup (map st_org states) ->
  microstep states s = (commits, states', s') ->
  Inv s' /\ states' = advance_all commits states.
Proof.
  intros HI Hnd Hm.
  destruct (microstep_commits gridSize params _ _ _ _ _ HI Hnd Hm)
    as [Hok Heq].
  assert (Inv (reserved states s)) as HI1.
  { by apply (Inv_view gridSize params s). }
  pose proof (pass_Inv gridSize params gridSize_pos _ _ _ HI1 Hok) as HI3.
  destruct (applyCommit_fold gridSize params states commits states
              (clearSources gridSize (destIdxSet gridSize commits) commits
                 (reserved states s)) ltac:(done)) as (_ & _ & _ & Hst).
  cbv zeta in Hst. rewrite <- Heq in HI3, Hst. done.
Qed.

Lemma st_org_advance_all commits states :
  map st_org (advance_all commits states) = map st_org states.
Proof. by apply keys_update_all. Qed.

Lemma moveLoop_Inv fuel states s :
  Inv s -> NoDup (map st_org states) -> Inv (moveLoop fuel states s).2.
Proof.
  revert states s. induction fuel as [|fuel IH]; intros states s HI Hnd; simpl;
    [done|].
  destruct (filter _ states); [done|].
  destruct (microstep states s) as [[commits states1] s1] eqn:Hm.
  destruct (microstep_Inv _ _ _ _ _ HI Hnd Hm) as [HI1 ->].
  destruct commits as [|c commits]; [by apply (Inv_view gridSize params s1)|].
  apply IH; [done|]. by rewrite st_org_advance_all.
Qed.

(** The steps left in the records: what a pass with a commit makes
    smaller. *)
Definition stepsLeft (states : list MoveState) : nat :=
  fold_right (fun st n => (Z.to_nat (stepsRemaining st) + n)%nat) O states.

Lemma stepsLeft_advance_le i states :
  (stepsLeft (kupdate st_org i advanceState states) <= stepsLeft states)%nat.
Proof.
  induction states as [|st states IH]; simpl; [done|].
  destruct (decide (st_org st = i)); simpl; lia.
Qed.

Lemma stepsLeft_advance_lt i states st :
  stateById i states = Some st -> 0 < stepsRemaining st ->
  (stepsLeft (kupdate st_org i advanceState states) < stepsLeft states)%nat.
Proof.
  unfold stateById. induction states as [|a states IH]; simpl; [done|].
  destruct (decide (st_org a = i)); simpl.
  - intros [= ->] Hpos. lia.
  - intros Hg Hpos. specialize (IH Hg Hpos). lia.
Qed.

Lemma stepsLeft_advance_all_le commits states :
  (stepsLeft (advance_all commits states) <= stepsLeft states)%nat.
Proof.
  revert states. induction commits as [|c commits IH]; intros states;
    [done|].
  unfold advance_all, update_all in *. simpl.
  etrans; [apply IH|]. apply stepsLeft_advance_le.
Qed.

Lemma microstep_progress states s c commits states' s' :
  Inv s -> NoDup (map st_org states) ->
  microstep states s = (c :: commits, states', s') ->
  (stepsLeft states' < stepsLeft states)%nat.
Proof.
  intros HI Hnd Hm.
  destruct (microstep_Inv _ _ _ _ _ HI Hnd Hm) as [_ ->].
  destruct (microstep_commits gridSize params _ _ _ _ _ HI Hnd Hm)
    as [Hok _].
  destruct (cs_each _ _ _ _ _ Hok c ltac:(left)) as [_ _ (st & Hst & Hmv & _)].
  unfold advance_all, update_all. simpl.
  eapply Nat.le_lt_trans; [apply stepsLeft_advance_all_le|].
  apply (stepsLeft_advance_lt _ _ st Hst).
  unfold is_moving in Hmv. apply andb_true_iff in Hmv as [Hpos _].
  by apply Z.ltb_lt in Hpos.
Qed.

(** The loop ends by itself within [moveFuel] passes: more fuel changes
    nothing. *)
Lemma moveLoop_fuel_gen fuel1 fuel2 states s :
  Inv s -> NoDup (map st_org states) ->
  (stepsLeft states < fuel1)%nat -> (stepsLeft states < fuel2)%nat ->
  moveLoop fuel1 states s = moveLoop fuel2 states s.
Proof.
  revert fuel2 states s.
  induction fuel1 as [|fuel1 IH]; intros fuel2 states s HI Hnd H1 H2; [lia|].
  destruct fuel2 as [|fuel2]; [lia|]. simpl.
  destruct (filter _ states); [done|].
  destruct (microstep states s) as [[commits states1] s1] eqn:Hm.
  destruct commits as [|c commits]; [done|].
  pose proof (microstep_progress _ _ _ _ _ _ HI Hnd Hm) as Hlt.
  destruct (microstep_Inv _ _ _ _ _ HI Hnd Hm) as [HI1 Hst].
  apply IH; [done| |lia|lia].
  rewrite Hst. by rewrite st_org_advance_all.
Qed.

Theorem moveLoop_fuel fuel states s :
  Inv s -> NoDup (map st_org states) ->
  (moveFuel states <= fuel)%nat ->
  moveLoop fuel states s = moveLoop (moveFuel states) states s.
Proof.
  intros HI Hnd Hf. change (moveFuel states) with (S (stepsLeft states)) in *.
  apply moveLoop_fuel_gen; try done; lia.
Qed.

Lemma Inv_moveOrganisms s :
  Inv s -> Inv (moveOrganisms gridSize params pow s).
Proof.
  intros HI. unfold moveOrganisms. cbv zeta.
  set (s0 := set_reservations [] s).
  set (states := map (initMoveState params pow) (organisms s0)).
  assert (Inv s0) as HI0 by (by apply (Inv_view gridSize params s)).
  assert (NoDup (map st_org states)) as Hnd.
  { unfold states. rewrite map_map. simpl. apply (inv_ids _ _ _ _ _ HI). }
  pose proof (moveLoop_Inv (moveFuel states) states s0 HI0 Hnd) as HI1.
  destruct (moveLoop _ states s0) as [states1 s1]. simpl in HI1.
  match goal with
  | |- Inv (add_starving _ (add_moving _ ?s2)) =>
      apply (Inv_view gridSize params s2); [done|]
  end.
  apply fold_left_preserves; [|done].
  intros a st Ha. unfold recoverStamina.
  destruct (_ || _); [|done].
  apply (Inv_view gridSize params a); [|done]. by apply view_update_org.
Qed.

Theorem Inv_step s : Inv s -> Inv (step gridSize params rand pow s).
Proof.
  intros HI. unfold step. cbv zeta.
  apply Inv_verifyAndSync; [done|].
  apply Inv_updateFoodDecay; [done|].
  apply Inv_reproduce; [done|].
  apply Inv_metabolism; [done|].
  apply Inv_absorbFood; [done|].
  match goal with
  | |- Inv (if _ then spawnFood _ _ _ ?a else _) =>
      assert (Inv a) as HI4;
      [|destruct (_ =? 0); [by apply Inv_spawnFood|done]]
  end.
  apply Inv_combat; [done|].
  apply Inv_growAll; [done|].
  apply Inv_moveOrganisms.
  apply (Inv_view gridSize params
           (set_debugCounters
              {| moving := 0; growing := 0; attacking := 0; starving := 0 |}
              (set_tick (tick s + 1) s))).
  - apply view_planDirections.
  - by apply (Inv_view gridSize params s).
Qed.

Theorem Reachable_Inv s :
  Reachable gridSize params rand pow s -> Inv s.
Proof.
  induction 1 as [|s _ IH|s x y g e _ IH|s x y b _ IH|s n _ IH].
  - by apply Inv_newSimulation.
  - by apply Inv_step.
  - by apply Inv_createOrganism.
  - by apply Inv_setObstacle.
  - by apply (Inv_view gridSize params s).
Qed.
End StepInv.

(** ** Properties of the organisms that a tick keeps *)

Lemma view_nextID s s' : view s' = view s -> nextID s' = nextID s.
Proof. by intros [= _ _ ? _ _]. Qed.

Section NextID.
Variable gridSize : Z.
Variable params : SimulationParams.

Lemma toFood_fold_nextID keys s :
  nextID (fold_left (toFood gridSize params) keys s) = nextID s.
Proof. by apply fold_left_preserves. Qed.

Lemma removeOrganism_nextID i s :
  nextID (removeOrganism gridSize params i s) = nextID s.
Proof.
  unfold removeOrganism. destruct (get_org i s); simpl; [|done].
  by rewrite toFood_fold_nextID.
Qed.

Lemma detach_fold_nextID i reachable keys s :
  nextID (fold_left (detach gridSize params i reachable) keys s) = nextID s.
Proof.
  apply (fold_left_preserves (fun s' => nextID s' = nextID s)); [|done].
  intros a k Ha. unfold detach. by destruct (decide (k ∈ reachable)).
Qed.

Lemma checkConnectivity_nextID i s :
  nextID (checkConnectivity gridSize params i s) = nextID s.
Proof.
  unfold checkConnectivity.
  destruct (get_org i s) as [org|]; [|done].
  destruct (pix_size org =? 0); [by apply removeOrganism_nextID|].
  destruct (negb (pix_has (eyeX org, eyeY org) org));
    [by apply removeOrganism_nextID|].
  cbv zeta.
  destruct (get_org i (fold_left _ (pix_keys org) s)) as [org1|];
    [|by apply detach_fold_nextID].
  destruct (pix_size org1 =? 0); [rewrite removeOrganism_nextID|];
    by apply detach_fold_nextID.
Qed.
End NextID.

Section Kept.
Variable gridSize : Z.
Variable params : SimulationParams.
Variable rand : nat -> Q.
Variable pow : Q -> Q -> Q.
Variable P : Organism -> Prop.
Variable lo : Z.
Hypothesis P_stable : stable P.

(** Every registered organism has the property, and the ids not yet
    given are at least [lo]. *)
Definition kept (s : Simulation) : Prop := lo <= nextID s /\ all_orgs P s.

Lemma kept_orgs s s' :
  nextID s' = nextID s -> organisms s' = organisms s -> kept s -> kept s'.
Proof. unfold kept, all_orgs. by intros -> ->. Qed.

Lemma kept_update i f s :
  (forall o, P o -> P (f o)) -> kept s -> kept (update_org i f s).
Proof. intros Hf [H1 H2]. split; [done|]. by apply all_orgs_update. Qed.

Lemma kept_rng s s' : rng_only s s' -> kept s -> kept s'.
Proof. by intros [n ->]. Qed.

Lemma kept_removeOrganism i s :
  kept s -> kept (removeOrganism gridSize params i s).
Proof.
  intros [H1 H2]. split; [by rewrite removeOrganism_nextID|].
  by apply all_orgs_removeOrganism.
Qed.

Lemma kept_checkConnectivity i s :
  kept s -> kept (checkConnectivity gridSize params i s).
Proof.
  intros [H1 H2]. split; [by rewrite checkConnectivity_nextID|].
  by apply all_orgs_checkConnectivity.
Qed.

Lemma kept_drop i k s :
  kept s ->
  kept (update_org i (fun o => set_pixels (kdelete fst k (pixels o)) o) s).
Proof. apply kept_update. intros o. apply (stable_pixels P P_stable). Qed.

(** *** planDirections *)

Lemma kept_faceTarget org t s : kept s -> kept (faceTarget rand org t s).2.
Proof.
  unfold faceTarget. cbv zeta.
  destruct (_ <? _); [done|]. destruct (_ <? _); [done|]. simpl.
  by destruct (Qltb _ _).
Qed.

Lemma kept_wander org s : kept s -> kept (wander rand org s).2.
Proof.
  intros Hk. unfold wander. destruct (Qltb _ (hunger org)); simpl.
  - destruct (_ || _); [|done]. unfold randomDirection. simpl.
    apply (kept_update (id org) (set_stuckCounter 0) (set_rngCalls _ s));
      [|done].
    intros o. apply (stable_stuckCounter P P_stable).
  - by destruct (Qltb _ _).
Qed.

Lemma kept_chooseDirection org s :
  kept s -> kept (chooseDirection gridSize params rand org s).2.
Proof.
  intros Hk. unfold chooseDirection. cbv zeta.
  destruct (if Qltb _ _ then _ else _); [done|].
  destruct (head (sortBy _ (detectTargets _ _ _ _)));
    [by apply kept_faceTarget|].
  destruct (head _); [|by apply kept_wander]. simpl.
  destruct (Qltb _ _); [done|]. by apply kept_wander.
Qed.

Lemma kept_planDirections s :
  kept s -> kept (planDirections gridSize params rand s).
Proof.
  unfold planDirections. apply for_each_org_preserves.
  intros o s' Hs' _. pose proof (kept_chooseDirection o s' Hs') as Hk.
  destruct (chooseDirection _ _ _ o s') as [d s1]. simpl in Hk.
  apply kept_update; [|done]. intros o1 Ho1.
  apply (stable_movedThisTick P P_stable), (stable_direction P P_stable), Ho1.
Qed.

(** *** combat, absorbFood and metabolism *)

Lemma kept_payFee fee i s : kept s -> kept (payFee fee i s).
Proof.
  intros Hk. unfold payFee. destruct (Qltb 0 fee); [|done].
  apply kept_update; [|done]. intros o. apply (stable_energy P P_stable).
Qed.

Lemma kept_creditActor i s : kept s -> kept (creditActor params i s).
Proof.
  intros Hk. unfold creditActor. cbv zeta.
  match goal with
  | |- kept (set_envEnergy _ ?s1) => apply (kept_orgs s1); [done|done|]
  end.
  apply kept_update; [|done]. intros o. apply (stable_energy P P_stable).
Qed.

Lemma kept_attack org tx ty tid s :
  kept s -> kept (attack gridSize params org tx ty tid s).
Proof.
  intros Hk. unfold attack. cbv zeta.
  destruct (cannotAfford _ org s); [done|].
  set (s2 := strike _ (payFee _ _ s)).
  assert (kept s2) as Hk2.
  { apply (kept_orgs (payFee (attackEnergyCost params) (id org) s));
      [done|done|]. by apply kept_payFee. }
  destruct (0 <? hpAt s2 _); [done|].
  set (s3 := creditActor params (id org) s2).
  assert (kept s3) as Hk3 by (by apply kept_creditActor).
  match goal with
  | |- kept (bump_attacking ?s5) => apply (kept_orgs s5); [done|done|]
  end.
  set (s4 := write_grid _ 0 s3).
  assert (kept s4) as Hk4 by (by apply (kept_orgs s3)).
  destruct (get_org tid s4); [|done].
  by apply kept_checkConnectivity, kept_drop.
Qed.

Lemma kept_combat s : kept s -> kept (combat gridSize params rand s).
Proof.
  unfold combat. apply for_each_org_preserves.
  intros o s' Hs' _. unfold combatOne.
  pose proof (scanNeighbor_fold gridSize rand o
                (flat_map (fun k => neighbors8 gridSize params k.1 k.2)
                   (pix_keys o)) [] s') as [Hr _].
  destruct (fold_left _ _ ([], s')) as [targets s1]. simpl in Hr.
  assert (kept s1) as Hk1 by (by apply (kept_rng s')).
  destruct targets as [|t0 targets]; [done|].
  simpl.
  match goal with
  | |- kept (match ?e with _ => _ end) => destruct e as [[[tx ty] tid]|]
  end; [|done].
  by apply kept_attack.
Qed.

Lemma kept_absorbFood s : kept s -> kept (absorbFood gridSize params s).
Proof.
  unfold absorbFood. apply for_each_org_preserves.
  intros o s' Hs' _. unfold absorbOne.
  destruct (firstSome _ _) as [n|]; [|done].
  unfold absorbAt. cbv zeta.
  set (s2 := strike _ (payFee _ _ s')).
  assert (kept s2) as Hk2.
  { apply (kept_orgs (payFee (absorbEnergyCost params) (id o) s'));
      [done|done|]. by apply kept_payFee. }
  destruct (hpAt s2 _ =? 0); [|done].
  match goal with
  | |- kept (set_foodPixels _ (write_grid _ _ ?s3)) =>
      apply (kept_orgs s3); [done|done|]
  end.
  by apply kept_creditActor.
Qed.

Lemma kept_metabolism s : kept s -> kept (metabolism gridSize params s).
Proof.
  unfold metabolism. apply for_each_org_preserves.
  intros o s' Hs' _. unfold metabolismOne. cbv zeta.
  set (s1 := update_org _ _ s').
  assert (kept s1) as Hk1.
  { apply kept_update; [|done]. intros o1 Ho1.
    apply (stable_energy P P_stable), (stable_age P P_stable), Ho1. }
  destruct (Qleb _ 0); [|done]. by apply kept_removeOrganism.
Qed.

(** *** spawnFood, updateFoodDecay and verifyAndSync *)

Lemma kept_spawnFood s : kept s -> kept (spawnFood gridSize params rand s).
Proof.
  unfold spawnFood. generalize (Z.to_nat (Qfloor (envEnergy s * foodSpawnRate params / c2 params))).
  intros n. revert s. induction n as [|n IH]; intros s Hk; simpl; [done|].
  destruct (Qltb _ _); [|done].
  destruct (decide _); apply IH; by apply (kept_orgs s).
Qed.

Lemma kept_updateFoodDecay s :
  kept s -> kept (updateFoodDecay gridSize params s).
Proof.
  intros Hk. unfold updateFoodDecay.
  destruct (fold_left ageFood _ _) as [food toDelete].
  apply fold_left_preserves; [|by apply (kept_orgs s)].
  intros a k Ha. by apply (kept_orgs a).
Qed.

Lemma kept_verifyAndSync s :
  kept s -> kept (verifyAndSync gridSize params s).
Proof.
  intros [H1 H2]. unfold verifyAndSync. apply fold_left_preserves.
  - intros a c Ha. unfold syncCell. cbv zeta.
    destruct (arr_get _ _) as [owner|]; [|done].
    destruct (0 <? owner); [|done].
    destruct (get_org owner a); [|by apply (kept_orgs a)].
    apply kept_update; [|done]. intros o1. apply (stable_pixels P P_stable).
  - split; [done|]. unfold all_orgs. simpl. apply Forall_fmap.
    eapply Forall_impl; [exact H2|]. intros o. apply (stable_pixels P P_stable).
Qed.
(** *** growth *)

(** What growth must keep: one more stage, below the capacity. *)
Definition grows : Prop :=
  forall o, P o -> growthStage o < totalCells (genome o) - 1 ->
            P (set_growthStage (growthStage o + 1) o).

Lemma kept_growOrganism org s :
  grows -> Inv gridSize params s -> get_org (id org) s = Some org ->
  kept s -> kept (growOrganism gridSize params org s).2.
Proof.
  intros Hgrow HI Hg Hk. unfold growOrganism.
  destruct (_ <=? _) eqn:Hguard; [done|]. apply Z.leb_gt in Hguard. cbv zeta.
  destruct (Qltb _ _); [done|].
  destruct (firstSome _ _) as [[bx by']|]; [|done]. simpl.
  destruct Hk as [H1 H2]. split; [done|].
  apply Forall_kupdate; [|done]. intros e He Hid He'.
  assert (e = org) as ->.
  { eapply (same_id_same_org gridSize params); [exact HI|done| |done].
    by eapply get_org_in. }
  apply (stable_energy P P_stable).
  apply (Hgrow (set_pixels _ org)); [|done].
  by apply (stable_pixels P P_stable).
Qed.

Lemma kept_growAll s :
  grows -> 0 < gridSize -> Inv gridSize params s -> kept s ->
  kept (growAll gridSize params s).
Proof.
  intros Hgrow Hpos HI Hk. unfold growAll.
  apply (for_each_org_preserves
           (fun s' => Inv gridSize params s' /\ kept s')); [|done].
  intros o s' [HI' Hk'] Hg. destruct (movedThisTick o); [done|].
  split; [by apply Inv_growOrganism | by apply kept_growOrganism].
Qed.

(** *** reproduce *)

(** What a birth must give: the child of a parent that has the property
    has it, whatever the mutation draws. *)
Definition breeds : Prop :=
  forall parent child s0,
    P parent -> lo <= id child -> growthStage child = 0 ->
    stamina child = staminaMax params ->
    genome child = (mutateGenome params rand (genome parent) s0).1 ->
    P child.

Lemma kept_bearChild parent child s :
  kept s -> kept (bearChild params rand parent child s).
Proof.
  intros Hk. unfold bearChild. cbv zeta. simpl.
  set (s1 := update_org (id parent) _ s).
  assert (kept s1) as H1.
  { apply kept_update; [|done]. intros o. apply (stable_energy P P_stable). }
  destruct (Qltb _ _); simpl;
    (apply kept_update;
     [intros o Ho; apply (stable_hunger P P_stable),
                     (stable_moveSpeed P P_stable), Ho
     |by apply (kept_orgs s1)]).
Qed.

Lemma kept_tryOffsets org dirs s :
  breeds -> P org -> kept s ->
  kept (tryOffsets gridSize params rand org dirs s).
Proof.
  intros Hb Horg. revert s.
  induction dirs as [|[dx dy] dirs IH]; intros s Hk; simpl; [done|].
  destruct (applyBoundary _ _ _ _) as [[x y]|]; [|by apply IH].
  pose proof (mutateGenome_rng params rand (genome org) s) as R.
  destruct (mutateGenome params rand (genome org) s) as [g s1] eqn:Hmut.
  simpl in R. assert (kept s1) as Hk1 by (by apply (kept_rng s)).
  destruct (createOrganism gridSize params rand x y (Some g) _ s1)
    as [[child|] s2] eqn:Hc.
  - apply kept_bearChild.
    apply createOrganism_Some in Hc
        as (ex & ey & _ & _ & Hid & _ & _ & _ & Hgen & _ & Hgs & Hst
            & _ & _ & Horgs & Hnext & _).
    destruct Hk1 as [Hlo Hall]. split; [lia|].
    unfold all_orgs. rewrite Horgs. apply Forall_kset; [|done].
    apply (Hb org child s); try done; [lia|].
    by rewrite Hgen, Hmut.
  - apply createOrganism_None in Hc as [-> _]. by apply IH.
Qed.

Lemma kept_reproduce s :
  breeds -> kept s -> kept (reproduce gridSize params rand s).
Proof.
  intros Hb Hk. unfold reproduce. cbv zeta.
  apply fold_left_preserves; [|done].
  intros s' i Hk'. unfold reproduceOne.
  destruct (get_org i s') as [org|] eqn:Hg; [|done].
  assert (P org) as Horg.
  { destruct Hk' as [_ Hall]. by eapply all_orgs_get. }
  pose proof (random_rng rand s') as R.
  destruct (random rand s') as [r s1]. simpl in R.
  assert (kept s1) as Hk1 by (by apply (kept_rng s')).
  destruct (Qltb _ r); [done|]. cbv zeta.
  match goal with
  | |- context [shuffle rand ?n ?l s1] =>
      pose proof (shuffle_rng rand n l s1) as R2;
      destruct (shuffle rand n l s1) as [sh s2]
  end.
  simpl in R2. apply kept_tryOffsets; [done|done|].
  by apply (kept_rng s1).
Qed.

(** *** moveOrganisms *)

(** What a move must keep: the assignments of a commit, and the recovery
    of stamina. *)
Definition moves : Prop :=
  (forall dx dy cost np o,
      P o -> P (relocate gridSize params dx dy cost np o))
  /\ (forall o,
         P o ->
         P (set_stamina
              (Qmin (staminaMax params)
                 (stamina o + staminaRecoveryPerTick params)) o)).

Lemma Forall_update_all {C} (kc : C -> Z) (f : C -> Organism -> Organism)
    cs l :
  (forall c e, P e -> P (f c e)) ->
  Forall P l -> Forall P (update_all id kc f cs l).
Proof.
  intros Hf. revert l. induction cs as [|c cs IH]; intros l Hl; [done|].
  unfold update_all in *. simpl. apply IH.
  apply Forall_kupdate; [|done]. intros e _ _. apply Hf.
Qed.

Lemma kept_microstep states s commits states' s' :
  moves -> 0 < gridSize -> Inv gridSize params s ->
  NoDup (map st_org states) -> kept s ->
  microstep gridSize params states s = (commits, states', s') -> kept s'.
Proof.
  intros [Hmv _] Hpos HI Hnd [Hlo Hall] Hm.
  destruct (microstep_commits gridSize params _ _ _ _ _ HI Hnd Hm)
    as [Hok Heq].
  assert (Inv gridSize params (reserved states s)) as HI1.
  { by apply (Inv_view gridSize params s). }
  pose proof (pass_organisms gridSize params (reserved states s) states commits)
    as Ho.
  pose proof (pass_env gridSize params (reserved states s) states commits)
    as He.
  rewrite <- Heq in Ho, He. simpl in Ho, He.
  split.
  - assert (nextID s' = nextID s) as -> by (by injection He). done.
  - unfold all_orgs. rewrite Ho. apply Forall_update_all; [|done].
    intros c e He'. unfold relocOf.
    destruct (headOf _ _) as [[[dx dy] cost]|]; [|done]. by apply Hmv.
Qed.

Lemma kept_moveLoop fuel states s :
  moves -> 0 < gridSize -> Inv gridSize params s ->
  NoDup (map st_org states) -> kept s ->
  kept (moveLoop gridSize params fuel states s).2.
Proof.
  intros Hmv Hpos. revert states s.
  induction fuel as [|fuel IH]; intros states s HI Hnd Hk; simpl; [done|].
  destruct (filter _ states); [done|].
  destruct (microstep gridSize params states s) as [[commits states1] s1]
    eqn:Hm.
  pose proof (kept_microstep _ _ _ _ _ Hmv Hpos HI Hnd Hk Hm) as Hk1.
  destruct (microstep_Inv gridSize params Hpos _ _ _ _ _ HI Hnd Hm)
    as [HI1 ->].
  destruct commits as [|c commits]; [by apply (kept_orgs s1)|].
  apply IH; [done| |done]. by rewrite st_org_advance_all.
Qed.

Lemma kept_moveOrganisms s :
  moves -> 0 < gridSize -> Inv gridSize params s -> kept s ->
  kept (moveOrganisms gridSize params pow s).
Proof.
  intros Hmv Hpos HI Hk. unfold moveOrganisms. cbv zeta.
  set (s0 := set_reservations [] s).
  set (states := map (initMoveState params pow) (organisms s0)).
  assert (Inv gridSize params s0) as HI0
      by (by apply (Inv_view gridSize params s)).
  assert (NoDup (map st_org states)) as Hnd.
  { unfold states. rewrite map_map. simpl. apply (inv_ids _ _ _ _ _ HI). }
  pose proof (kept_moveLoop (moveFuel states) states s0 Hmv Hpos HI0 Hnd
                ltac:(by apply (kept_orgs s))) as Hk1.
  destruct (moveLoop _ _ _ states s0) as [states1 s1]. simpl in Hk1.
  match goal with
  | |- kept (add_starving _ (add_moving _ ?s2)) =>
      apply (kept_orgs s2); [done|done|]
  end.
  apply fold_left_preserves; [|done].
  intros a st Ha. unfold recoverStamina.
  destruct (_ || _); [|done].
  apply kept_update; [|done]. apply Hmv.
Qed.

(** *** step *)

(** The phases of [step] that follow [moveOrganisms]. *)
Definition afterMove (s2 : Simulation) : Simulation :=
  let s3 := growAll gridSize params s2 in
  let s4 := combat gridSize params rand s3 in
  let s5 :=
    if Z.rem (tick s4) 5 =? 0 then spawnFood gridSize params rand s4 else s4 in
  let s6 := absorbFood gridSize params s5 in
  let s7 := metabolism gridSize params s6 in
  let s8 := reproduce gridSize params rand s7 in
  let s9 := updateFoodDecay gridSize params s8 in
  verifyAndSync gridSize params s9.

(** The state in which [planDirections] starts. *)
Definition beginTick (s : Simulation) : Simulation :=
  set_debugCounters
    {| moving := 0; growing := 0; attacking := 0; starving := 0 |}
    (set_tick (tick s + 1) s).

Lemma step_unfold s :
  step gridSize params rand pow s
  = afterMove
      (moveOrganisms gridSize params pow
         (planDirections gridSize params rand (beginTick s))).
Proof. reflexivity. Qed.

Lemma kept_afterMove s2 :
  grows -> breeds -> 0 < gridSize -> Inv gridSize params s2 -> kept s2 ->
  kept (afterMove s2).
Proof.
  intros Hg Hb Hpos HI Hk. unfold afterMove. cbv zeta.
  apply kept_verifyAndSync, kept_updateFoodDecay, kept_reproduce; [done|].
  apply kept_metabolism, kept_absorbFood.
  match goal with
  | |- kept (if _ then spawnFood _ _ _ ?a else _) =>
      assert (kept a) as Hk4;
      [|destruct (_ =? 0); [by apply kept_spawnFood|done]]
  end.
  by apply kept_combat, kept_growAll.
Qed.

Theorem kept_step s :
  grows -> breeds -> moves -> 0 < gridSize ->
  Inv gridSize params s -> kept s -> kept (step gridSize params rand pow s).
Proof.
  intros Hg Hb Hm Hpos HI Hk. rewrite step_unfold.
  assert (Inv gridSize params
            (planDirections gridSize params rand (beginTick s))) as HI1.
  { apply (Inv_view gridSize params (beginTick s));
      [apply view_planDirections|]. by apply (Inv_view gridSize params s). }
  assert (kept (planDirections gridSize params rand (beginTick s))) as Hk1.
  { apply kept_planDirections. by apply (kept_orgs s). }
  apply kept_afterMove; [done|done|done| |].
  - by apply Inv_moveOrganisms.
  - by apply kept_moveOrganisms.
Qed.
End Kept.

(** * Further properties of the engine *)

(** ** A world to run the examples in *)

Lemma halfRandom_unit n : (0 <= halfRandom n)%Q /\ (halfRandom n < 1)%Q.
Proof. done. Qed.

(** A closed arena of 10 x 10 cells with one organism of one cell at
    [(5, 5)], as the constructor and [createOrganism] build it. *)
Definition demoWorld : Simulation :=
  (createOrganism 10 (arenaParams closed) halfRandom 5 5 (Some singleCell) None
     (newSimulation 10 (arenaParams closed) halfRandom)).2.

Lemma demoWorld_reachable :
  Reachable 10 (arenaParams closed) halfRandom powLinear demoWorld.
Proof. apply R_create, R_new. Qed.

Lemma demoWorld_Inv : Inv 10 (arenaParams closed) demoWorld.
Proof.
  apply (Reachable_Inv 10 (arenaParams closed) halfRandom powLinear);
    [lia | apply halfRandom_unit | apply demoWorld_reachable].
Qed.

(** ** The grid and the registry in the reachable states *)

(** X1.  In every state of a simulation (the constructor, then any sequence
    of calls to [step], [createOrganism] and [setObstacle]) the grid and
    the registry agree: the ids of the registry are distinct, positive and
    below [nextID]; the cells of the grid that carry the id of an organism
    are exactly the cells of its pixel set; no cell belongs to two
    organisms; the food registry has one entry per cell it names, and the
    grid marks each of them as food. *)
Theorem reachable_grid_matches_registry
    (gridSize : Z) (params : SimulationParams) (rand : nat -> Q)
    (pow : Q -> Q -> Q) (s : Simulation) :
  0 < gridSize ->
  (forall n, (0 <= rand n)%Q /\ (rand n < 1)%Q) ->
  Reachable gridSize params rand pow s ->
  NoDup (map id (organisms s))
  /\ (forall o, o ∈ organisms s ->
        0 < id o < nextID s
        /\ NoDup (pix_keys o)
        /\ forall c, c ∈ pix_keys o
                     <-> inb gridSize c
                         /\ gridAt gridSize s c.1 c.2 = Some (id o))
  /\ (forall o o' c, o ∈ organisms s -> o' ∈ organisms s ->
        c ∈ pix_keys o -> c ∈ pix_keys o' -> o = o')
  /\ NoDup (map fst (foodPixels s))
  /\ (forall k, k ∈ map fst (foodPixels s) ->
        inb gridSize k /\ gridAt gridSize s k.1 k.2 = Some (-1)).
Proof.
  intros Hpos Hrand Hr.
  pose proof (Reachable_Inv gridSize params rand pow Hpos Hrand s Hr) as HI.
  split; [apply (inv_ids _ _ _ _ _ HI)|].
  split; [|split; [|split]].
  - intros o Ho. destruct (inv_orgs _ _ _ _ _ HI o Ho) as [H1 H2 H3].
    split; [done|]. split; [done|]. intros c. split; [apply H3|].
    intros [Hc Hg]. apply (inv_owner _ _ _ _ _ HI c o); [done|tauto|done|done].
  - intros o o' c Ho Ho' Hc Hc'.
    eapply (cells_disjoint gridSize params); [exact HI|done..].
  - apply (inv_food_nodup _ _ _ _ _ HI).
  - apply (inv_food _ _ _ _ _ HI).
Qed.

Lemma reachable_grid_matches_registry_witness :
  NoDup (map id (organisms demoWorld))
  /\ map id (organisms demoWorld) = [1]
  /\ gridAt 10 demoWorld 5 5 = Some 1.
Proof.
  destruct (reachable_grid_matches_registry 10 (arenaParams closed) halfRandom
              powLinear demoWorld ltac:(lia) halfRandom_unit
              demoWorld_reachable) as (Hnd & _).
  split; [exact Hnd|]. split; reflexivity.
Defined.



(** ** The movement resolver *)

(** X3.  The [while (anyMoved)] loop of [moveOrganisms] ends by itself:
    every pass that commits a move takes one step off the budget of an
    organism, so after at most one pass more than the steps of all budgets
    no pass commits, and the passes the model allows beyond [moveFuel]
    are never used. *)
Theorem movement_loop_terminates
    (gridSize : Z) (params : SimulationParams) (s : Simulation)
    (states : list MoveState) (fuel : nat) :
  0 < gridSize ->
  Inv gridSize params s ->
  NoDup (map st_org states) ->
  (moveFuel states <= fuel)%nat ->
  moveLoop gridSize params fuel states s
  = moveLoop gridSize params (moveFuel states) states s.
Proof. intros Hpos HI Hnd Hf. by apply moveLoop_fuel. Qed.

(** The records of the resolver at the start of [moveOrganisms]. *)
Definition demoStates : list MoveState :=
  map (initMoveState (arenaParams closed) powLinear) (organisms demoWorld).

Lemma movement_loop_terminates_witness :
  moveFuel demoStates = 3%nat
  /\ moveLoop 10 (arenaParams closed) 100 demoStates demoWorld
     = moveLoop 10 (arenaParams closed) 3 demoStates demoWorld.
Proof.
  split; [reflexivity|].
  apply (movement_loop_terminates 10 (arenaParams closed) demoWorld demoStates
           100 ltac:(lia) demoWorld_Inv).
  - vm_compute. repeat constructor. set_solver.
  - vm_compute. lia.
Defined.



(** ** Genomes *)

Lemma count_ones_pos (p : list Z) j : p !! j = Some 1 -> 1 <= count_ones p.
Proof.
  intros Hj. unfold count_ones.
  assert (1 ∈ filter (fun c => c = 1) p) as Hin.
  { apply list_elem_of_filter. split; [done|]. by eapply list_elem_of_lookup_2. }
  destruct (filter _ p); [by apply elem_of_nil in Hin|]. simpl. lia.
Qed.

Section MutateFacts.
Variable params : SimulationParams.
Variable rand : nat -> Q.

Lemma mutateCells_spec center i p s :
  let res := (mutateCells params rand center i p s).1 in
  length res = length p
  /\ forall j c, p !! j = Some c ->
       ((i + j)%nat = center -> res !! j = Some c)
       /\ (res !! j = Some c \/ res !! j = Some (1 - c)).
Proof.
  revert i s. induction p as [|c0 p IH]; intros i s; cbv zeta; simpl.
  - split; [done|]. intros j c Hj. done.
  - destruct (decide (i = center)) as [Hi|Hi].
    + specialize (IH (S i) s). cbv zeta in IH.
      destruct (mutateCells params rand center (S i) p s) as [rest s1].
      simpl in *. destruct IH as [Hl Hc]. split; [by rewrite Hl|].
      intros [|j] c Hj; simpl in *.
      * injection Hj as <-. split; [done|by left].
      * destruct (Hc j c Hj) as [H1 H2]. split; [|done].
        intros Hij. apply H1. lia.
    + specialize (IH (S i) (set_rngCalls (S (rngCalls s)) s)). cbv zeta in IH.
      destruct (mutateCells params rand center (S i) p _) as [rest s2].
      simpl in *. destruct IH as [Hl Hc]. split; [by rewrite Hl|].
      intros [|j] c Hj; simpl in *.
      * injection Hj as <-. split; [lia|].
        destruct (Qltb _ _); [by right|by left].
      * destruct (Hc j c Hj) as [H1 H2]. split; [|done].
        intros Hij. apply H1. lia.
Qed.
End MutateFacts.

Lemma mutateGenome_keeps_centre_facts
    (params : SimulationParams) (rand : nat -> Q) (gen : Genome)
    (s : Simulation) :
  let gen' := (mutateGenome params rand gen s).1 in
  let center := (length (pattern gen) / 2)%nat in
  size gen' = size gen
  /\ length (pattern gen') = length (pattern gen)
  /\ pattern gen' !! center = pattern gen !! center
  /\ (forall j c, pattern gen !! j = Some c ->
        pattern gen' !! j = Some c \/ pattern gen' !! j = Some (1 - c))
  /\ totalCells gen' = count_ones (pattern gen')
  /\ rng_only s (mutateGenome params rand gen s).2.
Proof.
  cbv zeta. pose proof (mutateGenome_rng params rand gen s) as Hr.
  unfold mutateGenome in *.
  pose proof (mutateCells_spec params rand (length (pattern gen) / 2) 0
                (pattern gen) s) as [Hl Hc].
  destruct (mutateCells params rand _ 0 (pattern gen) s) as [newPattern s1].
  cbn [fst snd pattern size totalCells] in *.
  split; [done|]. split; [done|]. split; [|split; [|done]].
  - destruct (pattern gen !! (length (pattern gen) / 2)%nat) as [c|] eqn:Hj.
    + by apply (Hc _ c Hj).
    + apply lookup_ge_None. rewrite Hl. by apply lookup_ge_None.
  - intros j c Hj. by apply (Hc j c Hj).
Qed.

(** X5.  [mutateGenome] keeps the size of the genome and the length of its
    pattern, never touches the centre cell, leaves every other cell as it
    was or flips it ([1 - c]), and recounts [totalCells] as the number of
    ones of the new pattern; of the simulation it only draws random
    numbers. *)
Theorem mutateGenome_keeps_centre
    (params : SimulationParams) (rand : nat -> Q) (gen : Genome)
    (s : Simulation) :
  let gen' := (mutateGenome params rand gen s).1 in
  let center := (length (pattern gen) / 2)%nat in
  size gen' = size gen
  /\ length (pattern gen') = length (pattern gen)
  /\ pattern gen' !! center = pattern gen !! center
  /\ (forall j c, pattern gen !! j = Some c ->
        pattern gen' !! j = Some c \/ pattern gen' !! j = Some (1 - c))
  /\ totalCells gen' = count_ones (pattern gen')
  /\ rng_only s (mutateGenome params rand gen s).2.
Proof. apply mutateGenome_keeps_centre_facts. Qed.

Section GenerateFacts.
Variable rand : nat -> Q.

(** What the loops of [generateGenome] keep of the pattern: its length, the
    centre cell, and cells that are 0 or 1. *)
Definition pattern_ok (p : list Z) : Prop :=
  length p = 49%nat /\ p !! 24%nat = Some 1
  /\ Forall (fun c => c = 0 \/ c = 1) p.

Lemma pattern_ok_insert p n : pattern_ok p -> pattern_ok (<[n := 1]> p).
Proof.
  intros (Hl & Hc & Hall). split; [by rewrite length_insert|]. split.
  - destruct (decide (n = 24%nat)) as [->|Hne].
    + apply list_lookup_insert_eq. lia.
    + by rewrite list_lookup_insert_ne.
  - apply Forall_insert; [done|by right].
Qed.

Lemma genome_place_ok cellCount ns g s :
  pattern_ok (g_pattern g) ->
  pattern_ok (g_pattern (genome_place rand cellCount ns g s).1).
Proof.
  revert g s. induction ns as [|n ns IH]; intros g s Hg; simpl; [done|].
  destruct (cellCount <=? g_placed g); [done|].
  destruct (Qltb _ _); apply IH; [|done]. by apply pattern_ok_insert.
Qed.

Lemma genome_loop_ok fuel sz cellCount g s :
  pattern_ok (g_pattern g) ->
  pattern_ok (g_pattern (genome_loop rand fuel sz cellCount g s).1).
Proof.
  revert g s. induction fuel as [|fuel IH]; intros g s Hg; simpl; [done|].
  destruct (g_placed g <? cellCount); [|done].
  destruct (g_queue g) as [|current q']; [done|].
  match goal with
  | |- context [genome_place rand cellCount ?ns ?g0 s] =>
      pose proof (genome_place_ok cellCount ns g0 s Hg) as H1;
      destruct (genome_place rand cellCount ns g0 s) as [g1 s1]
  end.
  by apply IH.
Qed.

Lemma generateGenome_ok s :
  let gen := (generateGenome rand s).1 in
  size gen = 7 /\ pattern_ok (pattern gen)
  /\ totalCells gen = count_ones (pattern gen).
Proof.
  cbv zeta. unfold generateGenome. cbv zeta.
  destruct (random rand s) as [r s1].
  match goal with
  | |- context [genome_loop rand ?f ?sz ?cc ?g0 s1] =>
      pose proof (genome_loop_ok f sz cc g0 s1) as H1;
      destruct (genome_loop rand f sz cc g0 s1) as [g s2]
  end.
  cbn [fst snd pattern size totalCells] in *. split; [done|]. split; [|done].
  apply H1. cbn [g_pattern]. split; [done|]. split; [done|].
  apply Forall_insert; [|by right]. apply Forall_replicate. by left.
Qed.
End GenerateFacts.

(** ** Properties of the organisms kept by the calls of the interface *)

Section KeptCalls.
Variable gridSize : Z.
Variable params : SimulationParams.
Variable rand : nat -> Q.
Variable P : Organism -> Prop.
Variable lo : Z.
Hypothesis P_stable : stable P.

Local Abbreviation kept := (kept P lo).

Lemma kept_createOrganism x y g e s :
  (forall child,
      lo <= id child -> growthStage child = 0 ->
      stamina child = staminaMax params ->
      match g with
      | Some g0 => genome child = g0
      | None =>
          genome child
          = (generateGenome rand (set_nextID (nextID s + 1) s)).1
      end -> P child) ->
  kept s -> kept (createOrganism gridSize params rand x y g e s).2.
Proof.
  intros Hchild [Hlo Hall].
  destruct (createOrganism gridSize params rand x y g e s) as [[child|] s']
    eqn:Hc; [|by apply createOrganism_None in Hc as [-> _]].
  apply createOrganism_Some in Hc
      as (ex & ey & _ & _ & Hid & _ & _ & _ & Hgen & _ & Hgs & Hst
          & _ & _ & Horgs & Hnext & _).
  simpl. split; [lia|]. unfold all_orgs. rewrite Horgs.
  apply Forall_kset; [|done]. apply Hchild; [lia|done|done|done].
Qed.

Lemma kept_setObstacle x y b s :
  kept s -> kept (setObstacle gridSize params x y b s).
Proof.
  intros Hk. unfold setObstacle.
  destruct (applyBoundary _ _ x y) as [[gx gy]|]; [|done]. cbv zeta.
  destruct b.
  - destruct (decide _); [done|].
    match goal with
    | |- _ (if _ then ?a else _) =>
        assert (kept a) as Ha;
        [|destruct (decide _); [done|by apply (kept_orgs P lo a)]]
    end.
    match goal with
    | |- _ (write_hp _ _ (write_grid _ _ ?s1)) =>
        apply (kept_orgs P lo s1); [done|done|]
    end.
    destruct (arr_get _ _) as [v|]; [|done].
    destruct (0 <? v).
    + destruct (get_org v s); [|done].
      by apply kept_checkConnectivity, kept_drop.
    + destruct (v =? -1); [|done]. by apply (kept_orgs P lo s).
  - destruct (decide _); [|done]. by apply (kept_orgs P lo s).
Qed.
End KeptCalls.

(** ** Growth stage and stamina *)









(** The stamina of an organism is between 0 and [staminaMax]. *)
Definition stamina_ok (params : SimulationParams) (o : Organism) : Prop :=
  (0 <= stamina o)%Q /\ (stamina o <= staminaMax params)%Q.

Lemma stamina_ok_stable params : stable (stamina_ok params).
Proof. by split. Qed.

Lemma stamina_ok_moves gridSize params :
  (0 <= staminaMax params)%Q ->
  (0 <= staminaRecoveryPerTick params)%Q ->
  (0 <= staminaDrainPerStep params)%Q ->
  moves gridSize params (stamina_ok params).
Proof.
  intros Hmax Hrec Hdrain. split.
  - intros dx dy cost np o [H0 H1]. unfold relocate, stamina_ok.
    assert (forall o1, stamina
                         (set_movedThisTick true
                            (set_stamina
                               (Qmax 0 (stamina o - staminaDrainPerStep params))
                               o1))
                       = Qmax 0 (stamina o - staminaDrainPerStep params)) as Hs
        by done.
    rewrite Hs. split; [apply Q.le_max_l|].
    apply Q.max_lub; [done|]. lra.
  - intros o [H0 H1]. unfold stamina_ok. simpl. split.
    + apply Q.min_glb; [done|]. lra.
    + apply Q.le_min_l.
Qed.

(** X7.  With a maximum, a recovery and a drain of stamina that are not
    negative, the stamina of every organism stays in [[0, staminaMax]]:
    if it is there for every registered organism, it is there again after
    [step], after [setObstacle] and after [createOrganism], which gives the
    new organism the maximum. *)
Theorem stamina_bounded
    (gridSize : Z) (params : SimulationParams) (rand : nat -> Q)
    (pow : Q -> Q -> Q) (s : Simulation) :
  0 < gridSize ->
  (0 <= staminaMax params)%Q ->
  (0 <= staminaRecoveryPerTick params)%Q ->
  (0 <= staminaDrainPerStep params)%Q ->
  Inv gridSize params s ->
  Forall (stamina_ok params) (organisms s) ->
  Forall (stamina_ok params) (organisms (step gridSize params rand pow s))
  /\ (forall x y b,
        Forall (stamina_ok params)
          (organisms (setObstacle gridSize params x y b s)))
  /\ (forall x y g e,
        Forall (stamina_ok params)
          (organisms (createOrganism gridSize params rand x y g e s).2)).
Proof.
  intros Hpos Hmax Hrec Hdrain HI Hall.
  assert (kept (stamina_ok params) (nextID s) s) as Hk by (split; [lia|done]).
  split; [|split].
  - apply (kept_step gridSize params rand pow (stamina_ok params) (nextID s)
             (stamina_ok_stable params) s); try done.
    + by intros o Ho _.
    + intros parent child s0 _ _ _ Hst _. unfold stamina_ok. rewrite Hst.
      split; [done|apply Qle_refl].
    + by apply stamina_ok_moves.
  - intros x y b.
    apply (kept_setObstacle gridSize params (stamina_ok params) (nextID s)
             (stamina_ok_stable params) x y b s Hk).
  - intros x y g e.
    apply (kept_createOrganism gridSize params rand (stamina_ok params)
             (nextID s) x y g e s); [|done].
    intros child _ _ Hst _. unfold stamina_ok. rewrite Hst.
    split; [done|apply Qle_refl].
Qed.

Lemma stamina_bounded_witness :
  Forall (stamina_ok (arenaParams closed)) (organisms demoWorld)
  /\ Forall (stamina_ok (arenaParams closed))
       (organisms (step 10 (arenaParams closed) halfRandom powLinear demoWorld)).
Proof.
  assert (Forall (stamina_ok (arenaParams closed)) (organisms demoWorld)) as H.
  { repeat constructor; vm_compute; congruence. }
  split; [exact H|].
  destruct (stamina_bounded 10 (arenaParams closed) halfRandom powLinear
              demoWorld ltac:(lia)) as [H2 _];
    [unfold Qle; simpl; lia | unfold Qle; simpl; lia | unfold Qle; simpl; lia
    | apply demoWorld_Inv | exact H | exact H2].
Defined.

(** ** Identity of the organisms *)

(** An organism with an id below [n] is one of the organisms of [s0], with
    the genome, the species mask and the view radius it has there. *)
Definition known (s0 : Simulation) (n : Z) (o : Organism) : Prop :=
  id o < n ->
  exists o0, o0 ∈ organisms s0 /\ id o0 = id o /\ genome o0 = genome o
             /\ speciesMask o0 = speciesMask o /\ viewRadius o0 = viewRadius o.

Lemma known_stable s0 n : stable (known s0 n).
Proof. by split. Qed.

Lemma known_moves gridSize params s0 n : moves gridSize params (known s0 n).
Proof.
  split.
  - intros dx dy cost np o Ho. unfold relocate.
    by destruct (applyBoundary _ _ _ _) as [[? ?]|].
  - by intros o Ho.
Qed.

(** X8.  [step] never changes the id, the genome, the species mask or the
    view radius of an organism, and never gives an id a second time: every
    organism registered after the step either has an id that was not yet
    given before it (a newborn), or is registered before the step under the
    same id, with the same genome, species mask and view radius.  The ids
    still to give never decrease. *)
Theorem step_keeps_identity
    (gridSize : Z) (params : SimulationParams) (rand : nat -> Q)
    (pow : Q -> Q -> Q) (s : Simulation) (o' : Organism) :
  0 < gridSize ->
  Inv gridSize params s ->
  o' ∈ organisms (step gridSize params rand pow s) ->
  nextID s <= nextID (step gridSize params rand pow s)
  /\ (nextID s <= id o'
      \/ exists o, o ∈ organisms s /\ id o = id o' /\ genome o = genome o'
                   /\ speciesMask o = speciesMask o'
                   /\ viewRadius o = viewRadius o').
Proof.
  intros Hpos HI Hin.
  assert (kept (known s (nextID s)) (nextID s) s) as Hk.
  { split; [lia|]. apply Forall_forall. intros o Ho _. by exists o. }
  destruct (kept_step gridSize params rand pow (known s (nextID s)) (nextID s)
              (known_stable _ _) s) as [Hlo Hall]; try done.
  - by intros o Ho _.
  - intros parent child s0 _ Hid _ _ _ Hlt. lia.
  - apply known_moves.
  - split; [done|].
    destruct (decide (nextID s <= id o')) as [Hge|Hlt]; [by left|right].
    unfold all_orgs in Hall. rewrite Forall_forall in Hall.
    apply (Hall o' Hin). lia.
Qed.

Lemma step_keeps_identity_witness :
  exists o',
    get_org 1 (step 10 (arenaParams closed) halfRandom powLinear demoWorld)
    = Some o'
    /\ (2 <= id o' \/ exists o, o ∈ organisms demoWorld /\ id o = id o').
Proof.
  destruct (get_org 1 (step 10 (arenaParams closed) halfRandom powLinear
                         demoWorld)) as [o'|] eqn:Hg;
    [|vm_compute in Hg; discriminate].
  exists o'. split; [reflexivity|].
  destruct (step_keeps_identity 10 (arenaParams closed) halfRandom powLinear
              demoWorld o' ltac:(lia) demoWorld_Inv (get_org_in _ _ _ Hg))
    as [_ [H|H]].
  - left. exact H.
  - right. destruct H as (o & Ho & Hid & _). exists o. split; [exact Ho|exact Hid].
Defined.

(** ** The boundary and the neighbourhood *)

(** X9.  [applyBoundary] returns cells of the grid only and leaves a cell of
    the grid as it is.  On a wrapping grid it always returns a cell, the one
    whose coordinates are those given modulo the size (also for negative
    coordinates, where [%] alone would give a negative remainder); on a
    closed grid it returns a cell exactly when the coordinates are on the
    grid. *)
Theorem applyBoundary_cases
    (gridSize : Z) (params : SimulationParams) (x y : Z) :
  0 < gridSize ->
  (forall c, applyBoundary gridSize params x y = Some c -> inb gridSize c)
  /\ (inb gridSize (x, y) -> applyBoundary gridSize params x y = Some (x, y))
  /\ (boundaryMode params = wrap ->
      applyBoundary gridSize params x y
      = Some (x mod gridSize, y mod gridSize))
  /\ (boundaryMode params = closed ->
      (applyBoundary gridSize params x y = None <-> ~ inb gridSize (x, y))).
Proof.
  intros Hpos. split; [|split; [|split]].
  - intros c. by apply applyBoundary_inb.
  - intros Hin. by apply (applyBoundary_id gridSize params Hpos (x, y)).
  - intros Hw. apply applyBoundary_spec; [done|]. by rewrite Hw.
  - intros Hc. split.
    + intros Hn Hin.
      pose proof (applyBoundary_id gridSize params Hpos (x, y) Hin) as Hid.
      simpl in Hid. congruence.
    + intros Hout.
      destruct (applyBoundary gridSize params x y) as [c|] eqn:Hb; [|done].
      apply applyBoundary_spec in Hb; [|done]. rewrite Hc in Hb.
      by destruct Hb as [_ Hin].
Qed.

Lemma applyBoundary_cases_witness :
  applyBoundary 10 (arenaParams wrap) (-1) 12 = Some (9, 2)
  /\ (applyBoundary 10 (arenaParams closed) (-1) 12 = None
      <-> ~ inb 10 (-1, 12)).
Proof.
  destruct (applyBoundary_cases 10 (arenaParams wrap) (-1) 12 ltac:(lia))
    as (_ & _ & Hw & _).
  destruct (applyBoundary_cases 10 (arenaParams closed) (-1) 12 ltac:(lia))
    as (_ & _ & _ & Hc).
  split; [exact (Hw eq_refl) | exact (Hc eq_refl)].
Defined.

Lemma length_omap_le {A B} (f : A -> option B) (l : list A) :
  (length (omap f l) <= length l)%nat.
Proof.
  induction l as [|a l IH]; [done|]. cbn [omap list_omap].
  destruct (f a); cbn [length]; lia.
Qed.

(** X10.  On the grid [idx] gives every cell its own slot of the two arrays,
    and [neighbors8] is symmetric: the neighbours of a cell are cells of the
    grid, at most eight, and a cell of the grid is a neighbour of each of
    its neighbours. *)
Theorem neighbors8_symmetric
    (gridSize : Z) (params : SimulationParams) (c c' : Cell) :
  0 < gridSize ->
  inb gridSize c ->
  (0 <= idx gridSize c.1 c.2 < gridSize * gridSize)
  /\ (inb gridSize c' -> idx gridSize c.1 c.2 = idx gridSize c'.1 c'.2 -> c = c')
  /\ (length (neighbors8 gridSize params c.1 c.2) <= 8)%nat
  /\ (c' ∈ neighbors8 gridSize params c.1 c.2 ->
      inb gridSize c' /\ c ∈ neighbors8 gridSize params c'.1 c'.2).
Proof.
  intros Hpos Hin. split; [by apply idx_range|].
  split; [intros Hin'; by apply idx_inj|]. split.
  - unfold neighbors8. etrans; [apply length_omap_le|]. done.
  - intros Hn. split; [by apply (adj_inb gridSize params Hpos c)|].
    by apply (adj_sym gridSize params Hpos c c').
Qed.

Lemma neighbors8_symmetric_witness :
  (0, 9) ∈ neighbors8 10 (arenaParams wrap) 9 0.
Proof.
  destruct (neighbors8_symmetric 10 (arenaParams wrap) (0, 9) (9, 0)
              ltac:(lia) ltac:(unfold inb; simpl; lia)) as (_ & _ & _ & H).
  apply H. apply list_elem_of_In. vm_compute. tauto.
Defined.

(** ** The genome generator *)

Lemma count_ones_insert (p : list Z) (n : nat) :
  count_ones (<[n := 1]> p) <= count_ones p + 1.
Proof.
  unfold count_ones. revert n. induction p as [|c p IH]; intros n; [done|].
  destruct n as [|n].
  - change (<[0%nat := 1]> (c :: p)) with (1 :: p). rewrite !filter_cons.
    rewrite decide_True by done. destruct (decide (c = 1)); cbn [length]; lia.
  - change (<[S n := 1]> (c :: p)) with (c :: <[n := 1]> p).
    rewrite !filter_cons. specialize (IH n).
    destruct (decide (c = 1)); cbn [length]; lia.
Qed.

Section GenomeShape.
Variable rand : nat -> Q.

(** The cells set so far are counted by [placed], which the loops never
    take beyond the number of cells drawn. *)
Definition placed_ok (cellCount : Z) (g : GenState) : Prop :=
  count_ones (g_pattern g) <= g_placed g /\ g_placed g <= Z.max 1 cellCount.

Lemma genome_place_placed cellCount ns g s :
  placed_ok cellCount g ->
  placed_ok cellCount (genome_place rand cellCount ns g s).1.
Proof.
  revert g s. induction ns as [|n ns IH]; intros g s Hg; simpl; [done|].
  destruct (Z.leb_spec cellCount (g_placed g)) as [Hle|Hlt]; [done|].
  destruct (Qltb _ _); apply IH; [|done].
  destruct Hg as [H1 H2]. split; cbn [g_pattern g_placed].
  - pose proof (count_ones_insert (g_pattern g) (Z.to_nat n)). lia.
  - lia.
Qed.

Lemma genome_loop_placed fuel sz cellCount g s :
  placed_ok cellCount g ->
  placed_ok cellCount (genome_loop rand fuel sz cellCount g s).1.
Proof.
  revert g s. induction fuel as [|fuel IH]; intros g s Hg; simpl; [done|].
  destruct (g_placed g <? cellCount); [|done].
  destruct (g_queue g) as [|current q']; [done|].
  match goal with
  | |- context [genome_place rand cellCount ?ns ?g0 s] =>
      pose proof (genome_place_placed cellCount ns g0 s Hg) as H1;
      destruct (genome_place rand cellCount ns g0 s) as [g1 s1]
  end.
  by apply IH.
Qed.

(** The indices of the pattern of a genome of size 7. *)
Definition cells49 : gset Z := list_to_set (seqZ 0 49).

(** The iterations the [while] loop can still make: one for each index in
    the queue, and one for each index that can still enter it. *)
Definition todo (g : GenState) : nat :=
  (base.size (cells49 ∖ g_visited g) + length (g_queue g))%nat.

Lemma genome_neighbors_fresh current visited n :
  n ∈ genome_neighbors 7 current visited -> n ∈ cells49 /\ n ∉ visited.
Proof.
  unfold genome_neighbors. cbv zeta. rewrite list_elem_of_omap.
  intros (d & _ & Hd).
  destruct (_ && _) eqn:Hr; [|done].
  destruct (decide _) as [|Hv]; [done|]. injection Hd as <-.
  split; [|done]. unfold cells49. rewrite elem_of_list_to_set, elem_of_seqZ.
  apply andb_prop in Hr as [Hr H4]. apply andb_prop in Hr as [Hr H3].
  apply andb_prop in Hr as [H1 H2]. lia.
Qed.

Lemma NoDup_omap_inj {A B} (f : A -> option B) (l : list A) :
  NoDup l ->
  (forall a b c, a ∈ l -> b ∈ l -> f a = Some c -> f b = Some c -> a = b) ->
  NoDup (omap f l).
Proof.
  induction 1 as [|a l Hni Hnd IH]; intros Hinj; [constructor|].
  cbn [omap list_omap]. destruct (f a) as [c|] eqn:Hfa.
  - constructor.
    + rewrite list_elem_of_omap. intros (b & Hb & Hfb).
      assert (a = b) as <-; [|done].
      apply (Hinj a b c); [left|by right|done|done].
    + apply IH. intros x y z Hx Hy. apply Hinj; by right.
  - apply IH. intros x y z Hx Hy. apply Hinj; by right.
Qed.

Lemma genome_neighbors_NoDup current visited :
  NoDup (genome_neighbors 7 current visited).
Proof.
  unfold genome_neighbors. cbv zeta. apply NoDup_omap_inj.
  - unfold around8. apply NoDup_ListNoDup. vm_compute.
    repeat (constructor; [simpl; intuition congruence|]). constructor.
  - intros [a1 a2] [b1 b2] c _ _ Ha Hb. cbn [fst snd] in *.
    repeat case_match; try done. simplify_eq.
    repeat match goal with
           | H : _ && _ = true |- _ => apply andb_prop in H as [? ?]
           end.
    assert (a2 = b2) by lia. subst. f_equal. lia.
Qed.

Lemma genome_place_todo cellCount ns g s :
  NoDup ns ->
  (forall n, n ∈ ns -> n ∈ cells49 /\ n ∉ g_visited g) ->
  todo (genome_place rand cellCount ns g s).1 = todo g.
Proof.
  revert g s. induction ns as [|n ns IH]; intros g s Hnd Hns; simpl; [done|].
  apply NoDup_cons in Hnd as [Hn Hnd].
  destruct (cellCount <=? g_placed g); [done|].
  destruct (Qltb _ _).
  - rewrite IH; [|done|].
    + unfold todo. cbn [g_visited g_queue]. rewrite length_app. cbn [length].
      destruct (Hns n ltac:(left)) as [Hc Hv].
      assert (cells49 ∖ g_visited g
              = {[n]} ∪ cells49 ∖ ({[n]} ∪ g_visited g)) as ->.
      { apply set_eq. intros x. rewrite elem_of_union, !elem_of_difference,
          elem_of_union, elem_of_singleton.
        destruct (decide (x = n)) as [->|Hne]; [tauto|]. tauto. }
      rewrite (size_union (C:=gset Z) {[n]}
                 (cells49 ∖ ({[n]} ∪ g_visited g))) by set_solver.
      rewrite size_singleton. lia.
    + intros m Hm. destruct (Hns m ltac:(by right)) as [Hc Hv].
      split; [done|]. cbn [g_visited]. rewrite elem_of_union, elem_of_singleton.
      intros [->|?]; done.
  - apply IH; [done|]. intros m Hm. apply Hns. by right.
Qed.

Lemma genome_loop_fuel_gen fuel fuel' cellCount g s :
  (todo g <= fuel)%nat -> (todo g <= fuel')%nat ->
  genome_loop rand fuel 7 cellCount g s
  = genome_loop rand fuel' 7 cellCount g s.
Proof.
  assert (forall f g s, g_queue g = [] ->
            genome_loop rand f 7 cellCount g s = (g, s)) as Hempty.
  { intros f g0 s0 Hq. destruct f; simpl; [done|]. rewrite Hq.
    by destruct (_ <? _). }
  revert fuel' g s. induction fuel as [|fuel IH]; intros fuel' g s Hf Hf'.
  - assert (g_queue g = []) as Hq.
    { unfold todo in Hf. destruct (g_queue g); [done|]. simpl in Hf. lia. }
    by rewrite !Hempty.
  - destruct fuel' as [|fuel'].
    + assert (g_queue g = []) as Hq.
      { unfold todo in Hf'. destruct (g_queue g); [done|]. simpl in Hf'. lia. }
      by rewrite !Hempty.
    + simpl. destruct (g_placed g <? cellCount); [|done].
      destruct (g_queue g) as [|current q'] eqn:Hq; [done|].
      match goal with
      | |- context [genome_place rand cellCount ?ns ?g0 s] =>
          pose proof (genome_place_todo cellCount ns g0 s
                        (genome_neighbors_NoDup _ _)
                        (genome_neighbors_fresh _ _)) as Ht;
          destruct (genome_place rand cellCount ns g0 s) as [g1 s1]
      end.
      simpl in Ht. unfold todo in Ht, Hf, Hf'. rewrite Hq in Hf, Hf'.
      cbn [g_visited g_queue length] in *.
      apply IH; unfold todo; lia.
Qed.
End GenomeShape.

(** X11.  With [Math.random()] in [[0, 1)], the genome that
    [generateGenome] returns has size 7 and a pattern of 49 cells, each 0
    or 1, with the centre cell (index 24) set; [totalCells] is the number
    of ones of the pattern, at least 1 and at most 24, the largest number
    of cells the generator draws.  Of the simulation it only draws random
    numbers. *)
Theorem generateGenome_shape (rand : nat -> Q) (s : Simulation) :
  (forall n, (0 <= rand n)%Q /\ (rand n < 1)%Q) ->
  let gen := (generateGenome rand s).1 in
  size gen = 7
  /\ length (pattern gen) = 49%nat
  /\ pattern gen !! 24%nat = Some 1
  /\ Forall (fun c => c = 0 \/ c = 1) (pattern gen)
  /\ totalCells gen = count_ones (pattern gen)
  /\ 1 <= totalCells gen <= 24
  /\ rng_only s (generateGenome rand s).2.
Proof.
  intros Hrand. cbv zeta.
  destruct (generateGenome_ok rand s) as (Hsz & (Hl & Hc & Hall) & Ht).
  pose proof (generateGenome_rng rand s) as Hr.
  split; [done|]. split; [done|]. split; [done|]. split; [done|].
  split; [done|]. split; [|done]. split.
  { rewrite Ht. by apply (count_ones_pos _ 24%nat). }
  clear Hsz Hl Hc Hall Ht Hr. unfold generateGenome. cbv zeta.
  unfold random. cbn [fst snd].
  destruct (Hrand (rngCalls s)) as [H0 H1].
  pose proof (Qfloor_scale (rand (rngCalls s)) 15 H0 H1 ltac:(lia)) as Hf.
  change (inject_Z 15) with 15%Q in Hf.
  match goal with
  | |- context [genome_loop rand ?f ?sz ?cc ?g0 ?s1] =>
      pose proof (genome_loop_placed rand f sz cc g0 s1) as Hp;
      destruct (genome_loop rand f sz cc g0 s1) as [g s2]
  end.
  cbn [fst snd totalCells] in *.
  destruct Hp as [Hp1 Hp2]; [|lia].
  split; cbn [g_pattern g_placed]; [|lia].
  pose proof (count_ones_insert (replicate (Z.to_nat (7 * 7)) 0)
                (Z.to_nat (7 * 7 / 2))) as Hi.
  assert (count_ones (replicate (Z.to_nat (7 * 7)) 0) = 0) as H00
      by (by vm_compute).
  lia.
Qed.

Lemma generateGenome_shape_witness :
  totalCells (generateGenome halfRandom demoWorld).1 = 17
  /\ 1 <= totalCells (generateGenome halfRandom demoWorld).1 <= 24.
Proof.
  split; [by vm_compute|].
  destruct (generateGenome_shape halfRandom demoWorld halfRandom_unit)
    as (_ & _ & _ & _ & _ & H & _).
  exact H.
Defined.

(** X12.  The [while] loop of [generateGenome] ends by itself.  Every
    iteration takes an index off the queue, and an index of the 49 enters
    the queue once at most, so the 49 iterations the model allows are
    enough: with any larger number of iterations allowed the result is the
    same. *)
Theorem generateGenome_loop_ends
    (rand : nat -> Q) (s : Simulation) (fuel : nat) :
  (49 <= fuel)%nat ->
  generateGenome rand s
  = let '(r, s1) := random rand s in
    let '(g, s2) :=
      genome_loop rand fuel 7 (10 + Qfloor (r * 15))
        {| g_pattern := <[24%nat := 1]> (replicate 49 0); g_placed := 1;
           g_queue := [24]; g_visited := {[24]} |} s1 in
    ({| pattern := g_pattern g; size := 7;
        totalCells := count_ones (g_pattern g) |}, s2).
Proof.
  intros Hf. unfold generateGenome. cbv zeta.
  destruct (random rand s) as [r s1].
  change (Z.to_nat (7 * 7)) with 49%nat.
  change (Z.to_nat (7 * 7 / 2)) with 24%nat. change (7 * 7 / 2) with 24.
  rewrite (genome_loop_fuel_gen rand 49 fuel); [done| |].
  - unfold todo. cbn [g_visited g_queue]. by vm_compute.
  - unfold todo. cbn [g_visited g_queue].
    assert (base.size (cells49 ∖ ({[24]} : gset Z)) = 48%nat) as ->
        by (by vm_compute).
    simpl. lia.
Qed.

Lemma generateGenome_loop_ends_witness :
  (generateGenome halfRandom demoWorld).1
  = (let '(g, s2) :=
       genome_loop halfRandom 60 7 17
         {| g_pattern := <[24%nat := 1]> (replicate 49 0); g_placed := 1;
            g_queue := [24]; g_visited := {[24]} |}
         (set_rngCalls (S (rngCalls demoWorld)) demoWorld) in
     ({| pattern := g_pattern g; size := 7;
         totalCells := count_ones (g_pattern g) |}, s2)).1.
Proof.
  rewrite (generateGenome_loop_ends halfRandom demoWorld 60 ltac:(lia)).
  reflexivity.
Defined.

(** ** The constructor and the terrain *)



Section TerrainFacts.
Variable gridSize : Z.
Variable params : SimulationParams.
Variable rand : nat -> Q.
Hypothesis gridSize_pos : 0 < gridSize.
Hypothesis rand01 : forall n, (0 <= rand n)%Q /\ (rand n < 1)%Q.










End TerrainFacts.




(** ** Food *)

(** X14.  One pass of [updateFoodDecay] over a consistent world.  A food
    cell whose timer is above 1 stays food with the timer one lower, and
    its grid code and hit-points are not touched; a food cell whose timer
    is 1 or less leaves the food registry, and its grid code and its
    hit-points become 0.  Cells that are not food keep their code, the
    organisms are not touched, and the pool gains
    [c2 * foodDecayReturnRatio] for each cell that expires. *)
Theorem food_decay_pass
    (gridSize : Z) (params : SimulationParams) (s : Simulation) :
  0 < gridSize ->
  Inv gridSize params s ->
  let s' := updateFoodDecay gridSize params s in
  (forall k t, (k, t) ∈ foodPixels s ->
     if decide (t - 1 <= 0)
     then kget fst k (foodPixels s') = None
          /\ gridAt gridSize s' k.1 k.2 = Some 0
          /\ hpAt s' (idx gridSize k.1 k.2) = 0
     else kget fst k (foodPixels s') = Some (k, t - 1)
          /\ gridAt gridSize s' k.1 k.2 = Some (-1)
          /\ hpAt s' (idx gridSize k.1 k.2) = hpAt s (idx gridSize k.1 k.2))
  /\ (forall c, inb gridSize c -> c ∉ map fst (foodPixels s) ->
        kget fst c (foodPixels s') = None
        /\ gridAt gridSize s' c.1 c.2 = gridAt gridSize s c.1 c.2)
  /\ organisms s' = organisms s
  /\ (envEnergy s'
      == envEnergy s
         + inject_Z (Z.of_nat (length (filter (fun e => (e.2 - 1 <= 0)%Z)
                                          (foodPixels s))))
           * (c2 params * foodDecayReturnRatio params))%Q.
Proof.
  intros Hpos HI. cbv zeta.
  pose proof (inv_food_nodup _ _ _ _ _ HI) as Hnd.
  assert (forall c, inb gridSize c ->
            cellIdx gridSize c ∈ map (cellIdx gridSize) (expiring s) ->
            exists t, (c, t) ∈ foodPixels s /\ t - 1 <= 0) as Hexp.
  { intros c Hc Hin. apply list_elem_of_fmap in Hin as (c' & Heq & Hin).
    unfold expiring in Hin. apply list_elem_of_fmap in Hin as ([c'' t] & -> & Hin).
    apply list_elem_of_filter in Hin as [Ht Hin]. simpl in *.
    assert (inb gridSize c'') as Hc''.
    { apply (inv_food _ _ _ _ _ HI). apply list_elem_of_fmap. by exists (c'', t). }
    assert (c = c'') as -> by (by apply (cellIdx_inj gridSize Hpos)).
    by exists t. }
  split; [|split; [|split]].
  - intros k t Hin.
    assert (kget fst k (foodPixels s) = Some (k, t)) as Hg
        by (by apply (kget_first fst k _ (k, t) Hnd Hin)).
    assert (inb gridSize k /\ gridAt gridSize s k.1 k.2 = Some (-1)) as [Hk Hgk].
    { apply (inv_food _ _ _ _ _ HI). apply list_elem_of_fmap. by exists (k, t). }
    pose proof (cellIdx_range gridSize Hpos k Hk) as Hr.
    rewrite (updateFoodDecay_timer gridSize params s k t Hnd Hg).
    unfold gridAt, hpAt.
    rewrite (updateFoodDecay_grid gridSize params s _ Hnd).
    rewrite (updateFoodDecay_pixelHP gridSize params s _ Hnd).
    rewrite (inv_grid_len _ _ _ _ _ HI), (inv_hp_len _ _ _ _ _ HI).
    fold (cellIdx gridSize k).
    destruct (decide (t - 1 <= 0)) as [Ht|Ht].
    + assert (cellIdx gridSize k ∈ map (cellIdx gridSize) (expiring s)) as Hin'.
      { apply list_elem_of_fmap. exists k. split; [done|]. unfold expiring.
        apply list_elem_of_fmap. exists (k, t). split; [done|].
        by apply list_elem_of_filter. }
      rewrite !decide_True by (split; [done|lia]). done.
    + assert (cellIdx gridSize k ∉ map (cellIdx gridSize) (expiring s)) as Hout.
      { intros Hin'. destruct (Hexp k Hk Hin') as (t' & Hin'' & Ht').
        assert (kget fst k (foodPixels s) = Some (k, t')) as Hg'
            by (by apply (kget_first fst k _ (k, t') Hnd Hin'')).
        rewrite Hg in Hg'. injection Hg' as ->. lia. }
      rewrite !decide_False by tauto. done.
  - intros c Hc Hout. split.
    + apply (updateFoodDecay_absent gridSize params s c Hnd).
      by apply kget_None.
    + unfold gridAt. rewrite (updateFoodDecay_grid gridSize params s _ Hnd).
      fold (cellIdx gridSize c). rewrite decide_False; [done|].
      intros [Hin _]. destruct (Hexp c Hc Hin) as (t & Hin' & _).
      apply Hout. apply list_elem_of_fmap. by exists (c, t).
  - apply updateFoodDecay_organisms.
  - rewrite (updateFoodDecay_envEnergy gridSize params s Hnd).
    unfold expiring. by rewrite length_map.
Qed.

(** A world with one food cell: an organism created with no energy dies
    in the first tick, and its cell becomes food. *)
Definition dyingWorld : Simulation :=
  (createOrganism 10 (arenaParams closed) halfRandom 5 5 (Some singleCell)
     (Some 0%Q) (newSimulation 10 (arenaParams closed) halfRandom)).2.

Definition foodWorld : Simulation :=
  step 10 (arenaParams closed) halfRandom powLinear dyingWorld.

Lemma foodWorld_Inv : Inv 10 (arenaParams closed) foodWorld.
Proof.
  apply (Reachable_Inv 10 (arenaParams closed) halfRandom powLinear);
    [lia | apply halfRandom_unit | apply R_step, R_create, R_new].
Qed.

Lemma foodWorld_food : foodPixels foodWorld = [((5, 5), 599)].
Proof. by vm_compute. Qed.

Lemma food_decay_pass_witness :
  kget fst (5, 5) (foodPixels (updateFoodDecay 10 (arenaParams closed) foodWorld))
  = Some ((5, 5), 598).
Proof.
  destruct (food_decay_pass 10 (arenaParams closed) foodWorld ltac:(lia)
              foodWorld_Inv) as [H _].
  specialize (H (5, 5) 599).
  destruct (decide (599 - 1 <= 0)) as [Hle|_]; [lia|].
  apply H. rewrite foodWorld_food. left.
Defined.

(** X15.  The life of a food cell under [updateFoodDecay] alone: an entry
    of the food registry with a timer [t >= 1] is still there after [n]
    passes when [n < t], with the timer [t - n], and is gone after [t]
    passes and ever after. *)
Theorem food_lifetime
    (gridSize : Z) (params : SimulationParams) (s : Simulation)
    (k : Cell) (t : Z) (n : nat) :
  NoDup (map fst (foodPixels s)) ->
  (k, t) ∈ foodPixels s ->
  1 <= t ->
  kget fst k (foodPixels (Nat.iter n (updateFoodDecay gridSize params) s))
  = if decide (Z.of_nat n < t) then Some (k, t - Z.of_nat n) else None.
Proof.
  intros Hnd Hin Ht. apply updateFoodDecay_iter; [done| |done].
  by apply (kget_first fst k _ (k, t) Hnd Hin).
Qed.

Lemma food_lifetime_witness :
  kget fst (5, 5)
    (foodPixels (Nat.iter 599 (updateFoodDecay 10 (arenaParams closed)) foodWorld))
  = None
  /\ kget fst (5, 5)
       (foodPixels (Nat.iter 598 (updateFoodDecay 10 (arenaParams closed))
                      foodWorld))
     = Some ((5, 5), 1).
Proof.
  assert (NoDup (map fst (foodPixels foodWorld))) as Hnd.
  { rewrite foodWorld_food. simpl. apply NoDup_singleton. }
  assert (((5, 5), 599) ∈ foodPixels foodWorld) as Hin.
  { rewrite foodWorld_food. left. }
  pose proof (food_lifetime 10 (arenaParams closed) foodWorld (5, 5) 599 599
                Hnd Hin ltac:(lia)) as H1.
  pose proof (food_lifetime 10 (arenaParams closed) foodWorld (5, 5) 599 598
                Hnd Hin ltac:(lia)) as H2.
  rewrite decide_False in H1 by lia. rewrite decide_True in H2 by lia.
  split; [exact H1 | exact H2].
Defined.

(** ** Growth *)

Lemma kset_new {K E} `{EqDecision K} (key : E -> K) (e : E) (l : list E) :
  key e ∉ map key l -> kset key e l = l ++ [e].
Proof.
  induction l as [|a l IH]; simpl; [done|]. intros Hn.
  apply not_elem_of_cons in Hn as [Hne Hn].
  rewrite decide_False by done. by rewrite IH.
Qed.

(** X16.  One call of [growOrganism] on a registered organism of a
    consistent world either changes nothing and returns [false], or returns
    [true] after adding exactly one cell: a cell of the grid that was empty,
    was not yet a cell of the organism and touches one of its cells.  The
    cell goes last in the pixel set with the hit-points [totalCells], the
    grid gives it the id of the organism, the growth stage goes up by one
    and the energy down by the growth cost (not below a cost of 0), and no
    other organism is touched.  The call changes nothing when the growth is
    complete or the energy is below the cost. *)
Theorem growOrganism_effect
    (gridSize : Z) (params : SimulationParams) (org : Organism)
    (s : Simulation) :
  0 < gridSize ->
  Inv gridSize params s ->
  get_org (id org) s = Some org ->
  let cost := Qmax 0 (growthEnergyCost params) in
  let r := growOrganism gridSize params org s in
  ((r = (false, s))
   \/ (r.1 = true
       /\ growthStage org < totalCells (genome org) - 1
       /\ (cost <= energy org)%Q
       /\ exists c,
            inb gridSize c /\ c ∉ pix_keys org
            /\ gridAt gridSize s c.1 c.2 = Some 0
            /\ (exists k, k ∈ pix_keys org
                          /\ k ∈ neighbors8 gridSize params c.1 c.2)
            /\ get_org (id org) r.2
               = Some (set_energy (energy org - cost)
                         (set_growthStage (growthStage org + 1)
                            (set_pixels
                               (pixels org ++ [(c, totalCells (genome org))])
                               org)))
            /\ gridAt gridSize r.2 c.1 c.2 = Some (id org)
            /\ hpAt r.2 (idx gridSize c.1 c.2)
               = toUint16 (totalCells (genome org))
            /\ (forall i, i <> id org -> get_org i r.2 = get_org i s)
            /\ foodPixels r.2 = foodPixels s))
  /\ (totalCells (genome org) - 1 <= growthStage org -> r = (false, s))
  /\ ((energy org < cost)%Q -> r = (false, s)).
Proof.
  intros Hpos HI Hg. cbv zeta. unfold growOrganism.
  destruct (Z.leb_spec (totalCells (genome org) - 1) (growthStage org))
    as [Hfull|Hroom].
  { split; [by left|]. done. }
  cbv zeta.
  destruct (Qltb (energy org) (Qmax 0 (growthEnergyCost params))) eqn:Hcost.
  { split; [by left|]. done. }
  apply Qltb_false in Hcost.
  split; [|split; [lia|intros Hlt; lra]].
  destruct (firstSome _ _) as [[bx by']|] eqn:Hf; [|by left].
  right. apply firstSome_Some in Hf as (d & _ & Hd).
  apply (growTarget_Some gridSize params Hpos) in Hd as (Hb & Hfree & k & Hk & Hadj).
  assert ((bx, by') ∉ pix_keys org) as Hnew.
  { apply (free_cell gridSize params _ _ s (bx, by') 0 org HI Hfree); [lia|].
    by eapply get_org_in. }
  pose proof (cellIdx_range gridSize Hpos (bx, by') Hb) as Hr.
  cbn [fst snd]. split; [done|]. split; [done|]. split; [done|].
  exists (bx, by'). split; [done|]. split; [done|]. split; [done|].
  split; [by exists k|]. split; [|split; [|split; [|split]]].
  - unfold bump_growing.
    match goal with
    | |- get_org _ (set_debugCounters ?d (update_org ?i ?f ?s2)) = _ =>
        change (get_org i (set_debugCounters d (update_org i f s2)))
          with (get_org i (update_org i f s2))
    end.
    rewrite get_org_update_eq by done.
    change (get_org (id org) (write_hp _ _ (write_grid _ _ s)))
      with (get_org (id org) s).
    rewrite Hg. cbn [fmap option_fmap option_map]. do 4 f_equal.
    apply (kset_new fst ((bx, by'), totalCells (genome org))). exact Hnew.
  - unfold gridAt. simpl. apply arr_get_set_eq.
    rewrite (inv_grid_len _ _ _ _ _ HI). unfold cellIdx in Hr. simpl in Hr. lia.
  - unfold hpAt. simpl. rewrite arr_get_set_eq; [done|].
    rewrite (inv_hp_len _ _ _ _ _ HI). unfold cellIdx in Hr. simpl in Hr. lia.
  - intros i Hi. unfold bump_growing.
    match goal with
    | |- get_org _ (set_debugCounters ?d (update_org ?j ?f ?s2)) = _ =>
        change (get_org i (set_debugCounters d (update_org j f s2)))
          with (get_org i (update_org j f s2))
    end.
    by rewrite get_org_update_ne.
  - done.
Qed.

(** A genome of 3 x 3 cells, all set, and a world with one organism of this
    genome, which has its first cell only. *)
Definition nineCells : Genome :=
  {| pattern := [1; 1; 1; 1; 1; 1; 1; 1; 1]; size := 3; totalCells := 9 |}.

Definition growWorld : Simulation :=
  (createOrganism 10 (arenaParams closed) halfRandom 5 5 (Some nineCells) None
     (newSimulation 10 (arenaParams closed) halfRandom)).2.

Lemma growWorld_Inv : Inv 10 (arenaParams closed) growWorld.
Proof.
  apply (Reachable_Inv 10 (arenaParams closed) halfRandom powLinear);
    [lia | apply halfRandom_unit | apply R_create, R_new].
Qed.

Lemma growOrganism_effect_witness :
  exists org c,
    get_org 1 growWorld = Some org
    /\ gridAt 10 growWorld c.1 c.2 = Some 0
    /\ gridAt 10 (growOrganism 10 (arenaParams closed) org growWorld).2 c.1 c.2
       = Some 1.
Proof.
  destruct (get_org 1 growWorld) as [org|] eqn:Hg;
    [|vm_compute in Hg; discriminate].
  assert (id org = 1) as Hid.
  { vm_compute in Hg. injection Hg as <-. reflexivity. }
  assert (get_org (id org) growWorld = Some org) as Hg' by (by rewrite Hid).
  destruct (growOrganism_effect 10 (arenaParams closed) org growWorld
              ltac:(lia) growWorld_Inv Hg') as [[Hno|Hyes] _].
  - exfalso. vm_compute in Hg. injection Hg as <-. vm_compute in Hno.
    discriminate.
  - destruct Hyes as (_ & _ & _ & c & _ & _ & Hfree & _ & _ & Hc & _).
    exists org, c. split; [reflexivity|]. split; [exact Hfree|].
    rewrite Hid in Hc. exact Hc.
Defined.

(** ** The organisms and their records in the movement loop *)


Section MoveRel.
Variable gridSize : Z.
Variable params : SimulationParams.
Hypothesis gridSize_pos : 0 < gridSize.
Variable R : MoveState -> Organism -> Prop.


Hypothesis R_commit :
  forall st o np,
    R st o -> is_moving st = true -> length np = length (pixels o) ->
    R (advanceState st)
      (relocate gridSize params (st_dx st) (st_dy st) (stepCost st) np o).
Hypothesis R_halt : forall st o, R st o -> R (haltState st) o.


End MoveRel.

Section MoveOrganismsFacts.
Variable gridSize : Z.
Variable params : SimulationParams.
Variable pow : Q -> Q -> Q.
Hypothesis gridSize_pos : 0 < gridSize.




End MoveOrganismsFacts.








(** ** What the choice of the directions leaves alone *)

Section PlanFacts.
Variable gridSize : Z.
Variable params : SimulationParams.
Variable rand : nat -> Q.
Variable P : Organism -> Prop.
Hypothesis P_direction : forall d o, P o -> P (set_direction d o).
Hypothesis P_stuck : forall c o, P o -> P (set_stuckCounter c o).
Hypothesis P_moved : forall b o, P o -> P (set_movedThisTick b o).

Local Abbreviation all := (fun s => Forall P (organisms s)).




End PlanFacts.





(** ** The connectivity check *)

Section ComponentFacts.
Variable gridSize : Z.
Variable params : SimulationParams.
Hypothesis gridSize_pos : 0 < gridSize.

(** What [checkConnectivity] does with a cell that was not reached. *)
Definition release (i : Z) (s : Simulation) (key : Cell) : Simulation :=
  update_org i (fun o => set_pixels (kdelete fst key (pixels o)) o)
    (toFood gridSize params s key).

Lemma detach_fold_release (i : Z) (R : gset Cell) (todo : list Cell) s :
  fold_left (detach gridSize params i R) todo s
  = fold_left (release i) (filter (fun k => k ∉ R) todo) s.
Proof.
  revert s. induction todo as [|k todo IH]; intros s; [done|].
  rewrite filter_cons. cbn [fold_left]. unfold detach at 2.
  destruct (decide (k ∈ R)) as [Hr|Hr].
  - rewrite decide_False by tauto. apply IH.
  - rewrite decide_True by done. cbn [fold_left]. apply IH.
Qed.

Lemma release_fold_food i keys s k :
  kget fst k (foodPixels (fold_left (release i) keys s))
  = if decide (k ∈ keys) then Some (k, foodDecayTicks params)
    else kget fst k (foodPixels s).
Proof.
  revert s. induction keys as [|a keys IH]; intros s; cbn [fold_left].
  - rewrite decide_False; [done | apply not_elem_of_nil].
  - rewrite IH. destruct (decide (k ∈ keys)) as [Hin|Hin].
    + rewrite decide_True; [done | by right].
    + change (foodPixels (release i s a))
        with (kset fst (a, foodDecayTicks params) (foodPixels s)).
      destruct (decide (k = a)) as [->|Hne].
      * rewrite decide_True by left.
        apply (kget_kset_eq fst (a, foodDecayTicks params)).
      * rewrite decide_False.
        -- by rewrite kget_kset_ne.
        -- intros Hin'. apply elem_of_cons in Hin' as [?|?]; done.
Qed.

Lemma release_fold_grid i keys s j :
  arr_get (grid (fold_left (release i) keys s)) j
  = if decide (j ∈ map (cellIdx gridSize) keys
               /\ 0 <= j < Z.of_nat (length (grid s)))
    then Some (-1) else arr_get (grid s) j.
Proof. by apply (fold_write_const gridSize grid). Qed.

(** The cells the traversal reaches are the cells a walk from the eye
    reaches. *)
Lemma bfs_component (org : Organism) (eye : Cell) (r : gset Cell) :
  bfs_inv gridSize params org eye [] r ->
  forall c, c ∈ r <-> rtc (walk gridSize params (pix_keys org)) eye c.
Proof.
  intros [B1 B2 B3 B4 B5 B6] c. split; [apply B2|].
  intros Hw. apply rtc_nsteps in Hw as [n Hw]. revert c Hw.
  induction n as [|n IH]; intros c Hw.
  - inversion Hw; subst; done.
  - apply nsteps_inv_r in Hw as (b & Hb & [Hadj Hck]).
    destruct (B3 b (IH b Hb)) as [Hq|Hcl]; [by apply elem_of_nil in Hq|].
    by apply Hcl.
Qed.
End ComponentFacts.

(** X20.  [checkConnectivity] keeps the component of the eye and nothing
    else.  In a world that is consistent but for the shape of the organism
    [t] (and for the owner of the cells in [stale], as after a cell of [t]
    has been deleted), if the pixel set of [t] holds its eye, the check
    leaves [t] registered with
    its eye where it was, and with exactly the cells that a walk of
    neighbouring cells of the old pixel set reaches from the eye; every
    other cell of the old set becomes food (a timer of [foodDecayTicks], and
    on the grid the code -1), and the other organisms are as before. *)
Theorem checkConnectivity_keeps_component
    (gridSize : Z) (params : SimulationParams) (stale : Cell -> Prop)
    (s : Simulation) (t : Z) (org : Organism) :
  0 < gridSize ->
  InvBut gridSize params (fun i => i = t) stale s ->
  get_org t s = Some org ->
  (eyeX org, eyeY org) ∈ pix_keys org ->
  let s' := checkConnectivity gridSize params t s in
  let reached c :=
    rtc (fun a b => b ∈ neighbors8 gridSize params a.1 a.2
                    /\ b ∈ pix_keys org) (eyeX org, eyeY org) c in
  (exists org',
      get_org t s' = Some org'
      /\ eyeX org' = eyeX org /\ eyeY org' = eyeY org
      /\ forall c, c ∈ pix_keys org' <-> reached c)
  /\ (forall c, c ∈ pix_keys org -> ~ reached c ->
        kget fst c (foodPixels s') = Some (c, foodDecayTicks params)
        /\ gridAt gridSize s' c.1 c.2 = Some (-1))
  /\ (forall j, j <> t -> get_org j s' = get_org j s).
Proof.
  intros Hpos HI Hg Heye. cbv zeta.
  assert (InvBut gridSize params (fun i => False \/ i = t) stale s) as HI0.
  { eapply InvBut_weaken; [| |exact HI]; [by right|done]. }
  pose proof (get_org_in _ _ _ Hg) as Hin.
  pose proof (ok_nodup _ _ _ (inv_orgs _ _ _ _ _ HI org Hin)) as Hnd.
  split; [|split]; [| |intros j Hj; by apply checkConnectivity_others].
  all: unfold checkConnectivity; rewrite Hg.
  all: assert (pix_size org =? 0 = false) as ->
         by (apply Z.eqb_neq; unfold pix_size; unfold pix_keys in Heye;
             destruct (pixels org); [by apply elem_of_nil in Heye|simpl; lia]).
  all: rewrite (proj2 (pix_has_true _ _) Heye); cbn [negb]; cbv zeta.
  all: set (eye := (eyeX org, eyeY org)) in *.
  all: destruct (bfs_spec gridSize params Hpos (length (pixels org)) org
                   eye [eye] {[eye]} Hnd) as [_ HB];
         [split;
          [set_solver
          |intros c Hc; apply elem_of_singleton in Hc as ->; apply rtc_refl
          |intros c Hc; apply elem_of_singleton in Hc as ->; left; left
          |intros c Hc; apply list_elem_of_singleton in Hc as ->; set_solver
          |intros c Hc; by apply elem_of_singleton in Hc as ->
          |apply NoDup_singleton]
         |rewrite size_singleton; unfold pix_keys; rewrite length_map;
          simpl; lia|].
  all: pose proof (bfs_component gridSize params org eye _ HB) as Hcomp.
  all: set (reachable := (bfs gridSize params (length (pixels org)) org [eye]
                            {[eye]}).2) in *.
  all: destruct (detach_fold_inv gridSize params Hpos (fun _ => False)
                   stale t reachable (pix_keys org) s org HI0 Hg Hnd)
         as (HI' & o' & Hg' & Hx & Hy & Hkeys); [done|].
  all: assert (forall c, c ∈ pix_keys o' <-> c ∈ reachable) as Hk'
         by (intros c; rewrite Hkeys; split;
             [intros [Hc Hn]; destruct (decide (c ∈ reachable)); [done|];
              exfalso; by apply Hn
             |intros Hr; split; [by apply (bfs_keys _ _ _ _ _ _ HB)|];
              by intros [_ ?]]).
  all: assert (pix_size o' =? 0 = false) as Hsz
         by (apply Z.eqb_neq; unfold pix_size;
             assert (eye ∈ pix_keys o') as He
               by (apply Hk', (bfs_eye _ _ _ _ _ _ HB));
             unfold pix_keys in He;
             destruct (pixels o'); [by apply elem_of_nil in He|simpl; lia]).
  all: rewrite Hg', Hsz.
  - exists o'. split; [done|]. split; [done|]. split; [done|].
    intros c. rewrite Hk'. apply Hcomp.
  - intros c Hc Hnot.
    assert (c ∉ reachable) as Hout by (intros Hr; by apply Hnot, Hcomp).
    rewrite detach_fold_release. split.
    + rewrite release_fold_food. rewrite decide_True; [done|].
      by apply list_elem_of_filter.
    + unfold gridAt. rewrite release_fold_grid.
      destruct (ok_cells _ _ _ (inv_orgs _ _ _ _ _ HI org Hin) c Hc)
        as [Hcb _].
      pose proof (cellIdx_range gridSize Hpos c Hcb) as Hr.
      rewrite (inv_grid_len _ _ _ _ _ HI). rewrite decide_True; [done|].
      split; [|unfold cellIdx in Hr; lia].
      apply list_elem_of_fmap. exists c. split; [done|].
      by apply list_elem_of_filter.
Qed.

(** A genome of 5 x 5 cells, all set, and a world in which an organism of
    this genome has reached the wall and grown an arm: after eight ticks it
    has the cells (3,7), (4,8), (5,8), (6,8), (4,9), (5,9), (6,9), and its
    eye at (5,9). *)
Definition fullGenome : Genome :=
  {| pattern := replicate 25 1; size := 5; totalCells := 25 |}.

Definition armWorld : Simulation :=
  Nat.iter 8 (step 10 (arenaParams closed) halfRandom powLinear)
    (createOrganism 10 (arenaParams closed) halfRandom 5 5 (Some fullGenome)
       (Some (120 # 1)) (newSimulation 10 (arenaParams closed) halfRandom)).2.

Lemma armWorld_Inv : Inv 10 (arenaParams closed) armWorld.
Proof.
  apply (Reachable_Inv 10 (arenaParams closed) halfRandom powLinear);
    [lia | apply halfRandom_unit |].
  unfold armWorld. do 8 (apply R_step). apply R_create, R_new.
Qed.

(** The arm loses the cell (4,8), which joins (3,7) to the rest. *)
Definition cutWorld : Simulation :=
  update_org 1 (fun o => set_pixels (kdelete fst (4, 8) (pixels o)) o) armWorld.

Lemma checkConnectivity_keeps_component_witness :
  exists org',
    get_org 1 (checkConnectivity 10 (arenaParams closed) 1 cutWorld) = Some org'
    /\ (eyeX org', eyeY org') = (5, 9)
    /\ pix_keys org' = [(5, 8); (6, 8); (4, 9); (5, 9); (6, 9)].
Proof.
  assert (InvBut 10 (arenaParams closed) (fun i => i = 1)
            (fun x => False \/ x = (4, 8)) cutWorld) as HI.
  { eapply InvBut_weaken;
      [| |apply (InvBut_drop_cell 10 (arenaParams closed) _ _ _ 1 (4, 8)
                   armWorld_Inv)]; [by intros i [[]|]|done]. }
  destruct (get_org 1 cutWorld) as [org|] eqn:Hg;
    [|vm_compute in Hg; discriminate].
  assert ((eyeX org, eyeY org) ∈ pix_keys org
          /\ eyeX org = 5 /\ eyeY org = 9) as (Heye & Hx & Hy).
  { vm_compute in Hg. injection Hg as <-.
    split; [|split; reflexivity]. apply list_elem_of_In. vm_compute. tauto. }
  destruct (checkConnectivity_keeps_component 10 (arenaParams closed) _
              cutWorld 1 org ltac:(lia) HI Hg Heye)
    as [(org' & Hg' & Hx' & Hy' & _) _].
  exists org'. split; [exact Hg'|]. split; [by rewrite Hx', Hy', Hx, Hy|].
  vm_compute in Hg'. injection Hg' as <-. reflexivity.
Defined.

(** ** Editing the obstacles *)

(** X21.  [setObstacle] on a consistent world.  Off the grid it does
    nothing.  Blocking a cell that is no obstacle gives it the code -2 and
    no hit-points and lists it among the obstacle keys; afterwards no
    organism owns the cell and it is no food cell.  Blocking an obstacle
    and unblocking a cell that is no obstacle change nothing.  Unblocking
    an obstacle empties the cell (code 0, no hit-points), takes its key off
    the list and touches neither the organisms nor the food. *)
Theorem setObstacle_effect
    (gridSize : Z) (params : SimulationParams) (x y : Z) (s : Simulation) :
  0 < gridSize ->
  Inv gridSize params s ->
  (applyBoundary gridSize params x y = None ->
   forall b, setObstacle gridSize params x y b s = s)
  /\ forall c, applyBoundary gridSize params x y = Some c ->
       (let s' := setObstacle gridSize params x y true s in
        gridAt gridSize s' c.1 c.2 = Some (-2)
        /\ (forall o, o ∈ organisms s' -> c ∉ pix_keys o)
        /\ c ∉ map fst (foodPixels s')
        /\ (gridAt gridSize s c.1 c.2 = Some (-2) -> s' = s)
        /\ (gridAt gridSize s c.1 c.2 <> Some (-2) ->
            hpAt s' (idx gridSize c.1 c.2) = 0 /\ c ∈ obstacleKeys s'))
       /\ (let s' := setObstacle gridSize params x y false s in
           (gridAt gridSize s c.1 c.2 <> Some (-2) -> s' = s)
           /\ (gridAt gridSize s c.1 c.2 = Some (-2) ->
               gridAt gridSize s' c.1 c.2 = Some 0
               /\ hpAt s' (idx gridSize c.1 c.2) = 0
               /\ (NoDup (obstacleKeys s) -> c ∉ obstacleKeys s')
               /\ (forall k, k <> c ->
                     k ∈ obstacleKeys s' <-> k ∈ obstacleKeys s)
               /\ organisms s' = organisms s
               /\ foodPixels s' = foodPixels s)).
Proof.
  intros Hpos HI. split.
  { intros Hb b. unfold setObstacle. by rewrite Hb. }
  intros [gx gy] Hb.
  pose proof (applyBoundary_inb gridSize params Hpos _ _ _ Hb) as Hin.
  pose proof (cellIdx_range gridSize Hpos _ Hin) as Hr.
  unfold cellIdx in Hr. cbn [fst snd] in *.
  split.
  - pose proof (Inv_setObstacle gridSize params Hpos x y true s HI) as HI'.
    cbv zeta.
    assert (gridAt gridSize (setObstacle gridSize params x y true s) gx gy
            = Some (-2)
            /\ (gridAt gridSize s gx gy = Some (-2) ->
                setObstacle gridSize params x y true s = s)
            /\ (gridAt gridSize s gx gy <> Some (-2) ->
                hpAt (setObstacle gridSize params x y true s)
                  (idx gridSize gx gy) = 0
                /\ (gx, gy) ∈ obstacleKeys
                                (setObstacle gridSize params x y true s)))
      as (Hcode & Hsame & Hnew).
    { pose proof (inv_grid_len _ _ _ _ _ HI') as Hlen.
      pose proof (inv_hp_len _ _ _ _ _ HI') as Hlen'.
      revert Hlen Hlen'.
      unfold setObstacle. rewrite Hb. cbv zeta. unfold gridAt.
      destruct (decide (arr_get (grid s) (idx gridSize gx gy) = Some (-2)))
        as [Hobs|Hfree]; [done|].
      match goal with
      | |- context [write_hp ?i 0 (write_grid ?i (-2) ?s1)] =>
          set (s2 := write_hp i 0 (write_grid i (-2) s1))
      end.
      intros Hlen Hlen'.
      assert (length (grid s2) = Z.to_nat (gridSize * gridSize)
              /\ length (pixelHP s2) = Z.to_nat (gridSize * gridSize))
        as [Hl Hl'] by (by destruct (decide _)).
      assert (arr_get (grid s2) (idx gridSize gx gy) = Some (-2)
              /\ hpAt s2 (idx gridSize gx gy) = 0) as [Hg2 Hh2].
      { unfold s2, hpAt in *. simpl in *. rewrite length_arr_set in Hl, Hl'.
        rewrite !arr_get_set_eq by lia. done. }
      split; [by destruct (decide _)|]. split; [done|]. intros _.
      split; [by destruct (decide _)|].
      destruct (decide _) as [Hk|Hk]; [done|]. simpl.
      apply elem_of_app. right. left. }
    split; [done|]. split; [|split; [|done]].
    + intros o Ho Hc.
      destruct (ok_cells _ _ _ (inv_orgs _ _ _ _ _ HI' o Ho) _ Hc) as [_ H1].
      pose proof (ok_id _ _ _ (inv_orgs _ _ _ _ _ HI' o Ho)).
      cbn [fst snd] in H1. rewrite Hcode in H1. injection H1 as H1. lia.
    + intros Hf. destruct (inv_food _ _ _ _ _ HI' _ Hf) as [_ H2].
      cbn [fst snd] in H2. rewrite Hcode in H2. done.
  - cbv zeta. unfold setObstacle. rewrite Hb. cbv zeta. unfold gridAt.
    destruct (decide (arr_get (grid s) (idx gridSize gx gy) = Some (-2)))
      as [Hobs|Hfree]; [|done].
    split; [done|]. intros _. unfold hpAt. simpl.
    rewrite !arr_get_set_eq
      by (rewrite ?(inv_grid_len _ _ _ _ _ HI), ?(inv_hp_len _ _ _ _ _ HI); lia).
    split; [done|]. split; [done|]. split; [|split; [|done]].
    + intros _ Hk. apply (elem_of_kdelete (fun c => c)) in Hk as [_ Hne]. done.
    + intros k Hne. rewrite (elem_of_kdelete (fun c => c)). tauto.
Qed.

Lemma setObstacle_effect_witness :
  gridAt 10 (setObstacle 10 (arenaParams closed) 5 5 true demoWorld) 5 5
  = Some (-2)
  /\ organisms (setObstacle 10 (arenaParams closed) 5 5 true demoWorld) = [].
Proof.
  destruct (setObstacle_effect 10 (arenaParams closed) 5 5 demoWorld
              ltac:(lia) demoWorld_Inv) as [_ H].
  destruct (H (5, 5) eq_refl) as [(H1 & _) _].
  split; [exact H1 | reflexivity].
Defined.

(** ** Metabolism *)

Section MetabolismFacts.
Variable gridSize : Z.
Variable params : SimulationParams.

(** The energy left after the metabolic cost of the tick. *)
Definition fed (o : Organism) : Q :=
  (energy o - inject_Z (pix_size o) * metabolismRate params)%Q.

(** What [metabolism] leaves of an organism that survives. *)
Definition survivor (o : Organism) : Organism :=
  set_energy (fed o) (set_age (age o + 1) o).

Lemma metabolismOne_other o s j :
  j <> id o -> get_org j (metabolismOne gridSize params o s) = get_org j s.
Proof.
  intros Hne. unfold metabolismOne. cbv zeta.
  destruct (Qleb _ 0).
  - rewrite get_org_remove_ne by done. by rewrite get_org_update_ne.
  - by rewrite get_org_update_ne.
Qed.

Lemma metabolismOne_self o s :
  get_org (id o) s = Some o ->
  get_org (id o) (metabolismOne gridSize params o s)
  = if Qleb (fed o) 0 then None else Some (survivor o).
Proof.
  intros Hg. unfold metabolismOne. cbv zeta. fold (fed o).
  destruct (Qleb (fed o) 0).
  - apply get_org_remove_eq.
  - rewrite get_org_update_eq by done. by rewrite Hg.
Qed.

Lemma metabolism_fold ids s :
  NoDup ids ->
  let s' :=
    fold_left
      (fun s' i =>
         match get_org i s' with
         | Some o => metabolismOne gridSize params o s'
         | None => s'
         end) ids s in
  forall j,
    get_org j s'
    = if decide (j ∈ ids)
      then match get_org j s with
           | Some o => if Qleb (fed o) 0 then None else Some (survivor o)
           | None => None
           end
      else get_org j s.
Proof.
  revert s. induction ids as [|i ids IH]; intros s Hnd; cbv zeta; intros j;
    cbn [fold_left].
  - rewrite decide_False; [done | apply not_elem_of_nil].
  - apply NoDup_cons in Hnd as [Hi Hnd]. rewrite (IH _ Hnd j).
    destruct (decide (j ∈ ids)) as [Hj|Hj].
    + rewrite decide_True by (by right).
      assert (j <> i) as Hne by (by intros ->).
      destruct (get_org i s) as [o|] eqn:Hg; [|done].
      rewrite metabolismOne_other; [done|].
      by rewrite (get_org_id _ _ _ Hg).
    + destruct (decide (j = i)) as [->|Hne].
      * rewrite decide_True by left.
        destruct (get_org i s) as [o|] eqn:Hg; [|by rewrite Hg].
        pose proof (get_org_id _ _ _ Hg) as Hid. subst i.
        by apply metabolismOne_self.
      * rewrite decide_False
          by (intros Hin; apply elem_of_cons in Hin as [?|?]; done).
        destruct (get_org i s) as [o|] eqn:Hg; [|done].
        apply metabolismOne_other. by rewrite (get_org_id _ _ _ Hg).
Qed.
End MetabolismFacts.

(** The registry after [metabolism]. *)
Lemma metabolism_facts
    (gridSize : Z) (params : SimulationParams) (s : Simulation) :
  0 < gridSize ->
  Inv gridSize params s ->
  let s' := metabolism gridSize params s in
  let rest o :=
    (energy o - inject_Z (pix_size o) * metabolismRate params)%Q in
  (forall o, o ∈ organisms s ->
     ((rest o <= 0)%Q -> get_org (id o) s' = None)
     /\ ((0 < rest o)%Q ->
         get_org (id o) s'
         = Some (set_energy (rest o) (set_age (age o + 1) o))))
  /\ (forall o', o' ∈ organisms s' ->
        (0 < energy o')%Q
        /\ exists o, o ∈ organisms s
                     /\ o' = set_energy (rest o) (set_age (age o + 1) o)).
Proof.
  intros Hpos HI. cbv zeta.
  pose proof (metabolism_fold gridSize params (map id (organisms s)) s
                (inv_ids _ _ _ _ _ HI)) as Hf.
  cbv zeta in Hf. fold (for_each_org (metabolismOne gridSize params) s) in Hf.
  fold (metabolism gridSize params s) in Hf.
  assert (forall o, o ∈ organisms s ->
            get_org (id o) (metabolism gridSize params s)
            = if Qleb (fed params o) 0 then None else Some (survivor params o))
    as Hreg.
  { intros o Ho. rewrite Hf. rewrite decide_True by (by apply list_elem_of_fmap_2).
    by rewrite (get_org_elem gridSize params _ _ _ _ HI Ho). }
  split.
  - intros o Ho. rewrite (Hreg o Ho). unfold fed, survivor. split.
    + intros Hle. apply Qleb_true in Hle. by rewrite Hle.
    + intros Hlt. apply Qleb_false in Hlt. by rewrite Hlt.
  - intros o' Ho'.
    pose proof (Inv_metabolism gridSize params Hpos s HI) as HI'.
    pose proof (get_org_elem gridSize params _ _ _ _ HI' Ho') as Hg'.
    rewrite Hf in Hg'.
    destruct (decide (id o' ∈ map id (organisms s))) as [Hin|Hout].
    + apply list_elem_of_fmap in Hin as (o & Hid & Ho).
      rewrite Hid, (get_org_elem gridSize params _ _ _ _ HI Ho) in Hg'.
      destruct (Qleb (fed params o) 0) eqn:Hq; [done|].
      injection Hg' as <-. apply Qleb_false in Hq. split; [done|].
      by exists o.
    + apply get_org_in in Hg'. exfalso. apply Hout.
      by apply list_elem_of_fmap_2.
Qed.

(** X22.  [metabolism] on a consistent world ages every organism by one
    tick and charges it [metabolismRate] for each of its cells.  An organism
    left with no energy (zero or less) is removed from the registry; any
    other stays registered, one tick older and with the energy left, and is
    otherwise as it was.  So every organism registered after [metabolism]
    has positive energy. *)
Theorem metabolism_effect
    (gridSize : Z) (params : SimulationParams) (s : Simulation) :
  0 < gridSize ->
  Inv gridSize params s ->
  let s' := metabolism gridSize params s in
  let rest o :=
    (energy o - inject_Z (pix_size o) * metabolismRate params)%Q in
  (forall o, o ∈ organisms s ->
     ((rest o <= 0)%Q -> get_org (id o) s' = None)
     /\ ((0 < rest o)%Q ->
         get_org (id o) s'
         = Some (set_energy (rest o) (set_age (age o + 1) o))))
  /\ (forall o', o' ∈ organisms s' ->
        (0 < energy o')%Q
        /\ exists o, o ∈ organisms s
                     /\ o' = set_energy (rest o) (set_age (age o + 1) o)).
Proof. apply metabolism_facts. Qed.

Lemma metabolism_effect_witness :
  exists o,
    get_org 1 demoWorld = Some o
    /\ get_org 1 (metabolism 10 (arenaParams closed) demoWorld)
       = Some (set_energy
                 (energy o
                  - inject_Z (pix_size o) * metabolismRate (arenaParams closed))
                 (set_age (age o + 1) o)).
Proof.
  destruct (get_org 1 demoWorld) as [o|] eqn:Hg;
    [|vm_compute in Hg; discriminate].
  exists o. split; [reflexivity|].
  pose proof (get_org_in _ _ _ Hg) as Hin.
  assert (id o = 1) as Hid by (by apply get_org_id in Hg).
  destruct (metabolism_effect 10 (arenaParams closed) demoWorld ltac:(lia)
              demoWorld_Inv) as [H _].
  destruct (H o Hin) as [_ H2]. rewrite Hid in H2. apply H2.
  vm_compute in Hg. injection Hg as <-. reflexivity.
Defined.

(** ** Spawning food *)

Section SpawnFacts.
Variable gridSize : Z.
Variable params : SimulationParams.
Variable rand : nat -> Q.
Hypothesis gridSize_pos : 0 < gridSize.
Hypothesis rand01 : forall n, (0 <= rand n)%Q /\ (rand n < 1)%Q.

Lemma spawnLoop_effect n s :
  Inv gridSize params s ->
  let s' := spawnLoop gridSize params rand n s in
  exists new : list Cell,
    foodPixels s'
    = foodPixels s ++ map (fun c => (c, foodDecayTicks params)) new
    /\ NoDup new
    /\ (forall c, c ∈ new ->
          inb gridSize c /\ gridAt gridSize s c.1 c.2 = Some 0)
    /\ organisms s' = organisms s
    /\ (envEnergy s'
        == envEnergy s - inject_Z (Z.of_nat (length new)) * c2 params)%Q
    /\ (length new <= n)%nat
    /\ ((0 <= envEnergy s)%Q -> (0 <= envEnergy s')%Q).
Proof.
  revert s. induction n as [|n IH]; intros s HI; cbv zeta; simpl.
  { exists []. rewrite app_nil_r. split; [done|]. split; [constructor|].
    split; [by intros c ?%elem_of_nil|]. split; [done|].
    split; [simpl; ring|]. done. }
  destruct (Qltb (c2 params) (envEnergy s)) eqn:Hpool.
  2:{ exists []. rewrite app_nil_r. split; [done|]. split; [constructor|].
      split; [by intros c ?%elem_of_nil|]. split; [done|].
      split; [simpl; ring|]. split; [simpl; lia|done]. }
  apply Qltb_true in Hpool.
  set (x := Qfloor (rand (rngCalls s) * inject_Z gridSize)).
  set (y := Qfloor (rand (S (rngCalls s)) * inject_Z gridSize)).
  set (s2 := set_rngCalls _ (set_rngCalls _ s)).
  assert (Inv gridSize params s2) as HI2
      by (by apply (Inv_view gridSize params s)).
  destruct (decide _) as [Hfree|_].
  2:{ destruct (IH s2 HI2) as (new & H1 & H2 & H3 & H4 & H5 & H6 & H7).
      exists new. split; [done|]. split; [done|]. split; [done|].
      split; [done|]. split; [done|]. split; [lia|done]. }
  change (gridAt gridSize s2 x y = Some 0) in Hfree.
  assert (inb gridSize (x, y)) as Hin.
  { split; apply Qfloor_scale; try done; apply rand01. }
  assert ((x, y) ∉ map fst (foodPixels s2)) as Hnf.
  { intros Hf. destruct (inv_food _ _ _ _ _ HI2 _ Hf) as [_ Hg].
    change (gridAt gridSize s2 x y = Some (-1)) in Hg. congruence. }
  set (s3 := set_envEnergy (envEnergy s2 - c2 params)
               (toFood gridSize params s2 (x, y))).
  assert (Inv gridSize params s3) as HI3.
  { apply (Inv_view gridSize params (toFood gridSize params s2 (x, y)));
      [done|].
    eapply InvBut_weaken; [| |apply (InvBut_toFood_free gridSize params
                                       gridSize_pos _ _ s2 (x, y) HI2 Hin)];
      [done | by intros c [? _] | |done].
    intros o Ho. by apply (free_cell gridSize params _ _ s2 (x, y) 0 o HI2). }
  destruct (IH s3 HI3) as (new & H1 & H2 & H3 & H4 & H5 & H6 & H7).
  assert (forall c, c ∈ new -> c <> (x, y)) as Hne.
  { intros c Hc ->. destruct (H3 _ Hc) as [_ Hg].
    assert (gridAt gridSize s3 x y = Some (-1)) as Hg'.
    { apply (inv_food _ _ _ _ _ HI3 (x, y)). simpl.
      rewrite (keys_kset_notin fst ((x, y), foodDecayTicks params)) by done.
      apply elem_of_app. right. left. }
    simpl in Hg. congruence. }
  match goal with
  | |- context [spawnLoop gridSize params rand n ?t] => change t with s3
  end.
  exists ((x, y) :: new). split; [|split; [|split; [|split; [|split; [|split]]]]].
  - rewrite H1. simpl.
    rewrite (kset_new fst ((x, y), foodDecayTicks params)) by done.
    by rewrite <- app_assoc.
  - apply NoDup_cons. split; [|done]. intros Hc. by apply (Hne _ Hc).
  - intros c Hc. apply elem_of_cons in Hc as [->|Hc]; [done|].
    destruct (H3 c Hc) as [Hcb Hg]. split; [done|].
    rewrite <- Hg. symmetry.
    change (gridAt gridSize s3 c.1 c.2)
      with (gridAt gridSize
              (write_grid (cellIdx gridSize (x, y)) (-1) s2) c.1 c.2).
    rewrite (gridAt_write gridSize params gridSize_pos _ _ s2 (x, y) c (-1)
               HI2 Hin Hcb).
    rewrite decide_False; [done|]. by apply Hne.
  - by rewrite H4.
  - rewrite H5. simpl. rewrite Nat2Z.inj_succ. unfold Z.succ.
    rewrite inject_Z_plus. ring.
  - simpl. lia.
  - intros _. apply H7. simpl. lra.
Qed.
End SpawnFacts.

(** X23.  [spawnFood] on a consistent world, with [Math.random()] in
    [[0, 1)].  It turns cells that were empty into food: the new entries
    come after the old ones of the food registry, which are not touched,
    each with the timer [foodDecayTicks], on distinct cells of the grid
    whose code was 0 and is now -1.  The pool pays [c2] for each new food
    cell, there are at most [floor(envEnergy * foodSpawnRate / c2)] of
    them, a pool that was not negative stays so, and the organisms are not
    touched. *)
Theorem spawnFood_effect
    (gridSize : Z) (params : SimulationParams) (rand : nat -> Q)
    (s : Simulation) :
  0 < gridSize ->
  (forall n, (0 <= rand n)%Q /\ (rand n < 1)%Q) ->
  Inv gridSize params s ->
  let s' := spawnFood gridSize params rand s in
  exists new : list Cell,
    foodPixels s'
    = foodPixels s ++ map (fun c => (c, foodDecayTicks params)) new
    /\ NoDup new
    /\ (forall c, c ∈ new ->
          inb gridSize c /\ gridAt gridSize s c.1 c.2 = Some 0
          /\ gridAt gridSize s' c.1 c.2 = Some (-1))
    /\ organisms s' = organisms s
    /\ (envEnergy s'
        == envEnergy s - inject_Z (Z.of_nat (length new)) * c2 params)%Q
    /\ Z.of_nat (length new)
       <= Z.max 0 (Qfloor (envEnergy s * foodSpawnRate params / c2 params))
    /\ ((0 <= envEnergy s)%Q -> (0 <= envEnergy s')%Q).
Proof.
  intros Hpos Hrand HI. cbv zeta.
  pose proof (Inv_spawnFood gridSize params rand Hpos Hrand s HI) as HI'.
  unfold spawnFood in *. cbv zeta in *.
  destruct (spawnLoop_effect gridSize params rand Hpos Hrand
              (Z.to_nat (Qfloor (envEnergy s * foodSpawnRate params
                                 / c2 params))) s HI)
    as (new & H1 & H2 & H3 & H4 & H5 & H6 & H7).
  cbv zeta in H1, H4, H5, H7.
  exists new. split; [done|]. split; [done|]. split; [|split; [done|]].
  - intros c Hc. destruct (H3 c Hc) as [Hcb Hg]. split; [done|].
    split; [done|]. apply (inv_food _ _ _ _ _ HI' c). rewrite H1.
    rewrite map_app. apply elem_of_app. right. rewrite map_map. simpl.
    rewrite map_id. done.
  - split; [done|]. split; [lia|done].
Qed.

(** The parameters of the arena with a spawn rate of 1, under which the
    pool of the constructor pays for food. *)
Definition lushParams : SimulationParams :=
  {| c2 := c2 DEFAULT_PARAMS;
     foodSpawnRate := 1;
     mutationRate := mutationRate DEFAULT_PARAMS;
     reproductionThreshold := reproductionThreshold DEFAULT_PARAMS;
     maxMoveSpeed := maxMoveSpeed DEFAULT_PARAMS;
     viewRadiusParam := viewRadiusParam DEFAULT_PARAMS;
     energyTransferRatio := energyTransferRatio DEFAULT_PARAMS;
     metabolismRate := metabolismRate DEFAULT_PARAMS;
     movementEnergyReserve := movementEnergyReserve DEFAULT_PARAMS;
     movementEnergyCostMultiplier := movementEnergyCostMultiplier DEFAULT_PARAMS;
     growthEnergyCost := growthEnergyCost DEFAULT_PARAMS;
     foodDecayTicks := foodDecayTicks DEFAULT_PARAMS;
     foodDecayReturnRatio := foodDecayReturnRatio DEFAULT_PARAMS;
     attackEnergyCost := attackEnergyCost DEFAULT_PARAMS;
     absorbEnergyCost := absorbEnergyCost DEFAULT_PARAMS;
     boundaryMode := closed;
     movementEnergyCostExponent := 1 # 1;
     staminaMax := staminaMax DEFAULT_PARAMS;
     staminaRecoveryPerTick := staminaRecoveryPerTick DEFAULT_PARAMS;
     staminaDrainPerStep := staminaDrainPerStep DEFAULT_PARAMS;
     terrainEnabled := false;
     terrainObstacleDensity := terrainObstacleDensity DEFAULT_PARAMS;
     terrainSmoothingSteps := terrainSmoothingSteps DEFAULT_PARAMS |}.

Lemma spawnFood_effect_witness :
  foodPixels (spawnFood 10 lushParams halfRandom
                (newSimulation 10 lushParams halfRandom))
  = [((5, 5), 600)]
  /\ exists new : list Cell,
       NoDup new
       /\ (envEnergy (spawnFood 10 lushParams halfRandom
                        (newSimulation 10 lushParams halfRandom))
           == envEnergy (newSimulation 10 lushParams halfRandom)
              - inject_Z (Z.of_nat (length new)) * c2 lushParams)%Q.
Proof.
  split; [by vm_compute|].
  destruct (spawnFood_effect 10 lushParams halfRandom
              (newSimulation 10 lushParams halfRandom) ltac:(lia)
              halfRandom_unit
              (Inv_newSimulation 10 lushParams halfRandom ltac:(lia)
                 halfRandom_unit))
    as (new & _ & Hnd & _ & _ & He & _).
  exists new. split; [exact Hnd | exact He].
Defined.

(** ** The final synchronisation *)

(** X24.  [verifyAndSync] on a consistent world rebuilds the pixel sets
    from the grid and gives back the same sets: the registry keeps its
    organisms in order, each with its id and its eye, and as a set the
    cells of each organism are those it had.  On the grid it changes only
    orphan cells (cells whose code is positive and is the id of no
    registered organism), which become food. *)
Theorem verifyAndSync_keeps_cells
    (gridSize : Z) (params : SimulationParams) (s : Simulation) :
  0 < gridSize ->
  Inv gridSize params s ->
  let s' := verifyAndSync gridSize params s in
  map (fun o => (id o, eyeX o, eyeY o)) (organisms s')
  = map (fun o => (id o, eyeX o, eyeY o)) (organisms s)
  /\ (forall o o', o ∈ organisms s -> o' ∈ organisms s' -> id o' = id o ->
        forall c, c ∈ pix_keys o' <-> c ∈ pix_keys o)
  /\ (forall c, inb gridSize c ->
        gridAt gridSize s' c.1 c.2 = gridAt gridSize s c.1 c.2
        \/ (gridAt gridSize s' c.1 c.2 = Some (-1)
            /\ exists w, gridAt gridSize s c.1 c.2 = Some w /\ 0 < w
                         /\ w ∉ map id (organisms s))).
Proof.
  intros Hpos HI. cbv zeta.
  pose proof (Inv_verifyAndSync gridSize params Hpos s HI) as HI'.
  unfold verifyAndSync in *.
  set (s1 := set_organisms (map (set_pixels []) (organisms s)) s) in *.
  assert (map face (organisms s1) = map face (organisms s)) as Hfaces.
  { simpl. rewrite map_map. done. }
  assert (InvBut gridSize params (fun _ => True) (fun _ => True) s1) as HI1.
  { split; try apply HI.
    - rewrite (map_face_ids _ _ Hfaces). apply (inv_ids _ _ _ _ _ HI).
    - intros o' Ho'. simpl in Ho'.
      apply list_elem_of_fmap in Ho' as (o & -> & Ho).
      destruct (inv_orgs _ _ _ _ _ HI o Ho) as [H1 _ _].
      split; [done|apply NoDup_nil_2|]. intros c Hc.
      by apply elem_of_nil in Hc.
    - intros o' _ Hb. by destruct (Hb I).
    - intros c o _ Hst. by destruct (Hst I). }
  assert (synced gridSize s s1) as Hs1.
  { split; [done|]. intros c _. by left. }
  destruct (syncCell_fold gridSize params Hpos s (allCells gridSize) _ s1
              HI1 Hs1) as [_ [Hf Hg]].
  { intros c. apply elem_of_allCells. }
  set (s2 := fold_left (syncCell gridSize params) (allCells gridSize) s1) in *.
  split; [exact Hf|]. split; [|exact Hg].
  intros o o' Ho Ho' Hid c. split.
  - intros Hc.
    destruct (ok_cells _ _ _ (inv_orgs _ _ _ _ _ HI' o' Ho') c Hc) as [Hb Hgc].
    apply (inv_owner _ _ _ _ _ HI c o); try done; [tauto|].
    destruct (Hg c Hb) as [<-|(Hfood & _)]; [congruence|].
    pose proof (ok_id _ _ _ (inv_orgs _ _ _ _ _ HI' o' Ho')).
    rewrite Hfood in Hgc. injection Hgc as Hgc. lia.
  - intros Hc.
    destruct (ok_cells _ _ _ (inv_orgs _ _ _ _ _ HI o Ho) c Hc) as [Hb Hgc].
    apply (inv_owner _ _ _ _ _ HI' c o'); try done; [tauto|].
    destruct (Hg c Hb) as [->|(_ & w & Hw & _ & Hnot)]; [congruence|].
    destruct Hnot. apply list_elem_of_fmap. exists o.
    split; [congruence|done].
Qed.

Lemma verifyAndSync_keeps_cells_witness :
  map (fun o => (id o, eyeX o, eyeY o))
    (organisms (verifyAndSync 10 (arenaParams closed) armWorld))
  = [(1, 5, 9)].
Proof.
  destruct (verifyAndSync_keeps_cells 10 (arenaParams closed) armWorld
              ltac:(lia) armWorld_Inv) as [H _].
  rewrite H. reflexivity.
Defined.

(** ** Energy at the end of a tick *)

Section BirthFacts.
Variable gridSize : Z.
Variable params : SimulationParams.
Variable rand : nat -> Q.
Hypothesis gridSize_pos : 0 < gridSize.
Hypothesis threshold_pos : (0 < reproductionThreshold params)%Q.

(** What the loop of [reproduce] keeps, with the ids in [todo] still to
    visit: every organism has energy, and those still to visit have the
    energy that made them ready. *)
Definition funded (todo : list Z) (o : Organism) : Prop :=
  (0 < energy o)%Q
  /\ (id o ∈ todo -> (reproductionThreshold params <= energy o)%Q).

Definition birth_ok (todo : list Z) (s : Simulation) : Prop :=
  Inv gridSize params s
  /\ Forall (funded todo) (organisms s)
  /\ forall i, i ∈ todo -> i < nextID s.

Lemma birth_ok_rng todo s s' : rng_only s s' -> birth_ok todo s -> birth_ok todo s'.
Proof.
  intros Hr (HI & Hall & Hlt). pose proof Hr as [n ->].
  split; [|done]. apply (Inv_view gridSize params s); [by apply view_rng_only|done].
Qed.

Lemma bearChild_organisms parent child s :
  exists g : Organism -> Organism,
    (forall c, energy (g c) = energy c /\ id (g c) = id c)
    /\ organisms (bearChild params rand parent child s)
       = kupdate id (id child) g
           (kupdate id (id parent)
              (fun o =>
                 set_energy
                   (energy o - reproductionThreshold params * (6 # 10)) o)
              (organisms s))
    /\ nextID (bearChild params rand parent child s) = nextID s.
Proof.
  unfold bearChild. cbv zeta. unfold random. cbn [fst snd].
  destruct (Qltb _ (mutationRate params)); eexists; (split; [|split; reflexivity]);
    by intros c.
Qed.

Lemma birth_ok_tryOffsets todo org dirs s :
  birth_ok todo s -> org ∈ organisms s -> id org ∉ todo ->
  (reproductionThreshold params <= energy org)%Q ->
  birth_ok todo (tryOffsets gridSize params rand org dirs s).
Proof.
  intros Hok Horg Hnot Hthr. revert s Hok Horg.
  induction dirs as [|[dx dy] dirs IH]; intros s Hok Horg; simpl; [done|].
  destruct (applyBoundary _ _ _ _) as [[x y]|]; [|by apply IH].
  pose proof (mutateGenome_rng params rand (genome org) s) as R.
  destruct (mutateGenome params rand (genome org) s) as [g s1]. simpl in R.
  assert (birth_ok todo s1) as Hok1 by (by apply (birth_ok_rng todo s)).
  assert (org ∈ organisms s1) as Horg1 by (by destruct R as [n ->]).
  destruct (createOrganism gridSize params rand x y (Some g) _ s1)
    as [[child|] s2] eqn:Hc.
  2:{ apply createOrganism_None in Hc as [-> _]. by apply IH. }
  pose proof (Inv_createOrganism gridSize params rand gridSize_pos x y (Some g)
                (Some (reproductionThreshold params * (4 # 10))%Q) s1
                (proj1 Hok1)) as HI2.
  rewrite Hc in HI2. simpl in HI2.
  apply createOrganism_Some in Hc
      as (ex & ey & _ & _ & Hid & _ & _ & _ & _ & Hen & _ & _
          & _ & _ & Horgs & Hnext & _).
  destruct Hok1 as (HI1 & Hall1 & Hlt1).
  assert (id child ∉ todo) as Hfresh.
  { intros Hin. specialize (Hlt1 _ Hin). lia. }
  assert (id org <> id child) as Hne.
  { pose proof (ok_id _ _ _ (inv_orgs _ _ _ _ _ HI1 org Horg1)). lia. }
  assert (org ∈ organisms s2) as Horg2.
  { rewrite Horgs. apply elem_of_kset_old; [done|done]. }
  destruct (bearChild_organisms org child s2) as (f & Hf & Ho & Hn).
  split; [|split].
  - apply (Inv_view gridSize params s2); [apply view_bearChild | done].
  - rewrite Ho. apply Forall_kupdate.
    { intros e _ _ [He1 He2]. unfold funded. destruct (Hf e) as [-> ->].
      by split. }
    apply Forall_kupdate.
    { intros e He Hide _.
      assert (e = org) as ->.
      { by eapply (same_id_same_org gridSize params); [exact HI2|..]. }
      split; [simpl; lra|]. simpl. done. }
    rewrite Horgs. apply Forall_kset; [|done].
    split; [rewrite Hen; simpl; lra|done].
  - intros i Hi. rewrite Hn, Hnext. specialize (Hlt1 i Hi). lia.
Qed.

Lemma birth_ok_reproduceOne i todo s :
  i ∉ todo -> birth_ok (i :: todo) s ->
  birth_ok todo (reproduceOne gridSize params rand s i).
Proof.
  intros Hi (HI & Hall & Hlt).
  assert (birth_ok todo s) as Hok.
  { split; [done|]. split.
    - eapply Forall_impl; [exact Hall|]. intros o [H1 H2]. split; [done|].
      intros Hin. apply H2. by right.
    - intros j Hj. apply Hlt. by right. }
  unfold reproduceOne. destruct (get_org i s) as [org|] eqn:Hg; [|done].
  pose proof (get_org_in _ _ _ Hg) as Horg.
  pose proof (get_org_id _ _ _ Hg) as Hid.
  assert (reproductionThreshold params <= energy org)%Q as Hthr.
  { rewrite Forall_forall in Hall. apply (Hall org Horg). rewrite Hid. left. }
  pose proof (random_rng rand s) as R.
  destruct (random rand s) as [r s1]. simpl in R.
  assert (birth_ok todo s1) as Hok1 by (by apply (birth_ok_rng todo s)).
  destruct (Qltb _ r); [done|]. cbv zeta.
  match goal with
  | |- context [shuffle rand ?n ?l s1] =>
      pose proof (shuffle_rng rand n l s1) as R2;
      destruct (shuffle rand n l s1) as [sh s2]
  end.
  simpl in R2. apply birth_ok_tryOffsets.
  - by apply (birth_ok_rng todo s1).
  - destruct R as [n ->], R2 as [m ->]. done.
  - by rewrite Hid.
  - done.
Qed.

Lemma birth_ok_fold todo s :
  NoDup todo -> birth_ok todo s ->
  birth_ok [] (fold_left (reproduceOne gridSize params rand) todo s).
Proof.
  revert s. induction todo as [|i todo IH]; intros s Hnd Hok; simpl; [done|].
  apply NoDup_cons in Hnd as [Hi Hnd]. apply IH; [done|].
  by apply birth_ok_reproduceOne.
Qed.

Lemma reproduce_funded s :
  Inv gridSize params s ->
  Forall (fun o => (0 < energy o)%Q) (organisms s) ->
  Forall (fun o => (0 < energy o)%Q)
    (organisms (reproduce gridSize params rand s)).
Proof.
  intros HI Hall. unfold reproduce. cbv zeta.
  set (todo := map id (filter (fun org => ready params org = true) (organisms s))).
  destruct (birth_ok_fold todo s) as (_ & Hf & _).
  - unfold todo. eapply sublist_NoDup; [apply (inv_ids _ _ _ _ _ HI)|].
    apply fmap_sublist, sublist_filter.
  - split; [done|]. split.
    + rewrite Forall_forall in Hall. apply Forall_forall. intros o Ho.
      split; [by apply Hall|]. intros Hin. unfold todo in Hin.
      apply list_elem_of_fmap in Hin as (o2 & Hid & Ho2).
      apply list_elem_of_filter in Ho2 as [Hr Ho2].
      assert (o = o2) as <-.
      { by eapply (same_id_same_org gridSize params); [exact HI|..]. }
      unfold ready in Hr. apply andb_prop in Hr as [Hr _].
      by apply Qleb_true in Hr.
    + intros i Hi. unfold todo in Hi.
      apply list_elem_of_fmap in Hi as (o & -> & Ho).
      apply list_elem_of_filter in Ho as [_ Ho].
      apply (ok_id _ _ _ (inv_orgs _ _ _ _ _ HI o Ho)).
  - eapply Forall_impl; [exact Hf|]. by intros o [? _].
Qed.
End BirthFacts.

Lemma verifyAndSync_Forall gridSize params (P : Organism -> Prop) s :
  (forall p o, P o -> P (set_pixels p o)) ->
  Forall P (organisms s) ->
  Forall P (organisms (verifyAndSync gridSize params s)).
Proof.
  intros HP Hall. unfold verifyAndSync.
  apply (fold_left_preserves (fun s' => Forall P (organisms s'))).
  - intros a c Ha. unfold syncCell. cbv zeta.
    destruct (arr_get _ _) as [owner|]; [|done].
    destruct (0 <? owner); [|done].
    destruct (get_org owner a); [|done].
    apply Forall_kupdate; [|done]. intros o1 _ _. apply HP.
  - simpl. apply Forall_fmap. eapply Forall_impl; [exact Hall|].
    intros o. apply HP.
Qed.

(** X25.  With a positive reproduction threshold, no organism ends a tick
    without energy: every organism registered after [step] has positive
    energy.  [metabolism] removes those it leaves with none, a parent has at
    least the threshold when it gives birth and pays six tenths of it, the
    newborn gets four tenths, and the last two phases touch no energy. *)
Theorem survivors_have_energy
    (gridSize : Z) (params : SimulationParams) (rand : nat -> Q)
    (pow : Q -> Q -> Q) (s : Simulation) (o' : Organism) :
  0 < gridSize ->
  (forall n, (0 <= rand n)%Q /\ (rand n < 1)%Q) ->
  (0 < reproductionThreshold params)%Q ->
  Inv gridSize params s ->
  o' ∈ organisms (step gridSize params rand pow s) ->
  (0 < energy o')%Q.
Proof.
  intros Hpos Hrand Hthr HI Ho'. rewrite step_unfold in Ho'.
  set (s2 := moveOrganisms gridSize params pow
               (planDirections gridSize params rand (beginTick s)))
    in *.
  assert (Inv gridSize params s2) as HI2.
  { apply Inv_moveOrganisms; [done|].
    apply (Inv_view gridSize params (beginTick s));
      [apply view_planDirections|]. by apply (Inv_view gridSize params s). }
  unfold afterMove in Ho'. cbv zeta in Ho'.
  set (s4 := combat gridSize params rand (growAll gridSize params s2)) in *.
  assert (Inv gridSize params s4) as HI4
      by (by apply Inv_combat, Inv_growAll).
  set (s5 := if Z.rem (tick s4) 5 =? 0
             then spawnFood gridSize params rand s4 else s4) in *.
  assert (Inv gridSize params s5) as HI5.
  { unfold s5. destruct (_ =? 0); [by apply Inv_spawnFood|done]. }
  set (s6 := absorbFood gridSize params s5) in *.
  assert (Inv gridSize params s6) as HI6 by (by apply Inv_absorbFood).
  set (s7 := metabolism gridSize params s6) in *.
  assert (Inv gridSize params s7) as HI7 by (by apply Inv_metabolism).
  assert (Forall (fun o => (0 < energy o)%Q) (organisms s7)) as H7.
  { apply Forall_forall. intros o Ho.
    destruct (metabolism_facts gridSize params s6 Hpos HI6) as [_ H].
    by destruct (H o Ho) as [? _]. }
  pose proof (reproduce_funded gridSize params rand Hpos Hthr s7 HI7 H7) as H8.
  set (s8 := reproduce gridSize params rand s7) in *.
  assert (Forall (fun o => (0 < energy o)%Q)
            (organisms (updateFoodDecay gridSize params s8))) as H9
      by (by rewrite updateFoodDecay_organisms).
  pose proof (verifyAndSync_Forall gridSize params
                (fun o => (0 < energy o)%Q) _ ltac:(by intros p o) H9) as H10.
  rewrite Forall_forall in H10. by apply H10.
Qed.

Lemma survivors_have_energy_witness :
  exists o',
    get_org 1 (step 10 (arenaParams closed) halfRandom powLinear demoWorld)
    = Some o'
    /\ (0 < energy o')%Q.
Proof.
  destruct (get_org 1 (step 10 (arenaParams closed) halfRandom powLinear
                         demoWorld)) as [o'|] eqn:Hg;
    [|vm_compute in Hg; discriminate].
  exists o'. split; [reflexivity|].
  apply (survivors_have_energy 10 (arenaParams closed) halfRandom powLinear
           demoWorld o' ltac:(lia) halfRandom_unit ltac:(reflexivity)
           demoWorld_Inv (get_org_in _ _ _ Hg)).
Defined.

(** ** The choice of the target in combat *)

Section TargetFacts.
Variable gridSize : Z.
Variable params : SimulationParams.
Variable rand : nat -> Q.

(** What makes the cell [t.1] of the organism [t.2] a target of [org]. *)
Definition fair_target (org : Organism) (s : Simulation) (ns : list Cell)
    (t : Z * Z * Z) : Prop :=
  t.1 ∈ ns
  /\ gridAt gridSize s t.1.1 t.1.2 = Some t.2
  /\ t.2 <> id org
  /\ exists target,
       get_org t.2 s = Some target
       /\ speciesMask target <> speciesMask org
       /\ pix_size target <= pix_size org.

Lemma fair_target_rng org s s' ns t :
  rng_only s s' -> fair_target org s ns t -> fair_target org s' ns t.
Proof. by intros [n ->]. Qed.

Lemma scanNeighbor_fair org ns0 ns targets s :
  (forall n, n ∈ ns -> n ∈ ns0) ->
  Forall (fair_target org s ns0) targets ->
  let res := fold_left (scanNeighbor gridSize rand org) ns (targets, s) in
  rng_only s res.2 /\ Forall (fair_target org s ns0) res.1.
Proof.
  revert targets s. induction ns as [|n ns IH]; intros targets s Hsub Hall;
    cbv zeta; cbn [fold_left].
  { split; [apply rng_only_refl|done]. }
  assert (forall n', n' ∈ ns -> n' ∈ ns0) as Hsub'
      by (intros n' Hn'; apply Hsub; by right).
  assert (n ∈ ns0) as Hn by (apply Hsub; left).
  assert (forall targets' s',
            rng_only s s' -> Forall (fair_target org s ns0) targets' ->
            rng_only s (fold_left (scanNeighbor gridSize rand org) ns
                          (targets', s')).2
            /\ Forall (fair_target org s ns0)
                 (fold_left (scanNeighbor gridSize rand org) ns
                    (targets', s')).1) as Hnext.
  { intros targets' s' Hr Hall'.
    destruct (IH targets' s' Hsub') as [H1 H2].
    - eapply Forall_impl; [exact Hall'|]. intros t. by apply fair_target_rng.
    - cbv zeta in H1, H2. split; [by eapply rng_only_trans|].
      eapply Forall_impl; [exact H2|]. intros t.
      destruct Hr as [k ->]. done. }
  unfold scanNeighbor at 2 4. cbv zeta. cbn [fst snd].
  destruct (gridAt gridSize s n.1 n.2) as [tid|] eqn:Hg;
    [|by apply Hnext; [apply rng_only_refl|]].
  destruct ((tid <=? 0) || (tid =? id org)) eqn:Hskip;
    [by apply Hnext; [apply rng_only_refl|]|].
  apply orb_false_elim in Hskip as [_ Hself]. apply Z.eqb_neq in Hself.
  destruct (get_org tid s) as [target|] eqn:Ht;
    [|by apply Hnext; [apply rng_only_refl|]].
  destruct (Z.eqb_spec (speciesMask target) (speciesMask org)) as [_|Hsp];
    [by apply Hnext; [apply rng_only_refl|]|].
  assert (pix_size target <= pix_size org ->
          fair_target org s ns0 (n.1, n.2, tid)) as Hfair.
  { intros Hle. split; [by destruct n|]. split; [done|]. split; [done|].
    by exists target. }
  destruct (Z.eqb_spec (pix_size org) (pix_size target)) as [Heq|Hne].
  - unfold random. cbn [fst snd]. destruct (Qltb _ _).
    + apply Hnext; [by eexists|]. apply Forall_app. split; [done|].
      apply Forall_singleton, Hfair. lia.
    + apply Hnext; [by eexists|done].
  - destruct (Z.ltb_spec (pix_size target) (pix_size org)) as [Hlt|Hge].
    + apply Hnext; [apply rng_only_refl|]. apply Forall_app. split; [done|].
      apply Forall_singleton, Hfair. lia.
    + by apply Hnext; [apply rng_only_refl|].
Qed.
End TargetFacts.

(** X26.  An organism attacks only a neighbour of another species that is
    not larger than itself.  The turn of [org] in [combat] either changes
    nothing but the count of the random numbers drawn, or is one [attack]
    on a cell that is a neighbour of one of its cells and that the grid
    gives to another organism, registered, whose species mask differs from
    its own and which has no more cells than it has. *)
Theorem combat_target_is_fair
    (gridSize : Z) (params : SimulationParams) (rand : nat -> Q)
    (org : Organism) (s : Simulation) :
  rng_only s (combatOne gridSize params rand org s)
  \/ exists tx ty tid target s2,
       rng_only s s2
       /\ combatOne gridSize params rand org s
          = attack gridSize params org tx ty tid s2
       /\ (exists k, k ∈ pix_keys org
                     /\ (tx, ty) ∈ neighbors8 gridSize params k.1 k.2)
       /\ gridAt gridSize s tx ty = Some tid
       /\ tid <> id org
       /\ get_org tid s = Some target
       /\ speciesMask target <> speciesMask org
       /\ pix_size target <= pix_size org.
Proof.
  unfold combatOne.
  set (ns := flat_map (fun k => neighbors8 gridSize params k.1 k.2)
               (pix_keys org)).
  destruct (scanNeighbor_fair gridSize rand org ns ns [] s ltac:(done)
              ltac:(constructor)) as [Hr Hall].
  destruct (fold_left _ ns ([], s)) as [targets s1]. cbn [fst snd] in *.
  destruct targets as [|t0 targets]; [by left|].
  set (ts := t0 :: targets) in *.
  unfold random. cbn [fst snd].
  destruct (ts !! _) as [[[tx ty] tid]|] eqn:Hl.
  - right. apply list_elem_of_lookup_2 in Hl.
    rewrite Forall_forall in Hall.
    destruct (Hall _ Hl) as (Hn & Hg & Hself & target & Ht & Hsp & Hsz).
    cbn [fst snd] in *.
    exists tx, ty, tid, target, (set_rngCalls (S (rngCalls s1)) s1).
    split; [eapply rng_only_trans; [exact Hr|by eexists]|].
    split; [done|]. split; [|done].
    unfold ns in Hn. apply elem_of_flat_map in Hn as (k & Hk & Hn).
    by exists k.
  - left. eapply rng_only_trans; [exact Hr|by eexists].
Qed.

(** ** Absorbing food *)

(** X27.  The turn of an organism in [absorbFood], on a consistent world,
    either changes nothing, or works on exactly one cell: a food cell (code
    -1) next to one of the cells of the organism, and only if a positive
    fee leaves the organism with energy.  The cell loses one hit-point.  If
    none is left the cell becomes empty and leaves the food registry;
    otherwise it stays food.  No other cell of the grid and no other entry
    of the food registry is touched. *)
Theorem absorbOne_effect
    (gridSize : Z) (params : SimulationParams) (org : Organism)
    (s : Simulation) :
  0 < gridSize ->
  Inv gridSize params s ->
  let s' := absorbOne gridSize params org s in
  s' = s
  \/ exists n,
       (exists k, k ∈ pix_keys org /\ n ∈ neighbors8 gridSize params k.1 k.2)
       /\ gridAt gridSize s n.1 n.2 = Some (-1)
       /\ ~ ((0 < absorbEnergyCost params)%Q
             /\ (energy org - absorbEnergyCost params <= 0)%Q)
       /\ hpAt s' (idx gridSize n.1 n.2)
          = toUint16 (Z.max 0 (hpAt s (idx gridSize n.1 n.2) - 1))
       /\ (hpAt s' (idx gridSize n.1 n.2) = 0 ->
           gridAt gridSize s' n.1 n.2 = Some 0
           /\ n ∉ map fst (foodPixels s'))
       /\ (hpAt s' (idx gridSize n.1 n.2) <> 0 ->
           gridAt gridSize s' n.1 n.2 = Some (-1)
           /\ foodPixels s' = foodPixels s)
       /\ (forall c, inb gridSize c -> c <> n ->
             gridAt gridSize s' c.1 c.2 = gridAt gridSize s c.1 c.2)
       /\ (forall k, k <> n ->
             kget fst k (foodPixels s') = kget fst k (foodPixels s)).
Proof.
  intros Hpos HI. cbv zeta. unfold absorbOne.
  destruct (firstSome _ _) as [n|] eqn:Hf; [|by left]. right.
  apply firstSome_Some in Hf as (a & Ha & Hc).
  unfold absorbCandidate in Hc.
  destruct (bool_decide _) eqn:Hfood; [|done].
  apply bool_decide_eq_true in Hfood.
  destruct (_ && _) eqn:Hfee; [done|]. injection Hc as ->.
  apply elem_of_flat_map in Ha as (k & Hk & Hn).
  assert (inb gridSize n) as Hin
      by (by apply (adj_inb gridSize params Hpos k)).
  pose proof (cellIdx_range gridSize Hpos n Hin) as Hr. unfold cellIdx in Hr.
  exists n. split; [by exists k|]. split; [done|]. split.
  { intros [H1 H2]. apply andb_false_iff in Hfee as [Hfee|Hfee].
    - apply Qltb_false in Hfee. lra.
    - apply Qleb_false in Hfee. lra. }
  unfold absorbAt. cbv zeta.
  set (ni := idx gridSize n.1 n.2) in *.
  set (s1 := payFee (absorbEnergyCost params) (id org) s).
  assert (grid s1 = grid s /\ pixelHP s1 = pixelHP s
          /\ foodPixels s1 = foodPixels s) as (G1 & G2 & G3).
  { unfold s1, payFee. by destruct (Qltb _ _). }
  set (s2 := strike ni s1).
  assert (hpAt s2 ni = toUint16 (Z.max 0 (hpAt s ni - 1))) as Hhp.
  { unfold s2, strike, hpAt. simpl. rewrite G2.
    rewrite arr_get_set_eq; [done|].
    rewrite (inv_hp_len _ _ _ _ _ HI). lia. }
  assert (forall c, inb gridSize c -> c <> n ->
            idx gridSize c.1 c.2 <> ni) as Hother.
  { intros c Hc Hne Heq. apply Hne.
    by apply (idx_inj gridSize Hpos). }
  destruct (hpAt s2 ni =? 0) eqn:Hz.
  - apply Z.eqb_eq in Hz.
    assert (hpAt (set_foodPixels
                    (kdelete fst n
                       (foodPixels
                          (write_grid ni 0 (creditActor params (id org) s2))))
                    (write_grid ni 0 (creditActor params (id org) s2))) ni
            = hpAt s2 ni) as Hsame by reflexivity.
    rewrite Hsame, <- Hhp. split; [done|]. split; [|split; [done|split]].
    + intros _. split.
      * unfold gridAt. simpl. fold ni. rewrite G1. apply arr_get_set_eq.
        rewrite (inv_grid_len _ _ _ _ _ HI). lia.
      * simpl. rewrite keys_kdelete. intros Hk'.
        apply list_elem_of_filter in Hk' as [Hne _]. done.
    + intros c Hc Hne. unfold gridAt. simpl. rewrite G1.
      apply arr_get_set_ne. intros Heq. by apply (Hother c Hc Hne).
    + intros k' Hne. simpl. rewrite G3. by apply kget_kdelete_ne.
  - apply Z.eqb_neq in Hz. rewrite <- Hhp.
    split; [done|]. split; [done|]. split; [|split].
    + intros _. split; [|done]. unfold gridAt. simpl. by rewrite G1.
    + intros c Hc Hne. unfold gridAt. simpl. by rewrite G1.
    + intros k' Hne. simpl. by rewrite G3.
Qed.

(** A world with an organism at (4,4) and a food cell at (5,5), which
    [spawnFood] puts there under the spawn rate 1. *)
Definition pondWorld : Simulation :=
  spawnFood 10 lushParams halfRandom
    (createOrganism 10 lushParams halfRandom 4 4 (Some singleCell) None
       (newSimulation 10 lushParams halfRandom)).2.

Lemma pondWorld_Inv : Inv 10 lushParams pondWorld.
Proof.
  apply Inv_spawnFood; [lia|apply halfRandom_unit|].
  apply Inv_createOrganism; [lia|].
  apply Inv_newSimulation; [lia|apply halfRandom_unit].
Qed.

Lemma absorbOne_effect_witness :
  exists o n,
    get_org 1 pondWorld = Some o
    /\ gridAt 10 pondWorld n.1 n.2 = Some (-1)
    /\ gridAt 10 (absorbOne 10 lushParams o pondWorld) 5 5 = Some 0.
Proof.
  destruct (get_org 1 pondWorld) as [o|] eqn:Hg;
    [|vm_compute in Hg; discriminate].
  assert (gridAt 10 (absorbOne 10 lushParams o pondWorld) 5 5 = Some 0
          /\ gridAt 10 pondWorld 5 5 = Some (-1)) as [Hnew Hold].
  { vm_compute in Hg. injection Hg as <-. split; by vm_compute. }
  destruct (absorbOne_effect 10 lushParams o pondWorld ltac:(lia)
              pondWorld_Inv) as [H|(n & _ & Hfood & _)].
  - rewrite H in Hnew. rewrite Hold in Hnew. discriminate Hnew.
  - exists o, n. split; [reflexivity|]. split; [exact Hfood | exact Hnew].
Defined.
